(** * SimpleBattles: a shallow embedding of [Battle.py]

    The development follows the layout of the Python module: one Rocq
    [Module] per class ([UnitType], [Unit], [Army], [FightPairs], [Battle]).

    Modelling conventions.
    - A Python [float] is read as an exact rational ([Q]): every float is a
      rational number, and [+], [-], [*], [/], [abs], [min], [max] and the
      comparisons are taken without rounding error.  [round(x, 3)] is
      round-half-to-even on [1000 * x].
    - [math.log] and [**] are not rational functions.  They are reached
      through the interface [MathLib]: the simulation uses an instance over
      [Q] whose two functions stand for the floating-point library, the
      algebraic statements use the instance over [R] (exact arithmetic).
      Where rounding decides a statement, the instance over the kernel's
      binary64 floats evaluates the arithmetic around [math.log].
    - Python objects that are mutated through several references ([Unit])
      live in a store; a reference is an index into it.  Dictionaries are
      association lists in insertion order, as [dict] iterates.
    - A raised exception is a value of [exn]; code that may raise returns
      [result]. *)

From Stdlib Require Import ZArith QArith Qabs Qminmax Qround Lia Lqa.
From Stdlib Require Import List Bool String Permutation.
From Stdlib Require Import Reals Lra Qreals.
From Stdlib Require Import Sorted.
From Stdlib Require PrimFloat Uint63.
Import ListNotations.

Open Scope list_scope.
Open Scope Q_scope.

(* ------------------------------------------------------------------ *)
(** * Exceptions *)

Inductive exn : Set :=
| KeyError | ValueError | TypeError | AssertionError | ZeroDivisionError.

Inductive result (A : Type) : Type :=
| Ok (a : A)
| Raise (e : exn).
Arguments Ok {A} a.
Arguments Raise {A} e.

Definition bind {A B} (m : result A) (k : A -> result B) : result B :=
  match m with
  | Ok a => k a
  | Raise e => Raise e
  end.

Notation "x <- m ;; k" := (bind m (fun x => k))
  (at level 61, m at next level, right associativity).
Notation "m ;;; k" := (bind m (fun _ => k))
  (at level 61, right associativity).

Definition assert (b : bool) : result unit :=
  if b then Ok tt else Raise AssertionError.

(** [for x in xs: body] over a threaded state. *)
Fixpoint for_each {X S} (xs : list X) (body : X -> S -> result S) (s : S)
  : result S :=
  match xs with
  | [] => Ok s
  | x :: rest => s' <- body x s ;; for_each rest body s'
  end.

(* ------------------------------------------------------------------ *)
(** * Floats as rationals *)

Definition Qleb (x y : Q) : bool := Qle_bool x y.
Definition Qltb (x y : Q) : bool := negb (Qle_bool y x).
Definition Qeqb (x y : Q) : bool := Qeq_bool x y.

Fixpoint pow10 (n : nat) : positive :=
  match n with
  | O => 1%positive
  | S k => (10 * pow10 k)%positive
  end.

(** Nearest integer, ties to the even one. *)
Definition round_half_even (q : Q) : Z :=
  let f := Qfloor q in
  match Qcompare (q - inject_Z f) (1 # 2) with
  | Lt => f
  | Gt => (f + 1)%Z
  | Eq => if Z.even f then f else (f + 1)%Z
  end.

(** Python's [round(x, ndigits)]. *)
Definition py_round (x : Q) (ndigits : nat) : Q :=
  round_half_even (x * inject_Z (Zpos (pow10 ndigits))) # pow10 ndigits.

(* ------------------------------------------------------------------ *)
(** * Module-level constants *)

Definition POS_DEC_DIG : nat := 3.

Definition RESERVE_DIST_BEHIND : Q := 2.
Definition MIN_DEPLOY_DIST : Q := 1.
Definition SIDE_RANGE_PENALTY : Q := 0.5.

Definition BASE_SPEED : Q := 20.
Definition CHARGE_DISTANCE : Q := 2.
Definition HALT_POWER_GRADIENT : Q := 20.

Definition POWER_SCALE : Q := 50.
Definition LOW_MORALE_POWER : Q := 200.
Definition TERRAIN_POWER : Q := 300.
Definition HEIGHT_DIF_POWER : Q := 20.
Definition RESERVES_POWER : Q := 1 / 6.
Definition RESERVES_SOFT_CAP : Q := 500.

Definition PURSUE_MORALE : Q := -0.25.
Definition FILE_EMPTY : Q := 0.
Definition FILE_SUPPORTED : Q := 0.1.
Definition FILE_VULNERABLE : Q := -0.2.

Inductive BattleOutcome : Set := BOTH_LOST | WIN_1 | WIN_2 | STALEMATE.

Module Stance.
Inductive t : Set := AGGR | NEUT | DEFN.

Definition value (s : t) : Z :=
  match s with AGGR => 0 | NEUT => 1 | DEFN => 2 end%Z.

Definition eqb (a b : t) : bool := (value a =? value b)%Z.

(** [min(a, b)] on the [IntEnum]: the first argument wins a tie. *)
Definition min (a b : t) : t :=
  if (value b <? value a)%Z then b else a.
End Stance.

(** Modelled from the spec: the landscape collaborator ([Geography.Landscape])
    is not part of the sources; the spec gives it four queries keyed by
    (file, position): height, the roughness of the terrain descriptor, mean
    scaled roughness for a desired smoothness, and mean cover. *)
Module Landscape.
Record t : Type := mk {
  get_height : Z -> Q -> Q;
  get_roughness : Z -> Q -> Q;
  get_mean_scaled_roughness : Z -> Q -> Q -> Q;
  get_mean_cover : Z -> Q -> Q
}.
End Landscape.

(* ------------------------------------------------------------------ *)
(** * UnitType *)

Module UnitType.
Record t : Type := mk {
  name : string;
  power : Q;
  rigidity : Q;
  speed : Q;
  att_range : Q
}.

(** The attrs validators: [gt(-1)], [gt(0)], [ge(1)].  The fields range
    over the rationals: [float('inf')], which passes [gt] and [ge] as
    well, has no counterpart here, and statements about validated types
    are statements about types with finite numbers. *)
Definition validate (ut : t) : bool :=
  Qltb (-1) (rigidity ut) && Qltb 0 (speed ut) && Qleb 1 (att_range ut).

(** Construction runs the validators and raises [ValueError]. *)
Definition make (n : string) (p r s a : Q) : result t :=
  let ut := mk n p r s a in
  if validate ut then Ok ut else Raise ValueError.

Definition smoothness_desire (ut : t) : Q :=
  rigidity ut + (speed ut - 1).
End UnitType.

(* ------------------------------------------------------------------ *)
(** * Unit *)

Module Unit.
Record t : Type := mk {
  unit_type : UnitType.t;
  stance : Stance.t;
  file : Z;
  init_pos : Q;
  position : Q;
  morale : Q;
  halted : bool;
  pursuing : bool
}.

(** Class attribute: [0.5 * (0.1 ** POS_DEC_DIG)]. *)
Definition EPS : Q := 0.5 * (1 # pow10 POS_DEC_DIG).

(** [Unit(unit_type, stance, file)] with the attrs defaults. *)
Definition new (ut : UnitType.t) (s : Stance.t) (f : Z) : t :=
  mk ut s f 0 0 1 false false.

Definition set_stance (u : t) (s : Stance.t) : t :=
  mk (unit_type u) s (file u) (init_pos u) (position u) (morale u)
     (halted u) (pursuing u).
Definition set_file (u : t) (f : Z) : t :=
  mk (unit_type u) (stance u) f (init_pos u) (position u) (morale u)
     (halted u) (pursuing u).
Definition set_init_pos (u : t) (p : Q) : t :=
  mk (unit_type u) (stance u) (file u) p (position u) (morale u)
     (halted u) (pursuing u).
Definition set_position (u : t) (p : Q) : t :=
  mk (unit_type u) (stance u) (file u) (init_pos u) p (morale u)
     (halted u) (pursuing u).
Definition set_morale (u : t) (m : Q) : t :=
  mk (unit_type u) (stance u) (file u) (init_pos u) (position u) m
     (halted u) (pursuing u).
Definition set_halted (u : t) (h : bool) : t :=
  mk (unit_type u) (stance u) (file u) (init_pos u) (position u) (morale u)
     h (pursuing u).
Definition set_pursuing (u : t) (p : bool) : t :=
  mk (unit_type u) (stance u) (file u) (init_pos u) (position u) (morale u)
     (halted u) p.

(** ** Attributes *)

Definition power (u : t) : Q := UnitType.power (unit_type u).
Definition speed (u : t) : Q := UnitType.speed (unit_type u).
Definition rigidity (u : t) : Q := UnitType.rigidity (unit_type u).
Definition att_range (u : t) : Q := UnitType.att_range (unit_type u).
Definition smoothness_desire (u : t) : Q :=
  UnitType.smoothness_desire (unit_type u).

Definition moving_to_pos (u : t) : bool := Qltb (init_pos u) 0.
Definition moving_to_neg (u : t) : bool := Qltb 0 (init_pos u).
Definition at_home (u : t) : bool := Qeqb (position u) (init_pos u).
Definition at_end (u : t) : bool := Qeqb (position u) (- init_pos u).

Definition get_dist_to (u : t) (pos : Q) : Q := Qabs (position u - pos).

(** ** Queries *)

Definition is_in_front (u v : t) : bool := (file u =? file v)%Z.

Definition get_eff_range_against (u v : t) : Q :=
  if is_in_front u v then att_range u else att_range u - SIDE_RANGE_PENALTY.

(** [file] is an [int] in every unit this module builds, so the
    [is None] guard of the source never fires. *)
Definition is_in_range_of (u v : t) : bool :=
  Qleb (get_dist_to u (position v)) (get_eff_range_against u v + EPS).

Definition get_position_to_attack_target (u v : t) : Q :=
  let eff_range := get_eff_range_against u v - EPS in
  if Qltb (position u) (position v - eff_range) then position v - eff_range
  else if Qltb (position v + eff_range) (position u)
       then position v + eff_range
       else position u.

Definition get_signed_distance_to_unit (u v : t) : Q :=
  let dist := position v - position u in
  if moving_to_pos u then dist else - dist.

Definition get_height (u : t) (l : Landscape.t) : Q :=
  Landscape.get_height l (file u) (position u).

Definition get_eff_speed (u : t) (l : Landscape.t) : Q :=
  speed u * (1 - Landscape.get_roughness l (file u) (position u)).

Definition get_power_from_terrain (u : t) (l : Landscape.t) : Q :=
  let rghn :=
    Landscape.get_mean_scaled_roughness l (file u) (position u)
      (smoothness_desire u) in
  rghn * TERRAIN_POWER + get_height u l * HEIGHT_DIF_POWER.

Definition is_charge_range_of (u : t) (target_pos : Q) : bool :=
  Qltb (get_dist_to u target_pos) (speed u * CHARGE_DISTANCE).

(** ** Basic setters *)

Definition set_up (u : t) (ip : Q) : t :=
  let u1 := set_init_pos u ip in
  set_position u1 (ip + EPS * (if moving_to_pos u1 then 1 else -1)).

(** The clamp and the rounding are exact.  The interval and the fixed
    points are the same in binary64; the distance between a position and
    its rounding is at most [EPS] here and can exceed the float [EPS] by a
    rounding error there. *)
Definition cap_position (u : t) : t :=
  let u1 :=
    set_position u
      (Qmax (- Qabs (init_pos u)) (Qmin (position u) (Qabs (init_pos u)))) in
  set_position u1 (py_round (position u1) POS_DEC_DIG).

Definition move_by (u : t) (dist : Q) : t :=
  cap_position (set_position u (position u + dist)).

Definition move_to (u : t) (pos : Q) : t :=
  cap_position (set_position u pos).

(** ** Complex movement *)

Definition confirm_move (u : t) (gradient old_pos old_lag new_lag : Q) : t :=
  if Qltb (get_dist_to u (init_pos u)) MIN_DEPLOY_DIST then
    set_halted u false
  else if Qltb old_lag 1 && Qleb 1 new_lag then
    set_halted (set_position u old_pos) true
  else
    let new_lag := Qmin new_lag (1 - EPS) in
    let gradient :=
      gradient * (if Qltb old_lag new_lag then 1 / (1 - new_lag) else 1) in
    if Qltb HALT_POWER_GRADIENT gradient then
      set_halted (set_position u old_pos) true
    else if negb (Qeqb (position u) old_pos) then
      set_halted u false
    else u.

Section Movement.
(** [Config.DELTA_T]: the configuration module is not part of the
    sources, the tick length is a parameter. *)
Variable DELTA_T : Q.

Definition move_towards (u : t) (target speed : Q) : t :=
  if Qltb (position u) target then
    move_to u (Qmin (position u + speed * BASE_SPEED * DELTA_T) target)
  else if Qltb target (position u) then
    move_to u (Qmax (position u - speed * BASE_SPEED * DELTA_T) target)
  else u.
End Movement.

(** [init_pos -/+ MIN_DEPLOY_DIST] and the distance from home are exact;
    in binary64 the distance of a unit deployed at that point can fall
    short of [MIN_DEPLOY_DIST] by a rounding error. *)
Definition deploy_close_to (u : t) (f : Z) (ref_pos : Q) : t :=
  let u1 := set_file u f in
  let pos :=
    if moving_to_pos u1
    then Qmax (ref_pos - RESERVE_DIST_BEHIND) (init_pos u1 + MIN_DEPLOY_DIST)
    else Qmin (ref_pos + RESERVE_DIST_BEHIND) (init_pos u1 - MIN_DEPLOY_DIST)
  in
  move_to u1 pos.

Definition move_safely_away_from_pos (u : t) (ref_pos : Q) : t :=
  if Qltb (position u) (ref_pos + 1) && moving_to_neg u then
    move_to u (ref_pos + 1)
  else if Qltb (ref_pos - 1) (position u) && moving_to_pos u then
    move_to u (ref_pos - 1)
  else u.

(** ** The position invariant *)

Definition rounded (x : Q) : Prop := py_round x POS_DEC_DIG == x.

Definition in_bounds (u : t) : Prop :=
  - Qabs (init_pos u) <= position u /\ position u <= Qabs (init_pos u).

Definition position_ok (u : t) : Prop :=
  in_bounds u /\ rounded (position u).

(** The two outcomes of [confirm_move]. *)
Definition keeps_move (u : t) : t := set_halted u false.
Definition rolls_back (u : t) (old_pos : Q) : t :=
  set_halted (set_position u old_pos) true.

(** The reading of [confirm_move] given by the specification text: the
    gradient is scaled "when lag increased", with the cap applied to the
    scale factor only. *)
Definition confirm_move_spec (u : t) (gradient old_pos old_lag new_lag : Q)
  : t :=
  if Qltb (get_dist_to u (init_pos u)) MIN_DEPLOY_DIST then
    set_halted u false
  else if Qltb old_lag 1 && Qleb 1 new_lag then
    set_halted (set_position u old_pos) true
  else
    let scaled :=
      if Qltb old_lag new_lag
      then gradient * (1 / (1 - Qmin new_lag (1 - EPS)))
      else gradient in
    if Qltb HALT_POWER_GRADIENT scaled then
      set_halted (set_position u old_pos) true
    else if negb (Qeqb (position u) old_pos) then
      set_halted u false
    else u.
End Unit.

(* ------------------------------------------------------------------ *)
(** * Dictionaries and the object store *)

(** A [dict] is an association list in insertion order. *)
Section Dict.
Context {K V : Type}.
Variable key_eqb : K -> K -> bool.

Fixpoint dict_get (k : K) (d : list (K * V)) : option V :=
  match d with
  | [] => None
  | (k', v) :: rest => if key_eqb k k' then Some v else dict_get k rest
  end.

Definition dict_mem (k : K) (d : list (K * V)) : bool :=
  match dict_get k d with Some _ => true | None => false end.

(** [d[k]]. *)
Definition dict_getitem (k : K) (d : list (K * V)) : result V :=
  match dict_get k d with Some v => Ok v | None => Raise KeyError end.

(** [d[k] = v]: an existing key keeps its place, a new one goes last. *)
Fixpoint dict_set (k : K) (v : V) (d : list (K * V)) : list (K * V) :=
  match d with
  | [] => [(k, v)]
  | (k', v') :: rest =>
      if key_eqb k k' then (k', v) :: rest
      else (k', v') :: dict_set k v rest
  end.

(** [del d[k]], for a key that is present. *)
Fixpoint dict_del (k : K) (d : list (K * V)) : list (K * V) :=
  match d with
  | [] => []
  | (k', v') :: rest =>
      if key_eqb k k' then rest else (k', v') :: dict_del k rest
  end.

Definition dict_keys (d : list (K * V)) : list K := map fst d.
Definition dict_values (d : list (K * V)) : list V := map snd d.
End Dict.

(** A reference to a [Unit] object: the index of the object in the store. *)
Definition ref : Set := nat.

Definition store : Type := list Unit.t.

Definition null_unit : Unit.t :=
  Unit.new (UnitType.mk EmptyString 0 0 1 1) Stance.NEUT 0.

(** Every reference the program holds comes from [alloc] and is valid; the
    default only makes the lookup total. *)
Definition deref (h : store) (r : ref) : Unit.t := nth r h null_unit.

(** In-place mutation of the object behind [r]. *)
Fixpoint modify (h : store) (r : ref) (f : Unit.t -> Unit.t) : store :=
  match h, r with
  | [], _ => []
  | u :: rest, O => f u :: rest
  | u :: rest, S r' => u :: modify rest r' f
  end.

Definition alloc (h : store) (u : Unit.t) : store * ref :=
  (h ++ [u], List.length h).

Fixpoint mem_ref (r : ref) (l : list ref) : bool :=
  match l with
  | [] => false
  | x :: rest => Nat.eqb r x || mem_ref r rest
  end.

Fixpoint remove_ref (r : ref) (l : list ref) : list ref :=
  match l with
  | [] => []
  | x :: rest => if Nat.eqb r x then rest else x :: remove_ref r rest
  end.

(** [min(xs, key=key)]: the first element with the least key. *)
Fixpoint min_by {X} (key : X -> Q) (xs : list X) : option X :=
  match xs with
  | [] => None
  | x :: rest =>
      match min_by key rest with
      | None => Some x
      | Some y => if Qltb (key y) (key x) then Some y else Some x
      end
  end.

Fixpoint Qlist_min (x : Q) (xs : list Q) : Q :=
  match xs with
  | [] => x
  | y :: rest => Qlist_min (if Qltb y x then y else x) rest
  end.

Fixpoint Qlist_max (x : Q) (xs : list Q) : Q :=
  match xs with
  | [] => x
  | y :: rest => Qlist_max (if Qltb x y then y else x) rest
  end.

(** [sum(xs)]: from [0], left to right. *)
Definition Qsum (xs : list Q) : Q := fold_left Qplus xs 0.

(** Insertion into a list sorted by [lt]; equal keys keep their order. *)
Fixpoint insert_sorted {X} (lt : X -> X -> bool) (x : X) (l : list X)
  : list X :=
  match l with
  | [] => [x]
  | y :: rest => if lt y x then y :: insert_sorted lt x rest
                 else x :: y :: rest
  end.

(** [sorted(l)] as a stable sort. *)
Definition sorted_by {X} (lt : X -> X -> bool) (l : list X) : list X :=
  fold_right (insert_sorted lt) [] l.

(** Comparison of tuples of numbers: the first position where the tuples
    differ decides. *)
Fixpoint lex_compare (a b : list Q) : comparison :=
  match a, b with
  | [], [] => Eq
  | [], _ :: _ => Lt
  | _ :: _, [] => Gt
  | x :: a', y :: b' =>
      match Qcompare x y with
      | Eq => lex_compare a' b'
      | c => c
      end
  end.

(** [x / y] on floats. *)
Definition py_div (x y : Q) : result Q :=
  if Qeqb y 0 then Raise ZeroDivisionError else Ok (x / y).

(* ------------------------------------------------------------------ *)
(** * The mathematics library *)

(** [math.log] and [**], with the arithmetic needed around them.  [log]
    raises [ValueError] outside its domain, [pow] raises
    [ZeroDivisionError] for [0.0 ** negative]. *)
Class MathLib (F : Type) : Type := {
  of_Q : Q -> F;
  fadd : F -> F -> F;
  fsub : F -> F -> F;
  fmul : F -> F -> F;
  fdiv : F -> F -> F;
  log : F -> result F;
  pow : F -> F -> result F
}.

(** The floating-point library: [float_log] and [float_pow] are the values
    the C library returns.  A negative base does not occur: the bases in
    this module are [2.0] and [max(0, m)]. *)
Definition FloatLib (float_log : Q -> Q) (float_pow : Q -> Q -> Q)
  : MathLib Q := {|
  of_Q := fun x => x;
  fadd := Qplus;
  fsub := Qminus;
  fmul := Qmult;
  fdiv := Qdiv;
  log := fun x => if Qltb 0 x then Ok (float_log x) else Raise ValueError;
  pow := fun b e =>
    if Qeqb b 0 && Qltb e 0 then Raise ZeroDivisionError
    else Ok (float_pow b e)
|}.

(** Exact arithmetic.  The negative-base branch is never reached (see
    [FloatLib]); it is closed with [ValueError]. *)
Definition ExactLib : MathLib R := {|
  of_Q := Q2R;
  fadd := Rplus;
  fsub := Rminus;
  fmul := Rmult;
  fdiv := Rdiv;
  log := fun x => if Rlt_dec 0 x then Ok (ln x) else Raise ValueError;
  pow := fun b e =>
    if Rlt_dec 0 b then Ok (Rpower b e)
    else if Req_dec_T b 0 then
      if Rlt_dec 0 e then Ok 0%R
      else if Req_dec_T e 0 then Ok 1%R
      else Raise ZeroDivisionError
    else Raise ValueError
|}.

(** Binary64 arithmetic on the kernel's floats.  [of_Q] divides the
    numerator by the denominator: when both are below [2^53] they are
    floats themselves and the quotient is the float nearest to the
    rational, which is how Python reads a literal such as [1/6] or [500].
    [float_log] and [float_pow] are the values the C library returns;
    [math.log] raises [ValueError] on [x <= 0] and passes a NaN on. *)
Definition float_of_Z (z : Z) : PrimFloat.float :=
  match z with
  | Z0 => PrimFloat.zero
  | Zpos p => PrimFloat.of_uint63 (Uint63.of_Z (Zpos p))
  | Zneg p => PrimFloat.opp (PrimFloat.of_uint63 (Uint63.of_Z (Zpos p)))
  end.

Definition float_of_Q (q : Q) : PrimFloat.float :=
  PrimFloat.div (float_of_Z (Qnum q)) (float_of_Z (Zpos (Qden q))).

Definition Binary64Lib (float_log : PrimFloat.float -> PrimFloat.float)
    (float_pow : PrimFloat.float -> PrimFloat.float -> PrimFloat.float)
  : MathLib PrimFloat.float := {|
  of_Q := float_of_Q;
  fadd := PrimFloat.add;
  fsub := PrimFloat.sub;
  fmul := PrimFloat.mul;
  fdiv := PrimFloat.div;
  log := fun x =>
    if PrimFloat.leb x PrimFloat.zero then Raise ValueError
    else Ok (float_log x);
  pow := fun b e =>
    if PrimFloat.eqb b PrimFloat.zero && PrimFloat.ltb e PrimFloat.zero
    then Raise ZeroDivisionError
    else Ok (float_pow b e)
|}.

(* ------------------------------------------------------------------ *)
(** * Army *)

Module Army.
Record t : Type := mk {
  name : string;
  stance : Stance.t;
  color : string;
  file_units : list (Z * ref);
  reserves : list ref;
  removed : list ref
}.

(** [Army(name, stance, color)]. *)
Definition new (n : string) (s : Stance.t) (c : string) : t :=
  mk n s c [] [] [].

Definition set_file_units (a : t) (fu : list (Z * ref)) : t :=
  mk (name a) (stance a) (color a) fu (reserves a) (removed a).
Definition set_reserves (a : t) (rs : list ref) : t :=
  mk (name a) (stance a) (color a) (file_units a) rs (removed a).
Definition set_removed (a : t) (rm : list ref) : t :=
  mk (name a) (stance a) (color a) (file_units a) (reserves a) rm.

(** ** Attributes *)

Definition deployed_units (a : t) : list ref := dict_values (file_units a).

Definition units (a : t) : list ref :=
  deployed_units a ++ reserves a ++ removed a.

Definition defeated (a : t) : bool :=
  match file_units a with [] => true | _ :: _ => false end.

(** The powers are added exactly ([sum] over one reserve, or over
    integer powers, does not round); the quotient, the sum with [1], the
    logarithm and the products are the library's. *)
Definition reserve_power {F} {M : MathLib F} (h : store) (a : t)
  : result F :=
  let total := Qsum (map (fun r => Unit.power (deref h r)) (reserves a)) in
  l <- log (fadd (of_Q 1) (fdiv (of_Q total) (of_Q RESERVES_SOFT_CAP))) ;;
  Ok (fmul (fmul (of_Q RESERVES_POWER) (of_Q RESERVES_SOFT_CAP)) l).

(** ** Queries *)

Definition is_file_active (a : t) (file : Z) : bool :=
  dict_mem Z.eqb file (file_units a).

Definition is_file_towards_centre_active (a : t) (file : Z) : result bool :=
  assert (negb (file =? 0)%Z) ;;;
  Ok (is_file_active a (if (file <? 0)%Z then file + 1 else file - 1)%Z).

Definition get_army_reach (h : store) (a : t) : Q :=
  1 + match
        map (fun r => Unit.att_range (deref h r) + 2 * Unit.speed (deref h r))
            (deployed_units a)
      with
      | [] => 3
      | x :: rest => Qlist_max x rest
      end.

Definition get_neighbors (a : t) (file : Z) (include_self : bool)
  : list ref :=
  (if include_self then
     match dict_get Z.eqb file (file_units a) with
     | Some r => [r] | None => []
     end
   else [])
  ++ match dict_get Z.eqb (file - 1)%Z (file_units a) with
     | Some r => [r] | None => []
     end
  ++ match dict_get Z.eqb (file + 1)%Z (file_units a) with
     | Some r => [r] | None => []
     end.

Definition get_minimum_laggard_speed (h : store) (a : t) (unit : ref)
    (l : Landscape.t) : result Q :=
  let u := deref h unit in
  let laggards :=
    filter (fun r => let x := deref h r in
              Qleb (Unit.get_dist_to x (Unit.init_pos x))
                   (Unit.get_dist_to u (Unit.init_pos u)))
           (deployed_units a) in
  match map (fun r => Unit.get_eff_speed (deref h r) l) laggards with
  | [] => Raise ValueError
  | x :: rest => Ok (Qlist_min x rest)
  end.

Definition get_cohesive_speed (h : store) (a : t) (unit : ref)
    (pos_target : Q) (l : Landscape.t) : result Q :=
  let u := deref h unit in
  if Unit.moving_to_pos u && Qltb pos_target (Unit.position u) then
    Ok (Unit.get_eff_speed u l)
  else if Unit.moving_to_neg u && Qltb (Unit.position u) pos_target then
    Ok (Unit.get_eff_speed u l)
  else get_minimum_laggard_speed h a unit l.

Definition get_blocking_unit (h : store) (a : t) (enemy : ref)
  : option ref :=
  let e := deref h enemy in
  let sort_key r :=
    let u := deref h r in
    Unit.get_dist_to u (Unit.position e)
    + (if Unit.is_in_front e u then 0 else SIDE_RANGE_PENALTY) in
  min_by sort_key (get_neighbors a (Unit.file e) true).

Definition get_backwards_neighbor (h : store) (a : t) (ref_unit : ref)
  : option ref :=
  let neighbors := get_neighbors a (Unit.file (deref h ref_unit)) true in
  match
    min_by (fun r => let u := deref h r in
                     Unit.get_dist_to u (Unit.init_pos u)) neighbors
  with
  | None => None
  | Some r => if Nat.eqb r ref_unit then None else Some r
  end.

(** ** Basic setters *)

Definition add (h : store) (a : t) (file : Z) (ut : UnitType.t)
  : store * t :=
  let (h', r) := alloc h (Unit.new ut (stance a) file) in
  (h', set_file_units a (dict_set Z.eqb file r (file_units a))).

Fixpoint add_reserves (h : store) (a : t) (uts : list UnitType.t)
  : store * t :=
  match uts with
  | [] => (h, a)
  | ut :: rest =>
      let (h', r) := alloc h (Unit.new ut (stance a) 0) in
      add_reserves h' (set_reserves a (reserves a ++ [r])) rest
  end.

Definition set_up (h : store) (a : t) (init_pos : Q) : store * t :=
  let a' :=
    set_file_units a
      (sorted_by (fun x y => (fst x <? fst y)%Z) (file_units a)) in
  (fold_left (fun h r => modify h r (fun u => Unit.set_up u init_pos))
             (units a') h,
   a').

Definition change_all_units_morale (h : store) (a : t) (change : Q)
  : store :=
  fold_left
    (fun h r => modify h r (fun u => Unit.set_morale u (Unit.morale u + change)))
    (deployed_units a ++ reserves a) h.

(** ** Alterers *)

Definition move_unit_safely_away_from_enemy (h : store) (a : t)
    (enemy : ref) : store :=
  match dict_get Z.eqb (Unit.file (deref h enemy)) (file_units a) with
  | Some unit =>
      modify h unit
        (fun u => Unit.move_safely_away_from_pos u
                    (Unit.position (deref h enemy)))
  | None => h
  end.

Definition deploy_reserve_to_file (h : store) (a : t) (file : Z)
    (ref_pos : Q) (other_army : t) : store * t :=
  match reserves a with
  | [] => (h, a)
  | new_unit :: rest =>
      let a1 := set_reserves a rest in
      let h1 :=
        modify h new_unit (fun u => Unit.deploy_close_to u file ref_pos) in
      let h2 := move_unit_safely_away_from_enemy h1 other_army new_unit in
      (h2, set_file_units a1 (dict_set Z.eqb file new_unit (file_units a1)))
  end.

Definition remove_unit (h : store) (a : t) (unit : ref) (other_army : t)
  : result (store * t) :=
  let file := Unit.file (deref h unit) in
  r <- dict_getitem Z.eqb file (file_units a) ;;
  assert (Nat.eqb r unit) ;;;
  let a1 := set_file_units a (dict_del Z.eqb file (file_units a)) in
  let a2 := set_removed a1 (removed a1 ++ [unit]) in
  Ok (deploy_reserve_to_file h a2 file (Unit.position (deref h unit))
        other_army).

Definition slide_file_towards_centre (h : store) (a : t) (file : Z)
  : result (store * t) :=
  active <- is_file_towards_centre_active a file ;;
  assert (negb active) ;;;
  let new_file := (if (file <? 0)%Z then file + 1 else file - 1)%Z in
  r <- dict_getitem Z.eqb file (file_units a) ;;
  let a1 := set_file_units a (dict_set Z.eqb new_file r (file_units a)) in
  let h1 := modify h r (fun u => Unit.set_file u new_file) in
  Ok (h1, set_file_units a1 (dict_del Z.eqb file (file_units a1))).

(** ** Statement vocabulary *)

(** [file_units] is a dictionary: no file occurs twice. *)
Definition well_formed (a : t) : Prop := NoDup (dict_keys (file_units a)).

(** The sum inside [reserve_power]. *)
Definition total_reserve_power (h : store) (a : t) : Q :=
  Qsum (map (fun r => Unit.power (deref h r)) (reserves a)).

(** [a'] holds the units of [a], each as often as [a] does. *)
Definition same_roster (a a' : t) : Prop :=
  Permutation (units a') (units a).
End Army.

(* ------------------------------------------------------------------ *)
(** * Sets of units *)

(** A [set] of [Unit] objects hashes them by address, so its iteration
    order and the element [pop()] returns are fixed within a run but not
    given by the program text.  A set is kept as the list of its elements
    in insertion order; the two orders are given by choice functions that
    select, from such a list, the index of the next element.  An [impl]
    is the order of one run: the objects of another run lie at other
    addresses, and statements about two runs quantify over two of them. *)
Module PySet.
Record impl : Type := mk {
  iter_choice : list ref -> nat;
  pop_choice : list ref -> nat
}.

Fixpoint remove_nth (i : nat) (s : list ref) : list ref :=
  match s, i with
  | [], _ => []
  | _ :: rest, O => rest
  | x :: rest, S j => x :: remove_nth j rest
  end.

Definition pick (choice : list ref -> nat) (s : list ref)
  : option (ref * list ref) :=
  match s with
  | [] => None
  | x :: _ =>
      let i := (choice s mod List.length s)%nat in
      Some (nth i s x, remove_nth i s)
  end.

Fixpoint iter_from (choice : list ref -> nat) (n : nat) (s : list ref)
  : list ref :=
  match n with
  | O => []
  | S k =>
      match pick choice s with
      | None => []
      | Some (x, s') => x :: iter_from choice k s'
      end
  end.

(** [for x in s]. *)
Definition iter (I : impl) (s : list ref) : list ref :=
  iter_from (iter_choice I) (List.length s) s.

(** [s.pop()] on a non-empty set. *)
Definition pop (I : impl) (s : list ref) : option (ref * list ref) :=
  pick (pop_choice I) s.

(** [s |= {x}]. *)
Definition add (x : ref) (s : list ref) : list ref :=
  if mem_ref x s then s else s ++ [x].

(** [s | t]. *)
Definition union (s t : list ref) : list ref :=
  fold_left (fun acc x => add x acc) t s.

(** [s.remove(x)]. *)
Definition remove (x : ref) (s : list ref) : result (list ref) :=
  if mem_ref x s then Ok (remove_ref x s) else Raise KeyError.
End PySet.

(** [invert_dictionary]. *)
Definition invert_dictionary (init : list (ref * ref))
  : list (ref * list ref) :=
  fold_left
    (fun output kv =>
       let '(key, value) := kv in
       match dict_get Nat.eqb value output with
       | Some s => dict_set Nat.eqb value (PySet.union s [key]) output
       | None => dict_set Nat.eqb value [key] output
       end)
    init [].

(** [k] is in the set stored under [v]. *)
Definition listed (output : list (ref * list ref)) (k v : ref) : Prop :=
  exists s, dict_get Nat.eqb v output = Some s /\ In k s.

(* ------------------------------------------------------------------ *)
(** * FightPairs *)

Module FightPairs.
(** [army_1] and [army_2] are references to the armies of the battle:
    the functions below receive the current armies and the store. *)
Record t : Type := mk {
  _potentials : list (ref * list ref);
  _assignments : list (ref * ref);
  two_way_pairs : list (ref * ref);
  one_way_pairs : list (ref * ref);
  all_engaged : list ref
}.

Definition new : t := mk [] [] [] [] [].

Definition set_potentials (fp : t) (p : list (ref * list ref)) : t :=
  mk p (_assignments fp) (two_way_pairs fp) (one_way_pairs fp)
     (all_engaged fp).
Definition set_assignments (fp : t) (a : list (ref * ref)) : t :=
  mk (_potentials fp) a (two_way_pairs fp) (one_way_pairs fp)
     (all_engaged fp).

Definition reset (fp : t) : t := mk [] [] [] [] [].

(** The tuple built by [sort_key], component by component. *)
Record key : Type := mk_key {
  k_frontal_and_melee : bool;
  k_melee : bool;
  k_frontal : bool;
  k_attacker : bool;
  k_unassigned : bool;
  k_neg_dist : Q;
  k_neg_att_range : Q;
  k_abs_unit_file : Z;
  k_abs_target_file : Z;
  k_unit_file : Z;
  k_target_file : Z;
  k_unit_position : Q
}.

Definition bool_value (b : bool) : Q := if b then 1 else 0.

(** The components as numbers, in tuple order ([True] is [1]). *)
Definition components (k : key) : list Q :=
  [ bool_value (k_frontal_and_melee k); bool_value (k_melee k);
    bool_value (k_frontal k); bool_value (k_attacker k);
    bool_value (k_unassigned k);
    k_neg_dist k; k_neg_att_range k;
    inject_Z (k_abs_unit_file k); inject_Z (k_abs_target_file k);
    inject_Z (k_unit_file k); inject_Z (k_target_file k);
    k_unit_position k ].

Definition key_compare (k1 k2 : key) : comparison :=
  lex_compare (components k1) (components k2).

(** [(key1, att1, x1) > (key2, att2, x2)]: when the keys are equal the
    comparison reaches the [Unit] objects, which define no order. *)
Definition tuple_gt (a b : key * ref * ref) : result bool :=
  let '(k1, att1, x1) := a in
  let '(k2, att2, x2) := b in
  match key_compare k1 k2 with
  | Gt => Ok true
  | Lt => Ok false
  | Eq =>
      if Nat.eqb att1 att2 && Nat.eqb x1 x2 then Ok false
      else Raise TypeError
  end.

(** [max(iterable)]: a later item replaces the current one when it is
    strictly greater. *)
Fixpoint max_from (cur : key * ref * ref) (items : list (key * ref * ref))
  : result (key * ref * ref) :=
  match items with
  | [] => Ok cur
  | item :: rest =>
      g <- tuple_gt item cur ;;
      max_from (if g then item else cur) rest
  end.

Definition max_tuple (items : list (key * ref * ref))
  : result (key * ref * ref) :=
  match items with
  | [] => Raise ValueError
  | first :: rest => max_from first rest
  end.

Section Matching.
Variable I : PySet.impl.
Variable h : store.
Variables army_1 army_2 : Army.t.

Definition get_valid_targets (file : Z) (unit : ref) (opposing : Army.t)
  : list ref :=
  match dict_get Z.eqb file (Army.file_units opposing) with
  | Some target =>
      if Unit.is_in_range_of (deref h unit) (deref h target)
      then [target] else []
  | None => []
  end.

Definition add_single_potentials (fp : t) (file : Z) (unit : ref)
    (opposing : Army.t) : t :=
  let targets := [] in
  let targets :=
    PySet.union targets (get_valid_targets file unit opposing) in
  let targets :=
    PySet.union targets (get_valid_targets (file - 1) unit opposing) in
  let targets :=
    PySet.union targets (get_valid_targets (file + 1) unit opposing) in
  match targets with
  | [] => fp
  | _ :: _ =>
      set_potentials fp (dict_set Nat.eqb unit targets (_potentials fp))
  end.

Definition add_all_potentials (fp : t) : t :=
  let fp1 :=
    fold_left
      (fun fp fu => add_single_potentials fp (fst fu) (snd fu) army_2)
      (Army.file_units army_1) fp in
  fold_left
    (fun fp fu => add_single_potentials fp (fst fu) (snd fu) army_1)
    (Army.file_units army_2) fp1.

Definition assign_if_unique_target (fp : t) : t :=
  fold_left
    (fun fp ut =>
       match snd ut with
       | [target] =>
           mk (dict_del Nat.eqb (fst ut) (_potentials fp))
              (dict_set Nat.eqb (fst ut) target (_assignments fp))
              (two_way_pairs fp) (one_way_pairs fp) (all_engaged fp)
       | _ => fp
       end)
    (_potentials fp) fp.

Definition sort_key (fp : t) (assigned_to : list (ref * list ref))
    (unit target : ref) : key :=
  let u := deref h unit in
  let tg := deref h target in
  let frontal := Unit.is_in_front u tg in
  let dist := Unit.get_dist_to u (Unit.position tg) in
  let melee :=
    if frontal then Qleb dist (1 + Unit.EPS)
    else Qleb dist (1 - SIDE_RANGE_PENALTY + Unit.EPS) in
  let attacker :=
    mem_ref target
      (match dict_get Nat.eqb unit assigned_to with
       | Some s => s | None => []
       end) in
  let unassigned := negb (dict_mem Nat.eqb target (_assignments fp)) in
  mk_key (frontal && melee) melee frontal attacker unassigned
         (- dist) (- Unit.att_range u)
         (Z.abs (Unit.file u)) (Z.abs (Unit.file tg))
         (Unit.file u) (Unit.file tg) (Unit.position u).

(** The candidate pairs, in the order the generator yields them. *)
Definition candidates (fp : t) : list (ref * ref) :=
  flat_map (fun at_ => map (fun x => (fst at_, x)) (PySet.iter I (snd at_)))
           (_potentials fp).

Definition best_remaining (fp : t) : result (key * ref * ref) :=
  let assigned_to := invert_dictionary (_assignments fp) in
  max_tuple
    (map (fun p => (sort_key fp assigned_to (fst p) (snd p), fst p, snd p))
         (candidates fp)).

Definition assign_best_remaining (fp : t) : result t :=
  best <- best_remaining fp ;;
  let '(_, unit, target) := best in
  Ok (mk (dict_del Nat.eqb unit (_potentials fp))
         (dict_set Nat.eqb unit target (_assignments fp))
         (two_way_pairs fp) (one_way_pairs fp) (all_engaged fp)).

(** [while self._potentials: self.assign_best_remaining()].  Every
    iteration deletes one key, so [fuel = len(self._potentials)]
    iterations empty the dictionary. *)
Fixpoint assign_while_potentials (fuel : nat) (fp : t) : result t :=
  match _potentials fp, fuel with
  | [], _ => Ok fp
  | _ :: _, O => Ok fp
  | _ :: _, S k =>
      fp' <- assign_best_remaining fp ;; assign_while_potentials k fp'
  end.

(** The body of [while remaining:], with [fuel = len(remaining)]. *)
Fixpoint match_loop (fuel : nat) (remaining : list ref) (fp : t)
  : result t :=
  match fuel with
  | O => Ok fp
  | S k =>
      match PySet.pop I remaining with
      | None => Ok fp
      | Some (unit_A, remaining) =>
          unit_B <- dict_getitem Nat.eqb unit_A (_assignments fp) ;;
          let two_way :=
            match dict_get Nat.eqb unit_B (_assignments fp) with
            | Some r => Nat.eqb unit_A r
            | None => false
            end in
          let engaged :=
            PySet.union (all_engaged fp) [unit_A; unit_B] in
          if two_way then
            remaining <- PySet.remove unit_B remaining ;;
            match_loop k remaining
              (mk (_potentials fp) (_assignments fp)
                  (two_way_pairs fp ++ [(unit_A, unit_B)])
                  (one_way_pairs fp) engaged)
          else
            match_loop k remaining
              (mk (_potentials fp) (_assignments fp) (two_way_pairs fp)
                  (one_way_pairs fp ++ [(unit_A, unit_B)]) engaged)
      end
  end.

Definition match_into_pairs (fp : t) : result t :=
  let remaining := dict_keys (_assignments fp) in
  match_loop (List.length remaining) remaining fp.

Definition assign_all (fp : t) : result t :=
  let fp := reset fp in
  let fp := add_all_potentials fp in
  let fp := assign_if_unique_target fp in
  fp <- assign_while_potentials (List.length (_potentials fp)) fp ;;
  match_into_pairs fp.

(** Level 5 of the ordering as the specification words it: "target not
    yet claimed by anyone", that is, no unit is assigned to the target. *)
Definition unclaimed (fp : t) (target : ref) : bool :=
  negb (existsb (fun kv => Nat.eqb (snd kv) target) (_assignments fp)).

Definition sort_key_spec (fp : t) (assigned_to : list (ref * list ref))
    (unit target : ref) : key :=
  let k := sort_key fp assigned_to unit target in
  mk_key (k_frontal_and_melee k) (k_melee k) (k_frontal k) (k_attacker k)
         (unclaimed fp target)
         (k_neg_dist k) (k_neg_att_range k)
         (k_abs_unit_file k) (k_abs_target_file k)
         (k_unit_file k) (k_target_file k) (k_unit_position k).
End Matching.

(** ** Statement vocabulary *)

(** The units that act in a pair: the attacker of a one-way pair and
    both members of a two-way pair. *)
Definition attackers (fp : t) : list ref :=
  map fst (one_way_pairs fp)
  ++ map fst (two_way_pairs fp) ++ map snd (two_way_pairs fp).

(** What the assignment map says about a pair. *)
Definition mutual (fp : t) (a b : ref) : Prop :=
  dict_get Nat.eqb a (_assignments fp) = Some b
  /\ dict_get Nat.eqb b (_assignments fp) = Some a.

Definition one_sided (fp : t) (a b : ref) : Prop :=
  dict_get Nat.eqb a (_assignments fp) = Some b
  /\ dict_get Nat.eqb b (_assignments fp) <> Some a.

(** The state in which [match_into_pairs] starts. *)
Definition ready (fp : t) : Prop :=
  NoDup (dict_keys (_assignments fp))
  /\ two_way_pairs fp = [] /\ one_way_pairs fp = [].

(** Every unit that occurs in a pair, once per occurrence. *)
Definition occurrences (fp : t) : list ref :=
  flat_map (fun p => [fst p; snd p]) (two_way_pairs fp ++ one_way_pairs fp).

(** [k1 <= k2] in the order of the key tuples. *)
Definition key_le (k1 k2 : key) : Prop := key_compare k1 k2 <> Gt.

Definition item_key (x : key * ref * ref) : key := fst (fst x).
Definition item_pair (x : key * ref * ref) : ref * ref :=
  (snd (fst x), snd x).

(** No two different pairs carry the same key. *)
Definition no_ties (items : list (key * ref * ref)) : Prop :=
  forall x y, In x items -> In y items ->
              key_compare (item_key x) (item_key y) = Eq ->
              item_pair x = item_pair y.

(** The nine levels of the ordering, read off a key. *)
Record levels (h : store) (fp : t) (unit target : ref) (k : key) : Prop := {
  level_1 : k_frontal_and_melee k = k_frontal k && k_melee k;
  level_2_frontal :
    Unit.file (deref h unit) = Unit.file (deref h target) ->
    (k_melee k = true <->
     Unit.get_dist_to (deref h unit) (Unit.position (deref h target))
     <= 1 + Unit.EPS);
  level_2_flank :
    Unit.file (deref h unit) <> Unit.file (deref h target) ->
    (k_melee k = true <->
     Unit.get_dist_to (deref h unit) (Unit.position (deref h target))
     <= 1 - SIDE_RANGE_PENALTY + Unit.EPS);
  level_3 :
    k_frontal k = true <->
    Unit.file (deref h unit) = Unit.file (deref h target);
  level_4 : k_attacker k = true <-> In (target, unit) (_assignments fp);
  level_5 :
    k_unassigned k = true <->
    dict_get Nat.eqb target (_assignments fp) = None;
  level_6 :
    k_neg_dist k
    = - Unit.get_dist_to (deref h unit) (Unit.position (deref h target));
  level_7 : k_neg_att_range k = - Unit.att_range (deref h unit);
  level_8 :
    k_abs_unit_file k = Z.abs (Unit.file (deref h unit))
    /\ k_abs_target_file k = Z.abs (Unit.file (deref h target));
  level_9 :
    k_unit_file k = Unit.file (deref h unit)
    /\ k_target_file k = Unit.file (deref h target)
    /\ k_unit_position k = Unit.position (deref h unit)
}.
End FightPairs.

(* ------------------------------------------------------------------ *)
(** * Battle *)

Module Battle.
Record t : Type := mk {
  heap : store;
  army_1 : Army.t;
  army_2 : Army.t;
  landscape : Landscape.t;
  fight_pairs : FightPairs.t;
  turns : Z
}.

Definition set_heap (b : t) (h : store) : t :=
  mk h (army_1 b) (army_2 b) (landscape b) (fight_pairs b) (turns b).
Definition set_fight_pairs (b : t) (fp : FightPairs.t) : t :=
  mk (heap b) (army_1 b) (army_2 b) (landscape b) fp (turns b).
Definition set_turns (b : t) (n : Z) : t :=
  mk (heap b) (army_1 b) (army_2 b) (landscape b) (fight_pairs b) n.

(** A reference to one of the two armies of the battle. *)
Inductive side : Set := Side1 | Side2.

Definition army (b : t) (s : side) : Army.t :=
  match s with Side1 => army_1 b | Side2 => army_2 b end.

Definition set_army (b : t) (s : side) (a : Army.t) : t :=
  match s with
  | Side1 => mk (heap b) a (army_2 b) (landscape b) (fight_pairs b) (turns b)
  | Side2 => mk (heap b) (army_1 b) a (landscape b) (fight_pairs b) (turns b)
  end.

Definition unit (b : t) (r : ref) : Unit.t := deref (heap b) r.

Definition modify_unit (b : t) (r : ref) (f : Unit.t -> Unit.t) : t :=
  set_heap b (modify (heap b) r f).

Definition FILE_MEAN : Q := 0.5 * (FILE_SUPPORTED + FILE_VULNERABLE).
Definition FILE_DIFF : Q := FILE_SUPPORTED - FILE_VULNERABLE.

(** [Battle(army_1, army_2, landscape)], with [__attrs_post_init__]. *)
Definition create (h : store) (a1 a2 : Army.t) (l : Landscape.t) : t :=
  let init_pos :=
    Qlist_max (Army.get_army_reach h a1) [Army.get_army_reach h a2; 5] in
  let (h1, a1') := Army.set_up h a1 (- init_pos) in
  let (h2, a2') := Army.set_up h1 a2 init_pos in
  mk h2 a1' a2' l FightPairs.new 0.

(** ** Utils *)

Definition iter_all_deployed (b : t) : list ref :=
  Army.deployed_units (army_1 b) ++ Army.deployed_units (army_2 b).

Definition is_deployed_in (b : t) (s : side) (r : ref) : bool :=
  match dict_get Z.eqb (Unit.file (unit b r)) (Army.file_units (army b s)) with
  | Some r' => Nat.eqb r' r
  | None => false
  end.

Definition get_army_deployed_in (b : t) (r : ref) : result side :=
  if is_deployed_in b Side1 r then Ok Side1
  else if is_deployed_in b Side2 r then Ok Side2
  else Raise ValueError.

(** The argument is always one of the two armies of the battle. *)
Definition get_other_army (s : side) : side :=
  match s with Side1 => Side2 | Side2 => Side1 end.

Definition reset_unit_stance (b : t) (r : ref) : result t :=
  s <- get_army_deployed_in b r ;;
  Ok (modify_unit b r (fun u => Unit.set_stance u (Army.stance (army b s)))).

Definition call_neighbors_forward (b : t) (r : ref) : result t :=
  s <- get_army_deployed_in b r ;;
  for_each
    (Army.get_neighbors (army b s) (Unit.file (unit b r)) false)
    (fun neighbor b =>
       if negb (mem_ref neighbor (FightPairs.all_engaged (fight_pairs b))) then
         if Qleb (Unit.speed (unit b r)) (Unit.speed (unit b neighbor)) then
           Ok (modify_unit b neighbor
                 (fun u => Unit.set_stance u
                             (Stance.min (Unit.stance u) Stance.NEUT)))
         else Ok b
       else Ok b)
    b.

(** ** Outcome *)

Definition is_battle_ended (b : t) : bool :=
  if Army.defeated (army_1 b) then true
  else if Army.defeated (army_2 b) then true
  else if forallb (fun r => Unit.halted (unit b r)) (iter_all_deployed b)
  then true
  else if (1000 <? turns b)%Z then true
  else false.

Definition decide_winner (b : t) : BattleOutcome :=
  if Army.defeated (army_1 b) && Army.defeated (army_2 b) then BOTH_LOST
  else if negb (Army.defeated (army_1 b)) && Army.defeated (army_2 b)
  then WIN_1
  else if Army.defeated (army_1 b) && negb (Army.defeated (army_2 b))
  then WIN_2
  else STALEMATE.

(** ** Morale *)

(** [FILE_MEAN] and [FILE_DIFF] are the exact numbers [-0.05] and [0.3];
    the floats computed from [0.1] and [-0.2] differ from them in the last
    place, and so does the value of the linear branch. *)
Definition _morale_from_mean_clash_distance (mean_dist : Q) : Q :=
  if Qltb 0.5 mean_dist then FILE_SUPPORTED
  else if Qltb mean_dist (-0.5) then FILE_VULNERABLE
  else FILE_MEAN + mean_dist * FILE_DIFF.

Definition _morale_from_contested_file (b : t) (r : ref) (file : Z)
    (own enemy : Army.t) : result Q :=
  let u := unit b r in
  e <- dict_getitem Z.eqb file (Army.file_units enemy) ;;
  let ene_dist := Unit.get_signed_distance_to_unit u (unit b e) in
  let own_dist := - RESERVE_DIST_BEHIND in
  own_dist <-
    (if Army.is_file_active own file then
       o <- dict_getitem Z.eqb file (Army.file_units own) ;;
       Ok (Qmax own_dist (Unit.get_signed_distance_to_unit u (unit b o)))
     else Ok own_dist) ;;
  let weight := RESERVE_DIST_BEHIND - 0.5 in
  let mean_dist := (weight * ene_dist + own_dist) / (1 + weight) in
  let morale := _morale_from_mean_clash_distance mean_dist in
  Ok (if Army.is_file_active own file then morale else Qmin 0 morale).

Definition get_morale_from_supporting_file (b : t) (r : ref) (file : Z)
  : result Q :=
  s <- get_army_deployed_in b r ;;
  let own := army b s in
  let enemy := army b (get_other_army s) in
  if Army.is_file_active enemy file then
    _morale_from_contested_file b r file own enemy
  else if Army.is_file_active own file then Ok FILE_SUPPORTED
  else Ok FILE_EMPTY.

Definition get_unit_eff_morale (b : t) (r : ref) : result Q :=
  let morale := Unit.morale (unit b r) in
  m1 <- get_morale_from_supporting_file b r (Unit.file (unit b r) + 1) ;;
  let morale := morale + m1 in
  m2 <- get_morale_from_supporting_file b r (Unit.file (unit b r) - 1) ;;
  let morale := morale + m2 in
  Ok (Qmax 0 morale).

(** ** Power: generic in the mathematics library *)

Section Power.
Context {F : Type} {M : MathLib F}.

Definition get_unit_power_from_morale (b : t) (r : ref) : result F :=
  em <- get_unit_eff_morale b r ;;
  p <- pow (of_Q em) (of_Q (1 + Unit.rigidity (unit b r))) ;;
  Ok (fmul (of_Q (- LOW_MORALE_POWER)) (fsub (of_Q 1) p)).

Definition get_unit_eff_power (b : t) (r : ref) : result F :=
  let power := Unit.power (unit b r) in
  let power :=
    power + Unit.get_power_from_terrain (unit b r) (landscape b) in
  s <- get_army_deployed_in b r ;;
  rp <- Army.reserve_power (heap b) (army b s) ;;
  let power := fadd (of_Q power) rp in
  mp <- get_unit_power_from_morale b r ;;
  Ok (fadd power mp).

Definition compute_fight_balance (b : t) (unit_A unit_B : ref)
  : result F :=
  pa <- get_unit_eff_power b unit_A ;;
  pb <- get_unit_eff_power b unit_B ;;
  let power_dif := fsub pa pb in
  pow (of_Q 2) (fdiv power_dif (of_Q (2 * POWER_SCALE))).

Definition get_unit_pos_desire (b : t) (r : ref) : result F :=
  let cover :=
    Landscape.get_mean_cover (landscape b) (Unit.file (unit b r))
      (Unit.position (unit b r)) in
  p <- get_unit_eff_power b r ;;
  Ok (fadd p (of_Q (10 * cover))).
End Power.

(** ** The turn *)

Section Turn.
Variable DELTA_T : Q.
Variable I : PySet.impl.
Variable M : MathLib Q.

(** *** Tidy *)

Definition change_morale_from_first_pursue (b : t) : result t :=
  for_each (iter_all_deployed b)
    (fun r b =>
       if Unit.at_end (unit b r) then
         if negb (Unit.pursuing (unit b r)) then
           s <- get_army_deployed_in b r ;;
           let other_army := army b (get_other_army s) in
           Ok (set_heap b
                 (Army.change_all_units_morale (heap b) other_army
                    PURSUE_MORALE))
         else Ok b
       else Ok b)
    b.

Definition reduce_files (b : t) : result t :=
  for_each (iter_all_deployed b)
    (fun r b =>
       if Unit.pursuing (unit b r) && negb (Unit.file (unit b r) =? 0)%Z
       then
         s <- get_army_deployed_in b r ;;
         match
           Army.get_blocking_unit (heap b) (army b (get_other_army s)) r
         with
         | None =>
             active <-
               Army.is_file_towards_centre_active (army b s)
                 (Unit.file (unit b r)) ;;
             if negb active then
               ha <-
                 Army.slide_file_towards_centre (heap b) (army b s)
                   (Unit.file (unit b r)) ;;
               Ok (set_army (set_heap b (fst ha)) s (snd ha))
             else Ok b
         | Some _ => Ok b
         end
       else Ok b)
    b.

Definition update_status (b : t) : result t :=
  for_each (iter_all_deployed b)
    (fun r b =>
       b <- reset_unit_stance b r ;;
       em <- get_unit_eff_morale b r ;;
       if Qleb em 0 || Unit.at_home (unit b r) then
         s <- get_army_deployed_in b r ;;
         ha <-
           Army.remove_unit (heap b) (army b s) r
             (army b (get_other_army s)) ;;
         Ok (set_army (set_heap b (fst ha)) s (snd ha))
       else if Unit.at_end (unit b r) then
         em <- get_unit_eff_morale b r ;;
         if Qltb 0 em then
           Ok (modify_unit b r (fun u => Unit.set_pursuing u true))
         else Ok (modify_unit b r (fun u => Unit.set_pursuing u false))
       else Ok (modify_unit b r (fun u => Unit.set_pursuing u false)))
    b.

Definition tidy (b : t) : result t :=
  b <- change_morale_from_first_pursue b ;;
  b <- reduce_files b ;;
  update_status b.

(** *** Fighting *)

Definition inflict_casualties (b : t) (r : ref) (balance : Q) : t :=
  let cover :=
    1 - Landscape.get_mean_cover (landscape b) (Unit.file (unit b r))
          (Unit.position (unit b r)) in
  modify_unit b r
    (fun u => Unit.set_morale u (Unit.morale u - DELTA_T * cover * balance)).

Definition _push_from_winner (b : t) (winner loser : ref) (balance : Q)
  : result t :=
  q <- py_div (balance - 1) (1 + Unit.rigidity (unit b loser)) ;;
  let loser_speed_scale := Qmin 1 q in
  let dist :=
    Qmin (Unit.get_eff_speed (unit b winner) (landscape b))
         (Unit.get_eff_speed (unit b loser) (landscape b)
          * loser_speed_scale) in
  let dist :=
    dist * (BASE_SPEED * DELTA_T
            * (if Unit.moving_to_pos (unit b winner) then 1 else -1)) in
  let b := modify_unit b loser (fun u => Unit.move_by u dist) in
  if negb (Unit.is_in_range_of (unit b winner) (unit b loser))
     || negb (Unit.is_in_range_of (unit b loser) (unit b winner))
  then Ok (modify_unit b winner (fun u => Unit.move_by u dist))
  else Ok b.

Definition push_from_fight (b : t) (unit_A unit_B : ref) (balance : Q)
  : result t :=
  if Qltb 1 balance then _push_from_winner b unit_A unit_B balance
  else if Qltb balance 1 then
    inv <- py_div 1 balance ;;
    _push_from_winner b unit_B unit_A inv
  else Ok b.

Definition fight_two_way (b : t) (unit_A unit_B : ref) : result t :=
  balance <- compute_fight_balance b unit_A unit_B ;;
  inv <- py_div 1 balance ;;
  let b := inflict_casualties b unit_A inv in
  let b := inflict_casualties b unit_B balance in
  push_from_fight b unit_A unit_B balance.

Definition fight_one_way (b : t) (unit_A unit_B : ref) : result t :=
  balance <- compute_fight_balance b unit_A unit_B ;;
  let b := inflict_casualties b unit_B balance in
  let b := modify_unit b unit_B (fun u => Unit.set_stance u Stance.AGGR) in
  call_neighbors_forward b unit_B.

Definition fight (b : t) : result t :=
  fp <-
    FightPairs.assign_all I (heap b) (army_1 b) (army_2 b)
      (fight_pairs b) ;;
  let b := set_fight_pairs b fp in
  b <- for_each (FightPairs.two_way_pairs fp)
         (fun p b => fight_two_way b (fst p) (snd p)) b ;;
  for_each (FightPairs.one_way_pairs fp)
    (fun p b => fight_one_way b (fst p) (snd p)) b.

(** *** Moving *)

Definition move_key (u : Unit.t) : list Q :=
  [ inject_Z (Stance.value (Unit.stance u)); - Unit.speed u;
    Unit.att_range u; inject_Z (Z.abs (Unit.file u));
    - Qabs (Unit.position u); inject_Z (Unit.file u); Unit.position u ].

Definition get_move_order (b : t) : list ref :=
  sorted_by
    (fun x y =>
       match lex_compare (move_key (unit b x)) (move_key (unit b y)) with
       | Lt => true
       | _ => false
       end)
    (iter_all_deployed b).

Definition move_towards_haltingly (b : t) (r : ref) (target speed : Q)
  : result t :=
  s <- get_army_deployed_in b r ;;
  let backwards_unit := Army.get_backwards_neighbor (heap b) (army b s) r in
  let lag (b : t) :=
    match backwards_unit with
    | Some bu => Unit.get_dist_to (unit b r) (Unit.position (unit b bu))
    | None => 0
    end in
  let old_pos := Unit.position (unit b r) in
  old_desire <- get_unit_pos_desire b r ;;
  let old_lag := lag b in
  let b := modify_unit b r (fun u => Unit.move_towards DELTA_T u target speed) in
  new_desire <- get_unit_pos_desire b r ;;
  let new_lag := lag b in
  power_grad <-
    py_div (old_desire - new_desire) (Unit.get_dist_to (unit b r) old_pos) ;;
  let power_grad :=
    power_grad
    * fold_left Qmult
        (map (fun _ => 0.5)
           (filter
              (fun n => mem_ref n (FightPairs.all_engaged (fight_pairs b)))
              (Army.get_neighbors (army b s) (Unit.file (unit b r)) false)))
        1 in
  Ok (modify_unit b r
        (fun u => Unit.confirm_move u power_grad old_pos old_lag new_lag)).

Definition move_unit_towards_in_stance (b : t) (r : ref) (target : Q)
  : result t :=
  let quick := Unit.get_eff_speed (unit b r) (landscape b) in
  s <- get_army_deployed_in b r ;;
  slow <- Army.get_cohesive_speed (heap b) (army b s) r target (landscape b) ;;
  match Unit.stance (unit b r) with
  | Stance.AGGR =>
      Ok (modify_unit b r (fun u => Unit.move_towards DELTA_T u target quick))
  | Stance.NEUT =>
      Ok (modify_unit b r
            (fun u => Unit.move_towards DELTA_T u target
                        (if Unit.is_charge_range_of u target
                         then quick else slow)))
  | Stance.DEFN => move_towards_haltingly b r target slow
  end.

Definition move (b : t) : result t :=
  for_each (get_move_order b)
    (fun r b =>
       s <- get_army_deployed_in b r ;;
       match
         Army.get_blocking_unit (heap b) (army b (get_other_army s)) r
       with
       | None =>
           let speed := Unit.get_eff_speed (unit b r) (landscape b) in
           Ok (modify_unit b r
                 (fun u => Unit.move_towards DELTA_T u
                             (- Unit.init_pos u) speed))
       | Some enemy =>
           if negb (Unit.is_in_range_of (unit b r) (unit b enemy)) then
             move_unit_towards_in_stance b r
               (Unit.get_position_to_attack_target (unit b r)
                  (unit b enemy))
           else Ok b
       end)
    b.

(** *** Core loop *)

Definition do_turn (b : t) : result t :=
  b <- tidy b ;;
  b <- fight b ;;
  move b.

(** [while not self.is_battle_ended()], unrolled [fuel] times.  [None]
    means that [fuel] iterations did not reach the end of the loop. *)
Fixpoint do_loop (fuel : nat) (b : t) : option (result t) :=
  if is_battle_ended b then Some (Ok b)
  else
    match fuel with
    | O => None
    | S k =>
        match do_turn (set_turns b (turns b + 1)) with
        | Ok b' => do_loop k b'
        | Raise e => Some (Raise e)
        end
    end.

Definition do (fuel : nat) (b : t) : option (result (t * BattleOutcome)) :=
  match do_loop fuel b with
  | None => None
  | Some (Ok b') => Some (Ok (b', decide_winner b'))
  | Some (Raise e) => Some (Raise e)
  end.

(** The states at the turn boundaries of a run that starts in [b]: a turn
    is played from a state in which the battle has not ended. *)
Inductive turn_boundary (b : t) : t -> Prop :=
| boundary_start : turn_boundary b b
| boundary_turn (b1 b2 : t) :
    turn_boundary b b1 ->
    is_battle_ended b1 = false ->
    do_turn (set_turns b1 (turns b1 + 1)) = Ok b2 ->
    turn_boundary b b2.
End Turn.

(** ** Statement vocabulary *)

Definition well_formed (b : t) : Prop :=
  Army.well_formed (army_1 b) /\ Army.well_formed (army_2 b).

Definition same_rosters (b b' : t) : Prop :=
  Army.same_roster (army_1 b) (army_1 b')
  /\ Army.same_roster (army_2 b) (army_2 b').

(** The conditions that end a battle, as the loop test of [do] has them:
    an army without deployed units, every deployed unit halted, or the
    turn counter above 1000. *)
Definition end_condition (b : t) : Prop :=
  Army.deployed_units (army_1 b) = []
  \/ Army.deployed_units (army_2 b) = []
  \/ (forall r, In r (iter_all_deployed b) -> Unit.halted (unit b r) = true)
  \/ (1000 < turns b)%Z.

(** What the phases of a turn leave alone: the turn counter, the landscape
    and the roster of either army. *)
Definition frame (b b' : t) : Prop :=
  turns b' = turns b
  /\ landscape b' = landscape b
  /\ (well_formed b -> well_formed b' /\ same_rosters b b').
End Battle.

(* ------------------------------------------------------------------ *)
(** * Sample data *)

(** The unit types of the specification's scenario A. *)
Module Sample.
Definition pike : UnitType.t := UnitType.mk "pike" 100 0.2 1 1.
Definition archer : UnitType.t := UnitType.mk "archer" 60 0 1 3.

(** A pike of the first army, set up at [-6] and moved to [3]. *)
Definition advanced_pike : Unit.t :=
  Unit.move_to (Unit.set_up (Unit.new pike Stance.DEFN 0) (-6)) 3.

(** Sets that iterate and pop in insertion order. *)
Definition insertion_order : PySet.impl :=
  PySet.mk (fun _ => 0%nat) (fun _ => 0%nat).

(** The opposite order: the member added last comes first. *)
Definition newest_first : PySet.impl :=
  PySet.mk (fun s => (List.length s - 1)%nat)
           (fun s => (List.length s - 1)%nat).

(** A unit of type [ut] standing in [file] at [pos]. *)
Definition placed (ut : UnitType.t) (file : Z) (pos : Q) : Unit.t :=
  Unit.set_position (Unit.new ut Stance.NEUT file) pos.

(** Two pikes in files 0 and 1 facing one pike in file 0, as
    [Army.add] leaves them (every position still [0]). *)
Definition shared_target_store : store :=
  [Unit.new pike Stance.NEUT 0; Unit.new pike Stance.NEUT 1;
   Unit.new pike Stance.NEUT 0].
Definition shared_target_army_1 : Army.t :=
  Army.mk "Greek" Stance.NEUT "DarkBlue" [(0%Z, 0%nat); (1%Z, 1%nat)] [] [].
Definition shared_target_army_2 : Army.t :=
  Army.mk "Macedon" Stance.NEUT "DarkRed" [(0%Z, 2%nat)] [] [].

(** Two pikes in files 0 and 1 on each side, as [Army.add] leaves them. *)
Definition mirror_store : store :=
  [Unit.new pike Stance.NEUT 0; Unit.new pike Stance.NEUT 1;
   Unit.new pike Stance.NEUT 0; Unit.new pike Stance.NEUT 1].
Definition mirror_army_1 : Army.t :=
  Army.mk "Greek" Stance.NEUT "DarkBlue" [(0%Z, 0%nat); (1%Z, 1%nat)] [] [].
Definition mirror_army_2 : Army.t :=
  Army.mk "Macedon" Stance.NEUT "DarkRed" [(0%Z, 2%nat); (1%Z, 3%nat)] [] [].

(** Army 1: a long-range unit [0] in file 0, a pike [1] in file -2 and a
    long-range unit [2] in file 2.  Army 2: a bow [3] in file -1 whose
    only target is [1], and a pike [4] in file 1 that reaches nobody and
    is the only target of [2].  Unit [0] reaches both [3] and [4]. *)
Definition longbow : UnitType.t := UnitType.mk "longbow" 60 0 1 4.
Definition bow : UnitType.t := UnitType.mk "bow" 60 0 1 3.
Definition flank_store : store :=
  [placed longbow 0 0; placed pike (-2) 1; placed longbow 2 0;
   placed bow (-1) 3; placed pike 1 3].
Definition flank_army_1 : Army.t :=
  Army.mk "Greek" Stance.NEUT "DarkBlue"
    [((-2)%Z, 1%nat); (0%Z, 0%nat); (2%Z, 2%nat)] [] [].
Definition flank_army_2 : Army.t :=
  Army.mk "Macedon" Stance.NEUT "DarkRed"
    [((-1)%Z, 3%nat); (1%Z, 4%nat)] [] [].

(** The floating-point library on the arguments where its value is exact:
    [log(1.0) = 0.0], [x ** 0.0 = 1.0] and [1.0 ** y = 1.0].  Any other
    argument raises, so a run that returns has used no other. *)
Definition exact_at_unity : MathLib Q := {|
  of_Q := fun x => x;
  fadd := Qplus;
  fsub := Qminus;
  fmul := Qmult;
  fdiv := Qdiv;
  log := fun x => if Qeqb x 1 then Ok 0 else Raise ValueError;
  pow := fun b e => if Qeqb e 0 || Qeqb b 1 then Ok 1 else Raise ValueError
|}.

(** Flat ground with full cover everywhere. *)
Definition covered_plain : Landscape.t :=
  Landscape.mk (fun _ _ => 0) (fun _ _ => 0) (fun _ _ _ => 0) (fun _ _ => 1).

(** One pike in file 0 on either side, on the covered plain:
    [Battle(Army(..).add(0, pike), Army(..).add(0, pike), landscape)]. *)
Definition standoff : Battle.t :=
  let (h1, a1) := Army.add [] (Army.new "Greek" Stance.NEUT "DarkBlue") 0 pike in
  let (h2, a2) :=
    Army.add h1 (Army.new "Macedon" Stance.NEUT "DarkRed") 0 pike in
  Battle.create h2 a1 a2 covered_plain.

(** An opposing army without units. *)
Definition no_army : Army.t := Army.new "Macedon" Stance.NEUT "DarkRed".

(** An army with a pike in file 0 and one pike in reserve. *)
Definition army_with_reserve : store * Army.t :=
  let (h1, a1) := Army.add [] (Army.new "Greek" Stance.NEUT "DarkBlue") 0 pike in
  Army.add_reserves h1 a1 [pike].

(** The same army with a reserve one binary64 step stronger: its power
    is [100 + 2^-46], the float [100.00000000000001]. *)
Definition stronger_pike : UnitType.t :=
  UnitType.mk "pike" (7036874417766401 # 70368744177664) 0.2 1 1.

Definition army_with_stronger_reserve : store * Army.t :=
  let (h1, a1) := Army.add [] (Army.new "Greek" Stance.NEUT "DarkBlue") 0 pike in
  Army.add_reserves h1 a1 [stronger_pike].

(** The matching state of the last example when phase 3 starts. *)
Definition flank_pool : FightPairs.t :=
  FightPairs.assign_if_unique_target
    (FightPairs.add_all_potentials flank_store flank_army_1 flank_army_2
       FightPairs.new).
End Sample.

(* ------------------------------------------------------------------ *)
(** * Further statement vocabulary *)

(** [r] stands in [file] or in a file next to it. *)
Definition adjacent_unit (a : Army.t) (file : Z) (r : ref) : Prop :=
  exists g, (file - 1 <= g <= file + 1)%Z
            /\ dict_get Z.eqb g (Army.file_units a) = Some r.

(** The distance of a unit from its home edge. *)
Definition home_dist (h : store) (r : ref) : Q :=
  Unit.get_dist_to (deref h r) (Unit.init_pos (deref h r)).

(** The key by which [get_blocking_unit] ranks the unit [r] for [enemy]. *)
Definition encounter_cost (h : store) (enemy r : ref) : Q :=
  Unit.get_dist_to (deref h r) (Unit.position (deref h enemy))
  + (if Unit.is_in_front (deref h enemy) (deref h r)
     then 0 else SIDE_RANGE_PENALTY).

(** The file next to [file] on the side of the centre. *)
Definition towards_centre (file : Z) : Z :=
  (if file <? 0 then file + 1 else file - 1)%Z.

(** Every unit of the army is an object of the store. *)
Definition allocated (h : store) (a : Army.t) : Prop :=
  forall r, In r (Army.units a) -> (r < List.length h)%nat.

(** Every unit of the army has a type that passes the validators. *)
Definition valid_types (h : store) (a : Army.t) : Prop :=
  forall r, In r (Army.units a) ->
            UnitType.validate (Unit.unit_type (deref h r)) = true.

(** No unit belongs to both armies. *)
Definition disjoint (a1 a2 : Army.t) : Prop :=
  forall r, In r (Army.units a1) -> ~ In r (Army.units a2).

(** [u] is deployed in [own] and [t] stands, in [opp], in the file of [u]
    or in a file next to it. *)
Definition faces (own opp : Army.t) (u t : ref) : Prop :=
  exists f, In (f, u) (Army.file_units own) /\ adjacent_unit opp f t.

(** [t] is a target that [u] may be given: a unit of the other army that
    [u] faces and has in range. *)
Definition valid_target (h : store) (a1 a2 : Army.t) (u t : ref) : Prop :=
  (faces a1 a2 u t \/ faces a2 a1 u t)
  /\ Unit.is_in_range_of (deref h u) (deref h t) = true.

(** Every target listed in the pool or in the assignments is valid. *)
Definition pool_valid (h : store) (a1 a2 : Army.t) (fp : FightPairs.t)
  : Prop :=
  (forall u ts t, In (u, ts) (FightPairs._potentials fp) -> In t ts ->
                  valid_target h a1 a2 u t)
  /\ (forall u t, In (u, t) (FightPairs._assignments fp) ->
                  valid_target h a1 a2 u t).

(** No pair has been formed yet. *)
Definition unpaired (fp : FightPairs.t) : Prop :=
  FightPairs.all_engaged fp = []
  /\ FightPairs.two_way_pairs fp = []
  /\ FightPairs.one_way_pairs fp = [].

(** The units that wait in the pool or have a target already. *)
Definition listed_attacker (fp : FightPairs.t) (u : ref) : Prop :=
  In u (dict_keys (FightPairs._potentials fp))
  \/ In u (dict_keys (FightPairs._assignments fp)).

(** The pool is a dictionary whose target sets are not empty. *)
Definition pool_ok (fp : FightPairs.t) : Prop :=
  NoDup (dict_keys (FightPairs._potentials fp))
  /\ forall u ts, In (u, ts) (FightPairs._potentials fp) -> ts <> [].

(* ------------------------------------------------------------------ *)
(** * The mutations a turn is made of *)

Module Mutation.
(** What an update of a unit keeps whatever else it does: the type and
    the home position; the position stays, or it is a position that
    [cap_position] produced. *)
Definition kept (u u' : Unit.t) : Prop :=
  Unit.unit_type u' = Unit.unit_type u
  /\ Unit.init_pos u' = Unit.init_pos u
  /\ (Unit.position u' = Unit.position u
      \/ (Unit.rounded (Unit.init_pos u) -> Unit.position_ok u')).

(** An update that also leaves the unit in its file. *)
Definition moved (u u' : Unit.t) : Prop :=
  kept u u' /\ Unit.file u' = Unit.file u.

(** The same, object by object, for two states of the store. *)
Definition heap_kept (h h' : store) : Prop :=
  List.length h' = List.length h
  /\ forall r, kept (deref h r) (deref h' r).

(** One mutation of the battle: a unit is updated in place, the pairs
    are recomputed, the turn counter is set, a file slides towards the
    centre, or a unit is removed (and replaced from the reserve). *)
Inductive step : Battle.t -> Battle.t -> Prop :=
| step_unit (b : Battle.t) (r : ref) (f : Unit.t -> Unit.t) :
    moved (Battle.unit b r) (f (Battle.unit b r)) ->
    step b (Battle.modify_unit b r f)
| step_pairs (b : Battle.t) (fp : FightPairs.t) :
    step b (Battle.set_fight_pairs b fp)
| step_turns (b : Battle.t) (n : Z) :
    step b (Battle.set_turns b n)
| step_slide (b : Battle.t) (s : Battle.side) (file : Z)
    (h' : store) (a' : Army.t) :
    Army.slide_file_towards_centre (Battle.heap b) (Battle.army b s) file
    = Ok (h', a') ->
    step b (Battle.set_army (Battle.set_heap b h') s a')
| step_remove (b : Battle.t) (s : Battle.side) (r : ref)
    (h' : store) (a' : Army.t) :
    Army.remove_unit (Battle.heap b) (Battle.army b s) r
      (Battle.army b (Battle.get_other_army s))
    = Ok (h', a') ->
    step b (Battle.set_army (Battle.set_heap b h') s a').

(** A sequence of mutations. *)
Inductive steps : Battle.t -> Battle.t -> Prop :=
| steps_refl (b : Battle.t) : steps b b
| steps_next (b1 b2 b3 : Battle.t) :
    steps b1 b2 -> step b2 b3 -> steps b1 b3.
End Mutation.

(** The file dictionary agrees with the units: the unit stored under a
    file is an object of the store and carries that file number. *)
Definition files_agree (h : store) (a : Army.t) : Prop :=
  forall f r, In (f, r) (Army.file_units a) ->
              (r < List.length h)%nat /\ Unit.file (deref h r) = f.

(** Two armies over a store as the builders leave them: the file
    dictionaries have no file twice, no unit is listed twice or in both
    armies, every unit is an object of the store, and the dictionaries
    agree with the file numbers of the units. *)
Definition consistent_armies (h : store) (a1 a2 : Army.t) : Prop :=
  Army.well_formed a1 /\ Army.well_formed a2
  /\ NoDup (Army.units a1 ++ Army.units a2)
  /\ allocated h a1 /\ allocated h a2
  /\ files_agree h a1 /\ files_agree h a2.

Definition consistent (b : Battle.t) : Prop :=
  consistent_armies (Battle.heap b) (Battle.army_1 b) (Battle.army_2 b).

(** Every object of the store has a rounded home position and stands
    inside its interval. *)
Definition all_in_bounds (h : store) : Prop :=
  forall r, Unit.rounded (Unit.init_pos (deref h r))
            /\ Unit.in_bounds (deref h r).

(* ================================================================== *)
(** * Properties *)

(** Linear arithmetic over [Q] and over [R]. *)
Ltac qlra := Lqa.lra.
Ltac rlra := Lra.lra.
Ltac rnra := Lra.nra.

(** ** Boolean comparisons on rationals *)

Lemma Qleb_spec x y : Qleb x y = true <-> x <= y.
Proof. apply Qle_bool_iff. Qed.

Lemma Qltb_spec x y : Qltb x y = true <-> x < y.
Proof.
  unfold Qltb. rewrite negb_true_iff, <- not_true_iff_false, Qle_bool_iff.
  split; [apply Qnot_le_lt | apply Qlt_not_le].
Qed.

Lemma Qltb_false x y : Qltb x y = false <-> y <= x.
Proof.
  unfold Qltb. rewrite negb_false_iff. apply Qle_bool_iff.
Qed.

Lemma Qleb_false x y : Qleb x y = false <-> y < x.
Proof.
  unfold Qleb. rewrite <- not_true_iff_false, Qle_bool_iff.
  split; [apply Qnot_le_lt | apply Qlt_not_le].
Qed.

Lemma Qeqb_spec x y : Qeqb x y = true <-> x == y.
Proof. apply Qeq_bool_iff. Qed.

Lemma Qeqb_false x y : Qeqb x y = false <-> ~ x == y.
Proof.
  unfold Qeqb. rewrite <- not_true_iff_false, Qeq_bool_iff. tauto.
Qed.


Lemma Qcompare_Lt (p q : Q) : Qcompare p q = Lt <-> p < q.
Proof. symmetry. apply Qlt_alt. Qed.

Lemma Qcompare_Gt (p q : Q) : Qcompare p q = Gt <-> q < p.
Proof. symmetry. apply Qgt_alt. Qed.

Lemma Qcompare_Eq (p q : Q) : Qcompare p q = Eq <-> p == q.
Proof. symmetry. apply Qeq_alt. Qed.

(** ** Rounding *)

Lemma round_half_even_comp (p q : Q) :
  p == q -> round_half_even p = round_half_even q.
Proof.
  intros E. unfold round_half_even.
  rewrite (Qfloor_comp _ _ E).
  assert (C : Qcompare (p - inject_Z (Qfloor q)) (1 # 2)
              = Qcompare (q - inject_Z (Qfloor q)) (1 # 2)).
  { apply Qcompare_comp; [rewrite E; reflexivity | reflexivity]. }
  rewrite C. reflexivity.
Qed.

Lemma round_half_even_inject (k : Z) : round_half_even (inject_Z k) = k.
Proof.
  unfold round_half_even. rewrite Qfloor_Z.
  assert (L : inject_Z k - inject_Z k < 1 # 2) by qlra.
  apply Qcompare_Lt in L. rewrite L. reflexivity.
Qed.

Lemma round_half_even_le (q : Q) (k : Z) :
  q <= inject_Z k -> (round_half_even q <= k)%Z.
Proof.
  intros H.
  assert (F : (Qfloor q <= k)%Z).
  { rewrite <- (Qfloor_Z k). apply Qfloor_resp_le. exact H. }
  assert (S : inject_Z (Qfloor q) < q -> (Qfloor q + 1 <= k)%Z).
  { intros L. assert (L' : inject_Z (Qfloor q) < inject_Z k) by qlra.
    rewrite <- Zlt_Qlt in L'. lia. }
  unfold round_half_even.
  destruct (Qcompare (q - inject_Z (Qfloor q)) (1 # 2)) eqn:C.
  - destruct (Z.even (Qfloor q)); [exact F |].
    apply S. apply Qcompare_Eq in C. qlra.
  - exact F.
  - apply S. apply Qcompare_Gt in C. qlra.
Qed.

Lemma round_half_even_ge (q : Q) (k : Z) :
  inject_Z k <= q -> (k <= round_half_even q)%Z.
Proof.
  intros H.
  assert (F : (k <= Qfloor q)%Z).
  { rewrite <- (Qfloor_Z k). apply Qfloor_resp_le. exact H. }
  unfold round_half_even.
  destruct (Qcompare (q - inject_Z (Qfloor q)) (1 # 2));
    [destruct (Z.even (Qfloor q)) | |]; lia.
Qed.

Lemma Qmake_scale (k : Z) (d : positive) :
  (k # d) * inject_Z (Zpos d) == inject_Z k.
Proof.
  unfold Qeq, Qmult, inject_Z. simpl. lia.
Qed.

Lemma py_round_idempotent (x : Q) (n : nat) :
  py_round (py_round x n) n = py_round x n.
Proof.
  unfold py_round.
  f_equal.
  rewrite (round_half_even_comp _ _ (Qmake_scale _ _)).
  apply round_half_even_inject.
Qed.

Lemma rounded_scaled (x : Q) (n : nat) :
  py_round x n == x ->
  x * inject_Z (Zpos (pow10 n))
  == inject_Z (round_half_even (x * inject_Z (Zpos (pow10 n)))).
Proof.
  intros H. rewrite <- H at 1. unfold py_round. apply Qmake_scale.
Qed.

Lemma Qmake_le_iff (k : Z) (d : positive) (y : Q) :
  inject_Z k <= y * inject_Z (Zpos d) -> k # d <= y.
Proof.
  unfold Qle, Qmult, inject_Z. simpl. intros H. lia.
Qed.

Lemma Qmake_ge_iff (k : Z) (d : positive) (y : Q) :
  y * inject_Z (Zpos d) <= inject_Z k -> y <= k # d.
Proof.
  unfold Qle, Qmult, inject_Z. simpl. intros H. lia.
Qed.

(** Rounding stays inside an interval whose ends are themselves rounded. *)
Lemma py_round_le (x a : Q) (n : nat) :
  py_round a n == a -> x <= a -> py_round x n <= a.
Proof.
  intros Ha Hx.
  pose proof (rounded_scaled a n Ha) as Sa.
  set (s := inject_Z (Zpos (pow10 n))) in *.
  assert (Ps : 0 < s) by (unfold s, Qlt, inject_Z; simpl; lia).
  assert (L : x * s <= inject_Z (round_half_even (a * s))).
  { rewrite <- Sa. apply Qmult_le_compat_r; qlra. }
  apply round_half_even_le in L.
  rewrite <- Ha. unfold py_round. fold s.
  unfold Qle. simpl. apply Z.mul_le_mono_nonneg_r; lia.
Qed.

Lemma py_round_ge (x a : Q) (n : nat) :
  py_round a n == a -> a <= x -> a <= py_round x n.
Proof.
  intros Ha Hx.
  pose proof (rounded_scaled a n Ha) as Sa.
  set (s := inject_Z (Zpos (pow10 n))) in *.
  assert (Ps : 0 < s) by (unfold s, Qlt, inject_Z; simpl; lia).
  assert (L : inject_Z (round_half_even (a * s)) <= x * s).
  { rewrite <- Sa. apply Qmult_le_compat_r; qlra. }
  apply round_half_even_ge in L.
  rewrite <- Ha. unfold py_round. fold s.
  unfold Qle. simpl. apply Z.mul_le_mono_nonneg_r; lia.
Qed.

Lemma py_round_comp (x y : Q) (n : nat) :
  x == y -> py_round x n = py_round y n.
Proof.
  intros E. unfold py_round. f_equal.
  apply round_half_even_comp. rewrite E. reflexivity.
Qed.

Lemma py_round_opp (x : Q) (n : nat) :
  py_round x n == x -> py_round (- x) n == - x.
Proof.
  intros H.
  pose proof (rounded_scaled x n H) as S.
  set (s := inject_Z (Zpos (pow10 n))) in *.
  set (k := round_half_even (x * s)) in *.
  assert (E : - x * s == inject_Z (- k)).
  { rewrite inject_Z_opp. qlra. }
  unfold py_round. fold s.
  rewrite (round_half_even_comp _ _ E), round_half_even_inject.
  assert (X : x == k # pow10 n).
  { rewrite <- H. unfold py_round. fold s. reflexivity. }
  rewrite X. unfold Qeq, Qopp. simpl. lia.
Qed.

Lemma py_round_abs (x : Q) (n : nat) :
  py_round x n == x -> py_round (Qabs x) n == Qabs x.
Proof.
  intros H. apply Qabs_case; intros _.
  - exact H.
  - apply py_round_opp. exact H.
Qed.

(* ------------------------------------------------------------------ *)
(** ** Unit: positions *)

Module UnitFacts.
Import Unit.

Lemma EPS_value : EPS == 1 # 2000.
Proof. reflexivity. Qed.

Lemma cap_position_init_pos (u : t) : init_pos (cap_position u) = init_pos u.
Proof. reflexivity. Qed.

Lemma cap_position_ok (u : t) :
  rounded (init_pos u) -> position_ok (cap_position u).
Proof.
  intros R. unfold position_ok, in_bounds, rounded.
  rewrite cap_position_init_pos.
  unfold cap_position. cbn [position set_position init_pos].
  set (A := Qabs (init_pos u)).
  set (c := Qmax (- A) (Qmin (position u) A)).
  assert (RA : py_round A POS_DEC_DIG == A) by (apply py_round_abs; exact R).
  assert (RN : py_round (- A) POS_DEC_DIG == - A)
    by (apply py_round_opp; exact RA).
  assert (A0 : 0 <= A) by apply Qabs_nonneg.
  assert (Lo : - A <= c) by apply Q.le_max_l.
  assert (Hi : c <= A).
  { apply Q.max_lub; [qlra | apply Q.le_min_r]. }
  repeat split.
  - apply py_round_ge; assumption.
  - apply py_round_le; assumption.
  - rewrite py_round_idempotent. reflexivity.
Qed.

Lemma move_to_ok (u : t) (p : Q) :
  rounded (init_pos u) -> position_ok (move_to u p).
Proof. intros R. apply cap_position_ok. exact R. Qed.

Lemma move_by_ok (u : t) (d : Q) :
  rounded (init_pos u) -> position_ok (move_by u d).
Proof. intros R. apply cap_position_ok. exact R. Qed.

Lemma deploy_close_to_ok (u : t) (f : Z) (ref_pos : Q) :
  rounded (init_pos u) -> position_ok (deploy_close_to u f ref_pos).
Proof. intros R. apply move_to_ok. exact R. Qed.

Lemma move_towards_ok (dt : Q) (u : t) (target speed : Q) :
  rounded (init_pos u) ->
  move_towards dt u target speed = u
  \/ position_ok (move_towards dt u target speed).
Proof.
  intros R. unfold move_towards.
  destruct (Qltb (position u) target);
    [right; apply move_to_ok; exact R |].
  destruct (Qltb target (position u));
    [right; apply move_to_ok; exact R | left; reflexivity].
Qed.

Lemma move_safely_away_from_pos_ok (u : t) (ref_pos : Q) :
  rounded (init_pos u) ->
  move_safely_away_from_pos u ref_pos = u
  \/ position_ok (move_safely_away_from_pos u ref_pos).
Proof.
  intros R. unfold move_safely_away_from_pos.
  destruct (Qltb (position u) (ref_pos + 1) && moving_to_neg u);
    [right; apply move_to_ok; exact R |].
  destruct (Qltb (ref_pos - 1) (position u) && moving_to_pos u);
    [right; apply move_to_ok; exact R | left; reflexivity].
Qed.

Lemma confirm_move_position (u : t) (g old_pos old_lag new_lag : Q) :
  position (confirm_move u g old_pos old_lag new_lag) = position u
  \/ position (confirm_move u g old_pos old_lag new_lag) = old_pos.
Proof.
  unfold confirm_move.
  repeat match goal with
         | |- context [if ?c then _ else _] => destruct c
         end; cbn; auto.
Qed.

Lemma set_up_position (u : t) (ip : Q) :
  EPS <= Qabs ip ->
  in_bounds (set_up u ip)
  /\ Qabs (position (set_up u ip) - ip) == EPS
  /\ ~ position (set_up u ip) == ip.
Proof.
  intros H. unfold in_bounds, set_up, moving_to_pos.
  cbn [position set_position init_pos set_init_pos].
  pose proof EPS_value as E.
  destruct (Qltb ip 0) eqn:C.
  - apply Qltb_spec in C.
    rewrite (Qabs_neg ip) in * by qlra.
    repeat split; try qlra.
    setoid_replace (ip + EPS * 1 - ip) with EPS by ring.
    apply Qabs_pos. qlra.
  - apply Qltb_false in C.
    rewrite (Qabs_pos ip) in * by qlra.
    repeat split; try qlra.
    setoid_replace (ip + EPS * -1 - ip) with (- EPS) by ring.
    rewrite Qabs_opp. apply Qabs_pos. qlra.
Qed.

(** C6, as amended: [move_by], [move_to], [deploy_close_to] (and with them
    the pushback of a fight) leave a position inside
    [[-|init_pos|, |init_pos|]] that is a fixed point of rounding to three
    decimals, provided [init_pos] itself has three decimals;
    [move_towards] and [move_safely_away_from_pos] do so whenever they
    move the unit.  [set_up] places the unit [EPS] inside its home edge,
    within the bounds but not on a rounded value, and the rollback of
    [confirm_move] restores [old_pos] as it was passed. *)
Theorem position_invariant (u : t) :
  rounded (init_pos u) ->
  (forall d, position_ok (move_by u d))
  /\ (forall p, position_ok (move_to u p))
  /\ (forall f ref_pos, position_ok (deploy_close_to u f ref_pos))
  /\ (forall dt target speed,
         move_towards dt u target speed = u
         \/ position_ok (move_towards dt u target speed))
  /\ (forall ref_pos,
         move_safely_away_from_pos u ref_pos = u
         \/ position_ok (move_safely_away_from_pos u ref_pos))
  /\ (forall g old_pos old_lag new_lag,
         position (confirm_move u g old_pos old_lag new_lag) = position u
         \/ position (confirm_move u g old_pos old_lag new_lag) = old_pos)
  /\ (forall ip, EPS <= Qabs ip ->
         in_bounds (set_up u ip)
         /\ Qabs (position (set_up u ip) - ip) == EPS).
Proof.
  intros R. repeat split.
  - apply move_by_ok, R.
  - apply move_by_ok, R.
  - apply move_by_ok, R.
  - apply move_to_ok, R.
  - apply move_to_ok, R.
  - apply move_to_ok, R.
  - apply deploy_close_to_ok, R.
  - apply deploy_close_to_ok, R.
  - apply deploy_close_to_ok, R.
  - intros. apply move_towards_ok, R.
  - intros. apply move_safely_away_from_pos_ok, R.
  - intros. apply confirm_move_position.
  - apply (set_up_position u ip H).
  - apply (set_up_position u ip H).
  - apply (set_up_position u ip H).
Qed.

Lemma position_invariant_witness :
  rounded (init_pos Sample.advanced_pike)
  /\ position_ok (move_by Sample.advanced_pike (1 # 3)).
Proof.
  assert (R : rounded (init_pos Sample.advanced_pike))
    by (vm_compute; reflexivity).
  split; [exact R |].
  destruct (position_invariant Sample.advanced_pike R) as [M _].
  exact (M (1 # 3)).
Defined.

(** C6 as stated fails at deployment: a unit set up at home position [5]
    stands at [4.9995], which is not a three-decimal value. *)
Lemma set_up_not_rounded :
  ~ position_ok (set_up (new Sample.pike Stance.NEUT 0) 5).
Proof.
  intros [_ R]. unfold rounded in R. vm_compute in R. discriminate R.
Qed.

(** The condition on [init_pos] is needed: with a home position of
    [6.0006] a move to the far edge is clamped to [6.0006] and then rounded
    to [6.001], outside the interval. *)
Lemma unrounded_home_escapes_bounds :
  let u := set_up (new Sample.pike Stance.NEUT 0) (- (60006 # 10000)) in
  position (move_to u 7) == 6001 # 1000 /\ ~ in_bounds (move_to u 7).
Proof.
  cbv zeta. split; [reflexivity |].
  intros [_ H]. vm_compute in H. apply H. reflexivity.
Qed.

(** ** Unit: confirm_move *)

(** The three cases of [confirm_move] as the code has them.  In the
    third case the lag is capped first, [c = min(new_lag, 1 - EPS)], and
    the gradient is scaled by [1 / (1 - c)] exactly when [old_lag < c]:
    the lag increased and the old lag is below the cap. *)
Lemma confirm_move_cases (u : t) (g old_pos old_lag new_lag : Q) :
  let r := confirm_move u g old_pos old_lag new_lag in
  let near_home := get_dist_to u (init_pos u) < MIN_DEPLOY_DIST in
  let overextends := old_lag < 1 /\ 1 <= new_lag in
  let c := Qmin new_lag (1 - EPS) in
  (near_home -> r = keeps_move u)
  /\ (~ near_home -> overextends -> r = rolls_back u old_pos)
  /\ (~ near_home -> ~ overextends ->
      forall scaled : Q,
        (old_lag < c -> scaled == g * (1 / (1 - c))) ->
        (~ old_lag < c -> scaled == g) ->
        (HALT_POWER_GRADIENT < scaled -> r = rolls_back u old_pos)
        /\ (~ HALT_POWER_GRADIENT < scaled ->
            ~ position u == old_pos -> r = keeps_move u)
        /\ (~ HALT_POWER_GRADIENT < scaled ->
            position u == old_pos -> r = u))
  /\ (old_lag < c <-> old_lag < new_lag /\ old_lag < 1 - EPS).
Proof.
  cbv zeta. unfold confirm_move, keeps_move, rolls_back.
  split; [| split; [| split]].
  - intros N. apply Qltb_spec in N. rewrite N. reflexivity.
  - intros N [O1 O2].
    destruct (Qltb (get_dist_to u (init_pos u)) MIN_DEPLOY_DIST) eqn:D.
    { apply Qltb_spec in D. contradiction. }
    apply Qltb_spec in O1. apply Qleb_spec in O2. rewrite O1, O2.
    reflexivity.
  - intros N O scaled S1 S2.
    destruct (Qltb (get_dist_to u (init_pos u)) MIN_DEPLOY_DIST) eqn:D.
    { apply Qltb_spec in D. contradiction. }
    destruct (Qltb old_lag 1 && Qleb 1 new_lag) eqn:V.
    { apply andb_true_iff in V. destruct V as [V1 V2].
      apply Qltb_spec in V1. apply Qleb_spec in V2. tauto. }
    set (c := Qmin new_lag (1 - EPS)) in *.
    assert (G : g * (if Qltb old_lag c then 1 / (1 - c) else 1) == scaled).
    { destruct (Qltb old_lag c) eqn:L.
      - apply Qltb_spec in L. rewrite (S1 L). reflexivity.
      - apply Qltb_false in L. rewrite S2; [ring | qlra]. }
    assert (T : Qltb HALT_POWER_GRADIENT
                  (g * (if Qltb old_lag c then 1 / (1 - c) else 1))
                = Qltb HALT_POWER_GRADIENT scaled).
    { unfold Qltb. f_equal. apply Qleb_comp; [exact G | reflexivity]. }
    rewrite T. clear T G.
    repeat split.
    + intros H. apply Qltb_spec in H. rewrite H. reflexivity.
    + intros H P.
      destruct (Qltb HALT_POWER_GRADIENT scaled) eqn:X.
      { apply Qltb_spec in X. contradiction. }
      apply Qeqb_false in P. rewrite P. reflexivity.
    + intros H P.
      destruct (Qltb HALT_POWER_GRADIENT scaled) eqn:X.
      { apply Qltb_spec in X. contradiction. }
      apply Qeqb_spec in P. rewrite P. reflexivity.
  - rewrite Q.min_glb_lt_iff. tauto.
Qed.

(** C8: the code misses the stated rule once the old lag is at or above
    the cap.  [confirm_move] overwrites [new_lag] with
    [min(new_lag, 1 - EPS)] before it tests [old_lag < new_lag], so from
    lag [1.5] to lag [2] the gradient stays unscaled and the move is kept;
    the stated rule, like the comment above that line (the gradient
    increases when the unit moves away from its support), scales the
    gradient by [2000] because the lag increased, and rolls the move
    back. *)
Theorem confirm_move_differs_from_spec :
  let u := Sample.advanced_pike in
  halted (confirm_move u 1 0 (3 # 2) 2) = false
  /\ position (confirm_move u 1 0 (3 # 2) 2) = position u
  /\ halted (confirm_move_spec u 1 0 (3 # 2) 2) = true
  /\ position (confirm_move_spec u 1 0 (3 # 2) 2) = 0.
Proof. vm_compute. repeat split. Qed.

Lemma confirm_move_cases_witness :
  confirm_move Sample.advanced_pike 1 2 (1 # 2) (3 # 4)
  = keeps_move Sample.advanced_pike.
Proof.
  destruct (confirm_move_cases Sample.advanced_pike 1 2 (1 # 2) (3 # 4))
    as (_ & _ & C & _).
  assert (N : ~ get_dist_to Sample.advanced_pike
                  (init_pos Sample.advanced_pike) < MIN_DEPLOY_DIST).
  { intros H. vm_compute in H. discriminate H. }
  assert (O : ~ ((1 # 2) < 1 /\ 1 <= (3 # 4))).
  { intros [_ H]. vm_compute in H. apply H. reflexivity. }
  destruct (C N O 4) as (_ & K & _).
  - intros _. vm_compute. reflexivity.
  - intros H. exfalso. apply H. vm_compute. reflexivity.
  - apply K.
    + intros H. vm_compute in H. discriminate H.
    + intros H. vm_compute in H. discriminate H.
Defined.
End UnitFacts.

(* ------------------------------------------------------------------ *)
(** ** Battle: the outcome *)

Module OutcomeFacts.
Import Battle.

Lemma defeated_spec (a : Army.t) :
  Army.defeated a = true <-> Army.deployed_units a = [].
Proof.
  unfold Army.defeated, Army.deployed_units, dict_values.
  destruct (Army.file_units a); simpl; split; congruence.
Qed.

Lemma not_defeated_spec (a : Army.t) :
  Army.defeated a = false <-> Army.deployed_units a <> [].
Proof.
  rewrite <- defeated_spec. destruct (Army.defeated a); split; congruence.
Qed.

(** C1: [decide_winner] returns [BOTH_LOST] exactly when neither army has
    a deployed unit, [WIN_1] exactly when only army 1 has one, [WIN_2]
    exactly when only army 2 has one, and [STALEMATE] exactly when both
    have. *)
Theorem decide_winner_correct (b : t) :
  let none_1 := Army.deployed_units (army_1 b) = [] in
  let none_2 := Army.deployed_units (army_2 b) = [] in
  (decide_winner b = BOTH_LOST <-> none_1 /\ none_2)
  /\ (decide_winner b = WIN_1 <-> ~ none_1 /\ none_2)
  /\ (decide_winner b = WIN_2 <-> none_1 /\ ~ none_2)
  /\ (decide_winner b = STALEMATE <-> ~ none_1 /\ ~ none_2).
Proof.
  cbv zeta. unfold decide_winner.
  rewrite <- !defeated_spec.
  destruct (Army.defeated (army_1 b)), (Army.defeated (army_2 b)); simpl;
    repeat split; intros; try discriminate; try congruence;
    try (destruct H; congruence).
Qed.
End OutcomeFacts.

(* ------------------------------------------------------------------ *)
(** ** Tuples of numbers *)

Lemma lex_compare_refl (a : list Q) : lex_compare a a = Eq.
Proof.
  induction a as [| x a IH]; simpl; [reflexivity |].
  assert (E : Qcompare x x = Eq) by (apply Qcompare_Eq; reflexivity).
  rewrite E. exact IH.
Qed.

Lemma lex_compare_antisym (a b : list Q) :
  lex_compare b a = CompOpp (lex_compare a b).
Proof.
  revert b. induction a as [| x a IH]; intros [| y b]; simpl; try reflexivity.
  rewrite <- (Qcompare_antisym x y).
  destruct (Qcompare x y); simpl; auto.
Qed.

Lemma lex_compare_trans (a b c : list Q) :
  lex_compare a b <> Gt -> lex_compare b c <> Gt -> lex_compare a c <> Gt.
Proof.
  revert b c. induction a as [| x a IH]; intros [| y b] [| z c]; simpl;
    try congruence.
  destruct (Qcompare_spec x y) as [E1 | L1 | G1];
    destruct (Qcompare_spec y z) as [E2 | L2 | G2];
    destruct (Qcompare_spec x z) as [E3 | L3 | G3];
    try congruence; try (exfalso; qlra).
  apply IH.
Qed.

(* ------------------------------------------------------------------ *)
(** ** FightPairs: the best remaining pair *)

Module BestRemainingFacts.
Import FightPairs.

Lemma key_le_refl (k : key) : key_le k k.
Proof.
  unfold key_le, key_compare. rewrite lex_compare_refl. discriminate.
Qed.

Lemma key_le_trans (k1 k2 k3 : key) :
  key_le k1 k2 -> key_le k2 k3 -> key_le k1 k3.
Proof. unfold key_le, key_compare. apply lex_compare_trans. Qed.

Lemma key_compare_Gt_le (k1 k2 : key) :
  key_compare k1 k2 = Gt -> key_le k2 k1.
Proof.
  unfold key_le, key_compare. intros H.
  rewrite (lex_compare_antisym (components k1) (components k2)), H.
  discriminate.
Qed.

Lemma tuple_gt_le (a b : key * ref * ref) (g : bool) :
  tuple_gt a b = Ok g ->
  key_le (item_key b) (item_key (if g then a else b))
  /\ key_le (item_key a) (item_key (if g then a else b)).
Proof.
  destruct a as [[k1 a1] x1], b as [[k2 a2] x2].
  unfold tuple_gt, item_key. cbn [fst snd].
  destruct (key_compare k1 k2) eqn:C.
  - destruct (Nat.eqb a1 a2 && Nat.eqb x1 x2); cbn; [| discriminate].
    intros E. injection E as <-. cbn [fst].
    assert (C' : key_compare k2 k1 = Eq).
    { unfold key_compare in *.
      rewrite (lex_compare_antisym (components k1) (components k2)), C.
      reflexivity. }
    repeat split; try apply key_le_refl; unfold key_le;
      rewrite ?C, ?C'; discriminate.
  - intros E. injection E as <-. cbn [fst].
    repeat split; try apply key_le_refl.
    unfold key_le. rewrite C. discriminate.
  - intros E. injection E as <-. cbn [fst].
    repeat split; try apply key_le_refl.
    apply key_compare_Gt_le. exact C.
Qed.

Lemma tuple_gt_defined (a b : key * ref * ref) :
  (key_compare (item_key a) (item_key b) = Eq -> item_pair a = item_pair b) ->
  exists g, tuple_gt a b = Ok g.
Proof.
  destruct a as [[k1 a1] x1], b as [[k2 a2] x2].
  unfold tuple_gt, item_key, item_pair. cbn [fst snd]. intros H.
  destruct (key_compare k1 k2); eauto.
  specialize (H eq_refl). injection H as -> ->.
  rewrite !Nat.eqb_refl. simpl. eauto.
Qed.

Lemma max_from_maximum (items : list (key * ref * ref)) :
  forall cur m,
    max_from cur items = Ok m ->
    In m (cur :: items)
    /\ forall x, In x (cur :: items) -> key_le (item_key x) (item_key m).
Proof.
  induction items as [| item rest IH]; intros cur m H.
  - simpl in H. injection H as <-. split; [left; reflexivity |].
    intros x [<- | []]. apply key_le_refl.
  - simpl in H. destruct (tuple_gt item cur) as [g | e] eqn:T;
      [| discriminate].
    simpl in H. apply IH in H. destruct H as [M L].
    apply tuple_gt_le in T. destruct T as (T1 & T2).
    split.
    + destruct M as [<- | M].
      * destruct g; [right; left | left]; reflexivity.
      * right; right; exact M.
    + intros x [<- | [<- | X]].
      * eapply key_le_trans; [exact T1 |]. apply L. left. reflexivity.
      * eapply key_le_trans; [exact T2 |]. apply L. left. reflexivity.
      * apply L. right. exact X.
Qed.

Lemma max_from_defined (items : list (key * ref * ref)) :
  forall cur,
    no_ties (cur :: items) -> exists m, max_from cur items = Ok m.
Proof.
  induction items as [| item rest IH]; intros cur N.
  - simpl. eauto.
  - simpl.
    destruct (tuple_gt_defined item cur) as [g T].
    { apply N; [right; left | left]; reflexivity. }
    rewrite T. simpl. apply IH.
    intros x y X Y. apply N.
    + destruct X as [<- | X]; [| right; right; exact X].
      destruct g; [right; left | left]; reflexivity.
    + destruct Y as [<- | Y]; [| right; right; exact Y].
      destruct g; [right; left | left]; reflexivity.
Qed.

Lemma max_tuple_maximum (items : list (key * ref * ref)) :
  items <> [] -> no_ties items ->
  exists m, max_tuple items = Ok m
            /\ In m items
            /\ forall x, In x items -> key_le (item_key x) (item_key m).
Proof.
  intros NE N. destruct items as [| first rest]; [contradiction |].
  simpl. destruct (max_from_defined rest first N) as [m M].
  exists m. split; [exact M |]. apply max_from_maximum. exact M.
Qed.

(** *** The inverted assignment map *)

Lemma dict_get_set_same {V} (k : ref) (v : V) (d : list (ref * V)) :
  dict_get Nat.eqb k (dict_set Nat.eqb k v d) = Some v.
Proof.
  induction d as [| [k' v'] d IH]; simpl.
  - rewrite Nat.eqb_refl. reflexivity.
  - destruct (Nat.eqb k k') eqn:E; simpl; rewrite E; auto.
Qed.

Lemma dict_get_set_other {V} (k k0 : ref) (v : V) (d : list (ref * V)) :
  k <> k0 ->
  dict_get Nat.eqb k (dict_set Nat.eqb k0 v d) = dict_get Nat.eqb k d.
Proof.
  intros N. induction d as [| [k' v'] d IH]; simpl.
  - apply Nat.eqb_neq in N. rewrite N. reflexivity.
  - destruct (Nat.eqb k0 k') eqn:E; simpl.
    + apply Nat.eqb_eq in E. subst k'.
      apply Nat.eqb_neq in N. rewrite N. reflexivity.
    + destruct (Nat.eqb k k'); auto.
Qed.

Lemma mem_ref_In (r : ref) (l : list ref) : mem_ref r l = true <-> In r l.
Proof.
  induction l as [| x l IH]; simpl; [split; [discriminate | tauto] |].
  rewrite orb_true_iff, Nat.eqb_eq, IH. intuition congruence.
Qed.

Lemma mem_ref_app (r : ref) (l1 l2 : list ref) :
  mem_ref r (l1 ++ l2) = mem_ref r l1 || mem_ref r l2.
Proof.
  induction l1 as [| x l1 IH]; simpl; [reflexivity |].
  rewrite IH, orb_assoc. reflexivity.
Qed.

Lemma add_In (x r : ref) (s : list ref) :
  In r (PySet.add x s) <-> In r s \/ r = x.
Proof.
  unfold PySet.add. destruct (mem_ref x s) eqn:M.
  - apply mem_ref_In in M. intuition congruence.
  - rewrite in_app_iff. simpl. intuition congruence.
Qed.

Lemma union_In (r : ref) (t s : list ref) :
  In r (PySet.union s t) <-> In r s \/ In r t.
Proof.
  unfold PySet.union. revert s.
  induction t as [| x t IH]; intros s; simpl; [tauto |].
  rewrite IH, add_In. intuition congruence.
Qed.

Lemma invert_step (output : list (ref * list ref)) (k0 v0 k v : ref) :
  listed
    (match dict_get Nat.eqb v0 output with
     | Some s => dict_set Nat.eqb v0 (PySet.union s [k0]) output
     | None => dict_set Nat.eqb v0 [k0] output
     end) k v
  <-> listed output k v \/ (k0, v0) = (k, v).
Proof.
  unfold listed.
  destruct (Nat.eq_dec v v0) as [-> | N].
  - destruct (dict_get Nat.eqb v0 output) as [s0 |] eqn:G.
    + rewrite dict_get_set_same. split.
      * intros (s & E & M). injection E as <-.
        change (In k (PySet.add k0 s0)) in M.
        apply add_In in M. destruct M as [M | <-]; eauto.
      * intros [(s & E & M) | E].
        -- injection E as <-. eexists. split; [reflexivity |].
           change (In k (PySet.add k0 s0)). apply add_In. auto.
        -- injection E as <-. eexists. split; [reflexivity |].
           change (In k0 (PySet.add k0 s0)). apply add_In. auto.
    + rewrite dict_get_set_same. split.
      * intros (s & E & M). injection E as <-.
        destruct M as [<- | []]. auto.
      * intros [(s & E & M) | E]; [discriminate |].
        injection E as <-. eexists. split; [reflexivity | left; reflexivity].
  - destruct (dict_get Nat.eqb v0 output) as [s0 |];
      rewrite dict_get_set_other by exact N;
      (split; [auto | intros [H | E]; [exact H | congruence]]).
Qed.

Lemma invert_dictionary_listed (init : list (ref * ref)) (k v : ref) :
  listed (invert_dictionary init) k v <-> In (k, v) init.
Proof.
  unfold invert_dictionary.
  assert (G : forall output,
             listed
               (fold_left
                  (fun output kv =>
                     let '(key, value) := kv in
                     match dict_get Nat.eqb value output with
                     | Some s =>
                         dict_set Nat.eqb value (PySet.union s [key]) output
                     | None => dict_set Nat.eqb value [key] output
                     end) init output) k v
             <-> listed output k v \/ In (k, v) init).
  { induction init as [| [k0 v0] init IH]; intros output; cbn [fold_left].
    - simpl. tauto.
    - rewrite IH, invert_step. simpl. tauto. }
  rewrite G. unfold listed. simpl. split.
  - intros [(s & E & _) | H]; [discriminate | exact H].
  - auto.
Qed.

(** *** The nine levels of the key *)

Lemma sort_key_levels (h : store) (fp : t) (unit target : ref) :
  levels h fp unit target
    (sort_key h fp (invert_dictionary (_assignments fp)) unit target).
Proof.
  constructor; unfold sort_key; cbn.
  - reflexivity.
  - intros F. unfold Unit.is_in_front. rewrite F, Z.eqb_refl.
    apply Qleb_spec.
  - intros F. unfold Unit.is_in_front. apply Z.eqb_neq in F. rewrite F.
    apply Qleb_spec.
  - unfold Unit.is_in_front. apply Z.eqb_eq.
  - rewrite mem_ref_In, <- invert_dictionary_listed. unfold listed.
    destruct (dict_get Nat.eqb unit (invert_dictionary (_assignments fp)))
      as [s |]; split.
    + eauto.
    + intros (s' & E & M). injection E as <-. exact M.
    + intros [].
    + intros (s' & E & _). discriminate.
  - unfold dict_mem.
    destruct (dict_get Nat.eqb target (_assignments fp));
      simpl; split; congruence.
  - reflexivity.
  - reflexivity.
  - split; reflexivity.
  - repeat split; reflexivity.
Qed.

(** *** The selection *)

Section Selection.
Variable I : PySet.impl.
Variable h : store.
Variable fp : t.

Let K (p : ref * ref) : key :=
  sort_key h fp (invert_dictionary (_assignments fp)) (fst p) (snd p).

Let items : list (key * ref * ref) :=
  map (fun p => (K p, fst p, snd p)) (candidates I fp).

Lemma items_In (x : key * ref * ref) :
  In x items ->
  In (item_pair x) (candidates I fp) /\ item_key x = K (item_pair x).
Proof.
  unfold items. rewrite in_map_iff. intros ([u t] & <- & P).
  split; [exact P | reflexivity].
Qed.

(** C2, as amended: on a non-empty pool in which no two pairs carry the
    same key, phase 3 selects the pair that is greatest in the
    lexicographic order of the key tuple, assigns it and removes the
    attacker from the pool.  The tuple has the nine levels of the
    specification, except that level 5 is "the target itself has no
    assignment yet" (it is not a key of the assignment map). *)
Theorem best_remaining_is_maximum :
  candidates I fp <> [] ->
  (forall p q, In p (candidates I fp) -> In q (candidates I fp) ->
               key_compare (K p) (K q) = Eq -> p = q) ->
  exists unit target,
    In (unit, target) (candidates I fp)
    /\ best_remaining I h fp = Ok (K (unit, target), unit, target)
    /\ levels h fp unit target (K (unit, target))
    /\ (forall p, In p (candidates I fp) ->
                  key_le (K p) (K (unit, target)))
    /\ assign_best_remaining I h fp
       = Ok (mk (dict_del Nat.eqb unit (_potentials fp))
                (dict_set Nat.eqb unit target (_assignments fp))
                (two_way_pairs fp) (one_way_pairs fp) (all_engaged fp)).
Proof.
  intros NE NT.
  assert (N : no_ties items).
  { intros x y X Y E.
    apply items_In in X. apply items_In in Y.
    destruct X as [X KX], Y as [Y KY]. rewrite KX, KY in E.
    exact (NT _ _ X Y E). }
  assert (B : exists m, best_remaining I h fp = Ok m
                        /\ In m items
                        /\ forall x, In x items ->
                                     key_le (item_key x) (item_key m)).
  { change (best_remaining I h fp) with (max_tuple items).
    apply max_tuple_maximum; [| exact N].
    unfold items. intros E. apply map_eq_nil in E. contradiction. }
  destruct B as ([[k u] t] & B & M & L).
  pose proof (items_In _ M) as [P E].
  unfold item_pair, item_key in P, E. cbn [fst snd] in P, E. subst k.
  exists u, t. split; [| split; [| split; [| split]]].
  - exact P.
  - exact B.
  - apply sort_key_levels.
  - intros p Q.
    apply (L (K p, fst p, snd p)).
    unfold items. apply in_map_iff. exists p. split; [reflexivity | exact Q].
  - unfold assign_best_remaining. rewrite B. reflexivity.
Qed.
End Selection.

(** Whenever the selection returns, with or without ties elsewhere in the
    pool, the pair it returns is a candidate with a greatest key. *)
Lemma best_remaining_returns_maximum (I : PySet.impl) (h : store) (fp : t)
    (k : key) (unit target : ref) :
  best_remaining I h fp = Ok (k, unit, target) ->
  In (unit, target) (candidates I fp)
  /\ k = sort_key h fp (invert_dictionary (_assignments fp)) unit target
  /\ forall u tg,
       In (u, tg) (candidates I fp) ->
       key_le (sort_key h fp (invert_dictionary (_assignments fp)) u tg) k.
Proof.
  unfold best_remaining. intros B.
  set (items := map _ (candidates I fp)) in B.
  assert (M : In (k, unit, target) items /\
              forall x, In x items -> key_le (item_key x) k).
  { destruct items as [| first rest]; [discriminate |].
    apply max_from_maximum in B. exact B. }
  destruct M as [M L]. unfold items in M, L.
  apply in_map_iff in M. destruct M as ([u0 t0] & E & C).
  cbn [fst snd] in E. injection E as <- <- <-.
  split; [exact C |]. split; [reflexivity |].
  intros u tg X.
  apply (L (sort_key h fp (invert_dictionary (_assignments fp)) u tg, u, tg)).
  apply in_map_iff. exists (u, tg). split; [reflexivity | exact X].
Qed.

Lemma best_remaining_is_maximum_witness :
  exists unit target,
    best_remaining Sample.insertion_order Sample.flank_store
      Sample.flank_pool
    = Ok (sort_key Sample.flank_store Sample.flank_pool
            (invert_dictionary (_assignments Sample.flank_pool)) unit target,
          unit, target)
    /\ In (unit, target)
          (candidates Sample.insertion_order Sample.flank_pool).
Proof.
  assert (NE : candidates Sample.insertion_order Sample.flank_pool <> [])
    by (vm_compute; discriminate).
  destruct (best_remaining_is_maximum Sample.insertion_order
              Sample.flank_store Sample.flank_pool NE)
    as (u & t & P & B & _).
  - intros p q Hp Hq.
    vm_compute in Hp, Hq.
    destruct Hp as [<- | [<- | []]], Hq as [<- | [<- | []]];
      intros E; try reflexivity; vm_compute in E; discriminate E.
  - exists u, t. split; [exact B | exact P].
Defined.

(** C2 as stated fails at level 5.  Unit [0] can reach [3] and [4], which
    tie on levels 1 to 4.  Target [3] has its own assignment but nobody is
    assigned to it; target [4] has no assignment but is claimed by [2].
    The code selects [(0, 4)]; under "target not yet claimed by anyone"
    the pair [(0, 3)] is greater. *)
Lemma level_5_is_not_unclaimed :
  let fp := Sample.flank_pool in
  let K_spec u t :=
    sort_key_spec Sample.flank_store fp
      (invert_dictionary (_assignments fp)) u t in
  (exists k,
      best_remaining Sample.insertion_order Sample.flank_store fp
      = Ok (k, 0%nat, 4%nat))
  /\ In (0%nat, 3%nat) (candidates Sample.insertion_order fp)
  /\ key_compare (K_spec 0%nat 3%nat) (K_spec 0%nat 4%nat) = Gt.
Proof.
  cbv zeta. split; [| split].
  - eexists. vm_compute. reflexivity.
  - vm_compute. auto.
  - vm_compute. reflexivity.
Qed.

(** When two pairs of different attackers carry the same key, the
    comparison reaches the [Unit] objects and [max] raises: on two
    mirrored lines fresh from [Army.add] the matching does not return. *)
Lemma tie_raises_TypeError :
  assign_all Sample.insertion_order Sample.mirror_store
    Sample.mirror_army_1 Sample.mirror_army_2 new
  = Raise TypeError.
Proof. vm_compute. reflexivity. Qed.
End BestRemainingFacts.

Lemma fold_left_invariant {A B} (P : A -> Prop) (f : A -> B -> A)
    (l : list B) :
  (forall acc x, P acc -> P (f acc x)) ->
  forall init, P init -> P (fold_left f l init).
Proof.
  intros S. induction l as [| x l IH]; intros init H; simpl; auto.
Qed.

(* ------------------------------------------------------------------ *)
(** ** FightPairs: pairing *)

Module PairingFacts.
Import FightPairs.
Import BestRemainingFacts.

(** *** Sets *)

Lemma nth_remove_nth_perm (s : list ref) :
  forall i d, (i < List.length s)%nat ->
              Permutation (nth i s d :: PySet.remove_nth i s) s.
Proof.
  induction s as [| x s IH]; intros i d L; simpl in L; [lia |].
  destruct i as [| j]; simpl; [reflexivity |].
  rewrite perm_swap. constructor. apply IH. lia.
Qed.

Lemma pick_perm (c : list ref -> nat) (s s' : list ref) (x : ref) :
  PySet.pick c s = Some (x, s') -> Permutation (x :: s') s.
Proof.
  unfold PySet.pick. destruct s as [| y s0]; [discriminate |].
  pose proof (Nat.mod_upper_bound (c (y :: s0)) (List.length (y :: s0)))
    as B.
  revert B.
  generalize (c (y :: s0) mod List.length (y :: s0))%nat as i.
  intros i B E. injection E as <- <-.
  apply (nth_remove_nth_perm (y :: s0) i y). apply B. discriminate.
Qed.

Lemma pick_none (c : list ref -> nat) (s : list ref) :
  PySet.pick c s = None -> s = [].
Proof. destruct s; [reflexivity | discriminate]. Qed.

Lemma remove_ref_perm (x : ref) (s : list ref) :
  mem_ref x s = true -> Permutation (x :: remove_ref x s) s.
Proof.
  induction s as [| y s IH]; simpl; [discriminate |].
  destruct (Nat.eqb x y) eqn:E.
  - apply Nat.eqb_eq in E. subst y. reflexivity.
  - simpl. intros M. rewrite perm_swap. constructor. apply IH. exact M.
Qed.

Lemma remove_perm (x : ref) (s s' : list ref) :
  PySet.remove x s = Ok s' -> Permutation (x :: s') s.
Proof.
  unfold PySet.remove. destruct (mem_ref x s) eqn:M; [| discriminate].
  intros E. injection E as <-. apply remove_ref_perm. exact M.
Qed.

(** *** Dictionaries *)

Lemma dict_set_keys_In {V} (x k : ref) (v : V) (d : list (ref * V)) :
  In x (dict_keys (dict_set Nat.eqb k v d)) <-> In x (dict_keys d) \/ x = k.
Proof.
  induction d as [| [k' v'] d IH]; simpl.
  - intuition congruence.
  - destruct (Nat.eqb k k') eqn:E; simpl.
    + apply Nat.eqb_eq in E. subst k'. intuition congruence.
    + rewrite IH. tauto.
Qed.

Lemma dict_set_keys_NoDup {V} (k : ref) (v : V) (d : list (ref * V)) :
  NoDup (dict_keys d) -> NoDup (dict_keys (dict_set Nat.eqb k v d)).
Proof.
  induction d as [| [k' v'] d IH]; simpl; intros N.
  - constructor; [simpl; tauto | constructor].
  - inversion N as [| ? ? NI N']. subst.
    destruct (Nat.eqb k k') eqn:E; simpl.
    + constructor; assumption.
    + constructor; [| apply IH; exact N'].
      change (~ In k' (dict_keys (dict_set Nat.eqb k v d))).
      rewrite dict_set_keys_In. apply Nat.eqb_neq in E.
      intuition congruence.
Qed.

Lemma dict_getitem_get {V} (k : ref) (v : V) (d : list (ref * V)) :
  dict_getitem Nat.eqb k d = Ok v -> dict_get Nat.eqb k d = Some v.
Proof.
  unfold dict_getitem. destruct (dict_get Nat.eqb k d); congruence.
Qed.

(** *** The loop of [match_into_pairs] *)

Lemma perm_two_appended (l1 l2 l3 : list ref) (x y : ref) :
  Permutation (l1 ++ (l2 ++ [x]) ++ (l3 ++ [y]))
              (x :: y :: l1 ++ l2 ++ l3).
Proof.
  transitivity ((l1 ++ l2) ++ x :: (l3 ++ [y])).
  { rewrite <- !app_assoc. simpl. reflexivity. }
  rewrite <- Permutation_middle. apply perm_skip.
  transitivity ((l1 ++ l2 ++ l3) ++ [y]).
  { rewrite <- !app_assoc. reflexivity. }
  symmetry. apply Permutation_cons_append.
Qed.

Lemma perm_one_appended (l1 l2 : list ref) (x : ref) :
  Permutation ((l1 ++ [x]) ++ l2) (x :: l1 ++ l2).
Proof.
  rewrite <- app_assoc. simpl. symmetry. apply Permutation_middle.
Qed.

Lemma attackers_two_way (p a e : _) (tw ow : list (ref * ref)) (x y : ref) :
  Permutation
    (attackers (mk p a (tw ++ [(x, y)]) ow e))
    (x :: y :: attackers (mk p a tw ow e)).
Proof.
  unfold attackers. cbn [one_way_pairs two_way_pairs].
  rewrite !map_app. cbn [map fst snd].
  apply perm_two_appended.
Qed.

Lemma attackers_one_way (p a e : _) (tw ow : list (ref * ref)) (x y : ref) :
  Permutation
    (attackers (mk p a tw (ow ++ [(x, y)]) e))
    (x :: attackers (mk p a tw ow e)).
Proof.
  unfold attackers. cbn [one_way_pairs two_way_pairs].
  rewrite !map_app. cbn [map fst snd].
  apply perm_one_appended.
Qed.

Lemma match_loop_spec (I : PySet.impl) :
  forall n remaining fp fp',
    (List.length remaining <= n)%nat ->
    match_loop I n remaining fp = Ok fp' ->
    _assignments fp' = _assignments fp
    /\ _potentials fp' = _potentials fp
    /\ Permutation (attackers fp') (remaining ++ attackers fp)
    /\ (forall a b, In (a, b) (two_way_pairs fp') ->
                    In (a, b) (two_way_pairs fp) \/ mutual fp a b)
    /\ (forall a b, In (a, b) (one_way_pairs fp') ->
                    In (a, b) (one_way_pairs fp) \/ one_sided fp a b).
Proof.
  induction n as [| k IH]; intros remaining fp fp' L H.
  - destruct remaining; [| simpl in L; lia].
    simpl in H. injection H as <-. repeat split; auto.
  - simpl in H. unfold PySet.pop in H.
    destruct (PySet.pick (PySet.pop_choice I) remaining)
      as [[unit_A rem1] |] eqn:P.
    2:{ apply pick_none in P. subst remaining.
        injection H as <-. repeat split; auto. }
    apply pick_perm in P.
    assert (L1 : (S (List.length rem1) <= S k)%nat).
    { rewrite <- L. apply Nat.eq_le_incl.
      exact (Permutation_length P). }
    destruct (dict_getitem Nat.eqb unit_A (_assignments fp))
      as [unit_B | e] eqn:G; [| discriminate].
    apply dict_getitem_get in G. cbn [bind] in H.
    destruct (match dict_get Nat.eqb unit_B (_assignments fp) with
              | Some r => Nat.eqb unit_A r
              | None => false
              end) eqn:T.
    + destruct (PySet.remove unit_B rem1) as [rem2 | e] eqn:R;
        [| discriminate].
      cbn [bind] in H. apply remove_perm in R.
      apply IH in H.
      2:{ pose proof (Permutation_length R) as LR. simpl in LR. lia. }
      destruct H as (HA & HP & HQ & H2 & H1).
      cbn [_assignments _potentials two_way_pairs one_way_pairs] in *.
      assert (M : mutual fp unit_A unit_B).
      { split; [exact G |].
        destruct (dict_get Nat.eqb unit_B (_assignments fp)) as [r |];
          [| discriminate].
        apply Nat.eqb_eq in T. subst r. reflexivity. }
      split; [exact HA |]. split; [exact HP |]. split; [| split].
      * rewrite HQ, attackers_two_way.
        destruct fp as [p0 a0 tw ow e0]. cbn [_potentials _assignments
          two_way_pairs one_way_pairs all_engaged].
        rewrite <- P, <- R.
        rewrite <- !Permutation_middle. simpl.
        apply perm_skip. apply perm_skip. reflexivity.
      * intros a b X. apply H2 in X. destruct X as [X | X].
        -- apply in_app_iff in X. destruct X as [X | [X | []]]; auto.
           injection X as <- <-. right. exact M.
        -- right. exact X.
      * intros a b X. apply H1 in X. destruct X as [X | X]; auto.
    + apply IH in H; [| lia].
      destruct H as (HA & HP & HQ & H2 & H1).
      cbn [_assignments _potentials two_way_pairs one_way_pairs] in *.
      assert (M : one_sided fp unit_A unit_B).
      { split; [exact G |].
        destruct (dict_get Nat.eqb unit_B (_assignments fp)) as [r |];
          [| discriminate].
        intros E. injection E as ->. rewrite Nat.eqb_refl in T.
        discriminate. }
      split; [exact HA |]. split; [exact HP |]. split; [| split].
      * rewrite HQ, attackers_one_way.
        destruct fp as [p0 a0 tw ow e0]. cbn [_potentials _assignments
          two_way_pairs one_way_pairs all_engaged].
        rewrite <- P.
        rewrite <- !Permutation_middle. simpl. reflexivity.
      * intros a b X. apply H2 in X. destruct X as [X | X]; auto.
      * intros a b X. apply H1 in X. destruct X as [X | X].
        -- apply in_app_iff in X. destruct X as [X | [X | []]]; auto.
           injection X as <- <-. right. exact M.
        -- right. exact X.
Qed.

(** *** Phases 1 to 3 *)

Lemma add_single_potentials_ready (h : store) (fp : t) (file : Z)
    (unit : ref) (opposing : Army.t) :
  ready fp -> ready (add_single_potentials h fp file unit opposing).
Proof.
  unfold add_single_potentials.
  destruct (PySet.union _ _); auto.
Qed.

Lemma add_all_potentials_ready (h : store) (a1 a2 : Army.t) (fp : t) :
  ready fp -> ready (add_all_potentials h a1 a2 fp).
Proof.
  intros R. unfold add_all_potentials.
  apply fold_left_invariant;
    [intros; apply add_single_potentials_ready; assumption |].
  apply fold_left_invariant;
    [intros; apply add_single_potentials_ready; assumption | exact R].
Qed.

Lemma assign_if_unique_target_ready (fp : t) :
  ready fp -> ready (assign_if_unique_target fp).
Proof.
  unfold assign_if_unique_target. apply fold_left_invariant.
  intros acc [u ts] (N & T & O). cbn [fst snd].
  destruct ts as [| target [| ? ?]]; try (repeat split; assumption).
  repeat split; cbn; try assumption.
  apply dict_set_keys_NoDup. exact N.
Qed.

Lemma assign_best_remaining_ready (I : PySet.impl) (h : store) (fp fp' : t) :
  assign_best_remaining I h fp = Ok fp' -> ready fp -> ready fp'.
Proof.
  unfold assign_best_remaining.
  destruct (best_remaining I h fp) as [[[k u] tg] | e]; [| discriminate].
  cbn. intros E (N & T & O). injection E as <-.
  repeat split; cbn; try assumption.
  apply dict_set_keys_NoDup. exact N.
Qed.

Lemma assign_while_potentials_ready (I : PySet.impl) (h : store) :
  forall n fp fp',
    assign_while_potentials I h n fp = Ok fp' -> ready fp -> ready fp'.
Proof.
  induction n as [| k IH]; intros fp fp' H R; simpl in H.
  - destruct (_potentials fp); injection H as <-; exact R.
  - destruct (_potentials fp); [injection H as <-; exact R |].
    destruct (assign_best_remaining I h fp) as [fp1 | e] eqn:A;
      [| discriminate].
    cbn in H. eapply IH; [exact H |].
    eapply assign_best_remaining_ready; eassumption.
Qed.

(** *** The loop over the pool stops by itself *)

Lemma dict_del_length {V} (k : ref) (d : list (ref * V)) :
  In k (dict_keys d) ->
  S (List.length (dict_del Nat.eqb k d)) = List.length d.
Proof.
  induction d as [| [k' v'] d IH]; simpl; [tauto |].
  destruct (Nat.eqb k k') eqn:E; [reflexivity |].
  intros [-> | H]; [rewrite Nat.eqb_refl in E; discriminate |].
  simpl. rewrite IH; auto.
Qed.

Lemma candidates_attacker (I : PySet.impl) (fp : t) (u tg : ref) :
  In (u, tg) (candidates I fp) -> In u (dict_keys (_potentials fp)).
Proof.
  unfold candidates. rewrite in_flat_map.
  intros ([u' ts] & P & M). rewrite in_map_iff in M.
  destruct M as (x & E & _). injection E as <- _.
  unfold dict_keys. apply in_map_iff. exists (u', ts). auto.
Qed.

Lemma max_tuple_In (items : list (key * ref * ref)) (m : key * ref * ref) :
  max_tuple items = Ok m -> In m items.
Proof.
  destruct items as [| first rest]; [discriminate |].
  intros H. apply max_from_maximum in H. apply H.
Qed.

Lemma assign_best_remaining_shrinks (I : PySet.impl) (h : store)
    (fp fp' : t) :
  assign_best_remaining I h fp = Ok fp' ->
  S (List.length (_potentials fp')) = List.length (_potentials fp).
Proof.
  unfold assign_best_remaining.
  destruct (best_remaining I h fp) as [[[k u] tg] | e] eqn:B;
    [| discriminate].
  cbn. intros E. injection E as <-. cbn [_potentials].
  apply dict_del_length.
  unfold best_remaining in B. apply max_tuple_In in B.
  apply in_map_iff in B. destruct B as ([u' t'] & E & C).
  injection E as _ <- <-.
  eapply candidates_attacker. exact C.
Qed.

(** [len(self._potentials)] iterations leave the pool empty: the
    [while] loop ends there, and not before. *)
Lemma assign_while_potentials_empties (I : PySet.impl) (h : store) :
  forall n fp fp',
    (List.length (_potentials fp) <= n)%nat ->
    assign_while_potentials I h n fp = Ok fp' ->
    _potentials fp' = [].
Proof.
  induction n as [| k IH]; intros fp fp' L H; simpl in H.
  - destruct (_potentials fp) eqn:P; injection H as <-;
      [exact P | simpl in L; lia].
  - destruct (_potentials fp) eqn:P; [injection H as <-; exact P |].
    destruct (assign_best_remaining I h fp) as [fp1 | e] eqn:A;
      [| discriminate].
    cbn in H. apply IH in H; [exact H |].
    apply assign_best_remaining_shrinks in A.
    rewrite P in A. simpl in L, A. lia.
Qed.

(** *** The pairs *)

(** C3, as amended: after a run of [assign_all] that returns, every
    assigned unit acts in exactly one pair (as the attacker of a one-way
    pair or as a member of a two-way pair) and no unit acts in two; the
    members of a two-way pair are assigned to each other; in a one-way
    pair the attacker is assigned to the target and the target is not
    assigned to the attacker.  A unit may still be the target of several
    one-way pairs. *)
Theorem assign_all_pairs (I : PySet.impl) (h : store) (a1 a2 : Army.t)
    (fp fp' : t) :
  assign_all I h a1 a2 fp = Ok fp' ->
  NoDup (attackers fp')
  /\ Permutation (attackers fp') (dict_keys (_assignments fp'))
  /\ (forall a b, In (a, b) (two_way_pairs fp') -> mutual fp' a b)
  /\ (forall a b, In (a, b) (one_way_pairs fp') -> one_sided fp' a b).
Proof.
  unfold assign_all.
  set (fp0 := assign_if_unique_target
                (add_all_potentials h a1 a2 (reset fp))).
  assert (R0 : ready fp0).
  { apply assign_if_unique_target_ready, add_all_potentials_ready.
    repeat split; constructor. }
  destruct (assign_while_potentials I h (List.length (_potentials fp0)) fp0)
    as [fp1 | e] eqn:W; [| discriminate].
  cbn [bind]. intros H.
  pose proof (assign_while_potentials_ready I h _ _ _ W R0)
    as (N & T & O).
  unfold match_into_pairs in H.
  apply match_loop_spec in H; [| apply Nat.le_refl].
  destruct H as (HA & _ & HQ & H2 & H1).
  assert (P : Permutation (attackers fp') (dict_keys (_assignments fp'))).
  { rewrite HQ, HA. unfold attackers. rewrite T, O. simpl.
    rewrite app_nil_r. reflexivity. }
  split; [| split; [exact P | split]].
  - eapply Permutation_NoDup; [symmetry; exact P |].
    rewrite HA. exact N.
  - intros a b X. apply H2 in X. rewrite T in X.
    destruct X as [[] | X]. unfold mutual in *. rewrite HA. exact X.
  - intros a b X. apply H1 in X. rewrite O in X.
    destruct X as [[] | X]. unfold one_sided in *. rewrite HA. exact X.
Qed.

Lemma assign_all_pairs_witness :
  exists fp',
    assign_all Sample.insertion_order Sample.shared_target_store
      Sample.shared_target_army_1 Sample.shared_target_army_2 new
    = Ok fp'
    /\ NoDup (attackers fp').
Proof.
  eexists. split.
  - vm_compute. reflexivity.
  - eapply (assign_all_pairs Sample.insertion_order
              Sample.shared_target_store Sample.shared_target_army_1
              Sample.shared_target_army_2 new).
    vm_compute. reflexivity.
Defined.

(** C3 as stated fails when two units pick the same target: the pike in
    file 0 of army 2 is in the two-way pair with its frontal opponent and
    in the one-way pair of the flanking pike. *)
Lemma shared_target_in_two_pairs :
  exists fp',
    assign_all Sample.insertion_order Sample.shared_target_store
      Sample.shared_target_army_1 Sample.shared_target_army_2 new
    = Ok fp'
    /\ In (0%nat, 2%nat) (two_way_pairs fp')
    /\ In (1%nat, 2%nat) (one_way_pairs fp')
    /\ ~ NoDup (occurrences fp').
Proof.
  eexists. split; [vm_compute; reflexivity |].
  split; [left; reflexivity |]. split; [left; reflexivity |].
  cbv. intros N.
  inversion N as [| ? ? _ N1]. inversion N1 as [| ? ? X _].
  apply X. right. left. reflexivity.
Qed.

(** *** The reset *)

(** [match_into_pairs] on its own appends to the lists it finds: the
    [reset] at the start of [assign_all] is what lets a second run start
    afresh. *)
Lemma match_into_pairs_accumulates :
  exists fp' fp'',
    assign_all Sample.insertion_order Sample.shared_target_store
      Sample.shared_target_army_1 Sample.shared_target_army_2 new
    = Ok fp'
    /\ match_into_pairs Sample.insertion_order fp' = Ok fp''
    /\ two_way_pairs fp'' = two_way_pairs fp' ++ two_way_pairs fp'
    /\ one_way_pairs fp'' = one_way_pairs fp' ++ one_way_pairs fp'.
Proof.
  eexists. eexists. split; [vm_compute; reflexivity |].
  split; [vm_compute; reflexivity |]. split; reflexivity.
Qed.
End PairingFacts.

(* ------------------------------------------------------------------ *)
(** ** Dictionaries *)

Section DictFacts.
Context {K V : Type}.
Variable key_eqb : K -> K -> bool.
Hypothesis key_eqb_eq : forall a b, key_eqb a b = true <-> a = b.

Lemma key_eqb_refl (k : K) : key_eqb k k = true.
Proof. apply key_eqb_eq. reflexivity. Qed.

Lemma dict_mem_keys (k : K) (d : list (K * V)) :
  dict_mem key_eqb k d = true <-> In k (dict_keys d).
Proof.
  unfold dict_mem. induction d as [| [k' v'] d IH]; simpl.
  - split; [discriminate | tauto].
  - destruct (key_eqb k k') eqn:E.
    + apply key_eqb_eq in E. subst k'. split; auto.
    + rewrite IH. split; [auto |].
      intros [-> | H]; [| exact H].
      rewrite key_eqb_refl in E. discriminate.
Qed.

Lemma dict_set_absent (k : K) (v : V) (d : list (K * V)) :
  dict_mem key_eqb k d = false -> dict_set key_eqb k v d = d ++ [(k, v)].
Proof.
  unfold dict_mem. induction d as [| [k' v'] d IH]; simpl; [reflexivity |].
  destruct (key_eqb k k'); [discriminate |].
  intros H. rewrite IH by exact H. reflexivity.
Qed.

Lemma dict_del_values (k : K) (v : V) (d : list (K * V)) :
  dict_get key_eqb k d = Some v ->
  Permutation (v :: dict_values (dict_del key_eqb k d)) (dict_values d).
Proof.
  induction d as [| [k' v'] d IH]; simpl; [discriminate |].
  destruct (key_eqb k k').
  - intros E. injection E as <-. reflexivity.
  - intros E. simpl. rewrite perm_swap. apply perm_skip. apply IH. exact E.
Qed.

Lemma dict_del_keys_incl (k x : K) (d : list (K * V)) :
  In x (dict_keys (dict_del key_eqb k d)) -> In x (dict_keys d).
Proof.
  induction d as [| [k' v'] d IH]; simpl; [tauto |].
  destruct (key_eqb k k'); simpl; tauto.
Qed.

Lemma dict_del_keys_NoDup (k : K) (d : list (K * V)) :
  NoDup (dict_keys d) -> NoDup (dict_keys (dict_del key_eqb k d)).
Proof.
  induction d as [| [k' v'] d IH]; simpl; intros N; [constructor |].
  inversion N as [| ? ? NI N']. subst.
  destruct (key_eqb k k'); [exact N' |].
  simpl. constructor; [| apply IH; exact N'].
  intros H. apply NI. eapply dict_del_keys_incl. exact H.
Qed.

Lemma dict_del_absent (k : K) (d : list (K * V)) :
  NoDup (dict_keys d) -> dict_mem key_eqb k (dict_del key_eqb k d) = false.
Proof.
  intros N. destruct (dict_mem key_eqb k (dict_del key_eqb k d)) eqn:M;
    [| reflexivity].
  exfalso. apply dict_mem_keys in M. revert N M.
  induction d as [| [k' v'] d IH]; simpl; [tauto |].
  intros N. inversion N as [| ? ? NI N']. subst.
  destruct (key_eqb k k') eqn:E.
  - apply key_eqb_eq in E. subst k'. exact NI.
  - simpl. intros [-> | H]; [rewrite key_eqb_refl in E; discriminate |].
    apply IH; assumption.
Qed.

Lemma dict_set_absent_keys_NoDup (k : K) (v : V) (d : list (K * V)) :
  dict_mem key_eqb k d = false ->
  NoDup (dict_keys d) -> NoDup (dict_keys (dict_set key_eqb k v d)).
Proof.
  intros M N. rewrite dict_set_absent by exact M.
  unfold dict_keys. rewrite map_app. simpl.
  apply NoDup_app; [exact N | constructor; [simpl; tauto | constructor] |].
  intros x X [<- | []].
  apply dict_mem_keys in X. congruence.
Qed.

Lemma dict_del_mem_other (k x : K) (d : list (K * V)) :
  dict_mem key_eqb x d = false ->
  dict_mem key_eqb x (dict_del key_eqb k d) = false.
Proof.
  intros M. destruct (dict_mem key_eqb x (dict_del key_eqb k d)) eqn:E;
    [| reflexivity].
  apply dict_mem_keys in E. apply dict_del_keys_incl in E.
  apply dict_mem_keys in E. congruence.
Qed.
End DictFacts.

(* ------------------------------------------------------------------ *)
(** ** Army: the roster *)

Module ArmyFacts.
Import Army.

Lemma units_perm (a a' : t) :
  Permutation (deployed_units a') (deployed_units a) ->
  Permutation (reserves a') (reserves a) ->
  Permutation (removed a') (removed a) ->
  Permutation (units a') (units a).
Proof.
  intros D R M. unfold units.
  apply Permutation_app; [exact D |]. apply Permutation_app; assumption.
Qed.

Lemma deploy_reserve_to_file_roster (h : store) (a : t) (file : Z)
    (ref_pos : Q) (other_army : t) :
  well_formed a ->
  is_file_active a file = false ->
  well_formed (snd (deploy_reserve_to_file h a file ref_pos other_army))
  /\ same_roster a (snd (deploy_reserve_to_file h a file ref_pos other_army)).
Proof.
  unfold well_formed, same_roster, is_file_active, deploy_reserve_to_file.
  intros N F.
  destruct (reserves a) as [| new_unit rest] eqn:R; cbn [snd].
  - split; [exact N | reflexivity].
  - cbn [file_units set_file_units set_reserves]. split.
    + apply (dict_set_absent_keys_NoDup Z.eqb Z.eqb_eq); assumption.
    + unfold units, deployed_units.
      cbn [file_units reserves removed set_file_units set_reserves].
      rewrite (dict_set_absent Z.eqb) by exact F.
      unfold dict_values. rewrite map_app. cbn [map snd].
      rewrite R. rewrite <- app_assoc. apply Permutation_app_head.
      cbn [app]. reflexivity.
Qed.

Lemma remove_unit_roster (h h' : store) (a a' : t) (unit : ref)
    (other_army : t) :
  well_formed a ->
  remove_unit h a unit other_army = Ok (h', a') ->
  well_formed a' /\ same_roster a a'.
Proof.
  unfold remove_unit. intros N H.
  set (file := Unit.file (deref h unit)) in *.
  destruct (dict_getitem Z.eqb file (file_units a)) as [r | e] eqn:G;
    [| discriminate].
  cbn [bind] in H.
  destruct (Nat.eqb r unit) eqn:E; [| discriminate].
  cbn [assert bind] in H. apply Nat.eqb_eq in E. subst r.
  unfold dict_getitem in G.
  destruct (dict_get Z.eqb file (file_units a)) as [r |] eqn:G';
    [| discriminate].
  injection G as ->.
  set (a2 := set_removed
               (set_file_units a (dict_del Z.eqb file (file_units a)))
               (removed
                  (set_file_units a (dict_del Z.eqb file (file_units a)))
                ++ [unit])) in *.
  assert (N2 : well_formed a2).
  { unfold well_formed, a2. cbn. apply dict_del_keys_NoDup. exact N. }
  assert (F2 : is_file_active a2 file = false).
  { unfold is_file_active, a2. cbn.
    apply (dict_del_absent Z.eqb Z.eqb_eq). exact N. }
  assert (P2 : same_roster a a2).
  { unfold same_roster, units, deployed_units, a2. cbn.
    rewrite <- (dict_del_values Z.eqb file unit (file_units a) G').
    cbn [app]. rewrite !app_assoc.
    symmetry. apply Permutation_cons_append. }
  pose proof (deploy_reserve_to_file_roster h a2 file
                (Unit.position (deref h unit)) other_army N2 F2) as [W P].
  injection H as H.
  assert (A : a' = snd (deploy_reserve_to_file h a2 file
                          (Unit.position (deref h unit)) other_army)).
  { rewrite H. reflexivity. }
  subst a'. split; [exact W |].
  unfold same_roster in *. rewrite P. exact P2.
Qed.

Lemma slide_file_towards_centre_roster (h h' : store) (a a' : t) (file : Z) :
  well_formed a ->
  slide_file_towards_centre h a file = Ok (h', a') ->
  well_formed a' /\ same_roster a a'.
Proof.
  unfold slide_file_towards_centre, is_file_towards_centre_active.
  intros N H.
  destruct (negb (file =? 0)%Z); [| discriminate].
  cbn [assert bind] in H.
  set (new_file := (if (file <? 0)%Z then file + 1 else file - 1)%Z) in *.
  destruct (is_file_active a new_file) eqn:F; [discriminate |].
  cbn [negb assert bind] in H.
  destruct (dict_getitem Z.eqb file (file_units a)) as [r | e] eqn:G;
    [| discriminate].
  cbn [bind] in H. injection H as _ <-.
  unfold dict_getitem in G.
  destruct (dict_get Z.eqb file (file_units a)) as [r0 |] eqn:G';
    [| discriminate].
  injection G as ->.
  unfold is_file_active in F.
  assert (NE : file <> new_file).
  { intros E. rewrite <- E in F.
    unfold dict_mem in F. rewrite G' in F. discriminate. }
  split.
  - unfold well_formed. cbn.
    apply dict_del_keys_NoDup.
    apply (dict_set_absent_keys_NoDup Z.eqb Z.eqb_eq); assumption.
  - unfold same_roster. apply units_perm; cbn; try reflexivity.
    unfold deployed_units. cbn.
    rewrite (dict_set_absent Z.eqb) by exact F.
    assert (G2 : dict_get Z.eqb file (file_units a ++ [(new_file, r)])
                 = Some r).
    { clear - G'. induction (file_units a) as [| [k v] d IH];
        simpl in *; [discriminate |].
      destruct (file =? k)%Z; auto. }
    apply Permutation_cons_inv with (a := r).
    rewrite (dict_del_values Z.eqb file r _ G2).
    unfold dict_values. rewrite map_app. cbn [map snd].
    symmetry. apply Permutation_cons_append.
Qed.
End ArmyFacts.

(* ------------------------------------------------------------------ *)
(** ** Construction *)

Section DictSetFacts.
Context {K V : Type}.
Variable key_eqb : K -> K -> bool.
Hypothesis key_eqb_eq : forall a b, key_eqb a b = true <-> a = b.

Lemma dict_set_present_keys (k : K) (v : V) (d : list (K * V)) :
  dict_mem key_eqb k d = true ->
  dict_keys (dict_set key_eqb k v d) = dict_keys d.
Proof.
  unfold dict_mem. induction d as [| [k' v'] d IH]; simpl; [discriminate |].
  destruct (key_eqb k k') eqn:E; [reflexivity |].
  intros H. simpl. rewrite IH by exact H. reflexivity.
Qed.

Lemma dict_set_keys_NoDup_any (k : K) (v : V) (d : list (K * V)) :
  NoDup (dict_keys d) -> NoDup (dict_keys (dict_set key_eqb k v d)).
Proof.
  intros N. destruct (dict_mem key_eqb k d) eqn:M.
  - rewrite dict_set_present_keys by exact M. exact N.
  - apply (dict_set_absent_keys_NoDup key_eqb key_eqb_eq); assumption.
Qed.
End DictSetFacts.

Lemma insert_sorted_perm {X} (lt : X -> X -> bool) (x : X) (l : list X) :
  Permutation (insert_sorted lt x l) (x :: l).
Proof.
  induction l as [| y l IH]; simpl; [reflexivity |].
  destruct (lt y x); [| reflexivity].
  rewrite IH. apply perm_swap.
Qed.

Lemma sorted_by_perm {X} (lt : X -> X -> bool) (l : list X) :
  Permutation (sorted_by lt l) l.
Proof.
  unfold sorted_by. induction l as [| x l IH]; simpl; [reflexivity |].
  rewrite insert_sorted_perm. apply perm_skip. exact IH.
Qed.

Module ConstructionFacts.
Import Army.

Lemma new_well_formed (n : string) (s : Stance.t) (c : string) :
  well_formed (new n s c).
Proof. constructor. Qed.

Lemma add_well_formed (h : store) (a : t) (file : Z) (ut : UnitType.t) :
  well_formed a -> well_formed (snd (add h a file ut)).
Proof.
  unfold well_formed, add. cbn.
  apply (dict_set_keys_NoDup_any Z.eqb Z.eqb_eq).
Qed.

Lemma set_up_roster (h : store) (a : t) (init_pos : Q) :
  (well_formed a -> well_formed (snd (set_up h a init_pos)))
  /\ same_roster a (snd (set_up h a init_pos)).
Proof.
  unfold well_formed, same_roster, set_up. cbn [snd]. split.
  - cbn. intros N. eapply Permutation_NoDup; [| exact N].
    unfold dict_keys. apply Permutation_map. symmetry. apply sorted_by_perm.
  - unfold units, deployed_units, dict_values. cbn.
    apply Permutation_app_tail. apply Permutation_map. apply sorted_by_perm.
Qed.

(** A battle built from two dictionaries starts well formed, with the
    rosters the armies had. *)
Lemma create_rosters (h : store) (a1 a2 : t) (l : Landscape.t) :
  (well_formed a1 -> well_formed a2 ->
   Battle.well_formed (Battle.create h a1 a2 l))
  /\ same_roster a1 (Battle.army_1 (Battle.create h a1 a2 l))
  /\ same_roster a2 (Battle.army_2 (Battle.create h a1 a2 l))
  /\ Battle.turns (Battle.create h a1 a2 l) = 0%Z.
Proof.
  unfold Battle.create, Battle.well_formed.
  set (p := Qlist_max _ _).
  pose proof (set_up_roster h a1 (- p)) as [W1 R1].
  destruct (set_up h a1 (- p)) as [h1 a1'] eqn:E1.
  pose proof (set_up_roster h1 a2 p) as [W2 R2].
  destruct (set_up h1 a2 p) as [h2 a2'] eqn:E2.
  cbn in *. auto.
Qed.
End ConstructionFacts.

(* ------------------------------------------------------------------ *)
(** ** Battle: what a turn leaves alone *)

Module TurnFacts.
Import Battle.

Lemma frame_refl (b : t) : frame b b.
Proof.
  split; [reflexivity |]. split; [reflexivity |].
  intros W. split; [exact W |].
  split; unfold Army.same_roster; reflexivity.
Qed.

Lemma frame_trans (b1 b2 b3 : t) : frame b1 b2 -> frame b2 b3 -> frame b1 b3.
Proof.
  intros (T1 & L1 & R1) (T2 & L2 & R2).
  split; [congruence |]. split; [congruence |].
  intros W. destruct (R1 W) as (W2 & A1 & B1).
  destruct (R2 W2) as (W3 & A2 & B2).
  split; [exact W3 |]. unfold same_rosters, Army.same_roster in *.
  split; etransitivity; eassumption.
Qed.

Lemma frame_modify_unit (b b1 : t) (r : ref) (f : Unit.t -> Unit.t) :
  frame b b1 -> frame b (modify_unit b1 r f).
Proof. intros F. exact F. Qed.

Lemma frame_set_heap (b b1 : t) (h : store) :
  frame b b1 -> frame b (set_heap b1 h).
Proof. intros F. exact F. Qed.

Lemma frame_set_fight_pairs (b b1 : t) (fp : FightPairs.t) :
  frame b b1 -> frame b (set_fight_pairs b1 fp).
Proof. intros F. exact F. Qed.

Lemma frame_set_army (b b1 : t) (h : store) (s : side) (a : Army.t) :
  frame b b1 ->
  (Army.well_formed (army b1 s) ->
   Army.well_formed a /\ Army.same_roster (army b1 s) a) ->
  frame b (set_army (set_heap b1 h) s a).
Proof.
  intros F A. apply (frame_trans b b1); [exact F |].
  split; [destruct s; reflexivity |]. split; [destruct s; reflexivity |].
  intros [W1 W2]. unfold well_formed, same_rosters, Army.same_roster.
  destruct s; cbn in *.
  - destruct (A W1) as [W P]. repeat split; auto.
  - destruct (A W2) as [W P]. repeat split; auto.
Qed.

Lemma for_each_frame {X} (body : X -> t -> result t) (xs : list X) :
  (forall x b b', body x b = Ok b' -> frame b b') ->
  forall b b', for_each xs body b = Ok b' -> frame b b'.
Proof.
  intros B. induction xs as [| x xs IH]; intros b b' H; simpl in H.
  - injection H as <-. apply frame_refl.
  - destruct (body x b) as [b1 | e] eqn:E; [| discriminate].
    cbn [bind] in H. eapply frame_trans; [eapply B; exact E |].
    apply IH. exact H.
Qed.

Lemma frame_same (b b' : t) :
  turns b' = turns b -> landscape b' = landscape b ->
  army_1 b' = army_1 b -> army_2 b' = army_2 b ->
  frame b b'.
Proof.
  intros T L A1 A2. unfold frame, well_formed, same_rosters, Army.same_roster.
  rewrite T, L, A1, A2. repeat split; try reflexivity; apply H.
Qed.

(** A state that differs from [b] in the store or the pairs only. *)
Ltac framed := apply frame_same; reflexivity.

(** One step through a sequence of computations. *)
Ltac run H :=
  repeat
    (cbn [bind] in H;
     match type of H with
     | Ok _ = Ok _ => injection H as <-
     | Raise _ = Ok _ => discriminate H
     | bind ?m _ = Ok _ =>
         let E := fresh "E" in
         destruct m eqn:E; [| discriminate H]
     | (if ?c then _ else _) = Ok _ => destruct c eqn:?
     | match ?o with Some _ => _ | None => _ end = Ok _ => destruct o eqn:?
     end).

Lemma reset_unit_stance_frame (b b' : t) (r : ref) :
  reset_unit_stance b r = Ok b' -> frame b b'.
Proof.
  unfold reset_unit_stance. intros H. run H. framed.
Qed.

Lemma call_neighbors_forward_frame (b b' : t) (r : ref) :
  call_neighbors_forward b r = Ok b' -> frame b b'.
Proof.
  unfold call_neighbors_forward. intros H. run H.
  eapply for_each_frame; [| exact H].
  clear. intros x b b' H. run H; framed.
Qed.

Section WithParameters.
Variable DELTA_T : Q.
Variable I : PySet.impl.
Variable M : MathLib Q.

Lemma change_morale_from_first_pursue_frame (b b' : t) :
  change_morale_from_first_pursue b = Ok b' -> frame b b'.
Proof.
  unfold change_morale_from_first_pursue. apply for_each_frame.
  clear. intros x b b' H. run H; framed.
Qed.

Lemma reduce_files_frame (b b' : t) :
  reduce_files b = Ok b' -> frame b b'.
Proof.
  unfold reduce_files. apply for_each_frame.
  clear. intros x b b' H. run H; try framed.
  match goal with
  | E : Army.slide_file_towards_centre _ _ _ = Ok ?ha |- _ =>
      destruct ha as [h' a']; cbn [fst snd];
      apply frame_set_army; [apply frame_refl |];
      intros W;
      eapply ArmyFacts.slide_file_towards_centre_roster; eassumption
  end.
Qed.

Lemma update_status_frame (b b' : t) :
  update_status b = Ok b' -> frame b b'.
Proof.
  unfold update_status. apply for_each_frame.
  clear. intros x b b' H.
  destruct (reset_unit_stance b x) as [b1 | e] eqn:S; [| discriminate].
  cbn [bind] in H. apply reset_unit_stance_frame in S.
  eapply frame_trans; [exact S |]. clear S.
  run H; try framed.
  match goal with
  | E : Army.remove_unit _ _ _ _ = Ok ?ha |- _ =>
      destruct ha as [h' a']; cbn [fst snd];
      apply frame_set_army; [apply frame_refl |];
      intros W; eapply ArmyFacts.remove_unit_roster; eassumption
  end.
Qed.

Lemma tidy_frame (b b' : t) : tidy b = Ok b' -> frame b b'.
Proof.
  unfold tidy. intros H.
  destruct (change_morale_from_first_pursue b) as [b1 | e] eqn:E1;
    [| discriminate].
  cbn [bind] in H.
  destruct (reduce_files b1) as [b2 | e] eqn:E2; [| discriminate].
  cbn [bind] in H.
  apply change_morale_from_first_pursue_frame in E1.
  apply reduce_files_frame in E2.
  apply update_status_frame in H.
  eapply frame_trans; [exact E1 |]. eapply frame_trans; eassumption.
Qed.

Lemma _push_from_winner_frame (b b' : t) (w l : ref) (balance : Q) :
  _push_from_winner DELTA_T b w l balance = Ok b' -> frame b b'.
Proof.
  unfold _push_from_winner. intros H. run H; framed.
Qed.

Lemma push_from_fight_frame (b b' : t) (x y : ref) (balance : Q) :
  push_from_fight DELTA_T b x y balance = Ok b' -> frame b b'.
Proof.
  unfold push_from_fight. intros H.
  destruct (Qltb 1 balance);
    [eapply _push_from_winner_frame; exact H |].
  destruct (Qltb balance 1); [| injection H as <-; apply frame_refl].
  destruct (py_div 1 balance); [| discriminate].
  eapply _push_from_winner_frame; exact H.
Qed.

Lemma fight_two_way_frame (b b' : t) (x y : ref) :
  fight_two_way DELTA_T M b x y = Ok b' -> frame b b'.
Proof.
  unfold fight_two_way. intros H.
  destruct (compute_fight_balance b x y); [| discriminate].
  cbn [bind] in H. destruct (py_div 1 a); [| discriminate].
  cbn [bind] in H. apply push_from_fight_frame in H. exact H.
Qed.

Lemma fight_one_way_frame (b b' : t) (x y : ref) :
  fight_one_way DELTA_T M b x y = Ok b' -> frame b b'.
Proof.
  unfold fight_one_way. intros H.
  destruct (compute_fight_balance b x y); [| discriminate].
  cbn [bind] in H. apply call_neighbors_forward_frame in H. exact H.
Qed.

Lemma fight_frame (b b' : t) : fight DELTA_T I M b = Ok b' -> frame b b'.
Proof.
  unfold fight. intros H.
  destruct (FightPairs.assign_all I (heap b) (army_1 b) (army_2 b)
              (fight_pairs b)) as [fp | e]; [| discriminate].
  cbn [bind] in H.
  destruct (for_each (FightPairs.two_way_pairs fp) _ _) as [b1 | e] eqn:T;
    [| discriminate].
  cbn [bind] in H.
  apply for_each_frame in T;
    [| intros; eapply fight_two_way_frame; eassumption].
  apply for_each_frame in H;
    [| intros; eapply fight_one_way_frame; eassumption].
  eapply frame_trans; [exact T | exact H].
Qed.

Lemma move_towards_haltingly_frame (b b' : t) (r : ref) (target speed : Q) :
  move_towards_haltingly DELTA_T M b r target speed = Ok b' -> frame b b'.
Proof.
  unfold move_towards_haltingly. intros H. run H. framed.
Qed.

Lemma move_unit_towards_in_stance_frame (b b' : t) (r : ref) (target : Q) :
  move_unit_towards_in_stance DELTA_T M b r target = Ok b' -> frame b b'.
Proof.
  unfold move_unit_towards_in_stance. intros H. run H.
  destruct (Unit.stance (unit b r)).
  - injection H as <-. framed.
  - injection H as <-. framed.
  - eapply move_towards_haltingly_frame. exact H.
Qed.

Lemma move_frame (b b' : t) : move DELTA_T M b = Ok b' -> frame b b'.
Proof.
  unfold move. apply for_each_frame.
  clear. intros x b b' H. run H; try framed.
  eapply move_unit_towards_in_stance_frame. exact H.
Qed.

Lemma do_turn_frame (b b' : t) : do_turn DELTA_T I M b = Ok b' -> frame b b'.
Proof.
  unfold do_turn. intros H.
  destruct (tidy b) as [b1 | e] eqn:E1; [| discriminate].
  cbn [bind] in H.
  destruct (fight DELTA_T I M b1) as [b2 | e] eqn:E2; [| discriminate].
  cbn [bind] in H.
  apply tidy_frame in E1. apply fight_frame in E2. apply move_frame in H.
  eapply frame_trans; [exact E1 |]. eapply frame_trans; eassumption.
Qed.
End WithParameters.
End TurnFacts.

(* ------------------------------------------------------------------ *)
(** ** Battle: the run *)

Module RunFacts.
Import Battle.
Import TurnFacts.

Lemma is_battle_ended_spec (b : t) :
  is_battle_ended b = true <->
  Army.deployed_units (army_1 b) = []
  \/ Army.deployed_units (army_2 b) = []
  \/ (forall r, In r (iter_all_deployed b) -> Unit.halted (unit b r) = true)
  \/ (1000 < turns b)%Z.
Proof.
  unfold is_battle_ended.
  rewrite <- !OutcomeFacts.defeated_spec, <- forallb_forall, <- Z.ltb_lt.
  destruct (Army.defeated (army_1 b)); [tauto |].
  destruct (Army.defeated (army_2 b)); [tauto |].
  destruct (forallb _ _); [tauto |].
  destruct (1000 <? turns b)%Z; [tauto |].
  intuition discriminate.
Qed.

Section WithParameters.
Variable DELTA_T : Q.
Variable I : PySet.impl.
Variable M : MathLib Q.

Lemma played_turn_frame (b b' : t) :
  do_turn DELTA_T I M (set_turns b (turns b + 1)) = Ok b' ->
  turns b' = (turns b + 1)%Z
  /\ (well_formed b -> well_formed b' /\ same_rosters b b').
Proof.
  intros H. apply do_turn_frame in H. destruct H as (T & _ & R).
  split; [exact T | exact R].
Qed.

Lemma turn_boundary_trans (b1 b2 b3 : t) :
  turn_boundary DELTA_T I M b1 b2 -> turn_boundary DELTA_T I M b2 b3 ->
  turn_boundary DELTA_T I M b1 b3.
Proof.
  intros H12 H23. induction H23 as [| x y _ IH E T]; [exact H12 |].
  eapply boundary_turn; eassumption.
Qed.

Lemma turn_boundary_rosters (b b' : t) :
  turn_boundary DELTA_T I M b b' ->
  well_formed b -> well_formed b' /\ same_rosters b b'.
Proof.
  intros H W. induction H as [| b1 b2 _ IH E T].
  - apply frame_refl. exact W.
  - destruct IH as [W1 [A1 B1]].
    apply played_turn_frame in T. destruct T as [_ R].
    destruct (R W1) as [W2 [A2 B2]].
    split; [exact W2 |]. unfold same_rosters, Army.same_roster in *.
    split; etransitivity; eassumption.
Qed.

Lemma turn_boundary_turns (b b' : t) :
  turn_boundary DELTA_T I M b b' ->
  (turns b <= turns b')%Z
  /\ ((turns b <= 1001)%Z -> (turns b' <= 1001)%Z).
Proof.
  intros H. induction H as [| b1 b2 _ IH E T]; [lia |].
  apply played_turn_frame in T. destruct T as [T _].
  assert (N : (turns b1 <= 1000)%Z).
  { unfold is_battle_ended in E.
    destruct (Army.defeated (army_1 b1)); [discriminate |].
    destruct (Army.defeated (army_2 b1)); [discriminate |].
    destruct (forallb _ _); [discriminate |].
    destruct (1000 <? turns b1)%Z eqn:L; [discriminate |].
    apply Z.ltb_ge in L. exact L. }
  lia.
Qed.

Lemma do_loop_boundary :
  forall n b b',
    do_loop DELTA_T I M n b = Some (Ok b') ->
    turn_boundary DELTA_T I M b b' /\ is_battle_ended b' = true.
Proof.
  induction n as [| k IH]; intros b b' H; simpl in H.
  - destruct (is_battle_ended b) eqn:E; [| discriminate].
    injection H as <-. split; [constructor | exact E].
  - destruct (is_battle_ended b) eqn:E.
    + injection H as <-. split; [constructor | exact E].
    + destruct (do_turn DELTA_T I M (set_turns b (turns b + 1)))
        as [b1 | e] eqn:T; [| discriminate].
      apply IH in H. destruct H as [B F]. split; [| exact F].
      eapply turn_boundary_trans; [| exact B].
      eapply boundary_turn; [constructor | exact E | exact T].
Qed.

(** The loop ends within [1001 - turns] iterations, by returning or by
    raising. *)
Lemma do_loop_terminates :
  forall n b,
    (1001 - turns b <= Z.of_nat n)%Z ->
    exists r, do_loop DELTA_T I M n b = Some r.
Proof.
  induction n as [| k IH]; intros b L; simpl.
  - destruct (is_battle_ended b) eqn:E; [eauto |].
    exfalso. unfold is_battle_ended in E.
    destruct (Army.defeated (army_1 b)); [discriminate |].
    destruct (Army.defeated (army_2 b)); [discriminate |].
    destruct (forallb _ _); [discriminate |].
    destruct (1000 <? turns b)%Z eqn:X; [discriminate |].
    apply Z.ltb_ge in X. lia.
  - destruct (is_battle_ended b); [eauto |].
    destruct (do_turn DELTA_T I M (set_turns b (turns b + 1)))
      as [b1 | e] eqn:T; [| eauto].
    apply IH. apply played_turn_frame in T. destruct T as [T _]. lia.
Qed.

(** A boundary state other than the start is reached by a first turn. *)
Lemma turn_boundary_front (b b' : t) :
  turn_boundary DELTA_T I M b b' ->
  b' = b
  \/ exists b1,
       is_battle_ended b = false
       /\ do_turn DELTA_T I M (set_turns b (turns b + 1)) = Ok b1
       /\ turn_boundary DELTA_T I M b1 b'.
Proof.
  intros H. induction H as [| b1 b2 _ IH E T]; [left; reflexivity |].
  right. destruct IH as [-> | (b0 & E0 & T0 & B0)].
  - exists b2. split; [exact E |]. split; [exact T | constructor].
  - exists b0. split; [exact E0 |]. split; [exact T0 |].
    eapply boundary_turn; eassumption.
Qed.

(** The boundary states of a run lie on one line. *)
Lemma turn_boundary_linear (b x y : t) :
  turn_boundary DELTA_T I M b x -> turn_boundary DELTA_T I M b y ->
  turn_boundary DELTA_T I M x y \/ turn_boundary DELTA_T I M y x.
Proof.
  intros X Y. induction Y as [| y1 y2 _ IH E T]; [right; exact X |].
  destruct IH as [L | R].
  - left. eapply boundary_turn; eassumption.
  - apply turn_boundary_front in R. destruct R as [-> | (y' & _ & T' & R)].
    + left. eapply boundary_turn; [constructor | exact E | exact T].
    + right. rewrite T in T'. injection T' as <-. exact R.
Qed.

(** No turn is played from a state that meets an end condition. *)
Lemma turn_boundary_ended (b b' : t) :
  turn_boundary DELTA_T I M b b' -> end_condition b -> b' = b.
Proof.
  intros B C. apply turn_boundary_front in B.
  destruct B as [-> | (b1 & E & _)]; [reflexivity |].
  apply is_battle_ended_spec in C. unfold end_condition in *.
  rewrite C in E. discriminate.
Qed.

(** C4, as amended: a run that starts with the turn counter at [0] ends
    within 1001 iterations of the loop, by returning an outcome or by
    raising, and the counter never exceeds 1001.  The run stops as soon as
    an end condition is met: the state in which it returns meets one, it
    is the only turn boundary of the run that does, and from any state
    that meets one [do] returns at once, without playing a turn; from a
    state that meets none the loop plays the next turn. *)
Theorem battle_terminates (b : t) :
  turns b = 0%Z ->
  (exists r, do DELTA_T I M 1001 b = Some r)
  /\ (forall b', turn_boundary DELTA_T I M b b' ->
                 (0 <= turns b' <= 1001)%Z)
  /\ (forall n b' o,
         do DELTA_T I M n b = Some (Ok (b', o)) ->
         turn_boundary DELTA_T I M b b'
         /\ o = decide_winner b'
         /\ end_condition b'
         /\ forall b1, turn_boundary DELTA_T I M b b1 ->
                       end_condition b1 -> b1 = b')
  /\ (forall n b0,
         end_condition b0 ->
         do DELTA_T I M n b0 = Some (Ok (b0, decide_winner b0)))
  /\ (forall n b0,
         ~ end_condition b0 ->
         do_loop DELTA_T I M (S n) b0
         = match do_turn DELTA_T I M (set_turns b0 (turns b0 + 1)) with
           | Ok b1 => do_loop DELTA_T I M n b1
           | Raise e => Some (Raise e)
           end).
Proof.
  intros T0. split; [| split; [| split; [| split]]].
  - unfold do. destruct (do_loop_terminates 1001 b) as [r R].
    { rewrite T0. simpl. lia. }
    rewrite R. destruct r; eauto.
  - intros b' B. apply turn_boundary_turns in B. lia.
  - intros n b' o H. unfold do in H.
    destruct (do_loop DELTA_T I M n b) as [[b1 | e] |] eqn:L;
      try discriminate.
    injection H as <- <-.
    apply do_loop_boundary in L. destruct L as [B E].
    apply is_battle_ended_spec in E.
    split; [exact B |]. split; [reflexivity |]. split; [exact E |].
    intros b2 B2 E2.
    destruct (turn_boundary_linear b b1 b2 B B2) as [X | X].
    + apply (turn_boundary_ended b1 b2 X E).
    + symmetry. apply (turn_boundary_ended b2 b1 X E2).
  - intros n b0 C. apply is_battle_ended_spec in C.
    unfold do. destruct n; simpl; rewrite C; reflexivity.
  - intros n b0 C. simpl.
    destruct (is_battle_ended b0) eqn:E; [| reflexivity].
    exfalso. apply C, is_battle_ended_spec, E.
Qed.

(** The rosters at every turn boundary and after every phase. *)
Lemma phases_keep_rosters (b b' : t) :
  well_formed b ->
  tidy b = Ok b' \/ fight DELTA_T I M b = Ok b' \/ move DELTA_T M b = Ok b'
  \/ do_turn DELTA_T I M b = Ok b' \/ turn_boundary DELTA_T I M b b' ->
  well_formed b' /\ same_rosters b b'.
Proof.
  intros W [H | [H | [H | [H | H]]]].
  - apply tidy_frame in H. apply H. exact W.
  - apply fight_frame in H. apply H. exact W.
  - apply move_frame in H. apply H. exact W.
  - apply do_turn_frame in H. apply H. exact W.
  - apply turn_boundary_rosters; assumption.
Qed.
End WithParameters.

Lemma battle_terminates_witness :
  exists r,
    do (1 # 50) Sample.insertion_order Sample.exact_at_unity 1001
      Sample.standoff = Some r.
Proof.
  apply (battle_terminates (1 # 50) Sample.insertion_order
           Sample.exact_at_unity Sample.standoff).
  reflexivity.
Defined.

(** C4 as stated fails by one turn: the end condition is [turns > 1000].
    Two pikes that meet on a covered plain never lose morale and never
    push each other; 1000 iterations do not end the battle, the 1001st
    turn is played and the counter ends at 1001. *)
Lemma turn_counter_reaches_1001 :
  do_loop (1 # 50) Sample.insertion_order Sample.exact_at_unity 1000
    Sample.standoff = None
  /\ exists b',
      do (1 # 50) Sample.insertion_order Sample.exact_at_unity 1001
        Sample.standoff = Some (Ok (b', STALEMATE))
      /\ turns b' = 1001%Z.
Proof.
  split.
  - vm_compute. reflexivity.
  - eexists. split; [vm_compute; reflexivity | reflexivity].
Qed.

(** C5, as amended: an army that returns from [remove_unit] or from
    [slide_file_towards_centre] holds the same units as before, each once,
    spread over deployed units, reserves and removed units;
    [deploy_reserve_to_file] does so when the file is vacant, which is how
    [remove_unit] calls it; the tidy, fight and move phases, the whole turn
    and every turn boundary of a run keep the roster of both armies. *)
Theorem roster_is_preserved :
  (forall h a unit other h' a',
      Army.well_formed a ->
      Army.remove_unit h a unit other = Ok (h', a') ->
      Army.well_formed a' /\ Army.same_roster a a')
  /\ (forall h a file ref_pos other,
         Army.well_formed a ->
         Army.is_file_active a file = false ->
         let a' := snd (Army.deploy_reserve_to_file h a file ref_pos other) in
         Army.well_formed a' /\ Army.same_roster a a')
  /\ (forall h a file h' a',
         Army.well_formed a ->
         Army.slide_file_towards_centre h a file = Ok (h', a') ->
         Army.well_formed a' /\ Army.same_roster a a')
  /\ (forall dt I M b b',
         well_formed b ->
         tidy b = Ok b' \/ fight dt I M b = Ok b' \/ move dt M b = Ok b'
         \/ do_turn dt I M b = Ok b' \/ turn_boundary dt I M b b' ->
         well_formed b' /\ same_rosters b b')
  /\ (forall a a',
         Army.same_roster a a' ->
         NoDup (Army.units a) -> NoDup (Army.units a')).
Proof.
  split; [| split; [| split; [| split]]].
  - intros. eapply ArmyFacts.remove_unit_roster; eassumption.
  - intros. apply ArmyFacts.deploy_reserve_to_file_roster; assumption.
  - intros. eapply ArmyFacts.slide_file_towards_centre_roster; eassumption.
  - intros. eapply phases_keep_rosters; eassumption.
  - intros a a' P N. eapply Permutation_NoDup; [symmetry; exact P | exact N].
Qed.

Lemma roster_is_preserved_witness :
  Army.same_roster (snd Sample.army_with_reserve)
    (snd (Army.deploy_reserve_to_file (fst Sample.army_with_reserve)
            (snd Sample.army_with_reserve) 1 0 Sample.no_army)).
Proof.
  destruct roster_is_preserved as (_ & D & _).
  apply (D (fst Sample.army_with_reserve) (snd Sample.army_with_reserve)
           1%Z 0 Sample.no_army).
  - unfold Army.well_formed. vm_compute.
    constructor; [simpl; tauto | constructor].
  - reflexivity.
Defined.

(** C5 as stated fails for [deploy_reserve_to_file] on an occupied file:
    the reserve takes the file and the unit that stood there is in none of
    the three collections any more. *)
Lemma deploy_on_occupied_file_loses_unit :
  let a := snd Sample.army_with_reserve in
  let a' :=
    snd (Army.deploy_reserve_to_file (fst Sample.army_with_reserve) a 0 0
           Sample.no_army) in
  Army.units a = [0%nat; 1%nat]
  /\ Army.units a' = [1%nat]
  /\ ~ Army.same_roster a a'.
Proof.
  cbv zeta. split; [reflexivity |]. split; [reflexivity |].
  unfold Army.same_roster. intros P.
  apply Permutation_length in P. vm_compute in P. discriminate P.
Qed.
End RunFacts.

(* ------------------------------------------------------------------ *)
(** ** Power in exact arithmetic *)

Module PowerFacts.

Local Open Scope R_scope.

Lemma Q2R_pos (q : Q) : (0 < q)%Q -> 0 < Q2R q.
Proof. intros H. apply Qlt_Rlt in H. rewrite RMicromega.Q2R_0 in H. exact H. Qed.

(** The curve of the soft cap, on the real line. *)
Lemma soft_cap_argument (t : Q) :
  Q2R 1 + Q2R t / Q2R RESERVES_SOFT_CAP = 1 + Q2R t / 500.
Proof.
  unfold RESERVES_SOFT_CAP.
  replace (Q2R 1) with 1 by (unfold Q2R; simpl; field).
  replace (Q2R 500) with 500 by (unfold Q2R; simpl; field).
  reflexivity.
Qed.

Lemma soft_cap_scale : Q2R RESERVES_POWER * Q2R RESERVES_SOFT_CAP = 500 / 6.
Proof.
  unfold RESERVES_POWER, RESERVES_SOFT_CAP, Q2R. simpl. field.
Qed.

Lemma reserve_power_value (h : store) (a : Army.t) (x : R) :
  Army.reserve_power (M := ExactLib) h a = Ok x ->
  0 < 1 + Q2R (Army.total_reserve_power h a) / 500
  /\ x = 500 / 6 * ln (1 + Q2R (Army.total_reserve_power h a) / 500).
Proof.
  unfold Army.reserve_power. fold (Army.total_reserve_power h a).
  cbn [log of_Q fmul fadd fdiv ExactLib].
  rewrite soft_cap_argument.
  destruct (Rlt_dec 0 (1 + Q2R (Army.total_reserve_power h a) / 500))
    as [P | N]; [| discriminate].
  cbn [bind]. intros E. injection E as <-.
  split; [exact P |]. rewrite soft_cap_scale. reflexivity.
Qed.

Lemma reserve_power_defined (h : store) (a : Army.t) :
  (- RESERVES_SOFT_CAP < Army.total_reserve_power h a)%Q ->
  Army.reserve_power (M := ExactLib) h a
  = Ok (500 / 6 * ln (1 + Q2R (Army.total_reserve_power h a) / 500)).
Proof.
  intros H.
  unfold Army.reserve_power. fold (Army.total_reserve_power h a).
  cbn [log of_Q fmul fadd fdiv ExactLib].
  rewrite soft_cap_argument.
  destruct (Rlt_dec 0 (1 + Q2R (Army.total_reserve_power h a) / 500))
    as [P | N].
  - cbn [bind]. rewrite soft_cap_scale. reflexivity.
  - exfalso. apply N. apply Qlt_Rlt in H.
    unfold RESERVES_SOFT_CAP in H. rewrite Q2R_opp in H.
    replace (Q2R 500) with 500 in H by (unfold Q2R; simpl; field).
    rlra.
Qed.

Lemma ln_quotient (x y : R) : 0 < x -> 0 < y -> ln (x / y) = ln x - ln y.
Proof.
  intros X Y. unfold Rdiv.
  rewrite ln_mult by (try apply Rinv_0_lt_compat; assumption).
  rewrite ln_Rinv by exact Y. ring.
Qed.

Lemma ln_gap (u v d : R) :
  0 < u -> u < v -> 0 < d -> ln (v + d) - ln v < ln (u + d) - ln u.
Proof.
  intros U V D.
  rewrite <- !ln_quotient by rlra.
  apply ln_increasing.
  - apply Rdiv_lt_0_compat; rlra.
  - apply Rmult_lt_reg_r with (r := v * u); [apply Rmult_lt_0_compat; rlra |].
    replace ((v + d) / v * (v * u)) with ((v + d) * u) by (field; rlra).
    replace ((u + d) / u * (v * u)) with ((u + d) * v) by (field; rlra).
    rnra.
Qed.

(** C9, as amended: in exact arithmetic [reserve_power] is
    [RESERVES_POWER * RESERVES_SOFT_CAP * ln(1 + total / RESERVES_SOFT_CAP)]
    wherever the logarithm is defined ([total > -RESERVES_SOFT_CAP]); it is
    [0] without reserves, strictly increasing in the total, and concave:
    the same added power contributes strictly less on top of a larger
    total. *)
Theorem reserve_power_soft_cap :
  (forall h a,
      (- RESERVES_SOFT_CAP < Army.total_reserve_power h a)%Q ->
      Army.reserve_power (M := ExactLib) h a
      = Ok (Q2R RESERVES_POWER * Q2R RESERVES_SOFT_CAP
            * ln (1 + Q2R (Army.total_reserve_power h a)
                      / Q2R RESERVES_SOFT_CAP)))
  /\ (forall h a,
         Army.reserves a = [] ->
         Army.reserve_power (M := ExactLib) h a = Ok 0)
  /\ (forall h1 a1 h2 a2 x1 x2,
         Army.reserve_power (M := ExactLib) h1 a1 = Ok x1 ->
         Army.reserve_power (M := ExactLib) h2 a2 = Ok x2 ->
         (Army.total_reserve_power h1 a1 < Army.total_reserve_power h2 a2)%Q ->
         x1 < x2)
  /\ (forall h1 a1 h2 a2 h3 a3 h4 a4 x1 x2 x3 x4,
         Army.reserve_power (M := ExactLib) h1 a1 = Ok x1 ->
         Army.reserve_power (M := ExactLib) h2 a2 = Ok x2 ->
         Army.reserve_power (M := ExactLib) h3 a3 = Ok x3 ->
         Army.reserve_power (M := ExactLib) h4 a4 = Ok x4 ->
         (Army.total_reserve_power h1 a1 < Army.total_reserve_power h3 a3)%Q ->
         (0 < Army.total_reserve_power h2 a2
              - Army.total_reserve_power h1 a1)%Q ->
         (Army.total_reserve_power h4 a4 - Army.total_reserve_power h3 a3
          == Army.total_reserve_power h2 a2
             - Army.total_reserve_power h1 a1)%Q ->
         x4 - x3 < x2 - x1).
Proof.
  split; [| split; [| split]].
  - intros h a H. rewrite (reserve_power_defined h a H).
    rewrite soft_cap_scale.
    replace (Q2R RESERVES_SOFT_CAP) with 500
      by (unfold RESERVES_SOFT_CAP, Q2R; simpl; field).
    reflexivity.
  - intros h a E.
    rewrite reserve_power_defined.
    + unfold Army.total_reserve_power. rewrite E.
      change (Qsum (map _ [])) with 0%Q.
      rewrite RMicromega.Q2R_0.
      replace (1 + 0 / 500) with 1 by field.
      rewrite ln_1. f_equal. ring.
    + unfold Army.total_reserve_power. rewrite E. reflexivity.
  - intros h1 a1 h2 a2 x1 x2 E1 E2 L.
    apply reserve_power_value in E1. apply reserve_power_value in E2.
    destruct E1 as [P1 ->], E2 as [P2 ->].
    apply Qlt_Rlt in L.
    apply Rmult_lt_compat_l; [rlra |].
    apply ln_increasing; rlra.
  - intros h1 a1 h2 a2 h3 a3 h4 a4 x1 x2 x3 x4 E1 E2 E3 E4 L D S.
    apply reserve_power_value in E1. apply reserve_power_value in E2.
    apply reserve_power_value in E3. apply reserve_power_value in E4.
    destruct E1 as [P1 ->], E2 as [P2 ->], E3 as [P3 ->], E4 as [P4 ->].
    apply Qlt_Rlt in L. apply Qlt_Rlt in D. apply Qeq_eqR in S.
    rewrite !Q2R_minus in *. rewrite RMicromega.Q2R_0 in D.
    set (t1 := Q2R (Army.total_reserve_power h1 a1)) in *.
    set (t2 := Q2R (Army.total_reserve_power h2 a2)) in *.
    set (t3 := Q2R (Army.total_reserve_power h3 a3)) in *.
    set (t4 := Q2R (Army.total_reserve_power h4 a4)) in *.
    pose proof (ln_gap (1 + t1 / 500) (1 + t3 / 500) ((t2 - t1) / 500)) as G.
    replace (1 + t3 / 500 + (t2 - t1) / 500) with (1 + t4 / 500) in G
      by (replace t4 with (t3 + (t2 - t1)) by rlra; field).
    replace (1 + t1 / 500 + (t2 - t1) / 500) with (1 + t2 / 500) in G
      by field.
    assert (G' : ln (1 + t4 / 500) - ln (1 + t3 / 500)
                 < ln (1 + t2 / 500) - ln (1 + t1 / 500)).
    { apply G; rlra. }
    rlra.
Qed.

Lemma reserve_power_soft_cap_witness :
  Army.reserve_power (M := ExactLib) (fst Sample.army_with_reserve)
    (snd Sample.army_with_reserve)
  = Ok (Q2R RESERVES_POWER * Q2R RESERVES_SOFT_CAP
        * ln (1 + Q2R (Army.total_reserve_power
                         (fst Sample.army_with_reserve)
                         (snd Sample.army_with_reserve))
                  / Q2R RESERVES_SOFT_CAP)).
Proof.
  destruct reserve_power_soft_cap as [F _].
  apply F. reflexivity.
Defined.

(** C9 as stated fails in binary64, where the quotient and the sum with
    [1] are rounded: the reserve totals [100] and [100.00000000000001]
    both give [log(1.2)], so the greater total does not give a greater
    reserve power, whatever the library's logarithm returns. *)
Lemma reserve_power_is_flat_in_binary64 :
  (Army.total_reserve_power (fst Sample.army_with_reserve)
     (snd Sample.army_with_reserve)
   < Army.total_reserve_power (fst Sample.army_with_stronger_reserve)
       (snd Sample.army_with_stronger_reserve))%Q
  /\ forall float_log float_pow,
       exists x,
         Army.reserve_power (M := Binary64Lib float_log float_pow)
           (fst Sample.army_with_reserve) (snd Sample.army_with_reserve)
         = Ok x
         /\ Army.reserve_power (M := Binary64Lib float_log float_pow)
              (fst Sample.army_with_stronger_reserve)
              (snd Sample.army_with_stronger_reserve)
            = Ok x.
Proof.
  split; [reflexivity |].
  intros float_log float_pow. eexists. split; vm_compute; reflexivity.
Qed.

(** *** The fight balance *)

Import Battle.

Lemma active_getitem (a : Army.t) (file : Z) :
  Army.is_file_active a file = true ->
  exists r, dict_getitem Z.eqb file (Army.file_units a) = Ok r.
Proof.
  unfold Army.is_file_active, dict_mem, dict_getitem.
  destruct (dict_get Z.eqb file (Army.file_units a)); [eauto | discriminate].
Qed.

Lemma get_morale_from_supporting_file_defined (b : t) (r : ref) (file : Z)
    (s : side) :
  get_army_deployed_in b r = Ok s ->
  exists m, get_morale_from_supporting_file b r file = Ok m.
Proof.
  intros D. unfold get_morale_from_supporting_file. rewrite D. cbn [bind].
  destruct (Army.is_file_active (army b (get_other_army s)) file) eqn:E.
  - unfold _morale_from_contested_file.
    destruct (active_getitem _ _ E) as [e ->]. cbn [bind].
    destruct (Army.is_file_active (army b s) file) eqn:O.
    + destruct (active_getitem _ _ O) as [o ->]. cbn [bind]. eauto.
    + cbn [bind]. eauto.
  - destruct (Army.is_file_active (army b s) file); eauto.
Qed.

Lemma get_unit_eff_morale_defined (b : t) (r : ref) (s : side) :
  get_army_deployed_in b r = Ok s ->
  exists em, get_unit_eff_morale b r = Ok em /\ (0 <= em)%Q.
Proof.
  intros D. unfold get_unit_eff_morale.
  destruct (get_morale_from_supporting_file_defined b r
              (Unit.file (unit b r) + 1) s D) as [m1 ->].
  destruct (get_morale_from_supporting_file_defined b r
              (Unit.file (unit b r) - 1) s D) as [m2 ->].
  cbn [bind]. eexists. split; [reflexivity | apply Q.le_max_l].
Qed.

Lemma get_unit_eff_power_defined (b : t) (r : ref) (s : side) :
  get_army_deployed_in b r = Ok s ->
  (- RESERVES_SOFT_CAP < Army.total_reserve_power (heap b) (army b s))%Q ->
  (-1 < Unit.rigidity (unit b r))%Q ->
  exists p, get_unit_eff_power (M := ExactLib) b r = Ok p.
Proof.
  intros D T G. unfold get_unit_eff_power. rewrite D. cbn [bind].
  rewrite (reserve_power_defined _ _ T). cbn [bind].
  unfold get_unit_power_from_morale.
  destruct (get_unit_eff_morale_defined b r s D) as (em & -> & P).
  cbn [bind pow of_Q ExactLib].
  destruct (Rlt_dec 0 (Q2R em)) as [L | N]; [cbn [bind]; eauto |].
  destruct (Req_dec_T (Q2R em) 0) as [Z | NZ].
  - destruct (Rlt_dec 0 (Q2R (1 + Unit.rigidity (unit b r)))) as [L | N'];
      [cbn [bind]; eauto |].
    exfalso. apply N'. apply Q2R_pos. qlra.
  - exfalso. apply Qle_Rle in P. rewrite RMicromega.Q2R_0 in P. rlra.
Qed.

Lemma two_positive : 0 < Q2R 2.
Proof. apply Q2R_pos. reflexivity. Qed.

Lemma compute_fight_balance_value (b : t) (x y : ref) (v : R) :
  compute_fight_balance (M := ExactLib) b x y = Ok v ->
  exists px py,
    get_unit_eff_power (M := ExactLib) b x = Ok px
    /\ get_unit_eff_power (M := ExactLib) b y = Ok py
    /\ v = Rpower (Q2R 2) ((px - py) / Q2R (2 * POWER_SCALE)).
Proof.
  unfold compute_fight_balance.
  destruct (get_unit_eff_power b x) as [px | e]; [| discriminate].
  destruct (get_unit_eff_power b y) as [py | e]; [| discriminate].
  cbn [bind pow of_Q fsub fdiv ExactLib].
  destruct (Rlt_dec 0 (Q2R 2)) as [_ | N];
    [| exfalso; apply N; exact two_positive].
  intros E. injection E as <-. eauto.
Qed.

Lemma compute_fight_balance_defined (b : t) (x y : ref) (px py : R) :
  get_unit_eff_power (M := ExactLib) b x = Ok px ->
  get_unit_eff_power (M := ExactLib) b y = Ok py ->
  compute_fight_balance (M := ExactLib) b x y
  = Ok (Rpower (Q2R 2) ((px - py) / Q2R (2 * POWER_SCALE))).
Proof.
  intros X Y. unfold compute_fight_balance. rewrite X, Y.
  cbn [bind pow of_Q fsub fdiv ExactLib].
  destruct (Rlt_dec 0 (Q2R 2)) as [_ | N];
    [reflexivity | exfalso; apply N; exact two_positive].
Qed.

Lemma Rpower_reciprocal (e : R) :
  Rpower (Q2R 2) e * Rpower (Q2R 2) (- e) = 1
  /\ 1 / Rpower (Q2R 2) e = Rpower (Q2R 2) (- e).
Proof.
  split.
  - rewrite <- Rpower_plus. replace (e + - e) with 0 by ring.
    apply Rpower_O. exact two_positive.
  - rewrite Rpower_Ropp. unfold Rdiv. ring.
Qed.

(** C10: in exact arithmetic, whenever the two balances of a pair are
    computed their product is [1], so [1 / balance(A, B)], the multiplier
    of the morale loss of [A] in a two-way fight, is [balance(B, A)]; and
    they are computed for any two deployed units whose armies have a
    reserve total above [-RESERVES_SOFT_CAP] and whose rigidity is above
    [-1]. *)
Theorem fight_balances_are_reciprocal (b : t) (unit_A unit_B : ref) :
  (forall x y,
      compute_fight_balance (M := ExactLib) b unit_A unit_B = Ok x ->
      compute_fight_balance (M := ExactLib) b unit_B unit_A = Ok y ->
      x * y = 1 /\ 1 / x = y /\ 1 / y = x)
  /\ (forall sA sB,
         get_army_deployed_in b unit_A = Ok sA ->
         get_army_deployed_in b unit_B = Ok sB ->
         (- RESERVES_SOFT_CAP
          < Army.total_reserve_power (heap b) (army b sA))%Q ->
         (- RESERVES_SOFT_CAP
          < Army.total_reserve_power (heap b) (army b sB))%Q ->
         (-1 < Unit.rigidity (unit b unit_A))%Q ->
         (-1 < Unit.rigidity (unit b unit_B))%Q ->
         exists x y,
           compute_fight_balance (M := ExactLib) b unit_A unit_B = Ok x
           /\ compute_fight_balance (M := ExactLib) b unit_B unit_A = Ok y
           /\ x * y = 1).
Proof.
  assert (P : forall x y,
             compute_fight_balance (M := ExactLib) b unit_A unit_B = Ok x ->
             compute_fight_balance (M := ExactLib) b unit_B unit_A = Ok y ->
             x * y = 1 /\ 1 / x = y /\ 1 / y = x).
  { intros x y X Y.
    apply compute_fight_balance_value in X, Y.
    destruct X as (pa & pb & A & B & ->).
    destruct Y as (pb' & pa' & B' & A' & ->).
    rewrite A in A'. rewrite B in B'.
    injection A' as <-. injection B' as <-.
    set (e := (pa - pb) / Q2R (2 * POWER_SCALE)).
    replace ((pb - pa) / Q2R (2 * POWER_SCALE)) with (- e)
      by (unfold e, Rdiv; ring).
    destruct (Rpower_reciprocal e) as [M I].
    split; [exact M |]. split; [exact I |].
    destruct (Rpower_reciprocal (- e)) as [_ I'].
    rewrite Ropp_involutive in I'. exact I'. }
  split; [exact P |].
  intros sA sB DA DB TA TB GA GB.
  destruct (get_unit_eff_power_defined b unit_A sA DA TA GA) as [pa A].
  destruct (get_unit_eff_power_defined b unit_B sB DB TB GB) as [pb B].
  pose proof (compute_fight_balance_defined b unit_A unit_B pa pb A B) as X.
  pose proof (compute_fight_balance_defined b unit_B unit_A pb pa B A) as Y.
  eexists. eexists. split; [exact X |]. split; [exact Y |].
  apply (P _ _ X Y).
Qed.

Lemma fight_balances_are_reciprocal_witness :
  exists x y,
    compute_fight_balance (M := ExactLib) Sample.standoff 0%nat 1%nat = Ok x
    /\ compute_fight_balance (M := ExactLib) Sample.standoff 1%nat 0%nat
       = Ok y
    /\ x * y = 1.
Proof.
  destruct (fight_balances_are_reciprocal Sample.standoff 0%nat 1%nat)
    as [_ D].
  apply (D Side1 Side2); reflexivity.
Defined.
End PowerFacts.

(* ------------------------------------------------------------------ *)
(** ** Rounding error *)

Lemma round_half_even_error (q : Q) :
  Qabs (inject_Z (round_half_even q) - q) <= 1 # 2.
Proof.
  unfold round_half_even.
  pose proof (Qfloor_le q) as L.
  pose proof (Qlt_floor q) as U.
  rewrite inject_Z_plus in U.
  change (inject_Z 1) with 1 in U.
  apply Qabs_Qle_condition.
  destruct (Qcompare (q - inject_Z (Qfloor q)) (1 # 2)) eqn:C;
    [apply -> Qcompare_Eq in C; destruct (Z.even (Qfloor q))
    | apply -> Qcompare_Lt in C | apply -> Qcompare_Gt in C ];
    rewrite ?inject_Z_plus; change (inject_Z 1) with 1;
    revert L U C; generalize (inject_Z (Qfloor q)); intros f L U C;
    split; qlra.
Qed.

Lemma py_round_error (x : Q) (n : nat) :
  Qabs (py_round x n - x) <= 1 # (2 * pow10 n).
Proof.
  unfold py_round.
  set (d := pow10 n).
  set (z := round_half_even (x * inject_Z (Zpos d))).
  pose proof (round_half_even_error (x * inject_Z (Zpos d))) as E.
  fold z in E.
  apply Qabs_Qle_condition in E. destruct E as [E1 E2].
  assert (D : 0 < inject_Z (Zpos d)) by reflexivity.
  assert (S : (1 # (2 * d)) * inject_Z (Zpos d) == 1 # 2).
  { unfold Qeq, Qmult, inject_Z. simpl. lia. }
  pose proof (Qmake_scale z d) as Z.
  apply Qabs_Qle_condition. split.
  - apply (Qmult_le_r _ _ (inject_Z (Zpos d)) D).
    setoid_replace ((- (1 # 2 * d)) * inject_Z (Zpos d))
      with (- ((1 # (2 * d)) * inject_Z (Zpos d))) by ring.
    setoid_replace (((z # d) - x) * inject_Z (Zpos d))
      with ((z # d) * inject_Z (Zpos d) - x * inject_Z (Zpos d)) by ring.
    rewrite S, Z. qlra.
  - apply (Qmult_le_r _ _ (inject_Z (Zpos d)) D).
    setoid_replace (((z # d) - x) * inject_Z (Zpos d))
      with ((z # d) * inject_Z (Zpos d) - x * inject_Z (Zpos d)) by ring.
    rewrite S, Z. qlra.
Qed.

Lemma py_round_within_EPS (x : Q) :
  Qabs (py_round x POS_DEC_DIG - x) <= Unit.EPS.
Proof.
  pose proof (py_round_error x POS_DEC_DIG) as E.
  assert (V : 1 # (2 * pow10 POS_DEC_DIG) == Unit.EPS) by reflexivity.
  rewrite V in E. exact E.
Qed.

(** A number of thousandths is its own rounding. *)
Lemma scaled_rounded (x : Q) (k : Z) (n : nat) :
  x * inject_Z (Zpos (pow10 n)) == inject_Z k -> py_round x n == x.
Proof.
  intros E. unfold py_round.
  rewrite (round_half_even_comp _ _ E), round_half_even_inject.
  apply Qle_antisym.
  - apply Qmake_le_iff. rewrite E. apply Qle_refl.
  - apply Qmake_ge_iff. rewrite E. apply Qle_refl.
Qed.

Lemma rounded_plus_Z (x : Q) (k : Z) :
  Unit.rounded x -> Unit.rounded (x + inject_Z k).
Proof.
  unfold Unit.rounded. intros R.
  pose proof (rounded_scaled x POS_DEC_DIG R) as S.
  apply (scaled_rounded _
           (round_half_even (x * inject_Z (Zpos (pow10 POS_DEC_DIG)))
            + k * Zpos (pow10 POS_DEC_DIG))).
  rewrite inject_Z_plus, inject_Z_mult, <- S. ring.
Qed.

Lemma Qabs_lower (a x : Q) : a <= x \/ a <= - x -> a <= Qabs x.
Proof.
  intros [H | H].
  - eapply Qle_trans; [exact H | apply Qle_Qabs].
  - eapply Qle_trans; [exact H |].
    rewrite <- Qabs_opp. apply Qle_Qabs.
Qed.

Lemma clamp_inside (x a : Q) :
  - a <= x -> x <= a -> Qmax (- a) (Qmin x a) == x.
Proof.
  intros L U.
  rewrite (Q.min_l x a U). apply Q.max_r. exact L.
Qed.

Lemma clamp_bounds (x a : Q) :
  0 <= a -> - a <= Qmax (- a) (Qmin x a) /\ Qmax (- a) (Qmin x a) <= a.
Proof.
  intros A. split.
  - apply Q.le_max_l.
  - apply Q.max_lub; [qlra | apply Q.le_min_r].
Qed.

(* ------------------------------------------------------------------ *)
(** ** Unit: movement *)

Module UnitMoveFacts.
Import Unit.

Lemma cap_position_inside (u : t) :
  in_bounds u ->
  position (cap_position u) = py_round (position u) POS_DEC_DIG.
Proof.
  intros [L U]. unfold cap_position. simpl.
  apply py_round_comp. apply clamp_inside; assumption.
Qed.

Lemma move_to_inside (u : t) (p : Q) :
  - Qabs (init_pos u) <= p -> p <= Qabs (init_pos u) ->
  position (move_to u p) = py_round p POS_DEC_DIG.
Proof.
  intros L U. unfold move_to.
  rewrite cap_position_inside; [reflexivity | split; assumption].
Qed.

(** X2: [cap_position] is a projection onto the rounded positions of the
    unit's interval: applying it twice is applying it once, a position
    inside the interval moves by less than one step of the third decimal
    ([2 * EPS]; the rounding of the position costs half a step, and the
    strict bound leaves room for the rounding errors of binary64), and a
    position that is already inside and rounded stays where it is. *)
Theorem cap_position_projection (u : t) :
  rounded (init_pos u) ->
  cap_position (cap_position u) = cap_position u
  /\ (in_bounds u ->
      Qabs (position (cap_position u) - position u) < 2 * EPS)
  /\ (position_ok u -> position (cap_position u) == position u).
Proof.
  intros R.
  split; [| split].
  - destruct (UnitFacts.cap_position_ok u R) as [[L U] _].
    unfold cap_position, set_position in *. simpl in *.
    f_equal.
    rewrite (py_round_comp _ _ POS_DEC_DIG (clamp_inside _ _ L U)).
    apply py_round_idempotent.
  - intros I. rewrite (cap_position_inside u I).
    eapply Qle_lt_trans; [apply py_round_within_EPS |].
    rewrite UnitFacts.EPS_value. reflexivity.
  - intros [I P]. rewrite (cap_position_inside u I). exact P.
Qed.

Lemma cap_position_projection_witness :
  rounded (init_pos Sample.advanced_pike)
  /\ cap_position (cap_position Sample.advanced_pike)
     = cap_position Sample.advanced_pike.
Proof.
  split; [reflexivity |].
  apply (cap_position_projection Sample.advanced_pike). reflexivity.
Defined.

Lemma validate_spec (ut : UnitType.t) :
  UnitType.validate ut = true
  <-> -1 < UnitType.rigidity ut /\ 0 < UnitType.speed ut
      /\ 1 <= UnitType.att_range ut.
Proof.
  unfold UnitType.validate.
  rewrite !andb_true_iff, !Qltb_spec, Qleb_spec. tauto.
Qed.

Lemma valid_eff_range (u v : t) :
  UnitType.validate (unit_type u) = true ->
  EPS <= get_eff_range_against u v - EPS.
Proof.
  intros V. apply validate_spec in V. destruct V as (_ & _ & A).
  unfold get_eff_range_against, att_range, SIDE_RANGE_PENALTY.
  pose proof UnitFacts.EPS_value as E.
  destruct (is_in_front u v); qlra.
Qed.

Lemma approach_distance (u v : t) :
  0 <= get_eff_range_against u v - EPS ->
  Qabs (get_position_to_attack_target u v - position v)
  <= get_eff_range_against u v - EPS.
Proof.
  intros P. unfold get_position_to_attack_target.
  set (r := get_eff_range_against u v - EPS) in *.
  apply Qabs_Qle_condition.
  destruct (Qltb (position u) (position v - r)) eqn:A.
  - split; qlra.
  - apply Qltb_false in A.
    destruct (Qltb (position v + r) (position u)) eqn:B.
    + split; qlra.
    + apply Qltb_false in B. split; qlra.
Qed.

(** X5: the position [get_position_to_attack_target] names is an attack
    position.  For a unit of a valid type, moving to it with [move_to]
    puts the unit in range of the target whenever the position lies inside
    the unit's interval: the margin [EPS] kept by the approach absorbs the
    rounding of [move_to].  A unit that is already within the reduced range
    is told to stay where it is. *)
Theorem approach_position_is_in_range (u v : t) :
  UnitType.validate (unit_type u) = true ->
  let p := get_position_to_attack_target u v in
  (- Qabs (init_pos u) <= p -> p <= Qabs (init_pos u) ->
   is_in_range_of (move_to u p) v = true)
  /\ (get_dist_to u (position v) <= get_eff_range_against u v - EPS ->
      p = position u).
Proof.
  intros V p. split.
  - intros L U.
    pose proof (valid_eff_range u v V) as R.
    pose proof UnitFacts.EPS_value as E.
    assert (D : Qabs (p - position v) <= get_eff_range_against u v - EPS).
    { apply approach_distance. qlra. }
    unfold is_in_range_of, get_dist_to. apply Qleb_spec.
    rewrite (move_to_inside u p L U).
    assert (F : get_eff_range_against (move_to u p) v
                = get_eff_range_against u v) by reflexivity.
    rewrite F.
    pose proof (py_round_within_EPS p) as W.
    apply Qabs_Qle_condition in D. apply Qabs_Qle_condition in W.
    apply Qabs_Qle_condition. destruct D, W. split; qlra.
  - intros D. unfold get_dist_to in D.
    apply Qabs_Qle_condition in D. destruct D as [D1 D2].
    subst p. unfold get_position_to_attack_target.
    destruct (Qltb (position u) _) eqn:A.
    + apply Qltb_spec in A. exfalso. qlra.
    + destruct (Qltb _ (position u)) eqn:B; [| reflexivity].
      apply Qltb_spec in B. exfalso. qlra.
Qed.

Lemma approach_position_is_in_range_witness :
  is_in_range_of
    (move_to Sample.advanced_pike
       (get_position_to_attack_target Sample.advanced_pike
          (Sample.placed Sample.archer 1 5)))
    (Sample.placed Sample.archer 1 5) = true.
Proof.
  apply (approach_position_is_in_range Sample.advanced_pike
           (Sample.placed Sample.archer 1 5)).
  - reflexivity.
  - vm_compute. discriminate.
  - vm_compute. discriminate.
Defined.

(** X4: [move_towards] neither passes the target nor moves away from it.
    From a rounded position inside the interval, towards a rounded target
    inside the interval and with a speed that is not negative, the new
    position lies between the old one and the target, and it is the target
    as soon as the target is within one step. *)
Theorem move_towards_stays_between (dt : Q) (u : t) (target speed : Q) :
  position_ok u ->
  rounded target ->
  - Qabs (init_pos u) <= target -> target <= Qabs (init_pos u) ->
  0 <= speed * BASE_SPEED * dt ->
  let u' := move_towards dt u target speed in
  (position u <= target ->
   position u <= position u' /\ position u' <= target)
  /\ (target <= position u ->
      target <= position u' /\ position u' <= position u)
  /\ (Qabs (target - position u) <= speed * BASE_SPEED * dt ->
      position u' == target).
Proof.
  intros [[L U] R] RT TL TU S u'. subst u'. unfold move_towards.
  set (step := speed * BASE_SPEED * dt) in *.
  destruct (Qltb (position u) target) eqn:A.
  - apply Qltb_spec in A.
    assert (M1 : position u <= Qmin (position u + step) target).
    { apply Q.min_glb; qlra. }
    assert (M2 : Qmin (position u + step) target <= target)
      by apply Q.le_min_r.
    rewrite move_to_inside; [| qlra | qlra].
    split; [| split].
    + intros _. split.
      * apply py_round_ge; assumption.
      * apply py_round_le; assumption.
    + intros C. exfalso. qlra.
    + intros C. apply Qabs_Qle_condition in C. destruct C as [_ C].
      assert (Q : Qmin (position u + step) target == target).
      { apply Q.min_r. qlra. }
      rewrite (py_round_comp _ _ POS_DEC_DIG Q). exact RT.
  - apply Qltb_false in A.
    destruct (Qltb target (position u)) eqn:B.
    + apply Qltb_spec in B.
      assert (M1 : Qmax (position u - step) target <= position u).
      { apply Q.max_lub; qlra. }
      assert (M2 : target <= Qmax (position u - step) target)
        by apply Q.le_max_r.
      rewrite move_to_inside; [| qlra | qlra].
      split; [| split].
      * intros C. exfalso. qlra.
      * intros _. split.
        -- apply py_round_ge; assumption.
        -- apply py_round_le; assumption.
      * intros C. apply Qabs_Qle_condition in C. destruct C as [C _].
        assert (Q : Qmax (position u - step) target == target).
        { apply Q.max_r. qlra. }
        rewrite (py_round_comp _ _ POS_DEC_DIG Q). exact RT.
    + apply Qltb_false in B.
      split; [| split]; intros; try split; qlra.
Qed.

Lemma move_towards_stays_between_witness :
  let u' := move_towards (1 # 100) Sample.advanced_pike 6 1 in
  position Sample.advanced_pike <= position u' /\ position u' <= 6.
Proof.
  apply (move_towards_stays_between (1 # 100) Sample.advanced_pike 6 1).
  - split; [split |]; vm_compute; try reflexivity; discriminate.
  - reflexivity.
  - vm_compute. discriminate.
  - vm_compute. discriminate.
  - vm_compute. discriminate.
  - vm_compute. discriminate.
Defined.

(** X3: [move_by] follows the sign of the distance.  From a rounded
    position inside the interval, a distance that is not negative never
    moves the unit backwards and a distance that is not positive never
    moves it forwards; the unit covers at most the distance asked for,
    up to the rounding margin [EPS]. *)
Theorem move_by_follows_direction (u : t) (d : Q) :
  position_ok u ->
  (0 <= d ->
   position u <= position (move_by u d)
   /\ position (move_by u d) <= position u + d + EPS)
  /\ (d <= 0 ->
      position u + d - EPS <= position (move_by u d)
      /\ position (move_by u d) <= position u).
Proof.
  intros [[L U] R].
  assert (P : position (move_by u d)
              = py_round
                  (Qmax (- Qabs (init_pos u))
                     (Qmin (position u + d) (Qabs (init_pos u))))
                  POS_DEC_DIG) by reflexivity.
  rewrite P. clear P.
  set (a := Qabs (init_pos u)) in *.
  set (c := Qmax (- a) (Qmin (position u + d) a)).
  pose proof (py_round_within_EPS c) as W.
  apply Qabs_Qle_condition in W. destruct W as [W1 W2].
  split; intros D.
  - assert (C1 : position u <= c).
    { eapply Qle_trans; [| apply Q.le_max_r]. apply Q.min_glb; qlra. }
    assert (C2 : c <= position u + d).
    { apply Q.max_lub; [qlra | apply Q.le_min_l]. }
    split; [apply py_round_ge; assumption | qlra].
  - assert (C1 : c <= position u).
    { apply Q.max_lub; [qlra |].
      eapply Qle_trans; [apply Q.le_min_l | qlra]. }
    assert (C2 : position u + d <= c).
    { eapply Qle_trans; [| apply Q.le_max_r]. apply Q.min_glb; qlra. }
    split; [qlra | apply py_round_le; assumption].
Qed.

Lemma move_by_follows_direction_witness :
  position Sample.advanced_pike
  <= position (move_by Sample.advanced_pike (1 # 3)).
Proof.
  destruct (move_by_follows_direction Sample.advanced_pike (1 # 3))
    as [H _].
  - split; [split |]; vm_compute; try reflexivity; discriminate.
  - apply H. discriminate.
Defined.

(** X6: a reserve is never deployed on its home edge.  For a unit whose
    home position is rounded and at least half a unit from the centre,
    [deploy_close_to] puts the unit in the requested file and away from
    home, at a distance of [MIN_DEPLOY_DIST] up to the margin [EPS] that
    the code allows for rounding, so that the unit is not [at_home]. *)
Theorem deploy_close_to_clear_of_home (u : t) (f : Z) (ref_pos : Q) :
  rounded (init_pos u) ->
  1 # 2 <= Qabs (init_pos u) ->
  let u' := deploy_close_to u f ref_pos in
  file u' = f
  /\ init_pos u' = init_pos u
  /\ MIN_DEPLOY_DIST - EPS <= get_dist_to u' (init_pos u')
  /\ at_home u' = false.
Proof.
  intros R H u'.
  assert (F : file u' = f) by reflexivity.
  assert (I : init_pos u' = init_pos u) by reflexivity.
  assert (D : MIN_DEPLOY_DIST <= get_dist_to u' (init_pos u')).
  { rewrite I. subst u'. unfold get_dist_to.
    assert (P : position (deploy_close_to u f ref_pos)
                = py_round
                    (Qmax (- Qabs (init_pos u))
                       (Qmin
                          (if Qltb (init_pos u) 0
                           then Qmax (ref_pos - 2) (init_pos u + 1)
                           else Qmin (ref_pos + 2) (init_pos u - 1))
                          (Qabs (init_pos u))))
                    POS_DEC_DIG) by reflexivity.
    rewrite P. clear P. unfold MIN_DEPLOY_DIST.
    set (a := Qabs (init_pos u)) in *.
    assert (A0 : 0 <= a) by apply Qabs_nonneg.
    destruct (Qltb (init_pos u) 0) eqn:N.
    - apply Qltb_spec in N.
      assert (Ea : a == - init_pos u).
      { subst a. apply Qabs_neg. qlra. }
      set (p := Qmax (ref_pos - 2) (init_pos u + 1)).
      assert (P : init_pos u + 1 <= p) by apply Q.le_max_r.
      assert (C : init_pos u + 1 <= Qmax (- a) (Qmin p a)).
      { eapply Qle_trans; [| apply Q.le_max_r].
        apply Q.min_glb; qlra. }
      assert (G : init_pos u + 1 <= py_round (Qmax (- a) (Qmin p a))
                                      POS_DEC_DIG).
      { apply py_round_ge; [| exact C].
        apply (rounded_plus_Z (init_pos u) 1 R). }
      apply Qabs_lower. left. qlra.
    - apply Qltb_false in N.
      assert (Ea : a == init_pos u).
      { subst a. apply Qabs_pos. exact N. }
      set (p := Qmin (ref_pos + 2) (init_pos u - 1)).
      assert (P : p <= init_pos u - 1) by apply Q.le_min_r.
      assert (C : Qmax (- a) (Qmin p a) <= init_pos u - 1).
      { apply Q.max_lub; [qlra |].
        eapply Qle_trans; [apply Q.le_min_l | exact P]. }
      assert (G : py_round (Qmax (- a) (Qmin p a)) POS_DEC_DIG
                  <= init_pos u - 1).
      { apply py_round_le; [| exact C].
        apply (rounded_plus_Z (init_pos u) (-1) R). }
      apply Qabs_lower. right. qlra. }
  split; [exact F |]. split; [exact I |]. split.
  - eapply Qle_trans; [| exact D].
    rewrite UnitFacts.EPS_value. unfold MIN_DEPLOY_DIST.
    intros X. vm_compute in X. discriminate X.
  - unfold at_home. apply Qeqb_false. intros E.
    unfold get_dist_to in D. rewrite E in D.
    unfold MIN_DEPLOY_DIST in D.
    setoid_replace (init_pos u' - init_pos u') with 0 in D by ring.
    vm_compute in D. apply D. reflexivity.
Qed.

Lemma deploy_close_to_clear_of_home_witness :
  at_home (deploy_close_to Sample.advanced_pike 1 (-8)) = false.
Proof.
  apply (deploy_close_to_clear_of_home Sample.advanced_pike 1 (-8)).
  - reflexivity.
  - vm_compute. discriminate.
Defined.

(** X1: the validators of [UnitType].  Construction succeeds exactly when
    rigidity is above [-1], speed is above [0] and the attack range is at
    least [1]; it then returns the type with the given fields, and in every
    other case it raises [ValueError]. *)
Theorem make_validates (n : string) (p r s a : Q) :
  (-1 < r /\ 0 < s /\ 1 <= a ->
   UnitType.make n p r s a = Ok (UnitType.mk n p r s a))
  /\ (~ (-1 < r /\ 0 < s /\ 1 <= a) ->
      UnitType.make n p r s a = Raise ValueError)
  /\ (forall ut, UnitType.make n p r s a = Ok ut ->
      0 < 1 + UnitType.rigidity ut
      /\ 0 < UnitType.speed ut
      /\ forall u v, unit_type u = ut -> 1 # 2 <= get_eff_range_against u v).
Proof.
  unfold UnitType.make.
  pose proof (validate_spec (UnitType.mk n p r s a)) as V. simpl in V.
  split; [| split].
  - intros C. apply V in C. rewrite C. reflexivity.
  - intros C. destruct (UnitType.validate _) eqn:E; [| reflexivity].
    exfalso. apply C, V. reflexivity.
  - intros ut E. destruct (UnitType.validate _) eqn:W; [| discriminate].
    injection E as <-. simpl.
    destruct V as [V _]. destruct (V eq_refl) as (A & B & C).
    split; [qlra | split; [exact B |]].
    intros u v T.
    unfold get_eff_range_against, att_range, SIDE_RANGE_PENALTY.
    rewrite T. simpl. destruct (is_in_front u v); qlra.
Qed.

Lemma make_validates_witness :
  UnitType.make "pike" 100 0.2 1 1 = Ok Sample.pike.
Proof.
  apply (make_validates "pike" 100 0.2 1 1).
  repeat split; vm_compute; congruence.
Defined.
End UnitMoveFacts.

(* ------------------------------------------------------------------ *)
(** ** Minima *)

Lemma min_by_split {X} (key : X -> Q) (xs : list X) (x : X) :
  min_by key xs = Some x ->
  exists l1 l2, xs = l1 ++ x :: l2
                /\ (forall y, In y l1 -> key x < key y)
                /\ (forall y, In y l2 -> key x <= key y).
Proof.
  revert x. induction xs as [| a rest IH]; intros x E; [discriminate |].
  simpl in E. destruct (min_by key rest) as [y |] eqn:M.
  - destruct (IH y eq_refl) as (l1 & l2 & -> & B & A).
    destruct (Qltb (key y) (key a)) eqn:C; injection E as <-.
    + apply Qltb_spec in C.
      exists (a :: l1), l2. split; [reflexivity |]. split.
      * intros z [<- | Z]; [exact C | apply B, Z].
      * exact A.
    + apply Qltb_false in C.
      exists [], (l1 ++ y :: l2). split; [reflexivity |]. split.
      * intros z [].
      * intros z Z. apply in_app_or in Z.
        destruct Z as [Z | [<- | Z]].
        -- apply Qlt_le_weak. eapply Qle_lt_trans; [exact C | apply B, Z].
        -- exact C.
        -- eapply Qle_trans; [exact C | apply A, Z].
  - injection E as <-. destruct rest; [| simpl in M].
    + exists [], []. split; [reflexivity |]. split; intros z [].
    + destruct (min_by key rest); [destruct (Qltb _ _) |]; discriminate.
Qed.

Lemma min_by_least {X} (key : X -> Q) (xs : list X) (x : X) :
  min_by key xs = Some x ->
  In x xs /\ forall y, In y xs -> key x <= key y.
Proof.
  intros E. destruct (min_by_split key xs x E) as (l1 & l2 & -> & B & A).
  split; [apply in_elt |].
  intros y Y. apply in_app_or in Y. destruct Y as [Y | [<- | Y]].
  - apply Qlt_le_weak, B, Y.
  - apply Qle_refl.
  - apply A, Y.
Qed.

Lemma min_by_none {X} (key : X -> Q) (xs : list X) :
  min_by key xs = None <-> xs = [].
Proof.
  split; [| intros ->; reflexivity].
  destruct xs as [| a rest]; [reflexivity |]. simpl.
  destruct (min_by key rest); [destruct (Qltb _ _) |]; discriminate.
Qed.

(** The head wins when nothing after it is strictly smaller. *)
Lemma min_by_head {X} (key : X -> Q) (x : X) (rest : list X) :
  (forall y, In y rest -> key x <= key y) ->
  min_by key (x :: rest) = Some x.
Proof.
  intros L. simpl. destruct (min_by key rest) as [y |] eqn:M; [| reflexivity].
  destruct (min_by_least key rest y M) as [Y _].
  destruct (Qltb (key y) (key x)) eqn:C; [| reflexivity].
  apply Qltb_spec in C. specialize (L y Y). exfalso. qlra.
Qed.

Lemma Qlist_min_least (x : Q) (xs : list Q) :
  In (Qlist_min x xs) (x :: xs)
  /\ forall y, In y (x :: xs) -> Qlist_min x xs <= y.
Proof.
  revert x. induction xs as [| a rest IH]; intros x; simpl.
  - split; [left; reflexivity |].
    intros y [<- | []]. apply Qle_refl.
  - destruct (IH (if Qltb a x then a else x)) as [I L].
    destruct (Qltb a x) eqn:C.
    + apply Qltb_spec in C. split.
      * destruct I as [I | I]; [right; left; exact I | right; right; exact I].
      * intros y [<- | [<- | Y]].
        -- apply Qlt_le_weak. eapply Qle_lt_trans; [| exact C].
           apply L. left. reflexivity.
        -- apply L. left. reflexivity.
        -- apply L. right. exact Y.
    + apply Qltb_false in C. split.
      * destruct I as [I | I]; [left; exact I | right; right; exact I].
      * intros y [<- | [<- | Y]].
        -- apply L. left. reflexivity.
        -- eapply Qle_trans; [| exact C]. apply L. left. reflexivity.
        -- apply L. right. exact Y.
Qed.

Lemma Qlist_max_greatest (x : Q) (xs : list Q) :
  In (Qlist_max x xs) (x :: xs)
  /\ forall y, In y (x :: xs) -> y <= Qlist_max x xs.
Proof.
  revert x. induction xs as [| a rest IH]; intros x; simpl.
  - split; [left; reflexivity |].
    intros y [<- | []]. apply Qle_refl.
  - destruct (IH (if Qltb x a then a else x)) as [I L].
    destruct (Qltb x a) eqn:C.
    + apply Qltb_spec in C. split.
      * destruct I as [I | I]; [right; left; exact I | right; right; exact I].
      * intros y [<- | [<- | Y]].
        -- apply Qlt_le_weak. eapply Qlt_le_trans; [exact C |].
           apply L. left. reflexivity.
        -- apply L. left. reflexivity.
        -- apply L. right. exact Y.
    + apply Qltb_false in C. split.
      * destruct I as [I | I]; [left; exact I | right; right; exact I].
      * intros y [<- | [<- | Y]].
        -- apply L. left. reflexivity.
        -- eapply Qle_trans; [exact C |]. apply L. left. reflexivity.
        -- apply L. right. exact Y.
Qed.

(* ------------------------------------------------------------------ *)
(** ** Army: queries over a file and its neighbours *)

Module ArmyQueryFacts.
Import Army.

Lemma get_neighbors_In (a : t) (file : Z) (inc : bool) (r : ref) :
  In r (get_neighbors a file inc)
  <-> (inc = true /\ dict_get Z.eqb file (file_units a) = Some r)
      \/ dict_get Z.eqb (file - 1)%Z (file_units a) = Some r
      \/ dict_get Z.eqb (file + 1)%Z (file_units a) = Some r.
Proof.
  unfold get_neighbors. rewrite !in_app_iff.
  destruct inc;
    destruct (dict_get Z.eqb file (file_units a));
    destruct (dict_get Z.eqb (file - 1)%Z (file_units a));
    destruct (dict_get Z.eqb (file + 1)%Z (file_units a));
    simpl; split; intros H;
    repeat match goal with
           | H : _ \/ _ |- _ => destruct H
           | H : _ /\ _ |- _ => destruct H
           | H : False |- _ => destruct H
           | H : Some _ = Some _ |- _ => injection H as H
           end;
    subst; try discriminate; auto 6.
Qed.

Lemma get_neighbors_adjacent (a : t) (file : Z) (r : ref) :
  In r (get_neighbors a file true) <-> adjacent_unit a file r.
Proof.
  rewrite get_neighbors_In. unfold adjacent_unit. split.
  - intros [[_ H] | [H | H]].
    + exists file. split; [lia | exact H].
    + exists (file - 1)%Z. split; [lia | exact H].
    + exists (file + 1)%Z. split; [lia | exact H].
  - intros (g & G & H).
    assert (C : g = file \/ g = (file - 1)%Z \/ g = (file + 1)%Z) by lia.
    destruct C as [-> | [-> | ->]]; auto.
Qed.

Lemma get_neighbors_nil (a : t) (file : Z) :
  get_neighbors a file true = []
  <-> is_file_active a (file - 1) = false
      /\ is_file_active a file = false
      /\ is_file_active a (file + 1) = false.
Proof.
  unfold get_neighbors, is_file_active, dict_mem.
  destruct (dict_get Z.eqb file (file_units a));
    destruct (dict_get Z.eqb (file - 1)%Z (file_units a));
    destruct (dict_get Z.eqb (file + 1)%Z (file_units a));
    simpl; split; intros H; try discriminate; try reflexivity;
    try (destruct H as (? & ? & ?); discriminate); auto.
Qed.

(** X7: [get_blocking_unit] returns the unit an enemy meets first.  It
    answers [None] exactly when the army holds neither the enemy's file
    nor a file next to it; otherwise the unit returned stands in one of
    these three files and no unit of these files has a smaller distance to
    the enemy, counted with the penalty for a flank.  The unit straight
    ahead is preferred when it ties for the minimum. *)
Theorem get_blocking_unit_nearest (h : store) (a : t) (enemy : ref) :
  let file := Unit.file (deref h enemy) in
  (get_blocking_unit h a enemy = None
   <-> is_file_active a (file - 1) = false
       /\ is_file_active a file = false
       /\ is_file_active a (file + 1) = false)
  /\ (forall r, get_blocking_unit h a enemy = Some r ->
      adjacent_unit a file r
      /\ forall r', adjacent_unit a file r' ->
                    encounter_cost h enemy r <= encounter_cost h enemy r')
  /\ (forall r, dict_get Z.eqb file (file_units a) = Some r ->
      (forall r', adjacent_unit a file r' ->
                  encounter_cost h enemy r <= encounter_cost h enemy r') ->
      get_blocking_unit h a enemy = Some r).
Proof.
  intros file.
  change (get_blocking_unit h a enemy)
    with (min_by (encounter_cost h enemy) (get_neighbors a file true)).
  split; [| split].
  - rewrite min_by_none. apply get_neighbors_nil.
  - intros r E. apply min_by_least in E. destruct E as [I L]. split.
    + apply get_neighbors_adjacent, I.
    + intros r' A. apply L, get_neighbors_adjacent, A.
  - intros r F L.
    assert (N : exists rest, get_neighbors a file true = r :: rest).
    { unfold get_neighbors. rewrite F. simpl. eauto. }
    destruct N as [rest N].
    rewrite N. apply min_by_head.
    intros y Y. apply L, get_neighbors_adjacent.
    rewrite N. right. exact Y.
Qed.

(** X8: [get_backwards_neighbor] never answers with the unit it was asked
    about.  A unit it returns stands in the file of the reference unit or
    next to it and is at least as close to home as every unit of these
    files; a reference unit that holds its own file and is itself nowhere
    behind gets [None]. *)
Theorem get_backwards_neighbor_is_behind (h : store) (a : t) (u : ref) :
  let file := Unit.file (deref h u) in
  (forall r, get_backwards_neighbor h a u = Some r ->
   r <> u
   /\ adjacent_unit a file r
   /\ forall r', adjacent_unit a file r' -> home_dist h r <= home_dist h r')
  /\ (dict_get Z.eqb file (file_units a) = Some u ->
      (forall r', adjacent_unit a file r' ->
                  home_dist h u <= home_dist h r') ->
      get_backwards_neighbor h a u = None)
  /\ (is_file_active a (file - 1) = false ->
      is_file_active a file = false ->
      is_file_active a (file + 1) = false ->
      get_backwards_neighbor h a u = None).
Proof.
  intros file.
  assert (D : get_backwards_neighbor h a u
              = match min_by (home_dist h) (get_neighbors a file true) with
                | None => None
                | Some r => if Nat.eqb r u then None else Some r
                end) by reflexivity.
  rewrite D. clear D.
  split; [| split].
  - intros r E.
    destruct (min_by (home_dist h) (get_neighbors a file true)) as [m |] eqn:M;
      [| discriminate].
    destruct (Nat.eqb m u) eqn:Q; [discriminate |].
    injection E as <-. apply Nat.eqb_neq in Q.
    apply min_by_least in M. destruct M as [I L].
    split; [exact Q | split].
    + apply get_neighbors_adjacent, I.
    + intros r' A. apply L, get_neighbors_adjacent, A.
  - intros F L.
    assert (N : exists rest, get_neighbors a file true = u :: rest).
    { unfold get_neighbors. rewrite F. simpl. eauto. }
    destruct N as [rest N].
    rewrite N, min_by_head.
    + rewrite Nat.eqb_refl. reflexivity.
    + intros y Y. apply L, get_neighbors_adjacent.
      rewrite N. right. exact Y.
  - intros A B C.
    assert (N : get_neighbors a file true = []).
    { apply get_neighbors_nil. auto. }
    rewrite N. reflexivity.
Qed.

(** X9: the speed of an advancing line.  For a unit that is deployed in
    the army, [get_minimum_laggard_speed] is defined: it is the least
    effective speed among the deployed units that are no further from home
    than the unit, and so it never exceeds the unit's own effective speed;
    [get_cohesive_speed] is then defined as well and is bounded in the
    same way.  Without deployed units the minimum is taken over nothing
    and [ValueError] is raised. *)
Theorem cohesive_speed_bounded (h : store) (a : t) (u : ref)
    (target : Q) (l : Landscape.t) :
  (In u (deployed_units a) ->
   exists s,
     get_minimum_laggard_speed h a u l = Ok s
     /\ s <= Unit.get_eff_speed (deref h u) l
     /\ (exists x, In x (deployed_units a)
                   /\ home_dist h x <= home_dist h u
                   /\ s = Unit.get_eff_speed (deref h x) l)
     /\ (forall x, In x (deployed_units a) ->
                   home_dist h x <= home_dist h u ->
                   s <= Unit.get_eff_speed (deref h x) l))
  /\ (In u (deployed_units a) ->
      exists s, get_cohesive_speed h a u target l = Ok s
                /\ s <= Unit.get_eff_speed (deref h u) l)
  /\ (deployed_units a = [] ->
      get_minimum_laggard_speed h a u l = Raise ValueError).
Proof.
  assert (First :
    In u (deployed_units a) ->
    exists s,
      get_minimum_laggard_speed h a u l = Ok s
      /\ s <= Unit.get_eff_speed (deref h u) l
      /\ (exists x, In x (deployed_units a)
                    /\ home_dist h x <= home_dist h u
                    /\ s = Unit.get_eff_speed (deref h x) l)
      /\ (forall x, In x (deployed_units a) ->
                    home_dist h x <= home_dist h u ->
                    s <= Unit.get_eff_speed (deref h x) l)).
  { intros D. unfold get_minimum_laggard_speed.
    set (lag := filter _ (deployed_units a)).
    assert (Lag : forall x, In x lag
                  <-> In x (deployed_units a)
                      /\ home_dist h x <= home_dist h u).
    { intros x. subst lag. rewrite filter_In.
      unfold home_dist. rewrite Qleb_spec. tauto. }
    assert (U : In u lag). { apply Lag. split; [exact D | apply Qle_refl]. }
    destruct (map (fun r => Unit.get_eff_speed (deref h r) l) lag)
      as [| x rest] eqn:E.
    { destruct lag; [destruct U | discriminate]. }
    destruct (Qlist_min_least x rest) as [I L].
    rewrite <- E in I, L.
    exists (Qlist_min x rest). split; [reflexivity |].
    split; [| split].
    - apply L. apply in_map_iff. exists u. split; [reflexivity | exact U].
    - apply in_map_iff in I. destruct I as (y & Y1 & Y2).
      exists y. apply Lag in Y2. destruct Y2. auto.
    - intros y Y1 Y2. apply L. apply in_map_iff. exists y.
      split; [reflexivity |]. apply Lag. auto. }
  split; [exact First | split].
  - intros D. unfold get_cohesive_speed.
    destruct (_ && _).
    { eexists. split; [reflexivity | apply Qle_refl]. }
    destruct (_ && _).
    { eexists. split; [reflexivity | apply Qle_refl]. }
    destruct (First D) as (s & E & B & _). exists s. auto.
  - intros E. unfold get_minimum_laggard_speed. rewrite E. reflexivity.
Qed.

Lemma cohesive_speed_bounded_witness :
  exists s,
    get_cohesive_speed Sample.flank_store Sample.flank_army_1 1%nat 3
      Sample.covered_plain = Ok s
    /\ s <= Unit.get_eff_speed (deref Sample.flank_store 1%nat)
              Sample.covered_plain.
Proof.
  apply (cohesive_speed_bounded Sample.flank_store Sample.flank_army_1
           1%nat 3 Sample.covered_plain).
  simpl. auto.
Defined.

Lemma get_blocking_unit_nearest_witness :
  adjacent_unit Sample.flank_army_1 (-1) 1%nat.
Proof.
  apply (get_blocking_unit_nearest Sample.flank_store Sample.flank_army_1
           3%nat).
  reflexivity.
Defined.

Lemma get_backwards_neighbor_is_behind_witness :
  get_backwards_neighbor Sample.mirror_store Sample.mirror_army_1 0%nat
  = None.
Proof.
  destruct (get_backwards_neighbor_is_behind Sample.mirror_store
              Sample.mirror_army_1 0%nat) as (_ & H & _).
  apply H.
  - reflexivity.
  - intros r' (g & G & E). simpl in G.
    assert (C : g = (-1)%Z \/ g = 0%Z \/ g = 1%Z) by lia.
    destruct C as [-> | [-> | ->]]; simpl in E;
      [discriminate | injection E as <- | injection E as <-];
      vm_compute; discriminate.
Defined.
End ArmyQueryFacts.

(* ------------------------------------------------------------------ *)
(** ** Lookups after updates *)

Section DictLookupFacts.
Context {K V : Type}.
Variable key_eqb : K -> K -> bool.
Hypothesis key_eqb_eq : forall a b, key_eqb a b = true <-> a = b.

Lemma key_eqb_neq (a b : K) : key_eqb a b = false <-> a <> b.
Proof.
  split.
  - intros E C. apply key_eqb_eq in C. congruence.
  - intros C. destruct (key_eqb a b) eqn:E; [| reflexivity].
    apply key_eqb_eq in E. contradiction.
Qed.

Lemma dict_get_In (k : K) (v : V) (d : list (K * V)) :
  dict_get key_eqb k d = Some v -> In (k, v) d.
Proof.
  induction d as [| [k' v'] rest IH]; simpl; [discriminate |].
  destruct (key_eqb k k') eqn:E.
  - intros H. injection H as <-. apply key_eqb_eq in E. subst. auto.
  - auto.
Qed.

Lemma dict_get_None (k : K) (d : list (K * V)) :
  dict_get key_eqb k d = None <-> ~ In k (dict_keys d).
Proof.
  induction d as [| [k' v'] rest IH]; simpl; [tauto |].
  destruct (key_eqb k k') eqn:E.
  - apply key_eqb_eq in E. subst. split; [discriminate | intros H].
    exfalso. auto.
  - apply key_eqb_neq in E. rewrite IH. split.
    + intros H [C | C]; [congruence | auto].
    + auto.
Qed.

Lemma In_dict_get (k : K) (v : V) (d : list (K * V)) :
  NoDup (dict_keys d) -> In (k, v) d -> dict_get key_eqb k d = Some v.
Proof.
  induction d as [| [k' v'] rest IH]; simpl; [tauto |].
  intros N [H | H].
  - injection H as -> ->.
    rewrite (proj2 (key_eqb_eq k k) eq_refl). reflexivity.
  - inversion N as [| ? ? N1 N2]; subst.
    destruct (key_eqb k k') eqn:E; [| auto].
    apply key_eqb_eq in E. subst. exfalso. apply N1.
    change (In (fst (k', v)) (map fst rest)). apply in_map, H.
Qed.

Lemma dict_get_set (k k' : K) (v : V) (d : list (K * V)) :
  dict_get key_eqb k (dict_set key_eqb k' v d)
  = if key_eqb k k' then Some v else dict_get key_eqb k d.
Proof.
  induction d as [| [x y] rest IH]; simpl.
  - destruct (key_eqb k k'); reflexivity.
  - destruct (key_eqb k' x) eqn:E; simpl.
    + apply key_eqb_eq in E. subst x.
      destruct (key_eqb k k'); reflexivity.
    + destruct (key_eqb k x) eqn:F; [| exact IH].
      destruct (key_eqb k k') eqn:G; [| reflexivity].
      apply key_eqb_eq in F, G. subst.
      rewrite (proj2 (key_eqb_eq x x) eq_refl) in E. discriminate.
Qed.

Lemma dict_get_del_other (k k' : K) (d : list (K * V)) :
  k <> k' ->
  dict_get key_eqb k (dict_del key_eqb k' d) = dict_get key_eqb k d.
Proof.
  intros N. induction d as [| [x y] rest IH]; simpl; [reflexivity |].
  destruct (key_eqb k' x) eqn:E; simpl.
  - apply key_eqb_eq in E. subst x.
    rewrite (proj2 (key_eqb_neq k k') N). reflexivity.
  - destruct (key_eqb k x); [reflexivity | exact IH].
Qed.

Lemma dict_get_del_same (k : K) (d : list (K * V)) :
  NoDup (dict_keys d) ->
  dict_get key_eqb k (dict_del key_eqb k d) = None.
Proof.
  intros N.
  pose proof (dict_del_absent key_eqb key_eqb_eq k d N) as A.
  unfold dict_mem in A.
  destruct (dict_get key_eqb k (dict_del key_eqb k d));
    [discriminate | reflexivity].
Qed.

Lemma dict_del_In (k : K) (x : K * V) (d : list (K * V)) :
  In x (dict_del key_eqb k d) -> In x d.
Proof.
  induction d as [| [k' v'] rest IH]; simpl; [tauto |].
  destruct (key_eqb k k'); simpl; [auto |].
  intros [H | H]; auto.
Qed.

Lemma dict_set_In (k : K) (v : V) (x : K * V) (d : list (K * V)) :
  In x (dict_set key_eqb k v d) -> x = (k, v) \/ In x d.
Proof.
  induction d as [| [k' v'] rest IH]; simpl.
  - intros [H | []]. auto.
  - destruct (key_eqb k k') eqn:E; simpl.
    + apply key_eqb_eq in E. subst k'.
      intros [H | H]; auto.
    + intros [H | H]; auto. destruct (IH H); auto.
Qed.
End DictLookupFacts.

Section DictEntryFacts.
Context {K V : Type}.
Variable key_eqb : K -> K -> bool.
Hypothesis key_eqb_eq : forall a b, key_eqb a b = true <-> a = b.

Lemma dict_set_entries (k : K) (v : V) (x : K * V) (d : list (K * V)) :
  NoDup (dict_keys d) ->
  In x (dict_set key_eqb k v d) ->
  x = (k, v) \/ (fst x <> k /\ In x d).
Proof.
  induction d as [| [k' v'] rest IH]; simpl; intros N I.
  - destruct I as [I | []]. auto.
  - inversion N as [| ? ? N1 N2]; subst.
    destruct (key_eqb k k') eqn:E; simpl in I.
    + apply key_eqb_eq in E. subst k'.
      destruct I as [I | I]; [auto |].
      right. split; [| auto].
      intros C. apply N1. rewrite <- C. apply in_map, I.
    + apply (key_eqb_neq key_eqb key_eqb_eq) in E.
      destruct I as [<- | I]; [right; simpl; split; auto |].
      destruct (IH N2 I) as [-> | [A B]]; auto.
Qed.
End DictEntryFacts.

Section DictKeyFacts.
Context {K V : Type}.
Variable key_eqb : K -> K -> bool.
Hypothesis key_eqb_eq : forall a b, key_eqb a b = true <-> a = b.

Lemma dict_del_keys_In (k x : K) (d : list (K * V)) :
  NoDup (dict_keys d) ->
  (In x (dict_keys (dict_del key_eqb k d)) <-> In x (dict_keys d) /\ x <> k).
Proof.
  intros N. induction d as [| [k' v'] rest IH]; simpl; [tauto |].
  inversion N as [| ? ? N1 N2]; subst.
  destruct (key_eqb k k') eqn:E.
  - apply key_eqb_eq in E. subst k'. split.
    + intros X. split; [right; exact X |]. intros ->. contradiction.
    + intros [[X | X] D]; [congruence | exact X].
  - apply (key_eqb_neq key_eqb key_eqb_eq) in E. simpl.
    rewrite (IH N2). split.
    + intros [X | [X D]]; [subst; split; [left; reflexivity | congruence] |].
      split; [right; exact X | exact D].
    + intros [[X | X] D]; [left; exact X | right; split; assumption].
Qed.

Lemma dict_set_keys_all (k x : K) (v : V) (d : list (K * V)) :
  In x (dict_keys (dict_set key_eqb k v d)) <-> In x (dict_keys d) \/ x = k.
Proof.
  induction d as [| [k' v'] rest IH]; simpl.
  - split; [intros [X | []]; auto | intros [[] | X]; auto].
  - destruct (key_eqb k k') eqn:E; simpl.
    + apply key_eqb_eq in E. subst k'. split; [tauto |].
      intros [X | X]; [exact X | left; congruence].
    + rewrite IH. tauto.
Qed.
End DictKeyFacts.

Section DictDelFacts.
Context {K V : Type}.
Variable key_eqb : K -> K -> bool.
Hypothesis key_eqb_eq : forall a b, key_eqb a b = true <-> a = b.

Lemma dict_del_entries (k : K) (x : K * V) (d : list (K * V)) :
  NoDup (dict_keys d) ->
  In x (dict_del key_eqb k d) -> fst x <> k /\ In x d.
Proof.
  induction d as [| [k' v'] rest IH]; simpl; intros N I; [destruct I |].
  inversion N as [| ? ? N1 N2]; subst.
  destruct (key_eqb k k') eqn:E.
  - apply key_eqb_eq in E. subst k'. split; [| right; exact I].
    intros C. apply N1. rewrite <- C. apply in_map, I.
  - apply (key_eqb_neq key_eqb key_eqb_eq) in E.
    destruct I as [<- | I]; [simpl; split; [congruence | left; reflexivity] |].
    destruct (IH N2 I) as [A B]. split; [exact A | right; exact B].
Qed.
End DictDelFacts.

Section DictDelKeep.
Context {K V : Type}.
Variable key_eqb : K -> K -> bool.
Hypothesis key_eqb_eq : forall a b, key_eqb a b = true <-> a = b.

Lemma dict_del_keeps (k : K) (x : K * V) (d : list (K * V)) :
  In x d -> fst x <> k -> In x (dict_del key_eqb k d).
Proof.
  induction d as [| [k' v'] rest IH]; simpl; intros I N; [destruct I |].
  destruct (key_eqb k k') eqn:E.
  - apply key_eqb_eq in E. subst k'.
    destruct I as [<- | I]; [simpl in N; congruence | exact I].
  - destruct I as [<- | I]; [left; reflexivity | right; apply IH; assumption].
Qed.

Lemma dict_entry_unique (k : K) (v v' : V) (d : list (K * V)) :
  NoDup (dict_keys d) -> In (k, v) d -> In (k, v') d -> v = v'.
Proof.
  intros N A B.
  apply (In_dict_get key_eqb key_eqb_eq) in A; [| exact N].
  apply (In_dict_get key_eqb key_eqb_eq) in B; [| exact N].
  congruence.
Qed.
End DictDelKeep.

(* ------------------------------------------------------------------ *)
(** ** The object store *)

Lemma modify_length (h : store) (r : ref) (f : Unit.t -> Unit.t) :
  List.length (modify h r f) = List.length h.
Proof.
  revert r. induction h as [| u rest IH]; intros [| r]; simpl; auto.
Qed.

Lemma deref_modify_same (h : store) (r : ref) (f : Unit.t -> Unit.t) :
  (r < List.length h)%nat -> deref (modify h r f) r = f (deref h r).
Proof.
  unfold deref. revert r.
  induction h as [| u rest IH]; intros [| r] L; simpl in *; try lia.
  - reflexivity.
  - apply IH. lia.
Qed.

Lemma deref_modify_other (h : store) (r r' : ref) (f : Unit.t -> Unit.t) :
  r <> r' -> deref (modify h r f) r' = deref h r'.
Proof.
  unfold deref. revert r r'.
  induction h as [| u rest IH]; intros [| r] [| r'] N; simpl; try congruence.
  apply IH. congruence.
Qed.

Lemma modify_dangling (h : store) (r : ref) (f : Unit.t -> Unit.t) :
  (List.length h <= r)%nat -> modify h r f = h.
Proof.
  revert r. induction h as [| u rest IH]; intros [| r] L; simpl in *;
    try reflexivity; try lia.
  f_equal. apply IH. lia.
Qed.

(** A field that [f] keeps is kept for every object. *)
Lemma deref_modify_field {A} (g : Unit.t -> A) (h : store) (r r' : ref)
    (f : Unit.t -> Unit.t) :
  (forall u, g (f u) = g u) ->
  g (deref (modify h r f) r') = g (deref h r').
Proof.
  intros G. destruct (Nat.eq_dec r r') as [<- | N].
  - destruct (Nat.lt_ge_cases r (List.length h)) as [L | L].
    + rewrite deref_modify_same by exact L. apply G.
    + rewrite modify_dangling by exact L. reflexivity.
  - rewrite deref_modify_other by exact N. reflexivity.
Qed.

Lemma fold_modify_length (f : Unit.t -> Unit.t) (l : list ref) (h : store) :
  List.length (fold_left (fun h r => modify h r f) l h) = List.length h.
Proof.
  revert h. induction l as [| r rest IH]; intros h; simpl; [reflexivity |].
  rewrite IH. apply modify_length.
Qed.

Lemma fold_modify_other (f : Unit.t -> Unit.t) (l : list ref) (h : store)
    (r : ref) :
  ~ In r l -> deref (fold_left (fun h r => modify h r f) l h) r = deref h r.
Proof.
  revert h. induction l as [| x rest IH]; intros h N; simpl; [reflexivity |].
  rewrite IH by (intros C; apply N; right; exact C).
  apply deref_modify_other. intros ->. apply N. left. reflexivity.
Qed.

Lemma fold_modify_once (f : Unit.t -> Unit.t) (l : list ref) (h : store)
    (r : ref) :
  NoDup l -> In r l -> (r < List.length h)%nat ->
  deref (fold_left (fun h r => modify h r f) l h) r = f (deref h r).
Proof.
  revert h. induction l as [| x rest IH]; intros h N I L; simpl;
    [destruct I |].
  inversion N as [| ? ? N1 N2]; subst.
  destruct I as [-> | I].
  - rewrite fold_modify_other by exact N1.
    apply deref_modify_same, L.
  - rewrite IH; [| exact N2 | exact I | rewrite modify_length; exact L].
    f_equal. apply deref_modify_other. intros ->. contradiction.
Qed.

Lemma fold_modify_idempotent (f : Unit.t -> Unit.t) (l : list ref)
    (h : store) (r : ref) :
  (forall u, f (f u) = f u) ->
  In r l -> (r < List.length h)%nat ->
  deref (fold_left (fun h r => modify h r f) l h) r = f (deref h r).
Proof.
  intros F. revert h. induction l as [| x rest IH]; intros h I L; simpl;
    [destruct I |].
  destruct (in_dec Nat.eq_dec r rest) as [R | R].
  - rewrite IH; [| exact R | rewrite modify_length; exact L].
    destruct (Nat.eq_dec x r) as [-> | N].
    + rewrite deref_modify_same by exact L. apply F.
    + rewrite deref_modify_other by exact N. reflexivity.
  - destruct I as [-> | I]; [| contradiction].
    rewrite fold_modify_other by exact R.
    apply deref_modify_same, L.
Qed.

(* ------------------------------------------------------------------ *)
(** ** Sorting *)

Section SortedFacts.
Context {X : Type}.
Variable lt : X -> X -> bool.

(** [x] may stand before [y]. *)
Let le (x y : X) : Prop := lt y x = false.

Hypothesis lt_asym : forall x y, lt x y = true -> lt y x = false.
Hypothesis le_trans : forall x y z, le x y -> le y z -> le x z.

Lemma insert_sorted_sorted (x : X) (l : list X) :
  StronglySorted le l -> StronglySorted le (insert_sorted lt x l).
Proof.
  induction l as [| y rest IH]; intros S; simpl.
  - constructor; constructor.
  - inversion S as [| ? ? S1 S2]; subst.
    destruct (lt y x) eqn:C.
    + constructor; [apply IH, S1 |].
      apply Forall_forall. intros z Z.
      apply (Permutation_in _ (insert_sorted_perm lt x rest)) in Z.
      destruct Z as [<- | Z].
      * apply lt_asym, C.
      * rewrite Forall_forall in S2. apply S2, Z.
    + constructor; [exact S |].
      constructor; [exact C |].
      rewrite Forall_forall in S2 |- *.
      intros z Z. apply (le_trans x y z); [exact C | apply S2, Z].
Qed.

Lemma sorted_by_sorted (l : list X) : StronglySorted le (sorted_by lt l).
Proof.
  induction l as [| x rest IH]; simpl; [constructor |].
  apply insert_sorted_sorted, IH.
Qed.
End SortedFacts.

Lemma StronglySorted_later {X} (R : X -> X -> Prop) (l1 l2 : list X)
    (x y : X) :
  StronglySorted R (l1 ++ x :: l2) -> In y l2 -> R x y.
Proof.
  induction l1 as [| a rest IH]; simpl; intros S I.
  - inversion S as [| ? ? _ F]; subst.
    rewrite Forall_forall in F. apply F, I.
  - inversion S; subst. apply IH; assumption.
Qed.

Lemma StronglySorted_weaken {X} (R S : X -> X -> Prop) (l : list X) :
  (forall x y, R x y -> S x y) -> StronglySorted R l -> StronglySorted S l.
Proof.
  intros W. induction 1 as [| x rest _ IH F]; constructor; [exact IH |].
  rewrite Forall_forall in F |- *. intros y Y. apply W, F, Y.
Qed.

(* ------------------------------------------------------------------ *)
(** ** Army: alterers *)

Module ArmyAlterFacts.
Import Army.

Lemma move_safely_away_from_pos_file (u : Unit.t) (p : Q) :
  Unit.file (Unit.move_safely_away_from_pos u p) = Unit.file u.
Proof.
  unfold Unit.move_safely_away_from_pos.
  destruct (_ && _); [reflexivity |].
  destruct (_ && _); reflexivity.
Qed.

Lemma move_unit_safely_away_from_enemy_length (h : store) (a : t)
    (enemy : ref) :
  List.length (move_unit_safely_away_from_enemy h a enemy) = List.length h.
Proof.
  unfold move_unit_safely_away_from_enemy.
  destruct (dict_get _ _ _); [apply modify_length | reflexivity].
Qed.

Lemma move_unit_safely_away_from_enemy_file (h : store) (a : t)
    (enemy r : ref) :
  Unit.file (deref (move_unit_safely_away_from_enemy h a enemy) r)
  = Unit.file (deref h r).
Proof.
  unfold move_unit_safely_away_from_enemy.
  destruct (dict_get _ _ _); [| reflexivity].
  apply (deref_modify_field Unit.file).
  intros u. apply move_safely_away_from_pos_file.
Qed.

(** X12: what [remove_unit] does.  A unit whose file is not held by the
    army raises [KeyError], a file held by another unit raises
    [AssertionError].  Otherwise the unit becomes the last removed one,
    its file passes to the first reserve (which leaves the queue and is
    given that file number) or is vacated when there is no reserve, and
    every other file keeps its unit. *)
Theorem remove_unit_outcome (h : store) (a : t) (unit : ref) (other : t) :
  let file := Unit.file (deref h unit) in
  (dict_get Z.eqb file (file_units a) = None ->
   remove_unit h a unit other = Raise KeyError)
  /\ (forall r, dict_get Z.eqb file (file_units a) = Some r -> r <> unit ->
      remove_unit h a unit other = Raise AssertionError)
  /\ (dict_get Z.eqb file (file_units a) = Some unit -> well_formed a ->
      exists h' a',
        remove_unit h a unit other = Ok (h', a')
        /\ removed a' = removed a ++ [unit]
        /\ reserves a' = tl (reserves a)
        /\ dict_get Z.eqb file (file_units a') = hd_error (reserves a)
        /\ (forall g, g <> file ->
            dict_get Z.eqb g (file_units a')
            = dict_get Z.eqb g (file_units a))
        /\ List.length h' = List.length h
        /\ (forall n, hd_error (reserves a) = Some n ->
            (n < List.length h)%nat -> Unit.file (deref h' n) = file)
        /\ (reserves a = [] -> h' = h)).
Proof.
  intros file. unfold remove_unit, dict_getitem. fold file.
  split; [| split].
  - intros E. rewrite E. reflexivity.
  - intros r E N. rewrite E. simpl.
    apply Nat.eqb_neq in N. rewrite N. reflexivity.
  - intros E W. rewrite E. simpl. rewrite Nat.eqb_refl. simpl.
    unfold deploy_reserve_to_file. simpl.
    destruct (reserves a) as [| n rest] eqn:R; simpl.
    + eexists _, _. split; [reflexivity |]. simpl.
      repeat apply conj.
      * reflexivity.
      * exact R.
      * apply (dict_get_del_same Z.eqb Z.eqb_eq). exact W.
      * intros g G. apply (dict_get_del_other Z.eqb Z.eqb_eq). exact G.
      * reflexivity.
      * intros n C. discriminate.
      * reflexivity.
    + eexists _, _. split; [reflexivity |]. simpl.
      repeat apply conj.
      * reflexivity.
      * reflexivity.
      * rewrite (dict_get_set Z.eqb Z.eqb_eq), Z.eqb_refl. reflexivity.
      * intros g G. rewrite (dict_get_set Z.eqb Z.eqb_eq).
        rewrite (proj2 (key_eqb_neq Z.eqb Z.eqb_eq g file) G).
        apply (dict_get_del_other Z.eqb Z.eqb_eq). exact G.
      * rewrite move_unit_safely_away_from_enemy_length.
        apply modify_length.
      * intros m M L. injection M as <-.
        rewrite move_unit_safely_away_from_enemy_file.
        rewrite deref_modify_same by exact L. reflexivity.
      * discriminate.
Qed.

Lemma remove_unit_outcome_witness :
  exists h' a',
    remove_unit (fst Sample.army_with_reserve) (snd Sample.army_with_reserve)
      0%nat Sample.no_army = Ok (h', a')
    /\ removed a' = [0%nat]
    /\ dict_get Z.eqb 0%Z (file_units a') = Some 1%nat.
Proof.
  destruct (remove_unit_outcome (fst Sample.army_with_reserve)
              (snd Sample.army_with_reserve) 0%nat Sample.no_army)
    as (_ & _ & H).
  destruct H as (h' & a' & E & R & _ & F & _).
  - reflexivity.
  - repeat constructor. simpl. tauto.
  - exists h', a'. auto.
Defined.

(** X13: what [slide_file_towards_centre] does.  The central file and a
    file whose centre-ward neighbour is held raise [AssertionError], a
    file that is not held raises [KeyError].  Otherwise the unit of the
    file is re-registered one file closer to the centre, its own file
    number follows, and nothing else changes. *)
Theorem slide_file_towards_centre_outcome (h : store) (a : t) (file : Z) :
  let new_file := towards_centre file in
  (file = 0%Z -> slide_file_towards_centre h a file = Raise AssertionError)
  /\ (file <> 0%Z -> is_file_active a new_file = true ->
      slide_file_towards_centre h a file = Raise AssertionError)
  /\ (file <> 0%Z -> is_file_active a new_file = false ->
      dict_get Z.eqb file (file_units a) = None ->
      slide_file_towards_centre h a file = Raise KeyError)
  /\ (forall r, file <> 0%Z -> is_file_active a new_file = false ->
      dict_get Z.eqb file (file_units a) = Some r -> well_formed a ->
      exists h' a',
        slide_file_towards_centre h a file = Ok (h', a')
        /\ Z.abs new_file = (Z.abs file - 1)%Z
        /\ dict_get Z.eqb new_file (file_units a') = Some r
        /\ dict_get Z.eqb file (file_units a') = None
        /\ (forall g, g <> file -> g <> new_file ->
            dict_get Z.eqb g (file_units a')
            = dict_get Z.eqb g (file_units a))
        /\ reserves a' = reserves a
        /\ removed a' = removed a
        /\ List.length h' = List.length h
        /\ ((r < List.length h)%nat -> Unit.file (deref h' r) = new_file)
        /\ (forall r', r' <> r -> deref h' r' = deref h r')).
Proof.
  intros new_file.
  unfold slide_file_towards_centre, is_file_towards_centre_active,
    dict_getitem.
  fold (towards_centre file). fold new_file.
  split; [| split; [| split]].
  - intros ->. reflexivity.
  - intros N A. apply Z.eqb_neq in N. rewrite N. simpl.
    rewrite A. reflexivity.
  - intros N A E. apply Z.eqb_neq in N. rewrite N. simpl.
    rewrite A. simpl. rewrite E. reflexivity.
  - intros r N A E W. pose proof N as N'.
    apply Z.eqb_neq in N'. rewrite N'. simpl.
    rewrite A. simpl. rewrite E. simpl.
    assert (D : new_file <> file).
    { subst new_file. unfold towards_centre.
      destruct (file <? 0)%Z; lia. }
    eexists _, _. split; [reflexivity |]. simpl.
    repeat apply conj.
    + subst new_file. unfold towards_centre.
      destruct (file <? 0)%Z eqn:C;
        [apply Z.ltb_lt in C | apply Z.ltb_ge in C]; lia.
    + rewrite (dict_get_del_other Z.eqb Z.eqb_eq) by exact D.
      rewrite (dict_get_set Z.eqb Z.eqb_eq), Z.eqb_refl. reflexivity.
    + apply (dict_get_del_same Z.eqb Z.eqb_eq).
      apply (dict_set_keys_NoDup_any Z.eqb Z.eqb_eq). exact W.
    + intros g G1 G2.
      rewrite (dict_get_del_other Z.eqb Z.eqb_eq) by exact G1.
      rewrite (dict_get_set Z.eqb Z.eqb_eq).
      rewrite (proj2 (key_eqb_neq Z.eqb Z.eqb_eq g new_file) G2).
      reflexivity.
    + reflexivity.
    + reflexivity.
    + apply modify_length.
    + intros L. rewrite deref_modify_same by exact L. reflexivity.
    + intros r' R. apply deref_modify_other. congruence.
Qed.

Lemma slide_file_towards_centre_outcome_witness :
  exists h' a',
    slide_file_towards_centre Sample.flank_store Sample.flank_army_1 2
    = Ok (h', a')
    /\ dict_get Z.eqb 1%Z (file_units a') = Some 2%nat
    /\ Unit.file (deref h' 2%nat) = 1%Z.
Proof.
  destruct (slide_file_towards_centre_outcome Sample.flank_store
              Sample.flank_army_1 2) as (_ & _ & _ & H).
  destruct (H 2%nat) as (h' & a' & E & _ & F & _ & _ & _ & _ & _ & G & _).
  - discriminate.
  - reflexivity.
  - reflexivity.
  - repeat constructor; simpl; intuition discriminate.
  - exists h', a'. split; [exact E | split; [exact F |]].
    apply G. simpl. lia.
Defined.
End ArmyAlterFacts.

Lemma NoDup_app_disjoint {A} (l1 l2 : list A) (x : A) :
  NoDup (l1 ++ l2) -> In x l1 -> ~ In x l2.
Proof.
  induction l1 as [| a rest IH]; simpl; intros N I; [destruct I |].
  inversion N as [| ? ? N1 N2]; subst.
  destruct I as [-> | I]; [| apply IH; assumption].
  intros C. apply N1. apply in_or_app. right. exact C.
Qed.

Lemma NoDup_values_key {K V} (d : list (K * V)) (k1 k2 : K) (v : V) :
  NoDup (dict_values d) -> In (k1, v) d -> In (k2, v) d -> k1 = k2.
Proof.
  unfold dict_values.
  induction d as [| [k w] rest IH]; simpl; intros N I1 I2; [destruct I1 |].
  inversion N as [| ? ? N1 N2]; subst.
  destruct I1 as [I1 | I1], I2 as [I2 | I2].
  - congruence.
  - injection I1 as -> ->. exfalso. apply N1.
    change v with (snd (k2, v)). apply in_map, I2.
  - injection I2 as -> ->. exfalso. apply N1.
    change v with (snd (k1, v)). apply in_map, I1.
  - apply IH; assumption.
Qed.

Lemma add_reserves_appends (uts : list UnitType.t) (h : store)
    (a : Army.t) :
  Army.reserves (snd (Army.add_reserves h a uts))
  = Army.reserves a ++ seq (List.length h) (List.length uts)
  /\ Army.file_units (snd (Army.add_reserves h a uts)) = Army.file_units a
  /\ Army.removed (snd (Army.add_reserves h a uts)) = Army.removed a
  /\ fst (Army.add_reserves h a uts)
     = h ++ map (fun ut => Unit.new ut (Army.stance a) 0) uts.
Proof.
  revert h a. induction uts as [| ut rest IH]; intros h a; simpl.
  - rewrite !app_nil_r. auto.
  - match goal with
    | |- context [Army.add_reserves ?h1 ?a1 rest] =>
        destruct (IH h1 a1) as (R & F & M & H)
    end.
    rewrite R, F, M, H. simpl.
    rewrite length_app, <- !app_assoc. simpl.
    rewrite Nat.add_1_r. auto.
Qed.

(* ------------------------------------------------------------------ *)
(** ** Army: builders and set-up *)

Module ArmySetupFacts.
Import Army.

Lemma set_up_twice (u : Unit.t) (ip : Q) :
  Unit.set_up (Unit.set_up u ip) ip = Unit.set_up u ip.
Proof. reflexivity. Qed.

(** X11: what [Army.set_up] does.  The file dictionary is re-built in
    ascending order of the file numbers with the same entries, reserves
    and removed units stay as they are, and every unit of the army (in
    whichever of the three lists) is set up at the given home position;
    no other object of the store is touched. *)
Theorem set_up_sorts_and_places (h : store) (a : t) (ip : Q) :
  let h' := fst (set_up h a ip) in
  let a' := snd (set_up h a ip) in
  Permutation (file_units a') (file_units a)
  /\ StronglySorted (fun x y => (fst x <= fst y)%Z) (file_units a')
  /\ reserves a' = reserves a
  /\ removed a' = removed a
  /\ List.length h' = List.length h
  /\ (forall r, In r (units a) -> (r < List.length h)%nat ->
      deref h' r = Unit.set_up (deref h r) ip)
  /\ (forall r, ~ In r (units a) -> deref h' r = deref h r).
Proof.
  intros h' a'.
  assert (P : Permutation (units a') (units a)).
  { apply (ConstructionFacts.set_up_roster h a ip). }
  repeat apply conj.
  - apply sorted_by_perm.
  - apply (StronglySorted_weaken
             (fun x y : Z * ref => (fst y <? fst x)%Z = false)).
    + intros x y L. apply Z.ltb_ge in L. exact L.
    + apply (sorted_by_sorted (fun x y : Z * ref => (fst x <? fst y)%Z)).
      * intros x y L. apply Z.ltb_lt in L. apply Z.ltb_ge. lia.
      * intros x y z A B. apply Z.ltb_ge in A, B. apply Z.ltb_ge. lia.
  - reflexivity.
  - reflexivity.
  - apply fold_modify_length.
  - intros r I L.
    apply (fold_modify_idempotent (fun u => Unit.set_up u ip)).
    + intros u. reflexivity.
    + apply (Permutation_in _ (Permutation_sym P)), I.
    + exact L.
  - intros r N.
    apply (fold_modify_other (fun u => Unit.set_up u ip)).
    intros C. apply N. apply (Permutation_in _ P), C.
Qed.

Lemma set_up_sorts_and_places_witness :
  deref (fst (set_up Sample.mirror_store Sample.mirror_army_1 (-5))) 1%nat
  = Unit.set_up (deref Sample.mirror_store 1%nat) (-5).
Proof.
  destruct (set_up_sorts_and_places Sample.mirror_store
              Sample.mirror_army_1 (-5)) as (_ & _ & _ & _ & _ & H & _).
  apply H.
  - simpl. auto.
  - simpl. lia.
Defined.

(** X10: what [Army.add] and [Army.add_reserves] do.  [add] allocates a
    new object with the army's stance and the given file, at its default
    position and morale, and registers it under the file; objects that
    were in the store stay as they are and other files keep their unit.
    A unit that held the file before is replaced and is then in none of
    the three lists of the army.  [add_reserves] appends the new units to
    the reserve queue in the order given. *)
Theorem add_registers_unit (h : store) (a : t) (file : Z)
    (ut : UnitType.t) :
  let h' := fst (add h a file ut) in
  let a' := snd (add h a file ut) in
  dict_get Z.eqb file (file_units a') = Some (List.length h)
  /\ deref h' (List.length h) = Unit.new ut (stance a) file
  /\ List.length h' = S (List.length h)
  /\ (forall r, (r < List.length h)%nat -> deref h' r = deref h r)
  /\ (forall g, g <> file ->
      dict_get Z.eqb g (file_units a') = dict_get Z.eqb g (file_units a))
  /\ (forall old, dict_get Z.eqb file (file_units a) = Some old ->
      well_formed a -> allocated h a ->
      NoDup (units a) -> ~ In old (units a'))
  /\ (forall uts,
      reserves (snd (add_reserves h a uts))
      = reserves a ++ seq (List.length h) (List.length uts)
      /\ file_units (snd (add_reserves h a uts)) = file_units a
      /\ fst (add_reserves h a uts)
         = h ++ map (fun ut => Unit.new ut (stance a) 0) uts).
Proof.
  intros h' a'. subst h' a'. unfold add, alloc. simpl.
  repeat apply conj.
  - rewrite (dict_get_set Z.eqb Z.eqb_eq), Z.eqb_refl. reflexivity.
  - unfold deref. rewrite nth_middle. reflexivity.
  - rewrite length_app. simpl. lia.
  - intros r L. unfold deref. apply app_nth1, L.
  - intros g G. rewrite (dict_get_set Z.eqb Z.eqb_eq).
    rewrite (proj2 (key_eqb_neq Z.eqb Z.eqb_eq g file) G). reflexivity.
  - intros old E W A N I.
    assert (Old : In (file, old) (file_units a)).
    { apply (dict_get_In Z.eqb Z.eqb_eq), E. }
    assert (OldD : In old (deployed_units a)).
    { change old with (snd (file, old)). apply in_map, Old. }
    assert (OldL : (old < List.length h)%nat).
    { apply A. apply in_or_app. left. exact OldD. }
    unfold units in I. apply in_app_or in I. destruct I as [I | I].
    + unfold deployed_units, dict_values in I. simpl in I.
      apply in_map_iff in I. destruct I as ([g r] & S & I).
      simpl in S. subst r.
      apply (dict_set_entries Z.eqb Z.eqb_eq) in I; [| exact W].
      destruct I as [I | [G I]]; [injection I as -> ->; lia |].
      simpl in G. apply G.
      apply (NoDup_values_key (file_units a) g file old);
        [| exact I | exact Old].
      apply (NoDup_app_remove_r _ _ N).
    + simpl in I. revert I.
      apply (NoDup_app_disjoint _ _ old N OldD).
  - intros uts.
    destruct (add_reserves_appends uts h a) as (R & F & _ & H). auto.
Qed.

Lemma add_registers_unit_witness :
  ~ In 0%nat
      (units (snd (add Sample.mirror_store Sample.mirror_army_1 0
                     Sample.archer))).
Proof.
  destruct (add_registers_unit Sample.mirror_store Sample.mirror_army_1 0
              Sample.archer) as (_ & _ & _ & _ & _ & H & _).
  apply (H 0%nat).
  - reflexivity.
  - repeat constructor; simpl; intuition discriminate.
  - intros r R. simpl in R. simpl. lia.
  - repeat constructor; simpl; intuition discriminate.
Defined.
End ArmySetupFacts.

Lemma fold_left_invariant_In {A B} (P : A -> Prop) (f : A -> B -> A)
    (l : list B) :
  (forall acc x, In x l -> P acc -> P (f acc x)) ->
  forall init, P init -> P (fold_left f l init).
Proof.
  induction l as [| x rest IH]; intros S init H; simpl; [exact H |].
  apply IH.
  - intros acc y Y. apply S. right. exact Y.
  - apply S; [left; reflexivity | exact H].
Qed.

Lemma iter_from_In (c : list ref -> nat) (n : nat) (s : list ref) (x : ref) :
  In x (PySet.iter_from c n s) -> In x s.
Proof.
  revert s. induction n as [| n IH]; intros s I; simpl in I; [destruct I |].
  destruct (PySet.pick c s) as [[y s'] |] eqn:P; [| destruct I].
  pose proof (PairingFacts.pick_perm _ _ _ _ P) as Perm.
  apply (Permutation_in _ Perm).
  destruct I as [<- | I]; [left; reflexivity | right; apply IH, I].
Qed.

(* ------------------------------------------------------------------ *)
(** ** FightPairs: the targets are valid *)

Module TargetFacts.
Import FightPairs.

Section Targets.
Variable I : PySet.impl.
Variable h : store.
Variables army_1 army_2 : Army.t.

Lemma get_valid_targets_In (file g : Z) (u t : ref) (opp : Army.t) :
  (file - 1 <= g <= file + 1)%Z ->
  In t (get_valid_targets h g u opp) ->
  adjacent_unit opp file t
  /\ Unit.is_in_range_of (deref h u) (deref h t) = true.
Proof.
  intros G. unfold get_valid_targets.
  destruct (dict_get Z.eqb g (Army.file_units opp)) as [x |] eqn:E;
    [| intros []].
  destruct (Unit.is_in_range_of (deref h u) (deref h x)) eqn:R;
    [| intros []].
  intros [<- | []]. split; [| exact R].
  exists g. auto.
Qed.

Lemma add_single_potentials_targets (fp : t) (file : Z) (u : ref)
    (opp : Army.t) (x : ref * list ref) :
  In x (_potentials (add_single_potentials h fp file u opp)) ->
  In x (_potentials fp)
  \/ (fst x = u
      /\ forall t, In t (snd x) ->
           adjacent_unit opp file t
           /\ Unit.is_in_range_of (deref h u) (deref h t) = true).
Proof.
  unfold add_single_potentials.
  set (ts := PySet.union _ _).
  assert (T : forall t, In t ts ->
                adjacent_unit opp file t
                /\ Unit.is_in_range_of (deref h u) (deref h t) = true).
  { intros t. unfold ts.
    rewrite !BestRemainingFacts.union_In.
    intros [[[[] | A] | A] | A];
      revert A; apply get_valid_targets_In; lia. }
  destruct ts as [| t0 rest] eqn:E; [auto |].
  simpl. intros X.
  apply (dict_set_In Nat.eqb Nat.eqb_eq) in X.
  destruct X as [-> | X]; [right | left; exact X].
  split; [reflexivity | exact T].
Qed.

Lemma add_single_potentials_assignments (fp : t) (file : Z) (u : ref)
    (opp : Army.t) :
  _assignments (add_single_potentials h fp file u opp) = _assignments fp.
Proof.
  unfold add_single_potentials. destruct (PySet.union _ _); reflexivity.
Qed.

Lemma add_all_potentials_valid (fp : t) :
  pool_valid h army_1 army_2 fp ->
  pool_valid h army_1 army_2 (add_all_potentials h army_1 army_2 fp).
Proof.
  intros V. unfold add_all_potentials.
  apply fold_left_invariant_In.
  - intros acc [f u] F [P A]. split.
    + intros u' ts t X T. simpl in X.
      apply add_single_potentials_targets in X.
      destruct X as [X | [E X]]; [eapply P; eassumption |].
      simpl in E. subst u'. destruct (X t T) as [Adj R].
      split; [| exact R]. right. exists f. auto.
    + rewrite add_single_potentials_assignments. exact A.
  - apply fold_left_invariant_In; [| exact V].
    intros acc [f u] F [P A]. split.
    + intros u' ts t X T. simpl in X.
      apply add_single_potentials_targets in X.
      destruct X as [X | [E X]]; [eapply P; eassumption |].
      simpl in E. subst u'. destruct (X t T) as [Adj R].
      split; [| exact R]. left. exists f. auto.
    + rewrite add_single_potentials_assignments. exact A.
Qed.

Lemma assign_if_unique_target_valid (fp : t) :
  pool_valid h army_1 army_2 fp ->
  pool_valid h army_1 army_2 (assign_if_unique_target fp).
Proof.
  intros V. unfold assign_if_unique_target.
  apply fold_left_invariant_In; [| exact V].
  intros acc [u ts] F [P A].
  destruct ts as [| t [| t' rest]]; simpl; try (split; assumption).
  split; simpl.
  - intros u' ts' t' X T.
    apply (dict_del_In Nat.eqb) in X. eapply P; eassumption.
  - intros u' t' X.
    apply (dict_set_In Nat.eqb Nat.eqb_eq) in X.
    destruct X as [X | X]; [| apply A, X].
    injection X as -> ->.
    destruct V as [P0 _]. apply (P0 u [t] t F). left. reflexivity.
Qed.

Lemma candidates_In (fp : t) (u t : ref) :
  In (u, t) (candidates I fp) ->
  exists ts, In (u, ts) (_potentials fp) /\ In t ts.
Proof.
  unfold candidates. intros C. apply in_flat_map in C.
  destruct C as ([u' ts] & X & C). simpl in C.
  apply in_map_iff in C. destruct C as (t' & E & C).
  injection E as -> ->.
  exists ts. split; [exact X |].
  unfold PySet.iter in C. apply iter_from_In in C. exact C.
Qed.

Lemma assign_best_remaining_valid (fp fp' : t) :
  assign_best_remaining I h fp = Ok fp' ->
  pool_valid h army_1 army_2 fp -> pool_valid h army_1 army_2 fp'.
Proof.
  unfold assign_best_remaining. intros E [P A].
  destruct (best_remaining I h fp) as [[[k u] t] |] eqn:B; [| discriminate].
  simpl in E. injection E as <-.
  apply BestRemainingFacts.best_remaining_returns_maximum in B.
  destruct B as (C & _).
  apply candidates_In in C. destruct C as (ts & X & T).
  split; simpl.
  - intros u' ts' t' X' T'.
    apply (dict_del_In Nat.eqb) in X'. eapply P; eassumption.
  - intros u' t' X'.
    apply (dict_set_In Nat.eqb Nat.eqb_eq) in X'.
    destruct X' as [X' | X']; [| apply A, X'].
    injection X' as -> ->. eapply P; eassumption.
Qed.

Lemma assign_while_potentials_valid (n : nat) (fp fp' : t) :
  assign_while_potentials I h n fp = Ok fp' ->
  pool_valid h army_1 army_2 fp -> pool_valid h army_1 army_2 fp'.
Proof.
  revert fp. induction n as [| n IH]; intros fp E V; simpl in E.
  - destruct (_potentials fp); injection E as <-; exact V.
  - destruct (_potentials fp) eqn:P; [injection E as <-; exact V |].
    destruct (assign_best_remaining I h fp) as [fp1 |] eqn:B;
      [| discriminate].
    simpl in E. apply (IH fp1 E).
    apply (assign_best_remaining_valid fp fp1 B V).
Qed.
End Targets.

(** X17: nobody is told to attack out of range.  After a successful
    [assign_all], every assignment and every pair joins a deployed unit
    with a unit of the other army that stands in the same or in a
    neighbouring file and is within the attacker's range; in a two-way
    pair this holds in both directions. *)
Theorem assign_all_targets_valid (I : PySet.impl) (h : store)
    (army_1 army_2 : Army.t) (fp fp' : t) :
  assign_all I h army_1 army_2 fp = Ok fp' ->
  (forall u t, dict_get Nat.eqb u (_assignments fp') = Some t ->
               valid_target h army_1 army_2 u t)
  /\ (forall a b, In (a, b) (one_way_pairs fp') ->
                  valid_target h army_1 army_2 a b)
  /\ (forall a b, In (a, b) (two_way_pairs fp') ->
                  valid_target h army_1 army_2 a b
                  /\ valid_target h army_1 army_2 b a).
Proof.
  unfold assign_all. intros E.
  set (fp1 := add_all_potentials h army_1 army_2 (reset fp)) in E.
  set (fp2 := assign_if_unique_target fp1) in E.
  destruct (assign_while_potentials I h _ fp2) as [fp3 |] eqn:W;
    [| discriminate].
  simpl in E.
  assert (V0 : pool_valid h army_1 army_2 (reset fp)).
  { split; simpl; intros; contradiction. }
  assert (V3 : pool_valid h army_1 army_2 fp3).
  { apply (assign_while_potentials_valid I h army_1 army_2 _ fp2 fp3 W).
    apply assign_if_unique_target_valid.
    apply add_all_potentials_valid. exact V0. }
  assert (R3 : ready fp3).
  { apply (PairingFacts.assign_while_potentials_ready I h _ fp2 fp3 W).
    apply PairingFacts.assign_if_unique_target_ready.
    apply PairingFacts.add_all_potentials_ready.
    repeat split; constructor. }
  destruct R3 as (_ & T0 & O0). destruct V3 as [_ A3].
  unfold match_into_pairs in E.
  apply PairingFacts.match_loop_spec in E; [| apply Nat.le_refl].
  destruct E as (EA & _ & _ & Two & One).
  assert (G : forall u t, dict_get Nat.eqb u (_assignments fp3) = Some t ->
                          valid_target h army_1 army_2 u t).
  { intros u t D. apply A3. apply (dict_get_In Nat.eqb Nat.eqb_eq), D. }
  repeat apply conj.
  - rewrite EA. exact G.
  - intros a b X. destruct (One a b X) as [X' | [M _]].
    + rewrite O0 in X'. destruct X'.
    + apply G, M.
  - intros a b X. destruct (Two a b X) as [X' | [M1 M2]].
    + rewrite T0 in X'. destruct X'.
    + split; apply G; assumption.
Qed.

Lemma assign_all_targets_valid_witness :
  exists fp',
    assign_all Sample.insertion_order Sample.flank_store
      Sample.flank_army_1 Sample.flank_army_2 new = Ok fp'
    /\ forall a b, In (a, b) (one_way_pairs fp') ->
         valid_target Sample.flank_store Sample.flank_army_1
           Sample.flank_army_2 a b.
Proof.
  eexists. split; [vm_compute; reflexivity |].
  apply (assign_all_targets_valid Sample.insertion_order Sample.flank_store
           Sample.flank_army_1 Sample.flank_army_2 new).
  vm_compute. reflexivity.
Defined.
End TargetFacts.

Lemma add_NoDup (x : ref) (s : list ref) :
  NoDup s -> NoDup (PySet.add x s).
Proof.
  intros N. unfold PySet.add. destruct (mem_ref x s) eqn:M; [exact N |].
  apply NoDup_app; [exact N | repeat constructor; intros [] |].
  intros a A [<- | []].
  apply BestRemainingFacts.mem_ref_In in A. congruence.
Qed.

Lemma union_NoDup (t s : list ref) : NoDup s -> NoDup (PySet.union s t).
Proof.
  revert s. induction t as [| x rest IH]; intros s N; [exact N |].
  apply IH, add_NoDup, N.
Qed.

(* ------------------------------------------------------------------ *)
(** ** FightPairs: the engaged units *)

Module EngagedFacts.
Import FightPairs.

Lemma occurrences_In (fp : t) (r : ref) :
  In r (occurrences fp)
  <-> exists p, (In p (two_way_pairs fp) \/ In p (one_way_pairs fp))
                /\ (r = fst p \/ r = snd p).
Proof.
  unfold occurrences. rewrite in_flat_map. split.
  - intros (p & P & R). exists p. rewrite in_app_iff in P.
    split; [exact P |]. simpl in R. intuition.
  - intros (p & P & R). exists p. rewrite in_app_iff.
    split; [exact P |]. simpl. intuition.
Qed.

Lemma match_loop_engaged (I : PySet.impl) (n : nat) (remaining : list ref)
    (fp fp' : t) :
  match_loop I n remaining fp = Ok fp' ->
  NoDup (all_engaged fp) ->
  (forall r, In r (all_engaged fp) <-> In r (occurrences fp)) ->
  NoDup (all_engaged fp')
  /\ forall r, In r (all_engaged fp') <-> In r (occurrences fp').
Proof.
  revert remaining fp. induction n as [| n IH]; intros remaining fp E N O;
    simpl in E.
  - injection E as <-. auto.
  - destruct (PySet.pop I remaining) as [[unit_A rem'] |];
      [| injection E as <-; auto].
    destruct (dict_getitem Nat.eqb unit_A (_assignments fp)) as [unit_B |];
      [| discriminate].
    simpl in E.
    match type of E with
    | (if ?c then _ else _) = _ => destruct c
    end.
    + destruct (PySet.remove unit_B rem') as [rem'' |]; [| discriminate].
      simpl in E. apply IH in E; [exact E | |];
        cbn [all_engaged two_way_pairs one_way_pairs occurrences].
      * repeat apply add_NoDup. exact N.
      * intros r. rewrite !BestRemainingFacts.add_In, O.
        rewrite !occurrences_In.
        cbn [all_engaged two_way_pairs one_way_pairs]. split.
        -- intros [[(p & P & R) | R] | R].
           ++ exists p. rewrite in_app_iff. tauto.
           ++ exists (unit_A, unit_B). rewrite in_app_iff. simpl. auto.
           ++ exists (unit_A, unit_B). rewrite in_app_iff. simpl. auto.
        -- intros (p & [P | P] & R).
           ++ apply in_app_or in P. destruct P as [P | [<- | []]].
              ** left. left. exists p. tauto.
              ** simpl in R. tauto.
           ++ left. left. exists p. tauto.
    + apply IH in E; [exact E | |];
        cbn [all_engaged two_way_pairs one_way_pairs occurrences].
      * repeat apply add_NoDup. exact N.
      * intros r. rewrite !BestRemainingFacts.add_In, O.
        rewrite !occurrences_In.
        cbn [all_engaged two_way_pairs one_way_pairs]. split.
        -- intros [[(p & P & R) | R] | R].
           ++ exists p. rewrite in_app_iff. tauto.
           ++ exists (unit_A, unit_B). rewrite in_app_iff. simpl. auto.
           ++ exists (unit_A, unit_B). rewrite in_app_iff. simpl. auto.
        -- intros (p & [P | P] & R).
           ++ left. left. exists p. tauto.
           ++ apply in_app_or in P. destruct P as [P | [<- | []]].
              ** left. left. exists p. tauto.
              ** simpl in R. tauto.
Qed.

Lemma add_single_potentials_engaged (h : store) (fp : t) (file : Z)
    (u : ref) (opp : Army.t) :
  all_engaged (add_single_potentials h fp file u opp) = all_engaged fp
  /\ two_way_pairs (add_single_potentials h fp file u opp)
     = two_way_pairs fp
  /\ one_way_pairs (add_single_potentials h fp file u opp)
     = one_way_pairs fp.
Proof.
  unfold add_single_potentials. destruct (PySet.union _ _); auto.
Qed.

Lemma add_all_potentials_unpaired (h : store) (a1 a2 : Army.t) (fp : t) :
  unpaired fp -> unpaired (add_all_potentials h a1 a2 fp).
Proof.
  intros U. unfold add_all_potentials.
  apply fold_left_invariant.
  - intros acc x (A & B & C). unfold unpaired.
    destruct (add_single_potentials_engaged h acc (fst x) (snd x) a1)
      as (-> & -> & ->).
    repeat split; assumption.
  - apply fold_left_invariant; [| exact U].
    intros acc x (A & B & C). unfold unpaired.
    destruct (add_single_potentials_engaged h acc (fst x) (snd x) a2)
      as (-> & -> & ->).
    repeat split; assumption.
Qed.

Lemma assign_if_unique_target_unpaired (fp : t) :
  unpaired fp -> unpaired (assign_if_unique_target fp).
Proof.
  intros U. unfold assign_if_unique_target.
  apply fold_left_invariant; [| exact U].
  intros acc [u ts] A.
  destruct ts as [| t [| t' rest]]; exact A.
Qed.

Lemma assign_while_potentials_unpaired (I : PySet.impl) (h : store)
    (n : nat) (fp fp' : t) :
  assign_while_potentials I h n fp = Ok fp' -> unpaired fp -> unpaired fp'.
Proof.
  revert fp. induction n as [| n IH]; intros fp E U; simpl in E.
  - destruct (_potentials fp); injection E as <-; exact U.
  - destruct (_potentials fp) eqn:P; [injection E as <-; exact U |].
    destruct (assign_best_remaining I h fp) as [fp1 |] eqn:B;
      [| discriminate].
    simpl in E. apply (IH fp1 E).
    unfold assign_best_remaining in B.
    destruct (best_remaining I h fp) as [[[k u] t] |]; [| discriminate].
    simpl in B. injection B as <-. exact U.
Qed.

(** [all_engaged] is the set of the units that occur in a pair.
    After a successful [assign_all] a unit is in [all_engaged] exactly
    when it is the first or the second member of a two-way or of a
    one-way pair, and no unit is listed twice. *)
Lemma engaged_are_the_paired (I : PySet.impl) (h : store)
    (army_1 army_2 : Army.t) (fp fp' : t) :
  assign_all I h army_1 army_2 fp = Ok fp' ->
  NoDup (all_engaged fp')
  /\ forall r, In r (all_engaged fp')
               <-> exists p, (In p (two_way_pairs fp')
                              \/ In p (one_way_pairs fp'))
                             /\ (r = fst p \/ r = snd p).
Proof.
  unfold assign_all. intros E.
  set (fp1 := add_all_potentials h army_1 army_2 (reset fp)) in E.
  set (fp2 := assign_if_unique_target fp1) in E.
  destruct (assign_while_potentials I h _ fp2) as [fp3 |] eqn:W;
    [| discriminate].
  simpl in E.
  assert (U3 : unpaired fp3).
  { apply (assign_while_potentials_unpaired I h _ fp2 fp3 W).
    apply assign_if_unique_target_unpaired.
    apply add_all_potentials_unpaired.
    repeat split. }
  destruct U3 as (A & B & C).
  unfold match_into_pairs in E.
  apply match_loop_engaged in E.
  - destruct E as [N O]. split; [exact N |].
    intros r. rewrite O. apply occurrences_In.
  - rewrite A. constructor.
  - intros r. rewrite A. unfold occurrences. rewrite B, C. simpl. tauto.
Qed.
End EngagedFacts.

(* ------------------------------------------------------------------ *)
(** ** The inverted dictionary *)

Module InvertFacts.

(** X14: [invert_dictionary] groups the keys by their value.  The result
    has every value once as a key; the set stored under a value is not
    empty, lists nothing twice and holds exactly the keys that the input
    maps to that value; a value that no key maps to is absent. *)
Theorem invert_dictionary_groups (init : list (ref * ref)) :
  NoDup (dict_keys (invert_dictionary init))
  /\ (forall v s, dict_get Nat.eqb v (invert_dictionary init) = Some s ->
      s <> [] /\ NoDup s /\ forall k, In k s <-> In (k, v) init)
  /\ (forall v, dict_get Nat.eqb v (invert_dictionary init) = None
                <-> forall k, ~ In (k, v) init).
Proof.
  assert (Inv : NoDup (dict_keys (invert_dictionary init))
                /\ forall v s, In (v, s) (invert_dictionary init) ->
                               s <> [] /\ NoDup s).
  { unfold invert_dictionary.
    apply (fold_left_invariant
             (fun out => NoDup (dict_keys out)
                         /\ forall v s, In (v, s) out ->
                                        s <> [] /\ NoDup s)).
    - intros out [key value] [N E].
      destruct (dict_get Nat.eqb value out) as [s |] eqn:D.
      + split; [apply PairingFacts.dict_set_keys_NoDup, N |].
        intros v s' X. apply (dict_set_In Nat.eqb Nat.eqb_eq) in X.
        destruct X as [X | X]; [| apply (E v s' X)].
        injection X as -> ->.
        apply (dict_get_In Nat.eqb Nat.eqb_eq) in D.
        destruct (E _ _ D) as [S1 S2].
        split; [| apply add_NoDup, S2].
        intros C. apply S1.
        destruct s as [| x rest]; [reflexivity |].
        assert (I : In x (PySet.add key (x :: rest))).
        { apply BestRemainingFacts.add_In. left. left. reflexivity. }
        rewrite C in I. destruct I.
      + split; [apply PairingFacts.dict_set_keys_NoDup, N |].
        intros v s' X. apply (dict_set_In Nat.eqb Nat.eqb_eq) in X.
        destruct X as [X | X]; [| apply (E v s' X)].
        injection X as -> ->.
        split; [discriminate | repeat constructor; intros []].
    - split; [constructor | intros v s []]. }
  destruct Inv as [N E].
  assert (Some_spec :
    forall v s, dict_get Nat.eqb v (invert_dictionary init) = Some s ->
                s <> [] /\ NoDup s /\ forall k, In k s <-> In (k, v) init).
  { intros v s D.
    destruct (E v s (dict_get_In Nat.eqb Nat.eqb_eq _ _ _ D)) as [S1 S2].
    repeat apply conj; [exact S1 | exact S2 |].
    intros k. rewrite <- BestRemainingFacts.invert_dictionary_listed.
    unfold listed. split.
    - intros K. exists s. auto.
    - intros (s' & D' & K). congruence. }
  repeat apply conj; [exact N | exact Some_spec |].
  intros v. split.
  - intros D k K.
    apply BestRemainingFacts.invert_dictionary_listed in K.
    destruct K as (s & D' & _). congruence.
  - intros A.
    destruct (dict_get Nat.eqb v (invert_dictionary init)) as [s |] eqn:D;
      [| reflexivity].
    destruct (Some_spec v s D) as (S1 & _ & S3).
    destruct s as [| k rest]; [congruence |].
    exfalso. apply (A k). apply S3. left. reflexivity.
Qed.

Lemma invert_dictionary_groups_witness :
  exists s,
    dict_get Nat.eqb 2%nat
      (invert_dictionary [(0%nat, 2%nat); (1%nat, 2%nat)]) = Some s
    /\ s <> [] /\ NoDup s.
Proof.
  eexists. split; [reflexivity |].
  destruct (invert_dictionary_groups [(0%nat, 2%nat); (1%nat, 2%nat)])
    as (_ & H & _).
  destruct (H 2%nat _ eq_refl) as (A & B & _). auto.
Defined.
End InvertFacts.

(* ------------------------------------------------------------------ *)
(** ** Phase 2 of the matching *)

Module UniqueTargetFacts.
Import FightPairs.

Lemma unique_target_fold (l : list (ref * list ref)) :
  forall acc : t,
    NoDup (dict_keys l) ->
    NoDup (dict_keys (_potentials acc)) ->
    incl l (_potentials acc) ->
    let step :=
      fun (fp : t) (ut : ref * list ref) =>
        match snd ut with
        | [target] =>
            mk (dict_del Nat.eqb (fst ut) (_potentials fp))
               (dict_set Nat.eqb (fst ut) target (_assignments fp))
               (two_way_pairs fp) (one_way_pairs fp) (all_engaged fp)
        | _ => fp
        end in
    let res := fold_left step l acc in
    (forall x, In x (_potentials res)
               <-> In x (_potentials acc)
                   /\ ~ (In x l /\ List.length (snd x) = 1%nat))
    /\ (forall u tg, In (u, [tg]) l ->
                     dict_get Nat.eqb u (_assignments res) = Some tg)
    /\ (forall u, (forall tg, ~ In (u, [tg]) l) ->
                  dict_get Nat.eqb u (_assignments res)
                  = dict_get Nat.eqb u (_assignments acc)).
Proof.
  induction l as [| [u ts] rest IH]; intros acc NL NP Incl step res.
  - subst res. simpl. repeat apply conj.
    + intros x. tauto.
    + intros u tg [].
    + reflexivity.
  - inversion NL as [| ? ? NL1 NL2]; subst.
    assert (Here : In (u, ts) (_potentials acc)).
    { apply Incl. left. reflexivity. }
    assert (Rest : incl rest (_potentials acc)).
    { intros x X. apply Incl. right. exact X. }
    assert (Fresh : forall x, In x rest -> fst x <> u).
    { intros x X C. apply NL1. rewrite <- C. apply in_map, X. }
    assert (Single : (exists tg, ts = [tg]) \/ List.length ts <> 1%nat).
    { destruct ts as [| tg [| tg' more]]; simpl; eauto. }
    destruct Single as [[tg ->] | Many].
    + (* the unit is assigned *)
      set (acc1 :=
             mk (dict_del Nat.eqb u (_potentials acc))
                (dict_set Nat.eqb u tg (_assignments acc))
                (two_way_pairs acc) (one_way_pairs acc) (all_engaged acc)).
      assert (E : res = fold_left step rest acc1) by reflexivity.
      destruct (IH acc1 NL2) as (P & A & O).
      { apply dict_del_keys_NoDup, NP. }
      { intros x X. apply (dict_del_keeps Nat.eqb Nat.eqb_eq).
        - apply Rest, X.
        - apply Fresh, X. }
      fold step in P, A, O. rewrite <- E in P, A, O.
      repeat apply conj.
      * intros x. rewrite P. cbn [_potentials acc1]. split.
        -- intros [X NX].
           apply (dict_del_entries Nat.eqb Nat.eqb_eq) in X; [| exact NP].
           destruct X as [D X]. split; [exact X |].
           intros [[<- | Y] L]; [simpl in D; congruence |].
           apply NX. auto.
        -- intros [X NX]. split.
           ++ apply (dict_del_keeps Nat.eqb Nat.eqb_eq); [exact X |].
              intros C. apply NX. destruct x as [u' ts']. simpl in C.
              subst u'.
              pose proof (dict_entry_unique Nat.eqb Nat.eqb_eq u ts' [tg]
                            _ NP X Here) as ->.
              split; [left; reflexivity | reflexivity].
           ++ intros [Y L]. apply NX. split; [right; exact Y | exact L].
      * intros u' tg' [X | X].
        -- assert (Q : u' = u /\ tg' = tg) by (split; congruence).
           destruct Q as [-> ->]. rewrite O.
           ++ cbn [_assignments acc1].
              apply BestRemainingFacts.dict_get_set_same.
           ++ intros t' C. apply (Fresh _ C). reflexivity.
        -- apply A, X.
      * intros u' N. rewrite O.
        -- cbn [_assignments acc1].
           apply BestRemainingFacts.dict_get_set_other.
           intros ->. apply (N tg). left. reflexivity.
        -- intros t' C. apply (N t'). right. exact C.
    + (* the unit stays in the pool *)
      assert (E : res = fold_left step rest acc).
      { subst res. simpl. unfold step at 2. simpl.
        destruct ts as [| tg [| tg' more]]; try reflexivity.
        simpl in Many. congruence. }
      destruct (IH acc NL2 NP Rest) as (P & A & O).
      fold step in P, A, O. rewrite <- E in P, A, O.
      repeat apply conj.
      * intros x. rewrite P. split.
        -- intros [X NX]. split; [exact X |].
           intros [[<- | Y] L]; [simpl in L; congruence | apply NX; auto].
        -- intros [X NX]. split; [exact X |].
           intros [Y L]. apply NX. split; [right; exact Y | exact L].
      * intros u' tg' [X | X]; [| apply A, X].
        assert (Q : ts = [tg']) by congruence.
        rewrite Q in Many. simpl in Many. congruence.
      * intros u' N. apply O. intros t' C. apply (N t'). right. exact C.
Qed.

(** X15: phase 2 of the matching settles the units that have no choice.
    When the pool is a dictionary, [assign_if_unique_target] assigns its
    only candidate to every unit that has exactly one, takes these units
    out of the pool, and leaves every other pool entry and every other
    assignment as it was. *)
Theorem assign_if_unique_target_settles (fp : t) :
  NoDup (dict_keys (_potentials fp)) ->
  let fp' := assign_if_unique_target fp in
  (forall u ts, In (u, ts) (_potentials fp')
                <-> In (u, ts) (_potentials fp)
                    /\ List.length ts <> 1%nat)
  /\ (forall u tg, In (u, [tg]) (_potentials fp) ->
                   dict_get Nat.eqb u (_assignments fp') = Some tg)
  /\ (forall u, (forall tg, ~ In (u, [tg]) (_potentials fp)) ->
                dict_get Nat.eqb u (_assignments fp')
                = dict_get Nat.eqb u (_assignments fp)).
Proof.
  intros N fp'.
  destruct (unique_target_fold (_potentials fp) fp N N (incl_refl _))
    as (P & A & O).
  repeat apply conj.
  - intros u ts. subst fp'. unfold assign_if_unique_target.
    rewrite (P (u, ts)). simpl. tauto.
  - exact A.
  - exact O.
Qed.

Lemma assign_if_unique_target_settles_witness :
  dict_get Nat.eqb 3%nat
    (_assignments
       (assign_if_unique_target
          (add_all_potentials Sample.flank_store Sample.flank_army_1
             Sample.flank_army_2 new)))
  = Some 1%nat.
Proof.
  destruct (assign_if_unique_target_settles
              (add_all_potentials Sample.flank_store Sample.flank_army_1
                 Sample.flank_army_2 new)) as (_ & A & _).
  - vm_compute. repeat constructor; simpl; intuition discriminate.
  - apply A. vm_compute. auto.
Defined.
End UniqueTargetFacts.

(* ------------------------------------------------------------------ *)
(** ** Strict order on tuples *)

Lemma lex_compare_lt_le (a b c : list Q) :
  lex_compare a b = Lt -> lex_compare b c <> Gt -> lex_compare a c = Lt.
Proof.
  intros AB BC.
  assert (AC : lex_compare a c <> Gt).
  { apply (lex_compare_trans a b c); [congruence | exact BC]. }
  destruct (lex_compare a c) eqn:E; [| reflexivity | congruence].
  exfalso.
  assert (CA : lex_compare c a <> Gt).
  { rewrite lex_compare_antisym, E. discriminate. }
  pose proof (lex_compare_trans b c a BC CA) as BA.
  rewrite lex_compare_antisym, AB in BA. apply BA. reflexivity.
Qed.

Lemma lex_compare_le_lt (a b c : list Q) :
  lex_compare a b <> Gt -> lex_compare b c = Lt -> lex_compare a c = Lt.
Proof.
  intros AB BC.
  assert (AC : lex_compare a c <> Gt).
  { apply (lex_compare_trans a b c); [exact AB | congruence]. }
  destruct (lex_compare a c) eqn:E; [| reflexivity | congruence].
  exfalso.
  assert (CA : lex_compare c a <> Gt).
  { rewrite lex_compare_antisym, E. discriminate. }
  pose proof (lex_compare_trans c a b CA AB) as CB.
  rewrite lex_compare_antisym, BC in CB. apply CB. reflexivity.
Qed.

Module StrictMaximumFacts.
Import FightPairs.

(** [x] loses against [m]: its key is strictly smaller. *)
Lemma max_from_strict (items : list (key * ref * ref))
    (cur m : key * ref * ref) :
  max_from cur items = Ok m ->
  forall x, In x (cur :: items) -> item_pair x <> item_pair m ->
            key_compare (item_key x) (item_key m) = Lt.
Proof.
  revert cur. induction items as [| item rest IH]; intros cur E x I N.
  - simpl in E. injection E as <-.
    destruct I as [<- | []]. congruence.
  - simpl in E.
    destruct (tuple_gt item cur) as [g |] eqn:G; [| discriminate].
    simpl in E.
    pose proof (BestRemainingFacts.max_from_maximum _ _ _ E) as [_ Max].
    specialize (IH _ E).
    assert (Kept : forall y, In y ((if g then item else cur) :: rest) ->
                             item_pair y <> item_pair m ->
                             key_compare (item_key y) (item_key m) = Lt)
      by exact IH.
    assert (Top : key_le (item_key (if g then item else cur)) (item_key m)).
    { apply Max. left. reflexivity. }
    destruct item as [[k1 a1] x1], cur as [[k2 a2] x2].
    unfold tuple_gt in G.
    destruct (key_compare k1 k2) eqn:C.
    + (* equal keys: the same pair *)
      destruct (Nat.eqb a1 a2 && Nat.eqb x1 x2) eqn:Same; [| discriminate].
      injection G as <-.
      apply andb_true_iff in Same. destruct Same as [S1 S2].
      apply Nat.eqb_eq in S1, S2. subst a2 x2.
      destruct I as [<- | [<- | I]].
      * apply Kept; [left; reflexivity | exact N].
      * assert (L : key_compare k2 (item_key m) = Lt).
        { apply (Kept (k2, a1, x1)); [left; reflexivity | exact N]. }
        unfold key_compare in *.
        apply (lex_compare_le_lt _ (components k2)); [| exact L].
        change (lex_compare (components k1) (components k2) <> Gt).
        rewrite C. discriminate.
      * apply Kept; [right; exact I | exact N].
    + (* the item is smaller and is dropped *)
      injection G as <-.
      destruct I as [<- | [<- | I]].
      * apply Kept; [left; reflexivity | exact N].
      * unfold key_compare in *.
        apply (lex_compare_lt_le _ (components k2)); [exact C | exact Top].
      * apply Kept; [right; exact I | exact N].
    + (* the item is greater and replaces the current one *)
      injection G as <-.
      destruct I as [<- | [<- | I]].
      * unfold key_compare in *.
        apply (lex_compare_lt_le _ (components k1)); [| exact Top].
        change (lex_compare (components k2) (components k1) = Lt).
        rewrite lex_compare_antisym, C. reflexivity.
      * apply Kept; [left; reflexivity | exact N].
      * apply Kept; [right; exact I | exact N].
Qed.

(** [max] fails only on a tie. *)
Lemma max_from_raises (items : list (key * ref * ref))
    (cur : key * ref * ref) (e : exn) :
  max_from cur items = Raise e ->
  e = TypeError
  /\ exists x y, In x (cur :: items) /\ In y (cur :: items)
                 /\ item_pair x <> item_pair y
                 /\ key_compare (item_key x) (item_key y) = Eq.
Proof.
  revert cur. induction items as [| item rest IH]; intros cur E.
  - discriminate.
  - simpl in E. destruct (tuple_gt item cur) as [g | e'] eqn:G; simpl in E.
    + destruct (IH _ E) as (-> & x & y & X & Y & N & C).
      split; [reflexivity |]. exists x, y.
      assert (W : forall z, In z ((if g then item else cur) :: rest) ->
                            In z (cur :: item :: rest)).
      { intros z [<- | Z]; [destruct g; simpl; auto | simpl; auto]. }
      auto.
    + injection E as <-.
      destruct item as [[k1 a1] x1], cur as [[k2 a2] x2].
      unfold tuple_gt in G.
      destruct (key_compare k1 k2) eqn:C; try discriminate.
      destruct (Nat.eqb a1 a2 && Nat.eqb x1 x2) eqn:Same; [discriminate |].
      injection G as <-. split; [reflexivity |].
      exists (k1, a1, x1), (k2, a2, x2). simpl.
      repeat apply conj; auto.
      unfold item_pair. simpl. intros P. injection P as -> ->.
      rewrite !Nat.eqb_refl in Same. discriminate.
Qed.

(** X16: [assign_best_remaining] never breaks a tie.  The pair that
    [best_remaining] returns is a candidate pair whose key is strictly
    greater than the key of every other candidate pair.  The call fails
    only in two ways: with [ValueError] when there is no candidate pair,
    and with [TypeError] when two different candidate pairs carry equal
    keys, because the comparison then reaches the [Unit] objects. *)
Theorem best_remaining_is_strict (I : PySet.impl) (h : store) (fp : t) :
  let key_of u t :=
    sort_key h fp (invert_dictionary (_assignments fp)) u t in
  (forall k u t, best_remaining I h fp = Ok (k, u, t) ->
   In (u, t) (candidates I fp)
   /\ k = key_of u t
   /\ forall u' t', In (u', t') (candidates I fp) -> (u', t') <> (u, t) ->
                    key_compare (key_of u' t') k = Lt)
  /\ (forall e, best_remaining I h fp = Raise e ->
      (e = ValueError /\ candidates I fp = [])
      \/ (e = TypeError
          /\ exists u t u' t',
               In (u, t) (candidates I fp) /\ In (u', t') (candidates I fp)
               /\ (u, t) <> (u', t')
               /\ key_compare (key_of u t) (key_of u' t') = Eq))
  /\ (candidates I fp = [] -> best_remaining I h fp = Raise ValueError).
Proof.
  intros key_of. unfold best_remaining.
  set (items := map _ (candidates I fp)).
  assert (Items : forall x, In x items ->
            In (item_pair x) (candidates I fp)
            /\ item_key x = key_of (fst (item_pair x)) (snd (item_pair x))).
  { intros x X. unfold items in X. apply in_map_iff in X.
    destruct X as ([u t] & <- & C). simpl. auto. }
  assert (Back : forall u t, In (u, t) (candidates I fp) ->
                             In (key_of u t, u, t) items).
  { intros u t C. unfold items. apply in_map_iff.
    exists (u, t). auto. }
  repeat apply conj.
  - intros k u t E.
    destruct items as [| first rest] eqn:L; [discriminate |].
    simpl in E.
    pose proof (BestRemainingFacts.max_from_maximum _ _ _ E) as [M _].
    destruct (Items _ M) as [C K]. simpl in C, K.
    repeat apply conj; [exact C | exact K |].
    intros u' t' C' N.
    apply (max_from_strict _ _ _ E (key_of u' t', u', t')).
    + apply Back, C'.
    + unfold item_pair. simpl. exact N.
  - intros e E.
    destruct items as [| first rest] eqn:L.
    + left. injection E as <-. split; [reflexivity |].
      unfold items in L. destruct (candidates I fp); [reflexivity |].
      discriminate.
    + right. simpl in E.
      destruct (max_from_raises _ _ _ E) as (-> & x & y & X & Y & N & C).
      split; [reflexivity |].
      destruct (Items _ X) as [CX KX], (Items _ Y) as [CY KY].
      destruct x as [[kx ux] tx], y as [[ky uy] ty].
      unfold item_pair, item_key in *. simpl in *. subst kx ky.
      exists ux, tx, uy, ty. auto.
  - intros E. unfold items. rewrite E. reflexivity.
Qed.

Lemma best_remaining_is_strict_witness :
  exists k u t,
    best_remaining Sample.insertion_order Sample.flank_store
      Sample.flank_pool = Ok (k, u, t)
    /\ In (u, t) (candidates Sample.insertion_order Sample.flank_pool).
Proof.
  destruct (best_remaining Sample.insertion_order Sample.flank_store
              Sample.flank_pool) as [[[k u] t] | e] eqn:E;
    [| vm_compute in E; discriminate E].
  exists k, u, t. split; [reflexivity |].
  destruct (best_remaining_is_strict Sample.insertion_order
              Sample.flank_store Sample.flank_pool) as (H & _).
  destruct (H k u t E) as (C & _). exact C.
Defined.
End StrictMaximumFacts.

(* ------------------------------------------------------------------ *)
(** ** FightPairs: who is assigned a target *)

Module AttackerFacts.
Import FightPairs.

Section Attackers.
Variable I : PySet.impl.
Variable h : store.

Lemma get_valid_targets_complete (g : Z) (u t : ref) (opp : Army.t) :
  dict_get Z.eqb g (Army.file_units opp) = Some t ->
  Unit.is_in_range_of (deref h u) (deref h t) = true ->
  get_valid_targets h g u opp = [t].
Proof.
  intros D R. unfold get_valid_targets. rewrite D, R. reflexivity.
Qed.

(** The targets collected for [u] are the units it faces in range. *)
Lemma add_single_potentials_keys (fp : t) (file : Z) (u : ref)
    (opp : Army.t) (x : ref) :
  In x (dict_keys (_potentials (add_single_potentials h fp file u opp)))
  <-> In x (dict_keys (_potentials fp))
      \/ (x = u
          /\ exists t, adjacent_unit opp file t
                       /\ Unit.is_in_range_of (deref h u) (deref h t)
                          = true).
Proof.
  unfold add_single_potentials.
  set (ts := PySet.union _ _).
  assert (T : forall t, In t ts
                <-> adjacent_unit opp file t
                    /\ Unit.is_in_range_of (deref h u) (deref h t) = true).
  { intros t. unfold ts. rewrite !BestRemainingFacts.union_In. split.
    - intros [[[[] | A] | A] | A];
        revert A; apply TargetFacts.get_valid_targets_In; lia.
    - intros [(g & G & D) R].
      pose proof (get_valid_targets_complete g u t opp D R) as E.
      assert (C : g = file \/ g = (file - 1)%Z \/ g = (file + 1)%Z) by lia.
      destruct C as [-> | [-> | ->]]; rewrite E; simpl; auto. }
  destruct ts as [| t0 rest] eqn:E.
  - split; [auto |]. intros [X | [_ (t & A)]]; [exact X |].
    apply T in A. destruct A.
  - cbn [_potentials set_potentials].
    rewrite (dict_set_keys_all Nat.eqb Nat.eqb_eq). split.
    + intros [X | ->]; [auto |]. right. split; [reflexivity |].
      exists t0. apply T. left. reflexivity.
    + intros [X | [-> _]]; auto.
Qed.

Lemma add_single_potentials_ok (fp : t) (file : Z) (u : ref)
    (opp : Army.t) :
  pool_ok fp -> pool_ok (add_single_potentials h fp file u opp).
Proof.
  intros [N E]. unfold add_single_potentials.
  destruct (PySet.union _ _) as [| t0 rest] eqn:U; [split; assumption |].
  split; cbn [_potentials set_potentials].
  - apply PairingFacts.dict_set_keys_NoDup, N.
  - intros u' ts X. apply (dict_set_In Nat.eqb Nat.eqb_eq) in X.
    destruct X as [X | X]; [injection X as -> ->; discriminate |].
    apply (E u' ts X).
Qed.

Lemma fold_add_single_potentials_keys (opp : Army.t)
    (l : list (Z * ref)) (fp : t) (x : ref) :
  In x (dict_keys
          (_potentials
             (fold_left
                (fun fp fu =>
                   add_single_potentials h fp (fst fu) (snd fu) opp)
                l fp)))
  <-> In x (dict_keys (_potentials fp))
      \/ exists f t, In (f, x) l /\ adjacent_unit opp f t
                     /\ Unit.is_in_range_of (deref h x) (deref h t) = true.
Proof.
  revert fp. induction l as [| [f u] rest IH]; intros fp; simpl.
  - split; [auto |]. intros [X | (f & t & [] & _)]. exact X.
  - rewrite IH, add_single_potentials_keys. simpl. split.
    + intros [[X | [-> (t & A & R)]] | (g & t & X & A & R)].
      * auto.
      * right. exists f, t. auto.
      * right. exists g, t. auto.
    + intros [X | (g & t & [X | X] & A & R)].
      * auto.
      * injection X as -> ->. left. right. split; [reflexivity |].
        exists t. auto.
      * right. exists g, t. auto.
Qed.

Lemma add_all_potentials_keys (a1 a2 : Army.t) (fp : t) (x : ref) :
  In x (dict_keys (_potentials (add_all_potentials h a1 a2 fp)))
  <-> In x (dict_keys (_potentials fp))
      \/ exists t, valid_target h a1 a2 x t.
Proof.
  unfold add_all_potentials.
  rewrite !fold_add_single_potentials_keys.
  unfold valid_target, faces. split.
  - intros [[X | (f & t & X & A & R)] | (f & t & X & A & R)].
    + auto.
    + right. exists t. split; [left; exists f; auto | exact R].
    + right. exists t. split; [right; exists f; auto | exact R].
  - intros [X | (t & [(f & X & A) | (f & X & A)] & R)].
    + auto.
    + left. right. exists f, t. auto.
    + right. exists f, t. auto.
Qed.

Lemma add_all_potentials_ok (a1 a2 : Army.t) (fp : t) :
  pool_ok fp -> pool_ok (add_all_potentials h a1 a2 fp).
Proof.
  intros P. unfold add_all_potentials.
  apply fold_left_invariant.
  - intros acc x A. apply add_single_potentials_ok, A.
  - apply fold_left_invariant; [| exact P].
    intros acc x A. apply add_single_potentials_ok, A.
Qed.

Lemma add_all_potentials_assignments (a1 a2 : Army.t) (fp : t) :
  _assignments (add_all_potentials h a1 a2 fp) = _assignments fp.
Proof.
  unfold add_all_potentials.
  apply (fold_left_invariant (fun acc => _assignments acc = _assignments fp)).
  - intros acc x A.
    rewrite TargetFacts.add_single_potentials_assignments. exact A.
  - apply (fold_left_invariant
             (fun acc => _assignments acc = _assignments fp));
      [| reflexivity].
    intros acc x A.
    rewrite TargetFacts.add_single_potentials_assignments. exact A.
Qed.

(** Moving a unit from the pool to the assignments. *)
Lemma assign_step (fp : t) (u t : ref) :
  pool_ok fp ->
  listed_attacker fp u ->
  let fp' :=
    mk (dict_del Nat.eqb u (_potentials fp))
       (dict_set Nat.eqb u t (_assignments fp))
       (two_way_pairs fp) (one_way_pairs fp) (all_engaged fp) in
  pool_ok fp' /\ forall x, listed_attacker fp' x <-> listed_attacker fp x.
Proof.
  intros [N E] U fp'. split.
  - split; cbn [_potentials fp'].
    + apply dict_del_keys_NoDup, N.
    + intros u' ts X. apply (dict_del_In Nat.eqb) in X. apply (E u' ts X).
  - intros x. unfold listed_attacker in *.
    cbn [_potentials _assignments fp'].
    rewrite (dict_del_keys_In Nat.eqb Nat.eqb_eq) by exact N.
    rewrite (dict_set_keys_all Nat.eqb Nat.eqb_eq).
    destruct (Nat.eq_dec x u) as [-> | D]; tauto.
Qed.

Lemma assign_if_unique_target_listed (fp : t) :
  pool_ok fp ->
  pool_ok (assign_if_unique_target fp)
  /\ forall x, listed_attacker (assign_if_unique_target fp) x
               <-> listed_attacker fp x.
Proof.
  intros P. unfold assign_if_unique_target.
  apply (fold_left_invariant_In
           (fun acc => pool_ok acc
                       /\ forall x, listed_attacker acc x
                                    <-> listed_attacker fp x)).
  - intros acc [u ts] X [A L].
    destruct ts as [| t [| t' rest]]; simpl; try (split; assumption).
    assert (LU : listed_attacker acc u).
    { apply L. left. change u with (fst (u, [t])). apply in_map, X. }
    destruct (assign_step acc u t A LU) as [A' L'].
    split; [exact A' |].
    intros x. rewrite <- L. apply L'.
  - split; [exact P | tauto].
Qed.

Lemma assign_best_remaining_listed (fp fp' : t) :
  assign_best_remaining I h fp = Ok fp' ->
  pool_ok fp ->
  pool_ok fp' /\ forall x, listed_attacker fp' x <-> listed_attacker fp x.
Proof.
  unfold assign_best_remaining. intros E P.
  destruct (best_remaining I h fp) as [[[k u] t] |] eqn:B; [| discriminate].
  simpl in E. injection E as <-.
  apply BestRemainingFacts.best_remaining_returns_maximum in B.
  destruct B as (C & _).
  apply PairingFacts.candidates_attacker in C.
  apply (assign_step fp u t P). left. exact C.
Qed.

Lemma assign_while_potentials_listed (n : nat) (fp fp' : t) :
  assign_while_potentials I h n fp = Ok fp' ->
  pool_ok fp ->
  pool_ok fp' /\ forall x, listed_attacker fp' x <-> listed_attacker fp x.
Proof.
  revert fp. induction n as [| n IH]; intros fp E P; simpl in E.
  - destruct (_potentials fp); injection E as <-; split; tauto.
  - destruct (_potentials fp) eqn:Q;
      [injection E as <-; split; tauto |].
    destruct (assign_best_remaining I h fp) as [fp1 |] eqn:B;
      [| discriminate].
    simpl in E.
    destruct (assign_best_remaining_listed fp fp1 B P) as [P1 L1].
    destruct (IH fp1 E P1) as [P' L'].
    split; [exact P' |]. intros x. rewrite L'. apply L1.
Qed.
End Attackers.

(** X18: whoever can attack is given a target.  After a successful
    [assign_all] the pool of candidates is empty, and a unit has an
    assignment exactly when some unit of the other army is a valid target
    for it, that is, stands in the same or a neighbouring file within the
    unit's range. *)
Theorem assign_all_assigns_every_attacker (I : PySet.impl) (h : store)
    (army_1 army_2 : Army.t) (fp fp' : t) :
  assign_all I h army_1 army_2 fp = Ok fp' ->
  _potentials fp' = []
  /\ forall u,
       (exists t, dict_get Nat.eqb u (_assignments fp') = Some t)
       <-> (exists t, valid_target h army_1 army_2 u t).
Proof.
  unfold assign_all. intros E.
  set (fp1 := add_all_potentials h army_1 army_2 (reset fp)) in E.
  set (fp2 := assign_if_unique_target fp1) in E.
  destruct (assign_while_potentials I h _ fp2) as [fp3 |] eqn:W;
    [| discriminate].
  simpl in E.
  assert (P1 : pool_ok fp1).
  { apply add_all_potentials_ok. split; [constructor | intros u ts []]. }
  destruct (assign_if_unique_target_listed fp1 P1) as [P2 L2].
  destruct (assign_while_potentials_listed I h _ fp2 fp3 W P2) as [P3 L3].
  assert (Empty : _potentials fp3 = []).
  { apply (PairingFacts.assign_while_potentials_empties I h
             (List.length (_potentials fp2)) fp2 fp3);
      [apply Nat.le_refl | exact W]. }
  unfold match_into_pairs in E.
  apply PairingFacts.match_loop_spec in E; [| apply Nat.le_refl].
  destruct E as (EA & EP & _).
  split; [rewrite EP; exact Empty |].
  intros u. rewrite EA.
  assert (K : In u (dict_keys (_assignments fp3))
              <-> exists t, valid_target h army_1 army_2 u t).
  { assert (L : listed_attacker fp3 u <-> listed_attacker fp1 u).
    { rewrite L3. apply L2. }
    unfold listed_attacker in L. rewrite Empty in L.
    unfold fp1 in L at 2.
    rewrite add_all_potentials_assignments in L.
    unfold fp1 in L. rewrite add_all_potentials_keys in L.
    simpl in L. tauto. }
  rewrite <- K. split.
  - intros (t & D). apply (dict_get_In Nat.eqb Nat.eqb_eq) in D.
    change u with (fst (u, t)). apply in_map, D.
  - intros X.
    destruct (dict_get Nat.eqb u (_assignments fp3)) as [t |] eqn:D;
      [exists t; reflexivity |].
    apply (dict_get_None Nat.eqb Nat.eqb_eq) in D. contradiction.
Qed.

Lemma assign_all_assigns_every_attacker_witness :
  exists fp',
    assign_all Sample.insertion_order Sample.flank_store
      Sample.flank_army_1 Sample.flank_army_2 new = Ok fp'
    /\ _potentials fp' = [].
Proof.
  eexists. split; [vm_compute; reflexivity |].
  apply (assign_all_assigns_every_attacker Sample.insertion_order
           Sample.flank_store Sample.flank_army_1 Sample.flank_army_2 new).
  vm_compute. reflexivity.
Defined.
End AttackerFacts.

(* ------------------------------------------------------------------ *)
(** ** The start of a battle *)

Lemma fold_modify_field {A} (g : Unit.t -> A) (f : Unit.t -> Unit.t)
    (l : list ref) (h : store) (r : ref) :
  (forall u, g (f u) = g u) ->
  g (deref (fold_left (fun h r => modify h r f) l h) r) = g (deref h r).
Proof.
  intros G. revert h. induction l as [| x rest IH]; intros h; simpl;
    [reflexivity |].
  rewrite IH. apply deref_modify_field, G.
Qed.

Lemma deref_dangling (h : store) (r : ref) :
  (List.length h <= r)%nat -> deref h r = null_unit.
Proof. intros L. unfold deref. apply nth_overflow, L. Qed.

Module CreateFacts.
Import Battle.

Section Create.
Variable h : store.
Variables a1 a2 : Army.t.
Variable l : Landscape.t.

(** The distance from the centre at which the armies are set up. *)
Let p : Q :=
  Qlist_max (Army.get_army_reach h a1) [Army.get_army_reach h a2; 5].
Let b : t := create h a1 a2 l.

Lemma create_distance :
  5 <= p /\ Army.get_army_reach h a1 <= p /\ Army.get_army_reach h a2 <= p.
Proof.
  destruct (Qlist_max_greatest (Army.get_army_reach h a1)
              [Army.get_army_reach h a2; 5]) as [_ G].
  fold p in G. repeat apply conj; apply G; simpl; auto.
Qed.

Lemma create_heap :
  heap b
  = fst (Army.set_up (fst (Army.set_up h a1 (- p))) a2 p)
  /\ army_1 b = snd (Army.set_up h a1 (- p))
  /\ army_2 b = snd (Army.set_up (fst (Army.set_up h a1 (- p))) a2 p)
  /\ landscape b = l /\ fight_pairs b = FightPairs.new /\ turns b = 0%Z.
Proof. repeat apply conj; reflexivity. Qed.

Lemma create_units_1 (r : ref) :
  In r (Army.units (army_1 b)) <-> In r (Army.units a1).
Proof.
  destruct (ConstructionFacts.create_rosters h a1 a2 l) as (_ & P & _).
  fold b in P. unfold Army.same_roster in P.
  split; intros X.
  - apply (Permutation_in _ P), X.
  - apply (Permutation_in _ (Permutation_sym P)), X.
Qed.

Lemma create_units_2 (r : ref) :
  In r (Army.units (army_2 b)) <-> In r (Army.units a2).
Proof.
  destruct (ConstructionFacts.create_rosters h a1 a2 l) as (_ & _ & P & _).
  fold b in P. unfold Army.same_roster in P.
  split; intros X.
  - apply (Permutation_in _ P), X.
  - apply (Permutation_in _ (Permutation_sym P)), X.
Qed.

Lemma create_length : List.length (heap b) = List.length h.
Proof.
  destruct create_heap as (-> & _).
  unfold Army.set_up. cbn [fst snd].
  rewrite !fold_modify_length. reflexivity.
Qed.

Lemma create_unit_2 (r : ref) :
  In r (Army.units a2) -> (r < List.length h)%nat ->
  unit b r = Unit.set_up (deref h r) p.
Proof.
  intros X L. unfold unit. destruct create_heap as (-> & _).
  unfold Army.set_up at 1. cbn [fst snd].
  rewrite (fold_modify_idempotent (fun u => Unit.set_up u p)).
  - unfold Army.set_up. cbn [fst snd].
    destruct (in_dec Nat.eq_dec r
                (Army.units
                   (Army.set_file_units a1
                      (sorted_by (fun x y => (fst x <? fst y)%Z)
                         (Army.file_units a1))))) as [Y | Y].
    + rewrite (fold_modify_idempotent (fun u => Unit.set_up u (- p)));
        [reflexivity | reflexivity | exact Y | exact L].
    + rewrite (fold_modify_other (fun u => Unit.set_up u (- p)));
        [reflexivity | exact Y].
  - reflexivity.
  - apply (create_units_2 r) in X. exact X.
  - unfold Army.set_up. cbn [fst snd]. rewrite fold_modify_length. exact L.
Qed.

Lemma create_unit_1 (r : ref) :
  In r (Army.units a1) -> ~ In r (Army.units a2) ->
  (r < List.length h)%nat ->
  unit b r = Unit.set_up (deref h r) (- p).
Proof.
  intros X N L. unfold unit. destruct create_heap as (-> & _).
  unfold Army.set_up at 1. cbn [fst snd].
  rewrite (fold_modify_other (fun u => Unit.set_up u p)).
  - unfold Army.set_up. cbn [fst snd].
    apply (fold_modify_idempotent (fun u => Unit.set_up u (- p)));
      [reflexivity | | exact L].
    apply (create_units_1 r) in X. exact X.
  - intros C. apply N. apply (create_units_2 r). exact C.
Qed.

Lemma create_unit_other (r : ref) :
  ~ In r (Army.units a1) -> ~ In r (Army.units a2) ->
  unit b r = deref h r.
Proof.
  intros N1 N2. unfold unit. destruct create_heap as (-> & _).
  unfold Army.set_up at 1. cbn [fst snd].
  rewrite (fold_modify_other (fun u => Unit.set_up u p)).
  - unfold Army.set_up. cbn [fst snd].
    apply (fold_modify_other (fun u => Unit.set_up u (- p))).
    intros C. apply N1. apply (create_units_1 r). exact C.
  - intros C. apply N2. apply (create_units_2 r). exact C.
Qed.

Lemma create_file (r : ref) :
  Unit.file (unit b r) = Unit.file (deref h r)
  /\ Unit.unit_type (unit b r) = Unit.unit_type (deref h r).
Proof.
  unfold unit. destruct create_heap as (-> & _).
  unfold Army.set_up. cbn [fst snd].
  split.
  - rewrite (fold_modify_field Unit.file) by reflexivity.
    apply (fold_modify_field Unit.file). reflexivity.
  - rewrite (fold_modify_field Unit.unit_type) by reflexivity.
    apply (fold_modify_field Unit.unit_type). reflexivity.
Qed.

Lemma create_file_units_1 (x : Z * ref) :
  In x (Army.file_units (army_1 b)) <-> In x (Army.file_units a1).
Proof.
  destruct create_heap as (_ & -> & _). unfold Army.set_up. cbn [snd].
  cbn [Army.file_units Army.set_file_units].
  split; intros X.
  - eapply Permutation_in; [apply sorted_by_perm | exact X].
  - eapply Permutation_in; [apply Permutation_sym, sorted_by_perm | exact X].
Qed.

Lemma create_file_units_2 (x : Z * ref) :
  In x (Army.file_units (army_2 b)) <-> In x (Army.file_units a2).
Proof.
  destruct create_heap as (_ & _ & -> & _). unfold Army.set_up. cbn [snd].
  cbn [Army.file_units Army.set_file_units].
  split; intros X.
  - eapply Permutation_in; [apply sorted_by_perm | exact X].
  - eapply Permutation_in; [apply Permutation_sym, sorted_by_perm | exact X].
Qed.

Lemma create_consistent :
  consistent_armies h a1 a2 -> consistent b.
Proof.
  intros (W1 & W2 & N & A1 & A2 & F1 & F2).
  destruct (ConstructionFacts.create_rosters h a1 a2 l)
    as (W & P1 & P2 & _).
  fold b in W, P1, P2. destruct (W W1 W2) as [W1' W2'].
  unfold consistent, consistent_armies.
  repeat apply conj.
  - exact W1'.
  - exact W2'.
  - eapply Permutation_NoDup; [| exact N].
    apply Permutation_sym, Permutation_app; assumption.
  - intros r X. rewrite create_length. apply A1, create_units_1, X.
  - intros r X. rewrite create_length. apply A2, create_units_2, X.
  - intros f r X. apply create_file_units_1 in X.
    destruct (F1 f r X) as [L E].
    split; [rewrite create_length; exact L |].
    destruct (create_file r) as [Fr _]. unfold unit in Fr.
    rewrite Fr. exact E.
  - intros f r X. apply create_file_units_2 in X.
    destruct (F2 f r X) as [L E].
    split; [rewrite create_length; exact L |].
    destruct (create_file r) as [Fr _]. unfold unit in Fr.
    rewrite Fr. exact E.
Qed.
End Create.

Lemma reach_covers (h : store) (a : Army.t) (r : ref) :
  In r (Army.deployed_units a) ->
  1 + (Unit.att_range (deref h r) + 2 * Unit.speed (deref h r))
  <= Army.get_army_reach h a.
Proof.
  intros X. unfold Army.get_army_reach.
  set (f := fun r => Unit.att_range (deref h r)
                     + 2 * Unit.speed (deref h r)).
  assert (Y : In (f r) (map f (Army.deployed_units a)))
    by (apply in_map, X).
  destruct (map f (Army.deployed_units a)) as [| x rest]; [destruct Y |].
  destruct (Qlist_max_greatest x rest) as [_ G].
  specialize (G _ Y). unfold f in G. qlra.
Qed.

Lemma set_up_fields (u : Unit.t) (ip : Q) :
  Unit.unit_type (Unit.set_up u ip) = Unit.unit_type u
  /\ Unit.file (Unit.set_up u ip) = Unit.file u
  /\ Unit.init_pos (Unit.set_up u ip) = ip
  /\ (ip < 0 -> Unit.position (Unit.set_up u ip) == ip + Unit.EPS)
  /\ (0 <= ip -> Unit.position (Unit.set_up u ip) == ip - Unit.EPS).
Proof.
  repeat apply conj; try reflexivity.
  - intros N. unfold Unit.set_up, Unit.moving_to_pos.
    cbn [Unit.position Unit.set_position Unit.init_pos Unit.set_init_pos].
    apply Qltb_spec in N. rewrite N. ring.
  - intros N. unfold Unit.set_up, Unit.moving_to_pos.
    cbn [Unit.position Unit.set_position Unit.init_pos Unit.set_init_pos].
    apply Qltb_false in N. rewrite N. ring.
Qed.

(** Units set up on opposite edges are out of each other's range. *)
Lemma opposite_edges_out_of_range (u t : Unit.t) (p : Q) :
  UnitType.validate (Unit.unit_type u) = true ->
  1 + (Unit.att_range u + 2 * Unit.speed u) <= p ->
  Unit.is_in_range_of (Unit.set_up u (- p)) (Unit.set_up t p) = false
  /\ Unit.is_in_range_of (Unit.set_up u p) (Unit.set_up t (- p)) = false.
Proof.
  intros V R. apply UnitMoveFacts.validate_spec in V.
  destruct V as (_ & S & A).
  assert (P : 0 < p).
  { unfold Unit.att_range, Unit.speed in R. qlra. }
  pose proof UnitFacts.EPS_value as E.
  destruct (set_up_fields u (- p)) as (_ & _ & _ & U1 & _).
  destruct (set_up_fields t p) as (_ & _ & _ & _ & T1).
  destruct (set_up_fields u p) as (_ & _ & _ & _ & U2).
  destruct (set_up_fields t (- p)) as (_ & _ & _ & T2 & _).
  specialize (U1 ltac:(qlra)). specialize (T1 ltac:(qlra)).
  specialize (U2 ltac:(qlra)). specialize (T2 ltac:(qlra)).
  assert (Eff : forall x y : Unit.t,
            Unit.unit_type x = Unit.unit_type u ->
            Unit.get_eff_range_against x y <= Unit.att_range u).
  { intros x y T. unfold Unit.get_eff_range_against, Unit.att_range.
    rewrite T. unfold SIDE_RANGE_PENALTY.
    destruct (Unit.is_in_front x y); qlra. }
  unfold Unit.att_range, Unit.speed in *.
  split; unfold Unit.is_in_range_of, Unit.get_dist_to; apply Qleb_false.
  - pose proof (Eff (Unit.set_up u (- p)) (Unit.set_up t p) eq_refl) as G.
    eapply Qlt_le_trans; [| apply Qabs_lower; right; apply Qle_refl].
    rewrite U1, T1. qlra.
  - pose proof (Eff (Unit.set_up u p) (Unit.set_up t (- p)) eq_refl) as G.
    eapply Qlt_le_trans; [| apply Qabs_lower; left; apply Qle_refl].
    rewrite U2, T2. qlra.
Qed.

Lemma create_in_bounds (h : store) (a1 a2 : Army.t) (l : Landscape.t) :
  Unit.rounded
    (Qlist_max (Army.get_army_reach h a1) [Army.get_army_reach h a2; 5]) ->
  (forall r, (r < List.length h)%nat ->
             In r (Army.units a1) \/ In r (Army.units a2)) ->
  all_in_bounds (heap (create h a1 a2 l)).
Proof.
  set (p := Qlist_max (Army.get_army_reach h a1)
              [Army.get_army_reach h a2; 5]).
  set (b := create h a1 a2 l).
  pose proof (create_distance h a1 a2) as D. fold p in D.
  intros R All r.
  change (Unit.rounded (Unit.init_pos (unit b r))
          /\ Unit.in_bounds (unit b r)).
  pose proof UnitFacts.EPS_value as E.
  destruct D as (D5 & _).
  destruct (Nat.lt_ge_cases r (List.length h)) as [L | L].
  - destruct (in_dec Nat.eq_dec r (Army.units a2)) as [X2 | X2].
    + unfold b. rewrite (create_unit_2 h a1 a2 l r X2 L). fold p.
      split; [exact R |].
      apply UnitFacts.set_up_position.
      eapply Qle_trans; [| apply Qle_Qabs]. qlra.
    + destruct (All r L) as [X1 | X1]; [| contradiction].
      unfold b. rewrite (create_unit_1 h a1 a2 l r X1 X2 L). fold p.
      split; [apply py_round_opp, R |].
      apply UnitFacts.set_up_position.
      apply Qabs_lower. right. qlra.
  - unfold unit. rewrite deref_dangling.
    + split; [reflexivity | split; discriminate].
    + unfold b. rewrite create_length. exact L.
Qed.

(** The armies of [Sample.standoff] before the battle is created. *)
Lemma standoff_armies :
  consistent_armies
    [Unit.new Sample.pike Stance.NEUT 0; Unit.new Sample.pike Stance.NEUT 0]
    (Army.mk "Greek" Stance.NEUT "DarkBlue" [(0%Z, 0%nat)] [] [])
    (Army.mk "Macedon" Stance.NEUT "DarkRed" [(0%Z, 1%nat)] [] []).
Proof.
  unfold consistent_armies, Army.well_formed, allocated, files_agree.
  simpl.
  repeat apply conj.
  - repeat constructor. simpl. tauto.
  - repeat constructor. simpl. tauto.
  - repeat constructor; simpl; intuition discriminate.
  - intros r [<- | []]. lia.
  - intros r [<- | []]. lia.
  - intros f r [X | []]. injection X as <- <-. split; [lia | reflexivity].
  - intros f r [X | []]. injection X as <- <-. split; [lia | reflexivity].
Qed.

Lemma standoff_consistent : consistent Sample.standoff.
Proof.
  apply (create_consistent
           [Unit.new Sample.pike Stance.NEUT 0;
            Unit.new Sample.pike Stance.NEUT 0]
           (Army.mk "Greek" Stance.NEUT "DarkBlue" [(0%Z, 0%nat)] [] [])
           (Army.mk "Macedon" Stance.NEUT "DarkRed" [(0%Z, 1%nat)] [] [])
           Sample.covered_plain).
  apply standoff_armies.
Qed.

Lemma standoff_in_bounds : all_in_bounds (heap Sample.standoff).
Proof.
  apply (create_in_bounds
           [Unit.new Sample.pike Stance.NEUT 0;
            Unit.new Sample.pike Stance.NEUT 0]
           (Army.mk "Greek" Stance.NEUT "DarkBlue" [(0%Z, 0%nat)] [] [])
           (Army.mk "Macedon" Stance.NEUT "DarkRed" [(0%Z, 1%nat)] [] [])
           Sample.covered_plain).
  - reflexivity.
  - simpl. intros r L.
    assert (C : r = 0%nat \/ r = 1%nat) by lia.
    destruct C as [-> | ->]; auto.
Qed.

(** X20: what [Battle(army_1, army_2, landscape)] sets up.  The armies
    are placed at the same distance [p] from the centre, which is at
    least [5] and at least the reach of either army; every unit of the
    second army is set up at [p] and every unit of the first army at
    [-p], other objects are not touched; the turn counter is [0] and no
    pairs exist.  Armies that were consistent stay consistent, and when
    [p] is a rounded number and the store holds the units of the two
    armies only, every unit stands inside its interval. *)
Theorem create_sets_the_stage (h : store) (a1 a2 : Army.t)
    (l : Landscape.t) :
  let p :=
    Qlist_max (Army.get_army_reach h a1) [Army.get_army_reach h a2; 5] in
  let b := create h a1 a2 l in
  (5 <= p /\ Army.get_army_reach h a1 <= p /\ Army.get_army_reach h a2 <= p)
  /\ (turns b = 0%Z /\ landscape b = l /\ fight_pairs b = FightPairs.new)
  /\ List.length (heap b) = List.length h
  /\ (forall r, In r (Army.units a2) -> (r < List.length h)%nat ->
      unit b r = Unit.set_up (deref h r) p)
  /\ (forall r, In r (Army.units a1) -> ~ In r (Army.units a2) ->
      (r < List.length h)%nat ->
      unit b r = Unit.set_up (deref h r) (- p))
  /\ (forall r, ~ In r (Army.units a1) -> ~ In r (Army.units a2) ->
      unit b r = deref h r)
  /\ (consistent_armies h a1 a2 -> consistent b)
  /\ (Unit.rounded p ->
      (forall r, (r < List.length h)%nat ->
                 In r (Army.units a1) \/ In r (Army.units a2)) ->
      all_in_bounds (heap b)).
Proof.
  intros p b.
  pose proof (create_distance h a1 a2) as D. fold p in D.
  repeat apply conj.
  - apply D.
  - apply D.
  - apply D.
  - reflexivity.
  - reflexivity.
  - reflexivity.
  - apply create_length.
  - apply create_unit_2.
  - apply create_unit_1.
  - apply create_unit_other.
  - apply create_consistent.
  - apply create_in_bounds.
Qed.

Lemma create_sets_the_stage_witness :
  consistent Sample.standoff /\ all_in_bounds (heap Sample.standoff).
Proof.
  pose proof (create_sets_the_stage
                [Unit.new Sample.pike Stance.NEUT 0;
                 Unit.new Sample.pike Stance.NEUT 0]
                (Army.mk "Greek" Stance.NEUT "DarkBlue" [(0%Z, 0%nat)] [] [])
                (Army.mk "Macedon" Stance.NEUT "DarkRed" [(0%Z, 1%nat)] [] [])
                Sample.covered_plain)
    as (_ & _ & _ & _ & _ & _ & C & B).
  split.
  - apply C. apply standoff_armies.
  - apply B.
    + reflexivity.
    + simpl. intros r L.
      assert (C' : r = 0%nat \/ r = 1%nat) by lia.
      destruct C' as [-> | ->]; auto.
Defined.

(** X21: the armies start out of reach.  For consistent armies whose
    unit types pass the validators with finite numbers ([float('inf')]
    passes them too and is outside this statement), no deployed unit of a
    freshly created battle has a deployed enemy in range, in either
    direction, so that the first matching of the battle forms no pair at
    all. *)
Theorem fresh_battle_has_no_fight (h : store) (a1 a2 : Army.t)
    (l : Landscape.t) :
  consistent_armies h a1 a2 ->
  valid_types h a1 -> valid_types h a2 ->
  let b := create h a1 a2 l in
  (forall u t, In u (Army.deployed_units (army_1 b)) ->
               In t (Army.deployed_units (army_2 b)) ->
               Unit.is_in_range_of (unit b u) (unit b t) = false
               /\ Unit.is_in_range_of (unit b t) (unit b u) = false)
  /\ forall I fp,
       FightPairs.assign_all I (heap b) (army_1 b) (army_2 b) fp
       = Ok FightPairs.new.
Proof.
  intros (W1 & W2 & N & A1 & A2 & F1 & F2) V1 V2 b.
  set (p := Qlist_max (Army.get_army_reach h a1)
              [Army.get_army_reach h a2; 5]).
  pose proof (create_distance h a1 a2) as (D5 & D1 & D2). fold p in D1, D2.
  assert (Far : forall u t,
            In u (Army.deployed_units (army_1 b)) ->
            In t (Army.deployed_units (army_2 b)) ->
            Unit.is_in_range_of (unit b u) (unit b t) = false
            /\ Unit.is_in_range_of (unit b t) (unit b u) = false).
  { intros u t U T.
    assert (U1 : In u (Army.deployed_units a1)).
    { unfold Army.deployed_units, dict_values in *.
      apply in_map_iff in U. destruct U as (x & <- & X).
      apply in_map. apply (create_file_units_1 h a1 a2 l), X. }
    assert (T2 : In t (Army.deployed_units a2)).
    { unfold Army.deployed_units, dict_values in *.
      apply in_map_iff in T. destruct T as (x & <- & X).
      apply in_map. apply (create_file_units_2 h a1 a2 l), X. }
    assert (Uu : In u (Army.units a1)).
    { apply in_or_app. left. exact U1. }
    assert (Tu : In t (Army.units a2)).
    { apply in_or_app. left. exact T2. }
    assert (Un : ~ In u (Army.units a2)).
    { apply (NoDup_app_disjoint _ _ u N Uu). }
    unfold b.
    rewrite (create_unit_1 h a1 a2 l u Uu Un (A1 u Uu)).
    rewrite (create_unit_2 h a1 a2 l t Tu (A2 t Tu)).
    fold p.
    assert (R1 : 1 + (Unit.att_range (deref h u)
                      + 2 * Unit.speed (deref h u)) <= p).
    { eapply Qle_trans; [apply (reach_covers h a1 u U1) | exact D1]. }
    assert (R2 : 1 + (Unit.att_range (deref h t)
                      + 2 * Unit.speed (deref h t)) <= p).
    { eapply Qle_trans; [apply (reach_covers h a2 t T2) | exact D2]. }
    destruct (opposite_edges_out_of_range (deref h u) (deref h t) p
                (V1 u Uu) R1) as [O1 _].
    destruct (opposite_edges_out_of_range (deref h t) (deref h u) p
                (V2 t Tu) R2) as [_ O2].
    split; [exact O1 | exact O2]. }
  split; [exact Far |].
  intros I fp.
  assert (Idle : forall fp0 f u opp,
            (forall g t, dict_get Z.eqb g (Army.file_units opp) = Some t ->
                         Unit.is_in_range_of (unit b u) (unit b t) = false) ->
            FightPairs.add_single_potentials (heap b) fp0 f u opp = fp0).
  { intros fp0 f u opp O.
    unfold FightPairs.add_single_potentials.
    assert (G : forall g, FightPairs.get_valid_targets (heap b) g u opp = []).
    { intros g. unfold FightPairs.get_valid_targets.
      destruct (dict_get Z.eqb g (Army.file_units opp)) as [t |] eqn:D;
        [| reflexivity].
      change (deref (heap b) u) with (unit b u).
      change (deref (heap b) t) with (unit b t).
      rewrite (O g t D). reflexivity. }
    rewrite !G. reflexivity. }
  assert (Deployed : forall (a : Army.t) g t,
            dict_get Z.eqb g (Army.file_units a) = Some t ->
            In t (Army.deployed_units a)).
  { intros a g t D. apply (dict_get_In Z.eqb Z.eqb_eq) in D.
    change t with (snd (g, t)). apply in_map, D. }
  unfold FightPairs.assign_all.
  assert (P : FightPairs.add_all_potentials (heap b) (army_1 b) (army_2 b)
                (FightPairs.reset fp) = FightPairs.new).
  { unfold FightPairs.add_all_potentials.
    apply (fold_left_invariant_In (fun acc => acc = FightPairs.new)).
    - intros acc [f u] X ->. cbn [fst snd].
      apply Idle. intros g t D.
      assert (U : In u (Army.deployed_units (army_2 b))).
      { change u with (snd (f, u)). apply in_map, X. }
      destruct (Far t u (Deployed _ g t D) U) as [_ R]. exact R.
    - apply (fold_left_invariant_In (fun acc => acc = FightPairs.new));
        [| reflexivity].
      intros acc [f u] X ->. cbn [fst snd].
      apply Idle. intros g t D.
      assert (U : In u (Army.deployed_units (army_1 b))).
      { change u with (snd (f, u)). apply in_map, X. }
      destruct (Far u t U (Deployed _ g t D)) as [R _]. exact R. }
  rewrite P. reflexivity.
Qed.

Lemma fresh_battle_has_no_fight_witness :
  FightPairs.assign_all Sample.insertion_order (heap Sample.standoff)
    (army_1 Sample.standoff) (army_2 Sample.standoff) FightPairs.new
  = Ok FightPairs.new.
Proof.
  destruct (fresh_battle_has_no_fight
              [Unit.new Sample.pike Stance.NEUT 0;
               Unit.new Sample.pike Stance.NEUT 0]
              (Army.mk "Greek" Stance.NEUT "DarkBlue" [(0%Z, 0%nat)] [] [])
              (Army.mk "Macedon" Stance.NEUT "DarkRed" [(0%Z, 1%nat)] [] [])
              Sample.covered_plain) as [_ H].
  - apply standoff_armies.
  - intros r [<- | []]. reflexivity.
  - intros r [<- | []]. reflexivity.
  - apply (H Sample.insertion_order FightPairs.new).
Defined.
End CreateFacts.

(* ------------------------------------------------------------------ *)
(** ** A turn as a sequence of mutations *)

Lemma modify_modify (h : store) (r : ref) (f g : Unit.t -> Unit.t) :
  modify (modify h r f) r g = modify h r (fun u => g (f u)).
Proof.
  revert r. induction h as [| u rest IH]; intros [| r]; simpl;
    try reflexivity.
  f_equal. apply IH.
Qed.

Module MutationFacts.
Import Battle.
Import Mutation.

Create HintDb moved discriminated.

Lemma kept_refl (u : Unit.t) : kept u u.
Proof. repeat split. left. reflexivity. Qed.

Lemma kept_trans (u1 u2 u3 : Unit.t) : kept u1 u2 -> kept u2 u3 -> kept u1 u3.
Proof.
  intros (T1 & I1 & P1) (T2 & I2 & P2).
  split; [congruence |]. split; [congruence |].
  destruct P2 as [P2 | P2].
  - destruct P1 as [P1 | P1]; [left; congruence |].
    right. intros R. specialize (P1 R).
    unfold Unit.position_ok, Unit.in_bounds in *.
    rewrite P2, I2. exact P1.
  - right. intros R. apply P2. rewrite I1. exact R.
Qed.

Lemma moved_same (u u' : Unit.t) :
  Unit.unit_type u' = Unit.unit_type u ->
  Unit.init_pos u' = Unit.init_pos u ->
  Unit.file u' = Unit.file u ->
  Unit.position u' = Unit.position u ->
  moved u u'.
Proof. intros T I F P. repeat split; auto. Qed.

Lemma moved_capped (u u' : Unit.t) :
  Unit.unit_type u' = Unit.unit_type u ->
  Unit.init_pos u' = Unit.init_pos u ->
  Unit.file u' = Unit.file u ->
  (Unit.rounded (Unit.init_pos u) -> Unit.position_ok u') ->
  moved u u'.
Proof. intros T I F P. repeat split; auto. Qed.

Lemma moved_set_stance (u : Unit.t) (s : Stance.t) :
  moved u (Unit.set_stance u s).
Proof. apply moved_same; reflexivity. Qed.

Lemma moved_set_morale (u : Unit.t) (m : Q) : moved u (Unit.set_morale u m).
Proof. apply moved_same; reflexivity. Qed.

Lemma moved_set_pursuing (u : Unit.t) (p : bool) :
  moved u (Unit.set_pursuing u p).
Proof. apply moved_same; reflexivity. Qed.

Lemma moved_move_by (u : Unit.t) (d : Q) : moved u (Unit.move_by u d).
Proof.
  apply moved_capped; try reflexivity. apply UnitFacts.move_by_ok.
Qed.

Lemma moved_move_to (u : Unit.t) (p : Q) : moved u (Unit.move_to u p).
Proof.
  apply moved_capped; try reflexivity. apply UnitFacts.move_to_ok.
Qed.

Lemma moved_move_towards (dt : Q) (u : Unit.t) (target speed : Q) :
  moved u (Unit.move_towards dt u target speed).
Proof.
  unfold Unit.move_towards.
  destruct (Qltb _ _); [apply moved_move_to |].
  destruct (Qltb _ _); [apply moved_move_to |].
  apply moved_same; reflexivity.
Qed.

Lemma moved_move_safely_away_from_pos (u : Unit.t) (p : Q) :
  moved u (Unit.move_safely_away_from_pos u p).
Proof.
  unfold Unit.move_safely_away_from_pos.
  destruct (_ && _); [apply moved_move_to |].
  destruct (_ && _); [apply moved_move_to |].
  apply moved_same; reflexivity.
Qed.

(** A halting move: the position is the one after [move_towards] or the
    one before it. *)
Lemma moved_confirm_move (dt : Q) (u : Unit.t) (target speed : Q)
    (g old_lag new_lag : Q) :
  moved u
    (Unit.confirm_move (Unit.move_towards dt u target speed) g
       (Unit.position u) old_lag new_lag).
Proof.
  pose proof (moved_move_towards dt u target speed) as M.
  set (u1 := Unit.move_towards dt u target speed) in *.
  destruct M as [(T & I & P) F].
  assert (K : forall h, moved u (Unit.set_halted u1 h)).
  { intros h. split; [| exact F]. split; [exact T |].
    split; [exact I |]. exact P. }
  assert (B : forall h,
            moved u (Unit.set_halted (Unit.set_position u1 (Unit.position u))
                       h)).
  { intros h. apply moved_same; auto. }
  unfold Unit.confirm_move.
  destruct (Qltb _ _); [apply K |].
  destruct (_ && _); [apply B |].
  destruct (Qltb _ _); [apply B |].
  destruct (negb _); [apply K |].
  split; [| exact F]. split; [exact T |]. split; [exact I | exact P].
Qed.

Lemma kept_deploy_close_to (u : Unit.t) (f : Z) (p : Q) :
  kept u (Unit.deploy_close_to u f p).
Proof.
  repeat split. right. intros R.
  apply UnitFacts.deploy_close_to_ok. exact R.
Qed.

Lemma kept_set_file (u : Unit.t) (f : Z) : kept u (Unit.set_file u f).
Proof. repeat split. left. reflexivity. Qed.

#[export] Hint Resolve moved_set_stance moved_set_morale moved_set_pursuing
  moved_move_by moved_move_towards moved_confirm_move : moved.

Lemma steps_trans (b1 b2 b3 : t) : steps b1 b2 -> steps b2 b3 -> steps b1 b3.
Proof.
  intros A B. induction B as [| x y z _ IH S]; [exact A |].
  eapply steps_next; [apply IH, A | exact S].
Qed.

Lemma steps_one (b b' : t) : step b b' -> steps b b'.
Proof. intros S. eapply steps_next; [apply steps_refl | exact S]. Qed.

Lemma for_each_steps {X} (body : X -> t -> result t) (xs : list X) :
  (forall x b b', body x b = Ok b' -> steps b b') ->
  forall b b', for_each xs body b = Ok b' -> steps b b'.
Proof.
  intros B. induction xs as [| x xs IH]; intros b b' H; simpl in H.
  - injection H as <-. apply steps_refl.
  - destruct (body x b) as [b1 | e] eqn:E; [| discriminate].
    cbn [bind] in H. eapply steps_trans; [eapply B; exact E |].
    apply IH. exact H.
Qed.

Lemma steps_fold_modify (f : Unit.t -> Unit.t) (l : list ref) (b : t) :
  (forall u, moved u (f u)) ->
  steps b (set_heap b (fold_left (fun h r => modify h r f) l (heap b))).
Proof.
  intros F. revert b. induction l as [| x rest IH]; intros b; simpl.
  - destruct b. apply steps_refl.
  - eapply steps_trans.
    + apply steps_one. apply (step_unit b x f). apply F.
    + apply (IH (modify_unit b x f)).
Qed.

(** Goals that a chain of in-place updates closes. *)
Ltac stepped :=
  lazymatch goal with
  | |- steps ?b ?b => apply steps_refl
  | |- steps ?b (modify_unit ?x ?r ?f) =>
      apply (steps_next b x);
      [stepped | apply step_unit; auto with moved]
  | |- steps ?b (set_fight_pairs ?x ?fp) =>
      apply (steps_next b x); [stepped | apply step_pairs]
  | |- steps ?b (inflict_casualties ?dt ?x ?r ?bal) =>
      unfold inflict_casualties; stepped
  end.

Lemma reset_unit_stance_steps (b b' : t) (r : ref) :
  reset_unit_stance b r = Ok b' -> steps b b'.
Proof.
  unfold reset_unit_stance. intros H. TurnFacts.run H. stepped.
Qed.

Lemma call_neighbors_forward_steps (b b' : t) (r : ref) :
  call_neighbors_forward b r = Ok b' -> steps b b'.
Proof.
  unfold call_neighbors_forward. intros H. TurnFacts.run H.
  eapply for_each_steps; [| exact H].
  clear. intros x b b' H. TurnFacts.run H; stepped.
Qed.

Section WithParameters.
Variable DELTA_T : Q.
Variable I : PySet.impl.
Variable M : MathLib Q.

Lemma change_morale_from_first_pursue_steps (b b' : t) :
  change_morale_from_first_pursue b = Ok b' -> steps b b'.
Proof.
  unfold change_morale_from_first_pursue. apply for_each_steps.
  clear. intros x b b' H. TurnFacts.run H; try stepped.
  unfold Army.change_all_units_morale.
  apply (steps_fold_modify
           (fun u => Unit.set_morale u (Unit.morale u + PURSUE_MORALE))).
  intros u. apply moved_set_morale.
Qed.

Lemma reduce_files_steps (b b' : t) :
  reduce_files b = Ok b' -> steps b b'.
Proof.
  unfold reduce_files. apply for_each_steps.
  clear. intros x b b' H. TurnFacts.run H; try stepped.
  match goal with
  | E : Army.slide_file_towards_centre _ _ _ = Ok ?ha |- _ =>
      destruct ha as [h' a']; cbn [fst snd];
      apply steps_one; eapply step_slide; exact E
  end.
Qed.

Lemma update_status_steps (b b' : t) :
  update_status b = Ok b' -> steps b b'.
Proof.
  unfold update_status. apply for_each_steps.
  clear. intros x b b' H.
  destruct (reset_unit_stance b x) as [b1 | e] eqn:S; [| discriminate].
  cbn [bind] in H. apply reset_unit_stance_steps in S.
  eapply steps_trans; [exact S |]. clear S.
  TurnFacts.run H; try stepped.
  match goal with
  | E : Army.remove_unit _ _ _ _ = Ok ?ha |- _ =>
      destruct ha as [h' a']; cbn [fst snd];
      apply steps_one; eapply step_remove; exact E
  end.
Qed.

Lemma tidy_steps (b b' : t) : tidy b = Ok b' -> steps b b'.
Proof.
  unfold tidy. intros H.
  destruct (change_morale_from_first_pursue b) as [b1 | e] eqn:E1;
    [| discriminate].
  cbn [bind] in H.
  destruct (reduce_files b1) as [b2 | e] eqn:E2; [| discriminate].
  cbn [bind] in H.
  apply change_morale_from_first_pursue_steps in E1.
  apply reduce_files_steps in E2.
  apply update_status_steps in H.
  eapply steps_trans; [exact E1 |]. eapply steps_trans; eassumption.
Qed.

Lemma _push_from_winner_steps (b b' : t) (w l : ref) (balance : Q) :
  _push_from_winner DELTA_T b w l balance = Ok b' -> steps b b'.
Proof.
  unfold _push_from_winner. intros H. TurnFacts.run H; stepped.
Qed.

Lemma push_from_fight_steps (b b' : t) (x y : ref) (balance : Q) :
  push_from_fight DELTA_T b x y balance = Ok b' -> steps b b'.
Proof.
  unfold push_from_fight. intros H.
  destruct (Qltb 1 balance);
    [eapply _push_from_winner_steps; exact H |].
  destruct (Qltb balance 1); [| injection H as <-; apply steps_refl].
  destruct (py_div 1 balance); [| discriminate].
  eapply _push_from_winner_steps; exact H.
Qed.

Lemma fight_two_way_steps (b b' : t) (x y : ref) :
  fight_two_way DELTA_T M b x y = Ok b' -> steps b b'.
Proof.
  unfold fight_two_way. intros H.
  destruct (compute_fight_balance b x y) as [bal |]; [| discriminate].
  cbn [bind] in H. destruct (py_div 1 bal) as [inv |]; [| discriminate].
  cbn [bind] in H. apply push_from_fight_steps in H.
  eapply steps_trans; [| exact H]. stepped.
Qed.

Lemma fight_one_way_steps (b b' : t) (x y : ref) :
  fight_one_way DELTA_T M b x y = Ok b' -> steps b b'.
Proof.
  unfold fight_one_way. intros H.
  destruct (compute_fight_balance b x y) as [bal |]; [| discriminate].
  cbn [bind] in H. apply call_neighbors_forward_steps in H.
  eapply steps_trans; [| exact H]. stepped.
Qed.

Lemma fight_steps (b b' : t) : fight DELTA_T I M b = Ok b' -> steps b b'.
Proof.
  unfold fight. intros H.
  destruct (FightPairs.assign_all I (heap b) (army_1 b) (army_2 b)
              (fight_pairs b)) as [fp | e]; [| discriminate].
  cbn [bind] in H.
  destruct (for_each (FightPairs.two_way_pairs fp) _ _) as [b1 | e] eqn:T;
    [| discriminate].
  cbn [bind] in H.
  apply for_each_steps in T;
    [| intros; eapply fight_two_way_steps; eassumption].
  apply for_each_steps in H;
    [| intros; eapply fight_one_way_steps; eassumption].
  eapply steps_trans; [| eapply steps_trans; [exact T | exact H]].
  stepped.
Qed.

Lemma move_towards_haltingly_steps (b b' : t) (r : ref) (target speed : Q) :
  move_towards_haltingly DELTA_T M b r target speed = Ok b' -> steps b b'.
Proof.
  unfold move_towards_haltingly. intros H. TurnFacts.run H.
  unfold modify_unit, set_heap. cbn [heap army_1 army_2 landscape
                                      fight_pairs turns].
  rewrite modify_modify.
  apply steps_one.
  match goal with
  | |- step b (mk (modify (heap b) r ?f) _ _ _ _ _) =>
      apply (step_unit b r f)
  end.
  cbv beta. apply moved_confirm_move.
Qed.

Lemma move_unit_towards_in_stance_steps (b b' : t) (r : ref) (target : Q) :
  move_unit_towards_in_stance DELTA_T M b r target = Ok b' -> steps b b'.
Proof.
  unfold move_unit_towards_in_stance. intros H. TurnFacts.run H.
  destruct (Unit.stance (unit b r)).
  - injection H as <-. stepped.
  - injection H as <-. stepped.
  - eapply move_towards_haltingly_steps. exact H.
Qed.

Lemma move_steps (b b' : t) : move DELTA_T M b = Ok b' -> steps b b'.
Proof.
  unfold move. apply for_each_steps.
  clear. intros x b b' H. TurnFacts.run H; try stepped.
  eapply move_unit_towards_in_stance_steps. exact H.
Qed.

Lemma do_turn_steps (b b' : t) : do_turn DELTA_T I M b = Ok b' -> steps b b'.
Proof.
  unfold do_turn. intros H.
  destruct (tidy b) as [b1 | e] eqn:E1; [| discriminate].
  cbn [bind] in H.
  destruct (fight DELTA_T I M b1) as [b2 | e] eqn:E2; [| discriminate].
  cbn [bind] in H.
  apply tidy_steps in E1. apply fight_steps in E2. apply move_steps in H.
  eapply steps_trans; [exact E1 |]. eapply steps_trans; eassumption.
Qed.

Lemma turn_boundary_steps (b b' : t) :
  turn_boundary DELTA_T I M b b' -> steps b b'.
Proof.
  induction 1 as [| b1 b2 _ IH _ T]; [apply steps_refl |].
  apply do_turn_steps in T.
  eapply steps_trans; [exact IH |].
  eapply steps_trans; [| exact T].
  apply steps_one, step_turns.
Qed.
End WithParameters.
End MutationFacts.

(* ------------------------------------------------------------------ *)
(** ** What no mutation changes *)

Module InvariantFacts.
Import Battle.
Import Mutation.
Import MutationFacts.

Lemma heap_kept_refl (h : store) : heap_kept h h.
Proof. split; [reflexivity | intros r; apply kept_refl]. Qed.

Lemma heap_kept_trans (h1 h2 h3 : store) :
  heap_kept h1 h2 -> heap_kept h2 h3 -> heap_kept h1 h3.
Proof.
  intros [L1 K1] [L2 K2]. split; [congruence |].
  intros r. eapply kept_trans; [apply K1 | apply K2].
Qed.

Lemma modify_heap_kept (h : store) (r : ref) (f : Unit.t -> Unit.t) :
  kept (deref h r) (f (deref h r)) -> heap_kept h (modify h r f).
Proof.
  intros K. split; [apply modify_length |].
  intros r'. destruct (Nat.eq_dec r r') as [<- | N].
  - destruct (Nat.lt_ge_cases r (List.length h)) as [L | L].
    + rewrite deref_modify_same by exact L. exact K.
    + rewrite modify_dangling by exact L. apply kept_refl.
  - rewrite deref_modify_other by exact N. apply kept_refl.
Qed.

Lemma slide_file_towards_centre_inv (h h' : store) (a a' : Army.t)
    (file : Z) :
  Army.slide_file_towards_centre h a file = Ok (h', a') ->
  exists r,
    dict_get Z.eqb file (Army.file_units a) = Some r
    /\ file <> 0%Z
    /\ Army.is_file_active a (towards_centre file) = false
    /\ h' = modify h r (fun u => Unit.set_file u (towards_centre file))
    /\ Army.file_units a'
       = dict_del Z.eqb file
           (dict_set Z.eqb (towards_centre file) r (Army.file_units a))
    /\ Army.reserves a' = Army.reserves a
    /\ Army.removed a' = Army.removed a.
Proof.
  unfold Army.slide_file_towards_centre, Army.is_file_towards_centre_active,
    dict_getitem.
  fold (towards_centre file). intros H.
  destruct (file =? 0)%Z eqn:Z0; [discriminate |]. simpl in H.
  destruct (Army.is_file_active a (towards_centre file)) eqn:A;
    [discriminate |].
  simpl in H.
  destruct (dict_get Z.eqb file (Army.file_units a)) as [r |] eqn:D;
    [| discriminate].
  simpl in H. injection H as <- <-.
  exists r. apply Z.eqb_neq in Z0. repeat apply conj; auto.
Qed.

Lemma remove_unit_inv (h h' : store) (a a' : Army.t) (unit : ref)
    (other : Army.t) :
  Army.remove_unit h a unit other = Ok (h', a') ->
  let file := Unit.file (deref h unit) in
  dict_get Z.eqb file (Army.file_units a) = Some unit
  /\ Army.removed a' = Army.removed a ++ [unit]
  /\ Army.reserves a' = tl (Army.reserves a)
  /\ match Army.reserves a with
     | [] =>
         h' = h
         /\ Army.file_units a' = dict_del Z.eqb file (Army.file_units a)
     | n :: _ =>
         h' = Army.move_unit_safely_away_from_enemy
                (modify h n
                   (fun u => Unit.deploy_close_to u file
                               (Unit.position (deref h unit))))
                other n
         /\ Army.file_units a'
            = dict_set Z.eqb file n
                (dict_del Z.eqb file (Army.file_units a))
     end.
Proof.
  intros H file. unfold Army.remove_unit, dict_getitem in H.
  fold file in H.
  destruct (dict_get Z.eqb file (Army.file_units a)) as [r |] eqn:D;
    [| discriminate].
  simpl in H. destruct (Nat.eqb r unit) eqn:E; [| discriminate].
  apply Nat.eqb_eq in E. subst r. simpl in H.
  unfold Army.deploy_reserve_to_file in H. simpl in H.
  destruct (Army.reserves a) as [| n rest] eqn:R;
    injection H as <- <-; simpl; rewrite ?R; auto.
Qed.

Lemma move_unit_safely_away_from_enemy_kept (h : store) (a : Army.t)
    (enemy : ref) :
  heap_kept h (Army.move_unit_safely_away_from_enemy h a enemy).
Proof.
  unfold Army.move_unit_safely_away_from_enemy.
  destruct (dict_get _ _ _); [| apply heap_kept_refl].
  apply modify_heap_kept. apply moved_move_safely_away_from_pos.
Qed.

Lemma step_heap_kept (b b' : t) :
  step b b' ->
  heap_kept (heap b) (heap b') /\ landscape b' = landscape b.
Proof.
  intros S. destruct S as [b r f [K _] | b fp | b n | b s file h' a' E
                           | b s r h' a' E].
  - split; [| reflexivity]. apply modify_heap_kept. exact K.
  - split; [apply heap_kept_refl | reflexivity].
  - split; [apply heap_kept_refl | reflexivity].
  - split; [| destruct s; reflexivity].
    apply slide_file_towards_centre_inv in E.
    destruct E as (x & _ & _ & _ & -> & _).
    assert (H : heap (set_army (set_heap b (modify (heap b) x
                       (fun u => Unit.set_file u (towards_centre file))))
                       s a')
                = modify (heap b) x
                    (fun u => Unit.set_file u (towards_centre file)))
      by (destruct s; reflexivity).
    rewrite H. apply modify_heap_kept. apply kept_set_file.
  - split; [| destruct s; reflexivity].
    assert (H : heap (set_army (set_heap b h') s a') = h')
      by (destruct s; reflexivity).
    rewrite H. clear H.
    apply remove_unit_inv in E. destruct E as (_ & _ & _ & E).
    destruct (Army.reserves (army b s)) as [| n rest].
    + destruct E as [-> _]. apply heap_kept_refl.
    + destruct E as [-> _].
      eapply heap_kept_trans;
        [| apply move_unit_safely_away_from_enemy_kept].
      apply modify_heap_kept. apply kept_deploy_close_to.
Qed.

Lemma steps_heap_kept (b b' : t) :
  steps b b' ->
  heap_kept (heap b) (heap b') /\ landscape b' = landscape b.
Proof.
  induction 1 as [| b1 b2 b3 _ [K L] S].
  - split; [apply heap_kept_refl | reflexivity].
  - apply step_heap_kept in S. destruct S as [K' L'].
    split; [eapply heap_kept_trans; eassumption | congruence].
Qed.

Lemma kept_in_bounds (u u' : Unit.t) :
  kept u u' ->
  Unit.rounded (Unit.init_pos u) -> Unit.in_bounds u ->
  Unit.rounded (Unit.init_pos u') /\ Unit.in_bounds u'.
Proof.
  intros (_ & I & P) R B. rewrite I. split; [exact R |].
  destruct P as [P | P].
  - unfold Unit.in_bounds in *. rewrite P, I. exact B.
  - apply P. exact R.
Qed.

(** X22: a battle works on a fixed cast.  Whatever the phases of a turn
    do, and at every turn boundary of a run, the store holds the same
    number of objects, the landscape is the same, and every unit has the
    type and the home position it had at the start: no phase replaces a
    unit's type, re-homes a unit, or creates a unit. *)
Theorem units_keep_type_and_home (dt : Q) (I : PySet.impl) (M : MathLib Q)
    (b b' : t) :
  tidy b = Ok b' \/ fight dt I M b = Ok b' \/ move dt M b = Ok b'
  \/ do_turn dt I M b = Ok b' \/ turn_boundary dt I M b b' ->
  List.length (heap b') = List.length (heap b)
  /\ landscape b' = landscape b
  /\ forall r, Unit.unit_type (unit b' r) = Unit.unit_type (unit b r)
               /\ Unit.init_pos (unit b' r) = Unit.init_pos (unit b r).
Proof.
  intros H.
  assert (S : steps b b').
  { destruct H as [H | [H | [H | [H | H]]]].
    - apply tidy_steps, H.
    - eapply fight_steps, H.
    - eapply move_steps, H.
    - eapply do_turn_steps, H.
    - eapply turn_boundary_steps, H. }
  apply steps_heap_kept in S. destruct S as [[L K] E].
  split; [exact L |]. split; [exact E |].
  intros r. destruct (K r) as (T & P & _). auto.
Qed.

Lemma units_keep_type_and_home_witness :
  exists b',
    do_turn (1 # 50) Sample.insertion_order Sample.exact_at_unity
      (set_turns Sample.standoff 1) = Ok b'
    /\ List.length (heap b') = List.length (heap Sample.standoff).
Proof.
  eexists. split; [vm_compute; reflexivity |].
  apply (units_keep_type_and_home (1 # 50) Sample.insertion_order
           Sample.exact_at_unity (set_turns Sample.standoff 1)).
  right. right. right. left. vm_compute. reflexivity.
Defined.

(** X23: no unit ever leaves its interval.  When every object of the
    store has a rounded home position and stands between [-|init_pos|]
    and [|init_pos|], the same holds after each phase of a turn and at
    every turn boundary of a run, pushes, pursuits, deployments and
    rolled-back moves included. *)
Theorem positions_stay_in_bounds (dt : Q) (I : PySet.impl) (M : MathLib Q)
    (b b' : t) :
  all_in_bounds (heap b) ->
  tidy b = Ok b' \/ fight dt I M b = Ok b' \/ move dt M b = Ok b'
  \/ do_turn dt I M b = Ok b' \/ turn_boundary dt I M b b' ->
  all_in_bounds (heap b').
Proof.
  intros A H.
  assert (S : steps b b').
  { destruct H as [H | [H | [H | [H | H]]]].
    - apply tidy_steps, H.
    - eapply fight_steps, H.
    - eapply move_steps, H.
    - eapply do_turn_steps, H.
    - eapply turn_boundary_steps, H. }
  apply steps_heap_kept in S. destruct S as [[L K] E].
  intros r. destruct (A r) as [R B].
  apply (kept_in_bounds (deref (heap b) r)); [apply K | exact R | exact B].
Qed.

Lemma positions_stay_in_bounds_witness :
  exists b',
    do_turn (1 # 50) Sample.insertion_order Sample.exact_at_unity
      (set_turns Sample.standoff 1) = Ok b'
    /\ all_in_bounds (heap b').
Proof.
  eexists. split; [vm_compute; reflexivity |].
  apply (positions_stay_in_bounds (1 # 50) Sample.insertion_order
           Sample.exact_at_unity (set_turns Sample.standoff 1)).
  - apply CreateFacts.standoff_in_bounds.
  - right. right. right. left. vm_compute. reflexivity.
Defined.
End InvariantFacts.

(* ------------------------------------------------------------------ *)
(** ** The file dictionaries and the units *)

Module ConsistencyFacts.
Import Battle.
Import Mutation.
Import MutationFacts.

Lemma army_set_army (b : t) (s s' : side) (h' : store) (a' : Army.t) :
  army (set_army (set_heap b h') s a') s'
  = match s, s' with
    | Side1, Side1 | Side2, Side2 => a'
    | _, _ => army b s'
    end.
Proof. destruct s, s'; reflexivity. Qed.

Lemma heap_set_army (b : t) (s : side) (h' : store) (a' : Army.t) :
  heap (set_army (set_heap b h') s a') = h'.
Proof. destruct s; reflexivity. Qed.

Lemma files_agree_heap (h h' : store) (a : Army.t) :
  List.length h' = List.length h ->
  (forall x, In x (Army.deployed_units a) ->
             Unit.file (deref h' x) = Unit.file (deref h x)) ->
  files_agree h a -> files_agree h' a.
Proof.
  intros L F A f r X. destruct (A f r X) as [V E].
  split; [rewrite L; exact V |].
  rewrite F; [exact E |].
  change r with (snd (f, r)). apply in_map, X.
Qed.

Lemma consistent_heap (h h' : store) (a1 a2 : Army.t) :
  List.length h' = List.length h ->
  (forall x, Unit.file (deref h' x) = Unit.file (deref h x)) ->
  consistent_armies h a1 a2 -> consistent_armies h' a1 a2.
Proof.
  intros L F (W1 & W2 & N & A1 & A2 & F1 & F2).
  repeat apply conj; auto.
  - intros r X. rewrite L. apply A1, X.
  - intros r X. rewrite L. apply A2, X.
  - apply (files_agree_heap h); auto.
  - apply (files_agree_heap h); auto.
Qed.

Lemma deployed_in_units (a : Army.t) (x : ref) :
  In x (Army.deployed_units a) -> In x (Army.units a).
Proof. intros X. apply in_or_app. left. exact X. Qed.

(** A change of one army and of the store that keeps the roster. *)
Lemma consistent_set_army (b : t) (s : side) (h' : store) (a' : Army.t) :
  consistent b ->
  Army.well_formed a' ->
  Permutation (Army.units a') (Army.units (army b s)) ->
  List.length h' = List.length (heap b) ->
  files_agree h' a' ->
  (forall x, ~ In x (Army.units (army b s)) ->
             Unit.file (deref h' x) = Unit.file (deref (heap b) x)) ->
  consistent (set_army (set_heap b h') s a').
Proof.
  intros (W1 & W2 & N & A1 & A2 & F1 & F2) W P L F O.
  unfold consistent, consistent_armies.
  destruct s; cbn [heap army_1 army_2 set_army set_heap army] in *.
  - repeat apply conj; auto.
    + eapply Permutation_NoDup; [| exact N].
      apply Permutation_sym, Permutation_app_tail, P.
    + intros r X. rewrite L. apply A1.
      apply (Permutation_in _ P), X.
    + intros r X. rewrite L. apply A2, X.
    + apply (files_agree_heap (heap b)); auto.
      intros x X. apply O. intros C.
      apply (NoDup_app_disjoint _ _ x N C).
      apply deployed_in_units, X.
  - repeat apply conj; auto.
    + eapply Permutation_NoDup; [| exact N].
      apply Permutation_sym, Permutation_app_head, P.
    + intros r X. rewrite L. apply A1, X.
    + intros r X. rewrite L. apply A2.
      apply (Permutation_in _ P), X.
    + apply (files_agree_heap (heap b)); auto.
      intros x X. apply O. intros C.
      apply (NoDup_app_disjoint _ _ x N (deployed_in_units _ _ X) C).
Qed.

Lemma modify_file (h : store) (r x : ref) (f : Unit.t -> Unit.t) :
  Unit.file (f (deref h r)) = Unit.file (deref h r) ->
  Unit.file (deref (modify h r f) x) = Unit.file (deref h x).
Proof.
  intros F. destruct (Nat.eq_dec r x) as [<- | N].
  - destruct (Nat.lt_ge_cases r (List.length h)) as [L | L].
    + rewrite deref_modify_same by exact L. exact F.
    + rewrite modify_dangling by exact L. reflexivity.
  - rewrite deref_modify_other by exact N. reflexivity.
Qed.

Section OneArmy.
Variable h : store.
Variable a : Army.t.
Hypothesis W : Army.well_formed a.
Hypothesis N : NoDup (Army.units a).
Hypothesis A : allocated h a.
Hypothesis F : files_agree h a.

Lemma deployed_once (g1 g2 : Z) (x : ref) :
  In (g1, x) (Army.file_units a) -> In (g2, x) (Army.file_units a) ->
  g1 = g2.
Proof.
  apply NoDup_values_key.
  apply (NoDup_app_remove_r _ _ N).
Qed.

Lemma slide_file_towards_centre_agree (file : Z) (h' : store)
    (a' : Army.t) :
  Army.slide_file_towards_centre h a file = Ok (h', a') ->
  Army.well_formed a'
  /\ Permutation (Army.units a') (Army.units a)
  /\ List.length h' = List.length h
  /\ files_agree h' a'
  /\ forall x, ~ In x (Army.units a) ->
               Unit.file (deref h' x) = Unit.file (deref h x).
Proof.
  intros E.
  destruct (ArmyFacts.slide_file_towards_centre_roster h h' a a' file W E)
    as [W' P].
  apply InvariantFacts.slide_file_towards_centre_inv in E.
  destruct E as (r & D & Z0 & Act & -> & FU & _ & _).
  assert (R : In (file, r) (Army.file_units a)).
  { apply (dict_get_In Z.eqb Z.eqb_eq), D. }
  repeat apply conj.
  - exact W'.
  - exact P.
  - apply modify_length.
  - intros g x X. rewrite FU in X.
    apply (dict_del_entries Z.eqb Z.eqb_eq) in X;
      [| apply (dict_set_keys_NoDup_any Z.eqb Z.eqb_eq), W].
    destruct X as [G X]. simpl in G.
    apply (dict_set_entries Z.eqb Z.eqb_eq) in X; [| exact W].
    rewrite modify_length.
    destruct X as [X | [G' X]].
    + injection X as -> ->. destruct (F file r R) as [V _].
      split; [exact V |].
      rewrite deref_modify_same by exact V. reflexivity.
    + destruct (F g x X) as [V Fx]. split; [exact V |].
      rewrite deref_modify_other; [exact Fx |].
      intros ->. apply G. symmetry. apply (deployed_once file g x R X).
  - intros x X. rewrite deref_modify_other; [reflexivity |].
    intros ->. apply X. apply deployed_in_units.
    change x with (snd (file, x)). apply in_map, R.
Qed.

Lemma remove_unit_agree (unit : ref) (other : Army.t) (h' : store)
    (a' : Army.t) :
  Army.remove_unit h a unit other = Ok (h', a') ->
  Army.well_formed a'
  /\ Permutation (Army.units a') (Army.units a)
  /\ List.length h' = List.length h
  /\ files_agree h' a'
  /\ forall x, ~ In x (Army.units a) ->
               Unit.file (deref h' x) = Unit.file (deref h x).
Proof.
  intros E.
  destruct (ArmyFacts.remove_unit_roster h h' a a' unit other W E)
    as [W' P].
  apply InvariantFacts.remove_unit_inv in E. cbv zeta in E.
  destruct E as (D & _ & _ & E).
  set (file := Unit.file (deref h unit)) in *.
  destruct (Army.reserves a) as [| n rest] eqn:R.
  - destruct E as [-> FU].
    repeat apply conj; auto.
    intros g x X. rewrite FU in X.
    apply (dict_del_In Z.eqb) in X. apply (F g x X).
  - destruct E as [-> FU].
    assert (Rn : In n (Army.reserves a)) by (rewrite R; left; reflexivity).
    assert (Un : In n (Army.units a)).
    { apply in_or_app. right. apply in_or_app. left. exact Rn. }
    assert (Dn : ~ In n (Army.deployed_units a)).
    { intros C. unfold Army.units in N.
      apply (NoDup_app_disjoint _ _ n N C).
      apply in_or_app. left. exact Rn. }
    assert (Keep : forall x, x <> n ->
              Unit.file
                (deref
                   (Army.move_unit_safely_away_from_enemy
                      (modify h n
                         (fun u => Unit.deploy_close_to u file
                                     (Unit.position (deref h unit))))
                      other n) x)
              = Unit.file (deref h x)).
    { intros x X.
      rewrite ArmyAlterFacts.move_unit_safely_away_from_enemy_file.
      rewrite deref_modify_other by congruence. reflexivity. }
    repeat apply conj.
    + exact W'.
    + exact P.
    + rewrite ArmyAlterFacts.move_unit_safely_away_from_enemy_length.
      apply modify_length.
    + intros g x X. rewrite FU in X.
      rewrite ArmyAlterFacts.move_unit_safely_away_from_enemy_length,
        modify_length.
      apply (dict_set_entries Z.eqb Z.eqb_eq) in X;
        [| apply dict_del_keys_NoDup, W].
      destruct X as [X | [G X]].
      * injection X as -> ->. split; [apply A, Un |].
        rewrite ArmyAlterFacts.move_unit_safely_away_from_enemy_file.
        rewrite deref_modify_same by (apply A, Un). reflexivity.
      * apply (dict_del_In Z.eqb) in X.
        destruct (F g x X) as [V Fx]. split; [exact V |].
        rewrite Keep; [exact Fx |].
        intros ->. apply Dn.
        change n with (snd (g, n)). apply in_map, X.
    + intros x X. apply Keep. intros ->. contradiction.
Qed.
End OneArmy.

Lemma consistent_side (b : t) (s : side) :
  consistent b ->
  Army.well_formed (army b s) /\ NoDup (Army.units (army b s))
  /\ allocated (heap b) (army b s) /\ files_agree (heap b) (army b s).
Proof.
  intros (W1 & W2 & N & A1 & A2 & F1 & F2).
  destruct s; cbn [army]; repeat apply conj; auto.
  - apply (NoDup_app_remove_r _ _ N).
  - apply (NoDup_app_remove_l _ _ N).
Qed.

Lemma step_consistent (b b' : t) : step b b' -> consistent b -> consistent b'.
Proof.
  intros S C.
  destruct S as [b r f [_ Fl] | b fp | b n | b s file h' a' E
                 | b s r h' a' E].
  - apply (consistent_heap (heap b)); [apply modify_length | | exact C].
    intros x. apply modify_file. exact Fl.
  - exact C.
  - exact C.
  - destruct (consistent_side b s C) as (W & N & A & F).
    destruct (slide_file_towards_centre_agree (heap b) (army b s) W N F
                file h' a' E) as (W' & P & L & F' & O).
    apply consistent_set_army; assumption.
  - destruct (consistent_side b s C) as (W & N & A & F).
    destruct (remove_unit_agree (heap b) (army b s) W N A F r
                (army b (get_other_army s)) h' a' E)
      as (W' & P & L & F' & O).
    apply consistent_set_army; assumption.
Qed.

Lemma steps_consistent (b b' : t) :
  steps b b' -> consistent b -> consistent b'.
Proof.
  induction 1 as [| b1 b2 b3 _ IH S]; intros C; [exact C |].
  apply (step_consistent b2 b3 S). apply IH, C.
Qed.

Lemma consistent_deployed_in (b : t) (s : side) (r : ref) :
  consistent b ->
  In r (Army.deployed_units (army b s)) ->
  get_army_deployed_in b r = Ok s
  /\ dict_get Z.eqb (Unit.file (unit b r)) (Army.file_units (army b s))
     = Some r.
Proof.
  intros C X.
  destruct (consistent_side b s C) as (W & N & A & F).
  unfold Army.deployed_units, dict_values in X.
  apply in_map_iff in X. destruct X as ([f x] & E & X).
  simpl in E. subst x.
  destruct (F f r X) as [_ Fr].
  assert (D : dict_get Z.eqb (Unit.file (unit b r))
                (Army.file_units (army b s)) = Some r).
  { unfold unit. rewrite Fr.
    apply (In_dict_get Z.eqb Z.eqb_eq); assumption. }
  split; [| exact D].
  assert (Here : is_deployed_in b s r = true).
  { unfold is_deployed_in. rewrite D. apply Nat.eqb_refl. }
  assert (Not_there : is_deployed_in b (get_other_army s) r = false).
  { unfold is_deployed_in.
    destruct (dict_get Z.eqb (Unit.file (unit b r))
                (Army.file_units (army b (get_other_army s))))
      as [r' |] eqn:D'; [| reflexivity].
    destruct (Nat.eqb r' r) eqn:Q; [| reflexivity].
    apply Nat.eqb_eq in Q. subst r'. exfalso.
    apply (dict_get_In Z.eqb Z.eqb_eq) in D'.
    assert (U1 : In r (Army.units (army b s))).
    { apply deployed_in_units.
      change r with (snd (f, r)). apply in_map, X. }
    assert (U2 : In r (Army.units (army b (get_other_army s)))).
    { apply deployed_in_units.
      change r with (snd (Unit.file (unit b r), r)). apply in_map, D'. }
    destruct C as (_ & _ & ND & _).
    destruct s; cbn [army get_other_army] in *.
    - apply (NoDup_app_disjoint _ _ r ND U1 U2).
    - apply (NoDup_app_disjoint _ _ r ND U2 U1). }
  unfold get_army_deployed_in.
  destruct s; cbn [get_other_army] in *.
  - rewrite Here. reflexivity.
  - rewrite Not_there, Here. reflexivity.
Qed.

(** X24: the file dictionaries never disagree with the units.  From a
    consistent state, each phase of a turn and every turn boundary of a
    run is consistent again: every deployed unit is registered under its
    own file number, once, and in one army only.  [get_army_deployed_in]
    therefore finds the army of every deployed unit and does not raise
    [ValueError] for it. *)
Theorem file_maps_stay_consistent (dt : Q) (I : PySet.impl) (M : MathLib Q)
    (b b' : t) :
  consistent b ->
  tidy b = Ok b' \/ fight dt I M b = Ok b' \/ move dt M b = Ok b'
  \/ do_turn dt I M b = Ok b' \/ turn_boundary dt I M b b' ->
  consistent b'
  /\ forall s r, In r (Army.deployed_units (army b' s)) ->
       get_army_deployed_in b' r = Ok s
       /\ dict_get Z.eqb (Unit.file (unit b' r))
            (Army.file_units (army b' s)) = Some r.
Proof.
  intros C H.
  assert (S : steps b b').
  { destruct H as [H | [H | [H | [H | H]]]].
    - apply tidy_steps, H.
    - eapply fight_steps, H.
    - eapply move_steps, H.
    - eapply do_turn_steps, H.
    - eapply turn_boundary_steps, H. }
  assert (C' : consistent b') by (apply (steps_consistent b b' S C)).
  split; [exact C' |].
  intros s r X. apply consistent_deployed_in; assumption.
Qed.

Lemma file_maps_stay_consistent_witness :
  exists b',
    do_turn (1 # 50) Sample.insertion_order Sample.exact_at_unity
      (set_turns Sample.standoff 1) = Ok b'
    /\ consistent b'.
Proof.
  eexists. split; [vm_compute; reflexivity |].
  apply (file_maps_stay_consistent (1 # 50) Sample.insertion_order
           Sample.exact_at_unity (set_turns Sample.standoff 1)).
  - apply CreateFacts.standoff_consistent.
  - right. right. right. left. vm_compute. reflexivity.
Defined.

Lemma step_removed (b b' : t) (s : side) :
  step b b' ->
  (exists l, Army.removed (army b' s) = Army.removed (army b s) ++ l)
  /\ (exists k, Army.reserves (army b s) = k ++ Army.reserves (army b' s)).
Proof.
  intros S.
  assert (Same : forall a : Army.t,
            (exists l, Army.removed a = Army.removed a ++ l)
            /\ (exists k, Army.reserves a = k ++ Army.reserves a)).
  { intros a. split; [exists [] | exists []];
      [rewrite app_nil_r |]; reflexivity. }
  destruct S as [b r f _ | b fp | b n | b s0 file h' a' E
                 | b s0 r h' a' E]; try apply Same.
  - rewrite army_set_army.
    apply InvariantFacts.slide_file_towards_centre_inv in E.
    destruct E as (x & _ & _ & _ & _ & _ & R1 & R2).
    destruct s0, s; try apply Same.
    + rewrite R1, R2. apply Same.
    + rewrite R1, R2. apply Same.
  - rewrite army_set_army.
    apply InvariantFacts.remove_unit_inv in E. cbv zeta in E.
    destruct E as (_ & R1 & R2 & _).
    destruct s0, s; try apply Same.
    + rewrite R1, R2. split; [eexists; reflexivity |].
      destruct (Army.reserves (army b Side1)) as [| n rest];
        [exists [] | exists [n]]; reflexivity.
    + rewrite R1, R2. split; [eexists; reflexivity |].
      destruct (Army.reserves (army b Side2)) as [| n rest];
        [exists [] | exists [n]]; reflexivity.
Qed.

Lemma steps_removed (b b' : t) (s : side) :
  steps b b' ->
  (exists l, Army.removed (army b' s) = Army.removed (army b s) ++ l)
  /\ (exists k, Army.reserves (army b s) = k ++ Army.reserves (army b' s)).
Proof.
  induction 1 as [| b1 b2 b3 _ [[l1 R1] [k1 Q1]] S].
  - split; [exists [] | exists []]; [rewrite app_nil_r |]; reflexivity.
  - destruct (step_removed b2 b3 s S) as [[l2 R2] [k2 Q2]].
    split.
    + exists (l1 ++ l2). rewrite R2, R1, app_assoc. reflexivity.
    + exists (k1 ++ k2). rewrite Q1, Q2, app_assoc. reflexivity.
Qed.

(** X25: removal is final and the reserve is a queue.  Through each
    phase of a turn and over any number of turns, the list of removed
    units of either army only grows at its end and the reserve only
    loses units at its front.  In a consistent battle a unit that has
    been removed is therefore never deployed and never in reserve
    again. *)
Theorem removed_units_stay_removed (dt : Q) (I : PySet.impl)
    (M : MathLib Q) (b b' : t) (s : side) :
  tidy b = Ok b' \/ fight dt I M b = Ok b' \/ move dt M b = Ok b'
  \/ do_turn dt I M b = Ok b' \/ turn_boundary dt I M b b' ->
  (exists l, Army.removed (army b' s) = Army.removed (army b s) ++ l)
  /\ (exists k, Army.reserves (army b s) = k ++ Army.reserves (army b' s))
  /\ (consistent b ->
      forall r, In r (Army.removed (army b s)) ->
                In r (Army.removed (army b' s))
                /\ ~ In r (Army.deployed_units (army b' s))
                /\ ~ In r (Army.reserves (army b' s))).
Proof.
  intros H.
  assert (S : steps b b').
  { destruct H as [H | [H | [H | [H | H]]]].
    - apply tidy_steps, H.
    - eapply fight_steps, H.
    - eapply move_steps, H.
    - eapply do_turn_steps, H.
    - eapply turn_boundary_steps, H. }
  destruct (steps_removed b b' s S) as [[l R] K].
  split; [exists l; exact R |]. split; [exact K |].
  intros C r X.
  assert (X' : In r (Army.removed (army b' s))).
  { rewrite R. apply in_or_app. left. exact X. }
  pose proof (steps_consistent b b' S C) as C'.
  destruct (consistent_side b' s C') as (_ & N & _).
  unfold Army.units in N.
  repeat apply conj.
  - exact X'.
  - intros D. apply (NoDup_app_disjoint _ _ r N D).
    apply in_or_app. right. exact X'.
  - intros D. apply NoDup_app_remove_l in N.
    apply (NoDup_app_disjoint _ _ r N D X').
Qed.

Lemma removed_units_stay_removed_witness :
  exists b',
    do_turn (1 # 50) Sample.insertion_order Sample.exact_at_unity
      (set_turns Sample.standoff 1) = Ok b'
    /\ exists l,
         Army.removed (army b' Side1)
         = Army.removed (army (set_turns Sample.standoff 1) Side1) ++ l.
Proof.
  eexists. split; [vm_compute; reflexivity |].
  apply (removed_units_stay_removed (1 # 50) Sample.insertion_order
           Sample.exact_at_unity (set_turns Sample.standoff 1)).
  right. right. right. left. vm_compute. reflexivity.
Defined.
End ConsistencyFacts.

(* ------------------------------------------------------------------ *)
(** ** Tidy cannot fail *)

Lemma for_each_total {X S} (P : S -> list X -> Prop)
    (body : X -> S -> result S) (xs : list X) (s : S) :
  (forall x rest s, P s (x :: rest) ->
                    exists s', body x s = Ok s' /\ P s' rest) ->
  P s xs ->
  exists s', for_each xs body s = Ok s' /\ P s' [].
Proof.
  intros B. revert s. induction xs as [| x rest IH]; intros s H; simpl.
  - exists s. auto.
  - destruct (B x rest s H) as (s1 & E & H1). rewrite E. cbn [bind].
    apply IH, H1.
Qed.

Module TidyFacts.
Import Battle.
Import Mutation.
Import MutationFacts.
Import ConsistencyFacts.

(** The units of the list are deployed. *)
Lemma iter_all_deployed_In (b : t) (r : ref) :
  In r (iter_all_deployed b)
  <-> exists s, In r (Army.deployed_units (army b s)).
Proof.
  unfold iter_all_deployed. rewrite in_app_iff. split.
  - intros [X | X]; [exists Side1 | exists Side2]; exact X.
  - intros ([|] & X); [left | right]; exact X.
Qed.

Lemma deployed_found (b : t) (r : ref) :
  consistent b -> In r (iter_all_deployed b) ->
  exists s,
    get_army_deployed_in b r = Ok s
    /\ dict_get Z.eqb (Unit.file (unit b r)) (Army.file_units (army b s))
       = Some r.
Proof.
  intros C X. apply iter_all_deployed_In in X. destruct X as (s & X).
  exists s. apply consistent_deployed_in; assumption.
Qed.

Lemma iter_all_deployed_NoDup (b : t) :
  consistent b -> NoDup (iter_all_deployed b).
Proof.
  intros (_ & _ & N & _). unfold iter_all_deployed.
  pose proof (NoDup_app_remove_r _ _ N) as N1.
  pose proof (NoDup_app_remove_l _ _ N) as N2.
  apply NoDup_app.
  - apply (NoDup_app_remove_r _ _ N1).
  - apply (NoDup_app_remove_r _ _ N2).
  - intros x X1 X2.
    apply (NoDup_app_disjoint _ _ x N);
      apply deployed_in_units; assumption.
Qed.

Lemma deployed_set_army (b : t) (s : side) (h' : store) (a' : Army.t)
    (l : list ref) :
  (forall r, In r l -> In r (iter_all_deployed b)) ->
  (forall r, In r l -> In r (Army.deployed_units (army b s)) ->
             In r (Army.deployed_units a')) ->
  forall r, In r l ->
            In r (iter_all_deployed (set_army (set_heap b h') s a')).
Proof.
  intros D K r X. specialize (D r X).
  unfold iter_all_deployed in *. rewrite in_app_iff in *.
  destruct s; cbn [army army_1 army_2 set_army set_heap] in *.
  - destruct D as [D | D]; [left; apply K; assumption | right; exact D].
  - destruct D as [D | D]; [left; exact D | right; apply K; assumption].
Qed.

Lemma slide_file_towards_centre_deployed (h h' : store) (a a' : Army.t)
    (file : Z) (x : ref) :
  Army.well_formed a ->
  Army.slide_file_towards_centre h a file = Ok (h', a') ->
  In x (Army.deployed_units a) -> In x (Army.deployed_units a').
Proof.
  intros W E X.
  apply InvariantFacts.slide_file_towards_centre_inv in E.
  destruct E as (r & D & Z0 & Act & _ & FU & _ & _).
  unfold Army.deployed_units, dict_values in *. rewrite FU.
  apply in_map_iff in X. destruct X as ([g y] & Y & X). simpl in Y. subst y.
  destruct (Z.eq_dec g file) as [-> | G].
  - (* the unit that slides *)
    pose proof (dict_get_In Z.eqb Z.eqb_eq _ _ _ D) as R.
    assert (x = r).
    { apply (dict_entry_unique Z.eqb Z.eqb_eq file x r _ W X R). }
    subst x.
    change r with (snd (towards_centre file, r)). apply in_map.
    apply (dict_del_keeps Z.eqb Z.eqb_eq).
    + assert (S : dict_get Z.eqb (towards_centre file)
                    (dict_set Z.eqb (towards_centre file) r
                       (Army.file_units a)) = Some r).
      { rewrite (dict_get_set Z.eqb Z.eqb_eq), Z.eqb_refl. reflexivity. }
      apply (dict_get_In Z.eqb Z.eqb_eq), S.
    + simpl. unfold towards_centre. destruct (file <? 0)%Z; lia.
  - change x with (snd (g, x)). apply in_map.
    apply (dict_del_keeps Z.eqb Z.eqb_eq); [| exact G].
    assert (N : g <> towards_centre file).
    { intros ->. unfold Army.is_file_active, dict_mem in Act.
      apply (In_dict_get Z.eqb Z.eqb_eq) in X; [| exact W].
      rewrite X in Act. discriminate. }
    assert (S : dict_get Z.eqb g
                  (dict_set Z.eqb (towards_centre file) r
                     (Army.file_units a)) = Some x).
    { rewrite (dict_get_set Z.eqb Z.eqb_eq).
      rewrite (proj2 (key_eqb_neq Z.eqb Z.eqb_eq _ _) N).
      apply (In_dict_get Z.eqb Z.eqb_eq); assumption. }
    apply (dict_get_In Z.eqb Z.eqb_eq), S.
Qed.

Lemma remove_unit_deployed (h h' : store) (a a' : Army.t) (unit : ref)
    (other : Army.t) (x : ref) :
  Army.well_formed a ->
  Army.remove_unit h a unit other = Ok (h', a') ->
  In x (Army.deployed_units a) -> x <> unit ->
  In x (Army.deployed_units a').
Proof.
  intros W E X N.
  apply InvariantFacts.remove_unit_inv in E. cbv zeta in E.
  destruct E as (D & _ & _ & E).
  set (file := Unit.file (deref h unit)) in *.
  unfold Army.deployed_units, dict_values in *.
  apply in_map_iff in X. destruct X as ([g y] & Y & X). simpl in Y. subst y.
  assert (G : g <> file).
  { intros ->. apply N.
    pose proof (dict_get_In Z.eqb Z.eqb_eq _ _ _ D) as R.
    apply (dict_entry_unique Z.eqb Z.eqb_eq file x unit _ W X R). }
  assert (K : In (g, x) (dict_del Z.eqb file (Army.file_units a))).
  { apply (dict_del_keeps Z.eqb Z.eqb_eq); assumption. }
  change x with (snd (g, x)). apply in_map.
  destruct (Army.reserves a) as [| n rest]; destruct E as [_ ->];
    [exact K |].
  assert (S : dict_get Z.eqb g
                (dict_set Z.eqb file n
                   (dict_del Z.eqb file (Army.file_units a))) = Some x).
  { rewrite (dict_get_set Z.eqb Z.eqb_eq).
    rewrite (proj2 (key_eqb_neq Z.eqb Z.eqb_eq _ _) G).
    apply (In_dict_get Z.eqb Z.eqb_eq); [| exact K].
    apply dict_del_keys_NoDup, W. }
  apply (dict_get_In Z.eqb Z.eqb_eq), S.
Qed.

(** A state in which the loop over [l] can go on. *)
Lemma live_step (b b' : t) (l : list ref) :
  steps b b' ->
  army_1 b' = army_1 b -> army_2 b' = army_2 b ->
  consistent b /\ (forall r, In r l -> In r (iter_all_deployed b)) ->
  consistent b' /\ (forall r, In r l -> In r (iter_all_deployed b')).
Proof.
  intros S A1 A2 [C D]. split; [apply (steps_consistent b b' S C) |].
  unfold iter_all_deployed. rewrite A1, A2. exact D.
Qed.

Lemma change_morale_from_first_pursue_total (b : t) :
  consistent b ->
  exists b', change_morale_from_first_pursue b = Ok b' /\ consistent b'.
Proof.
  intros C. unfold change_morale_from_first_pursue.
  destruct (for_each_total
              (fun b l => consistent b
                          /\ forall r, In r l -> In r (iter_all_deployed b))
              (fun r b =>
                 if Unit.at_end (unit b r) then
                   if negb (Unit.pursuing (unit b r)) then
                     s <- get_army_deployed_in b r ;;
                     Ok (set_heap b
                           (Army.change_all_units_morale (heap b)
                              (army b (get_other_army s)) PURSUE_MORALE))
                   else Ok b
                 else Ok b)
              (iter_all_deployed b) b) as (b' & E & C' & _).
  - intros x rest b0 [C0 D0].
    assert (Rest : forall r, In r rest -> In r (iter_all_deployed b0)).
    { intros r X. apply D0. right. exact X. }
    destruct (Unit.at_end (unit b0 x)); [| exists b0; auto].
    destruct (negb (Unit.pursuing (unit b0 x))); [| exists b0; auto].
    destruct (deployed_found b0 x C0) as (s & -> & _);
      [apply D0; left; reflexivity |].
    cbn [bind]. eexists. split; [reflexivity |].
    apply (live_step b0); auto.
    unfold Army.change_all_units_morale.
    apply (steps_fold_modify
             (fun u => Unit.set_morale u (Unit.morale u + PURSUE_MORALE))).
    intros u. apply moved_set_morale.
  - split; [exact C | auto].
  - exists b'. auto.
Qed.

Lemma reduce_files_total (b : t) :
  consistent b -> exists b', reduce_files b = Ok b' /\ consistent b'.
Proof.
  intros C. unfold reduce_files.
  match goal with
  | |- exists b', for_each _ ?body b = Ok b' /\ _ =>
      destruct (for_each_total
                  (fun b l =>
                     consistent b
                     /\ forall r, In r l -> In r (iter_all_deployed b))
                  body (iter_all_deployed b) b) as (b' & E & C' & _)
  end.
  - intros x rest b0 [C0 D0]. cbv beta.
    assert (Rest : forall r, In r rest -> In r (iter_all_deployed b0)).
    { intros r X. apply D0. right. exact X. }
    destruct (Unit.pursuing (unit b0 x)
              && negb (Unit.file (unit b0 x) =? 0)%Z) eqn:Q;
      [| exists b0; auto].
    apply andb_true_iff in Q. destruct Q as [_ Q].
    destruct (deployed_found b0 x C0) as (s & -> & F);
      [apply D0; left; reflexivity |].
    cbn [bind].
    destruct (Army.get_blocking_unit (heap b0)
                (army b0 (get_other_army s)) x); [exists b0; auto |].
    unfold Army.is_file_towards_centre_active at 1.
    rewrite Q. cbn [assert bind].
    fold (towards_centre (Unit.file (unit b0 x))).
    destruct (Army.is_file_active (army b0 s)
                (towards_centre (Unit.file (unit b0 x)))) eqn:A;
      [exists b0; auto |].
    cbn [negb].
    assert (E : Army.slide_file_towards_centre (heap b0) (army b0 s)
                  (Unit.file (unit b0 x))
                = Ok (modify (heap b0) x
                        (fun u => Unit.set_file u
                                    (towards_centre (Unit.file (unit b0 x)))),
                      Army.set_file_units
                        (Army.set_file_units (army b0 s)
                           (dict_set Z.eqb
                              (towards_centre (Unit.file (unit b0 x))) x
                              (Army.file_units (army b0 s))))
                        (dict_del Z.eqb (Unit.file (unit b0 x))
                           (dict_set Z.eqb
                              (towards_centre (Unit.file (unit b0 x))) x
                              (Army.file_units (army b0 s)))))).
    { unfold Army.slide_file_towards_centre,
        Army.is_file_towards_centre_active, dict_getitem.
      rewrite Q. cbn [assert bind].
      fold (towards_centre (Unit.file (unit b0 x))).
      rewrite A. cbn [negb assert bind]. rewrite F. reflexivity. }
    rewrite E. cbn [bind fst snd].
    eexists. split; [reflexivity |]. split.
    + apply (step_consistent b0); [| exact C0].
      eapply step_slide. exact E.
    + apply deployed_set_army; [exact Rest |].
      intros r _ X.
      destruct (consistent_side b0 s C0) as (W & _).
      apply (slide_file_towards_centre_deployed _ _ _ _ _ r W E X).
  - split; [exact C | auto].
  - exists b'. auto.
Qed.

Lemma remove_unit_defined (h : store) (a : Army.t) (unit : ref)
    (other : Army.t) :
  dict_get Z.eqb (Unit.file (deref h unit)) (Army.file_units a) = Some unit ->
  exists ha, Army.remove_unit h a unit other = Ok ha.
Proof.
  intros D. unfold Army.remove_unit, dict_getitem. rewrite D.
  cbn [bind]. rewrite Nat.eqb_refl. cbn [assert bind]. eauto.
Qed.

Lemma update_status_total (b : t) :
  consistent b -> exists b', update_status b = Ok b' /\ consistent b'.
Proof.
  intros C. unfold update_status.
  match goal with
  | |- exists b', for_each _ ?body b = Ok b' /\ _ =>
      destruct (for_each_total
                  (fun b l =>
                     consistent b /\ NoDup l
                     /\ forall r, In r l -> In r (iter_all_deployed b))
                  body (iter_all_deployed b) b) as (b' & E & C' & _)
  end.
  - intros x rest b0 (C0 & N0 & D0). cbv beta.
    inversion N0 as [| ? ? NX NR]; subst.
    assert (Rest : forall r, In r rest -> In r (iter_all_deployed b0)).
    { intros r X. apply D0. right. exact X. }
    (* the stance is reset *)
    unfold reset_unit_stance.
    destruct (deployed_found b0 x C0) as (s0 & -> & _);
      [apply D0; left; reflexivity |].
    cbn [bind].
    set (b1 := modify_unit b0 x
                 (fun u => Unit.set_stance u (Army.stance (army b0 s0)))).
    assert (L1 : consistent b1
                 /\ forall r, In r (x :: rest) ->
                              In r (iter_all_deployed b1)).
    { apply (live_step b0); auto.
      apply steps_one, step_unit, moved_set_stance. }
    destruct L1 as [C1 D1].
    assert (Rest1 : forall r, In r rest -> In r (iter_all_deployed b1)).
    { intros r X. apply D1. right. exact X. }
    destruct (deployed_found b1 x C1) as (s & Dx & F);
      [apply D1; left; reflexivity |].
    destruct (PowerFacts.get_unit_eff_morale_defined b1 x s Dx)
      as (em & Em & _).
    rewrite Em. cbn [bind].
    assert (Flag : forall p,
              consistent (modify_unit b1 x (fun u => Unit.set_pursuing u p))
              /\ NoDup rest
              /\ forall r, In r rest ->
                   In r (iter_all_deployed
                           (modify_unit b1 x
                              (fun u => Unit.set_pursuing u p)))).
    { intros p.
      destruct (live_step b1
                  (modify_unit b1 x (fun u => Unit.set_pursuing u p)) rest)
        as [Cp Dp]; auto.
      apply steps_one, step_unit, moved_set_pursuing. }
    destruct (Qleb em 0 || Unit.at_home (unit b1 x)).
    + rewrite Dx. cbn [bind].
      destruct (remove_unit_defined (heap b1) (army b1 s) x
                  (army b1 (get_other_army s)) F) as ([h' a'] & R).
      rewrite R. cbn [bind fst snd].
      eexists. split; [reflexivity |]. split; [| split].
      * apply (step_consistent b1); [| exact C1].
        eapply step_remove. exact R.
      * exact NR.
      * apply deployed_set_army; [exact Rest1 |].
        intros r X Y.
        destruct (consistent_side b1 s C1) as (W & _).
        apply (remove_unit_deployed _ _ _ _ _ _ r W R Y).
        intros ->. contradiction.
    + destruct (Unit.at_end (unit b1 x)).
      * cbn [bind].
        destruct (Qltb 0 em); eexists; (split; [reflexivity | apply Flag]).
      * eexists. split; [reflexivity | apply Flag].
  - split; [exact C |].
    split; [apply iter_all_deployed_NoDup, C | auto].
  - exists b'. auto.
Qed.

(** X19: tidy cannot fail.  In a consistent battle the three loops of
    the tidy phase run to their end: no unit is looked up in an army that
    does not hold it, no file is slid onto a held file or from the
    centre, and no unit is removed that is not deployed.  None of
    [ValueError], [KeyError] and [AssertionError] is raised, and the
    state that tidy returns is consistent again. *)
Theorem tidy_never_raises (b : t) :
  consistent b ->
  (exists b', change_morale_from_first_pursue b = Ok b' /\ consistent b')
  /\ (exists b', reduce_files b = Ok b' /\ consistent b')
  /\ (exists b', update_status b = Ok b' /\ consistent b')
  /\ (exists b', tidy b = Ok b' /\ consistent b').
Proof.
  intros C.
  repeat apply conj.
  - apply change_morale_from_first_pursue_total, C.
  - apply reduce_files_total, C.
  - apply update_status_total, C.
  - unfold tidy.
    destruct (change_morale_from_first_pursue_total b C) as (b1 & -> & C1).
    cbn [bind].
    destruct (reduce_files_total b1 C1) as (b2 & -> & C2).
    cbn [bind].
    apply update_status_total, C2.
Qed.

Lemma tidy_never_raises_witness :
  exists b', tidy Sample.standoff = Ok b' /\ consistent b'.
Proof.
  apply (tidy_never_raises Sample.standoff).
  apply CreateFacts.standoff_consistent.
Defined.
End TidyFacts.

(* ------------------------------------------------------------------ *)
(** ** Morale *)

Module MoraleFacts.
Import Battle.

Lemma clash_morale_bounds (d : Q) :
  FILE_VULNERABLE <= _morale_from_mean_clash_distance d
  /\ _morale_from_mean_clash_distance d <= FILE_SUPPORTED.
Proof.
  unfold _morale_from_mean_clash_distance, FILE_MEAN, FILE_DIFF,
    FILE_SUPPORTED, FILE_VULNERABLE.
  destruct (Qltb 0.5 d) eqn:A; [split; qlra |].
  apply Qltb_false in A.
  destruct (Qltb d (-0.5)) eqn:B; [split; qlra |].
  apply Qltb_false in B. split; qlra.
Qed.

Lemma clash_morale_monotone (d d' : Q) :
  d <= d' ->
  _morale_from_mean_clash_distance d <= _morale_from_mean_clash_distance d'.
Proof.
  intros L.
  unfold _morale_from_mean_clash_distance, FILE_MEAN, FILE_DIFF,
    FILE_SUPPORTED, FILE_VULNERABLE.
  destruct (Qltb 0.5 d) eqn:A;
    [apply Qltb_spec in A | apply Qltb_false in A];
    destruct (Qltb 0.5 d') eqn:A';
    [apply Qltb_spec in A' | apply Qltb_false in A'
     | apply Qltb_spec in A' | apply Qltb_false in A'];
    destruct (Qltb d (-0.5)) eqn:B;
    [apply Qltb_spec in B | apply Qltb_false in B
     | apply Qltb_spec in B | apply Qltb_false in B
     | apply Qltb_spec in B | apply Qltb_false in B
     | apply Qltb_spec in B | apply Qltb_false in B];
    destruct (Qltb d' (-0.5)) eqn:B';
    try apply Qltb_spec in B'; try apply Qltb_false in B'; qlra.
Qed.

Lemma supporting_file_bounds (b : t) (r : ref) (file : Z) (m : Q) :
  get_morale_from_supporting_file b r file = Ok m ->
  FILE_VULNERABLE <= m /\ m <= FILE_SUPPORTED.
Proof.
  unfold get_morale_from_supporting_file. intros H.
  destruct (get_army_deployed_in b r) as [s |]; [| discriminate].
  simpl in H.
  destruct (Army.is_file_active (army b (get_other_army s)) file).
  - unfold _morale_from_contested_file in H.
    destruct (dict_getitem _ _ _) as [e |]; [| discriminate].
    simpl in H.
    destruct (Army.is_file_active (army b s) file).
    + destruct (dict_getitem _ _ _) as [o |]; [| discriminate].
      simpl in H. injection H as <-. apply clash_morale_bounds.
    + simpl in H. injection H as <-.
      match goal with
      | |- _ <= Qmin 0 (_morale_from_mean_clash_distance ?d) /\ _ =>
          pose proof (clash_morale_bounds d) as [L U];
          pose proof (Q.le_min_r 0 (_morale_from_mean_clash_distance d));
          pose proof (Q.le_min_l 0 (_morale_from_mean_clash_distance d));
          assert (G : FILE_VULNERABLE
                      <= Qmin 0 (_morale_from_mean_clash_distance d))
            by (apply Q.min_glb; [discriminate | exact L])
      end.
      split; [exact G |]. unfold FILE_SUPPORTED in *. qlra.
  - destruct (Army.is_file_active (army b s) file);
      injection H as <-; split; discriminate.
Qed.

(** X26: what the flanks can do to morale.  The effective morale of a
    unit is never negative; it is defined for every unit that is
    deployed, and fails only with the [ValueError] of a unit that is not.
    In exact arithmetic (the tuning constants read as the decimals of the
    source, nothing rounded) the morale drawn from the clash line of a
    contested file grows with the mean clash distance and stays between
    [FILE_VULNERABLE] and [FILE_SUPPORTED], and so does the contribution
    of either neighbouring file; the effective morale is then at least
    the unit's own morale less [0.4] and at most its own morale plus
    [0.2] (or [0]). *)
Theorem effective_morale_is_bounded (b : t) (r : ref) :
  (forall d, FILE_VULNERABLE <= _morale_from_mean_clash_distance d
             /\ _morale_from_mean_clash_distance d <= FILE_SUPPORTED)
  /\ (forall d d', d <= d' ->
        _morale_from_mean_clash_distance d
        <= _morale_from_mean_clash_distance d')
  /\ (forall file m, get_morale_from_supporting_file b r file = Ok m ->
        FILE_VULNERABLE <= m /\ m <= FILE_SUPPORTED)
  /\ (forall m, get_unit_eff_morale b r = Ok m ->
        0 <= m
        /\ Unit.morale (unit b r) + 2 * FILE_VULNERABLE <= m
        /\ m <= Qmax 0 (Unit.morale (unit b r) + 2 * FILE_SUPPORTED))
  /\ (forall s, get_army_deployed_in b r = Ok s ->
        exists m, get_unit_eff_morale b r = Ok m)
  /\ (forall e, get_unit_eff_morale b r = Raise e ->
        e = ValueError /\ get_army_deployed_in b r = Raise ValueError).
Proof.
  repeat apply conj.
  - apply clash_morale_bounds.
  - apply clash_morale_monotone.
  - apply supporting_file_bounds.
  - unfold get_unit_eff_morale. intros m H.
    destruct (get_morale_from_supporting_file b r (Unit.file (unit b r) + 1))
      as [m1 |] eqn:E1; [| discriminate].
    simpl in H.
    destruct (get_morale_from_supporting_file b r (Unit.file (unit b r) - 1))
      as [m2 |] eqn:E2; [| discriminate].
    simpl in H. injection H as <-.
    apply supporting_file_bounds in E1, E2.
    destruct E1 as [L1 U1], E2 as [L2 U2].
    set (x := Unit.morale (unit b r)) in *.
    repeat apply conj.
    + apply Q.le_max_l.
    + eapply Qle_trans; [| apply Q.le_max_r]. qlra.
    + apply Q.max_lub.
      * apply Q.le_max_l.
      * eapply Qle_trans; [| apply Q.le_max_r]. qlra.
  - intros s D.
    destruct (PowerFacts.get_unit_eff_morale_defined b r s D) as (m & E & _).
    exists m. exact E.
  - intros e H.
    destruct (get_army_deployed_in b r) as [s |] eqn:D.
    + destruct (PowerFacts.get_unit_eff_morale_defined b r s D)
        as (m & E & _).
      congruence.
    + unfold get_unit_eff_morale, get_morale_from_supporting_file in H.
      rewrite D in H. simpl in H. injection H as <-.
      unfold get_army_deployed_in in D.
      destruct (is_deployed_in b Side1 r); [discriminate |].
      destruct (is_deployed_in b Side2 r); [discriminate |].
      injection D as <-. unfold get_army_deployed_in. auto.
Qed.

Lemma effective_morale_is_bounded_witness :
  exists m, get_unit_eff_morale Sample.standoff 0%nat = Ok m.
Proof.
  apply (effective_morale_is_bounded Sample.standoff 0%nat) with (s := Side1).
  reflexivity.
Defined.
End MoraleFacts.

(* ------------------------------------------------------------------ *)
(** ** The shape of the power terms *)

Module PowerShapeFacts.
Import Battle.

Local Open Scope R_scope.

Lemma Q2R_one : Q2R 1 = 1.
Proof. unfold Q2R. simpl. field. Qed.

Lemma ln_two_positive : 0 < ln (Q2R 2).
Proof.
  rewrite <- ln_1. apply ln_increasing; [rlra |].
  replace (Q2R 2) with 2 by (unfold Q2R; simpl; field). rlra.
Qed.

(** [2 ** e] against [1]. *)
Lemma Rpower_two_sign (e : R) :
  0 < Rpower (Q2R 2) e
  /\ (0 < e -> 1 < Rpower (Q2R 2) e)
  /\ (e = 0 -> Rpower (Q2R 2) e = 1)
  /\ (e < 0 -> Rpower (Q2R 2) e < 1).
Proof.
  pose proof ln_two_positive as L.
  unfold Rpower. repeat apply conj.
  - apply exp_pos.
  - intros P. rewrite <- exp_0. apply exp_increasing.
    apply Rmult_lt_0_compat; assumption.
  - intros ->. rewrite Rmult_0_l. apply exp_0.
  - intros N. rewrite <- exp_0. apply exp_increasing.
    replace 0 with (0 * ln (Q2R 2)) by ring.
    apply Rmult_lt_compat_r; assumption.
Qed.

(** [x ** e] for [0 < x] and [0 < e], against [1]. *)
Lemma Rpower_base_sign (x e : R) :
  0 < x -> 0 < e ->
  0 < Rpower x e
  /\ (x <= 1 -> Rpower x e <= 1)
  /\ (x = 1 -> Rpower x e = 1)
  /\ (1 <= x -> 1 <= Rpower x e).
Proof.
  intros X E. unfold Rpower. repeat apply conj.
  - apply exp_pos.
  - intros [L | ->].
    + left. rewrite <- exp_0. apply exp_increasing.
      assert (N : ln x < 0) by (rewrite <- ln_1; apply ln_increasing; rlra).
      rnra.
    + rewrite ln_1, Rmult_0_r, exp_0. apply Rle_refl.
  - intros ->. rewrite ln_1, Rmult_0_r. apply exp_0.
  - intros [L | <-].
    + left. rewrite <- exp_0. apply exp_increasing.
      assert (N : 0 < ln x) by (rewrite <- ln_1; apply ln_increasing; rlra).
      rnra.
    + rewrite ln_1, Rmult_0_r, exp_0. apply Rle_refl.
Qed.

(** X27: the power a unit draws from its morale, in exact arithmetic.
    For a deployed unit of rigidity above [-1] it is defined and equals
    [-LOW_MORALE_POWER * (1 - m ** (1 + rigidity))] for the effective
    morale [m]: never below [-LOW_MORALE_POWER], exactly that at morale
    [0], exactly [0] at morale [1], a loss up to morale [1] and a gain
    above it. *)
Theorem low_morale_power_range (b : t) (r : ref) (s : side) :
  get_army_deployed_in b r = Ok s ->
  (-1 < Unit.rigidity (unit b r))%Q ->
  exists em p,
    get_unit_eff_morale b r = Ok em
    /\ get_unit_power_from_morale (M := ExactLib) b r = Ok p
    /\ - Q2R LOW_MORALE_POWER <= p
    /\ ((em == 0)%Q -> p = - Q2R LOW_MORALE_POWER)
    /\ ((em == 1)%Q -> p = 0)
    /\ ((em <= 1)%Q -> p <= 0)
    /\ ((1 <= em)%Q -> 0 <= p).
Proof.
  intros D G.
  destruct (PowerFacts.get_unit_eff_morale_defined b r s D) as (em & E & P).
  exists em. unfold get_unit_power_from_morale. rewrite E.
  cbn [bind pow of_Q fmul fsub ExactLib].
  assert (Ex : 0 < Q2R (1 + Unit.rigidity (unit b r))).
  { apply PowerFacts.Q2R_pos. qlra. }
  assert (L : 0 < Q2R LOW_MORALE_POWER).
  { apply PowerFacts.Q2R_pos. reflexivity. }
  rewrite Q2R_opp, Q2R_one.
  apply Qle_Rle in P. rewrite RMicromega.Q2R_0 in P.
  destruct (Rlt_dec 0 (Q2R em)) as [Pos | NPos].
  - cbn [bind].
    destruct (Rpower_base_sign (Q2R em)
                (Q2R (1 + Unit.rigidity (unit b r))) Pos Ex)
      as (W0 & W1 & W2 & W3).
    eexists. split; [reflexivity |]. split; [reflexivity |].
    repeat apply conj.
    + rnra.
    + intros Z. apply Qeq_eqR in Z. rewrite RMicromega.Q2R_0 in Z. rlra.
    + intros Z. apply Qeq_eqR in Z. rewrite Q2R_one in Z.
      rewrite (W2 Z). ring.
    + intros Z. apply Qle_Rle in Z. rewrite Q2R_one in Z.
      specialize (W1 Z). rnra.
    + intros Z. apply Qle_Rle in Z. rewrite Q2R_one in Z.
      specialize (W3 Z). rnra.
  - assert (Z0 : Q2R em = 0) by rlra.
    destruct (Req_dec_T (Q2R em) 0) as [_ | NZ]; [| contradiction].
    destruct (Rlt_dec 0 (Q2R (1 + Unit.rigidity (unit b r))))
      as [_ | N]; [| contradiction].
    cbn [bind].
    eexists. split; [reflexivity |]. split; [reflexivity |].
    repeat apply conj.
    + rlra.
    + intros _. ring.
    + intros Z. apply Qeq_eqR in Z. rewrite Q2R_one in Z. rlra.
    + intros _. rlra.
    + intros Z. apply Qle_Rle in Z. rewrite Q2R_one in Z. rlra.
Qed.

Lemma low_morale_power_range_witness :
  exists em p,
    get_unit_eff_morale Sample.standoff 0%nat = Ok em
    /\ get_unit_power_from_morale (M := ExactLib) Sample.standoff 0%nat
       = Ok p
    /\ - Q2R LOW_MORALE_POWER <= p.
Proof.
  destruct (low_morale_power_range Sample.standoff 0%nat Side1)
    as (em & p & E & P & B & _).
  - reflexivity.
  - reflexivity.
  - exists em, p. auto.
Defined.

(** X28: the fight balance favours the stronger unit.  In exact
    arithmetic a balance that is computed is positive; it is above [1]
    exactly when the effective power of the first unit is the greater
    one, [1] exactly when the powers are equal, and below [1] exactly
    when the second unit is the stronger. *)
Theorem fight_balance_favours_the_stronger (b : t) (unit_A unit_B : ref)
    (x : R) :
  compute_fight_balance (M := ExactLib) b unit_A unit_B = Ok x ->
  exists pa pb,
    get_unit_eff_power (M := ExactLib) b unit_A = Ok pa
    /\ get_unit_eff_power (M := ExactLib) b unit_B = Ok pb
    /\ 0 < x
    /\ (pb < pa <-> 1 < x)
    /\ (pa = pb <-> x = 1)
    /\ (pa < pb <-> x < 1).
Proof.
  intros E. apply PowerFacts.compute_fight_balance_value in E.
  destruct E as (pa & pb & A & B & ->).
  exists pa, pb. split; [exact A |]. split; [exact B |].
  assert (S : 0 < Q2R (2 * POWER_SCALE)).
  { apply PowerFacts.Q2R_pos. reflexivity. }
  set (e := (pa - pb) / Q2R (2 * POWER_SCALE)).
  destruct (Rpower_two_sign e) as (P0 & P1 & P2 & P3).
  assert (Pos : pb < pa -> 0 < e).
  { intros H. unfold e. apply Rdiv_lt_0_compat; rlra. }
  assert (Zero : pa = pb -> e = 0).
  { intros H. unfold e. rewrite H. unfold Rdiv. ring. }
  assert (Neg : pa < pb -> e < 0).
  { intros H. unfold e. unfold Rdiv.
    replace ((pa - pb) * / Q2R (2 * POWER_SCALE))
      with (- ((pb - pa) * / Q2R (2 * POWER_SCALE))) by ring.
    assert (0 < (pb - pa) * / Q2R (2 * POWER_SCALE)).
    { apply Rmult_lt_0_compat; [rlra | apply Rinv_0_lt_compat, S]. }
    rlra. }
  split; [exact P0 |].
  destruct (Rtotal_order pa pb) as [H | [H | H]].
  - specialize (P3 (Neg H)).
    repeat apply conj; intros; rlra.
  - specialize (P2 (Zero H)).
    repeat apply conj; intros; rlra.
  - specialize (P1 (Pos H)).
    repeat apply conj; intros; rlra.
Qed.

Lemma fight_balance_favours_the_stronger_witness :
  exists x,
    compute_fight_balance (M := ExactLib) Sample.standoff 0%nat 1%nat = Ok x
    /\ 0 < x.
Proof.
  destruct (PowerFacts.get_unit_eff_power_defined Sample.standoff 0%nat
              Side1) as [pa A]; [reflexivity | reflexivity | reflexivity |].
  destruct (PowerFacts.get_unit_eff_power_defined Sample.standoff 1%nat
              Side2) as [pb B]; [reflexivity | reflexivity | reflexivity |].
  pose proof (PowerFacts.compute_fight_balance_defined Sample.standoff
                0%nat 1%nat pa pb A B) as X.
  eexists. split; [exact X |].
  destruct (fight_balance_favours_the_stronger Sample.standoff 0%nat 1%nat
              _ X) as (_ & _ & _ & _ & P & _).
  exact P.
Defined.
End PowerShapeFacts.

(* ------------------------------------------------------------------ *)
(** ** The order of movement *)

Lemma lex_compare_head (x y : Q) (a b : list Q) :
  lex_compare (x :: a) (y :: b) <> Gt ->
  x <= y /\ (x == y -> lex_compare a b <> Gt).
Proof.
  simpl. destruct (Qcompare x y) eqn:C.
  - apply -> Qcompare_Eq in C. intros H. split; [qlra | intros _; exact H].
  - apply -> Qcompare_Lt in C. intros _. split; [qlra |].
    intros E. exfalso. qlra.
  - intros H. congruence.
Qed.

Module MoveOrderFacts.
Import Battle.

(** X29: [get_move_order] is a sorted list of the deployed units.  Every
    deployed unit of either army is in the order exactly as often as it
    is deployed, and a unit never comes after a unit with a greater sort
    key.  In particular a unit that moves earlier has a stance that is at
    least as aggressive, and among units of equal stance it is at least
    as fast. *)
Theorem get_move_order_is_sorted (b : t) :
  Permutation (get_move_order b) (iter_all_deployed b)
  /\ StronglySorted
       (fun x y =>
          lex_compare (move_key (unit b x)) (move_key (unit b y)) <> Gt)
       (get_move_order b)
  /\ forall l1 x l2 y l3,
       get_move_order b = l1 ++ x :: l2 ++ y :: l3 ->
       (Stance.value (Unit.stance (unit b x))
        <= Stance.value (Unit.stance (unit b y)))%Z
       /\ (Unit.stance (unit b x) = Unit.stance (unit b y) ->
           Unit.speed (unit b y) <= Unit.speed (unit b x)).
Proof.
  assert (S : StronglySorted
                (fun x y =>
                   lex_compare (move_key (unit b x)) (move_key (unit b y))
                   <> Gt)
                (get_move_order b)).
  { unfold get_move_order.
    set (lt := fun x y =>
                 match lex_compare (move_key (unit b x))
                         (move_key (unit b y)) with
                 | Lt => true
                 | _ => false
                 end).
    apply (StronglySorted_weaken (fun x y => lt y x = false)).
    - intros x y L. unfold lt in L.
      rewrite lex_compare_antisym in L.
      destruct (lex_compare (move_key (unit b x)) (move_key (unit b y)));
        simpl in L; congruence.
    - apply (sorted_by_sorted lt).
      + intros x y L. unfold lt in *.
        rewrite lex_compare_antisym.
        destruct (lex_compare (move_key (unit b x)) (move_key (unit b y)));
          simpl; congruence.
      + intros x y z A B. unfold lt in *.
        assert (A' : lex_compare (move_key (unit b x)) (move_key (unit b y))
                     <> Gt).
        { rewrite lex_compare_antisym.
          destruct (lex_compare (move_key (unit b y))
                      (move_key (unit b x))); simpl; congruence. }
        assert (B' : lex_compare (move_key (unit b y)) (move_key (unit b z))
                     <> Gt).
        { rewrite lex_compare_antisym.
          destruct (lex_compare (move_key (unit b z))
                      (move_key (unit b y))); simpl; congruence. }
        pose proof (lex_compare_trans _ _ _ A' B') as C.
        rewrite lex_compare_antisym in C.
        destruct (lex_compare (move_key (unit b z)) (move_key (unit b x)));
          simpl in C; congruence. }
  repeat apply conj.
  - apply sorted_by_perm.
  - exact S.
  - intros l1 x l2 y l3 E. rewrite E in S.
    assert (K : lex_compare (move_key (unit b x)) (move_key (unit b y))
                <> Gt).
    { apply (StronglySorted_later _ l1 (l2 ++ y :: l3) x y S).
      apply in_elt. }
    unfold move_key in K.
    apply lex_compare_head in K. destruct K as [K1 K2].
    split.
    + rewrite <- Zle_Qle in K1. exact K1.
    + intros St. rewrite St in K2. specialize (K2 (Qeq_refl _)).
      apply lex_compare_head in K2. destruct K2 as [K2 _]. qlra.
Qed.

Lemma get_move_order_is_sorted_witness :
  (Stance.value (Unit.stance (unit Sample.standoff 0%nat))
   <= Stance.value (Unit.stance (unit Sample.standoff 1%nat)))%Z.
Proof.
  destruct (get_move_order_is_sorted Sample.standoff) as (_ & _ & H).
  destruct (H [] 0%nat [] 1%nat []) as [K _]; [| exact K].
  vm_compute. reflexivity.
Defined.
End MoveOrderFacts.

(* ------------------------------------------------------------------ *)
(** ** A halting move that does not move *)

Module HaltingFacts.
Import Battle.

(** X30: [move_towards_haltingly] divides by the distance covered.  For a
    deployed unit whose desire is defined before and after the move, a
    move that leaves the unit where it was (the target is the position
    itself, the speed is zero, or the step is rounded away) makes the
    power gradient a division by zero: the call raises
    [ZeroDivisionError]. *)
Theorem move_towards_haltingly_needs_movement (dt : Q) (M : MathLib Q)
    (b : t) (r : ref) (target speed : Q) (s : side) (d d' : Q) :
  get_army_deployed_in b r = Ok s ->
  @get_unit_pos_desire Q M b r = Ok d ->
  @get_unit_pos_desire Q M
    (modify_unit b r (fun u => Unit.move_towards dt u target speed)) r
  = Ok d' ->
  Unit.position
    (unit (modify_unit b r (fun u => Unit.move_towards dt u target speed)) r)
  == Unit.position (unit b r) ->
  move_towards_haltingly dt M b r target speed = Raise ZeroDivisionError.
Proof.
  intros D E1 E2 P. unfold move_towards_haltingly.
  rewrite D. cbn [bind]. rewrite E1. cbn [bind]. rewrite E2. cbn [bind].
  unfold py_div.
  assert (Z : Qeqb
                (Unit.get_dist_to
                   (unit
                      (modify_unit b r
                         (fun u => Unit.move_towards dt u target speed)) r)
                   (Unit.position (unit b r))) 0 = true).
  { apply Qeqb_spec. unfold Unit.get_dist_to. rewrite P.
    setoid_replace (Unit.position (unit b r) - Unit.position (unit b r))
      with 0 by ring.
    reflexivity. }
  rewrite Z. reflexivity.
Qed.

Lemma move_towards_haltingly_needs_movement_witness :
  move_towards_haltingly (1 # 50) Sample.exact_at_unity Sample.standoff
    0%nat (Unit.position (unit Sample.standoff 0%nat)) 1
  = Raise ZeroDivisionError.
Proof.
  eapply (move_towards_haltingly_needs_movement (1 # 50)
            Sample.exact_at_unity Sample.standoff 0%nat).
  - reflexivity.
  - vm_compute. reflexivity.
  - vm_compute. reflexivity.
  - reflexivity.
Defined.
End HaltingFacts.

(* ------------------------------------------------------------------ *)
(** ** FightPairs: the order of the sets *)

Module SetOrderFacts.
Import FightPairs.

(** [for x in s] visits every member of the set, in some order. *)
Lemma iter_from_perm (c : list ref -> nat) :
  forall n s, (List.length s <= n)%nat ->
              Permutation (PySet.iter_from c n s) s.
Proof.
  induction n as [| k IH]; intros s L; simpl.
  - destruct s; [constructor | simpl in L; lia].
  - destruct (PySet.pick c s) as [[x s'] |] eqn:P.
    + apply PairingFacts.pick_perm in P.
      rewrite <- P. apply perm_skip. apply IH.
      pose proof (Permutation_length P) as E. simpl in E. lia.
    + apply PairingFacts.pick_none in P. subst s. constructor.
Qed.

Lemma iter_In (I : PySet.impl) (s : list ref) (x : ref) :
  In x (PySet.iter I s) <-> In x s.
Proof.
  unfold PySet.iter.
  pose proof (iter_from_perm (PySet.iter_choice I) (List.length s) s
                (Nat.le_refl _)) as P.
  split; intros H.
  - eapply Permutation_in; [exact P | exact H].
  - eapply Permutation_in; [symmetry; exact P | exact H].
Qed.

(** The candidate pairs are the same under every set order. *)
Lemma candidates_any_order (I I' : PySet.impl) (fp : t) (p : ref * ref) :
  In p (candidates I fp) -> In p (candidates I' fp).
Proof.
  unfold candidates. rewrite !in_flat_map.
  intros (at_ & A & H). exists at_. split; [exact A |].
  apply in_map_iff in H. destruct H as (x & <- & X).
  apply in_map. apply iter_In. apply iter_In in X. exact X.
Qed.

Lemma max_tuple_strict (items : list (key * ref * ref))
    (m : key * ref * ref) :
  max_tuple items = Ok m ->
  In m items
  /\ forall x, In x items -> item_pair x <> item_pair m ->
               key_compare (item_key x) (item_key m) = Lt.
Proof.
  intros H. split; [apply PairingFacts.max_tuple_In, H |].
  destruct items as [| first rest]; [discriminate |].
  apply (StrictMaximumFacts.max_from_strict rest first m H).
Qed.

(** A selection that succeeds under two set orders is the same one. *)
Lemma best_remaining_agree (I I' : PySet.impl) (h : store) (fp : t)
    (m m' : key * ref * ref) :
  best_remaining I h fp = Ok m -> best_remaining I' h fp = Ok m' ->
  m = m'.
Proof.
  unfold best_remaining. intros H H'.
  apply max_tuple_strict in H. apply max_tuple_strict in H'.
  destruct H as [X S], H' as [X' S'].
  set (f := fun p : ref * ref =>
              (sort_key h fp (invert_dictionary (_assignments fp))
                 (fst p) (snd p), fst p, snd p)) in *.
  apply in_map_iff in X. destruct X as (p & <- & P).
  apply in_map_iff in X'. destruct X' as (p' & <- & P').
  assert (D : {p = p'} + {p <> p'}) by (repeat decide equality).
  destruct D as [-> | N]; [reflexivity |].
  exfalso.
  assert (A : key_compare (item_key (f p)) (item_key (f p')) = Lt).
  { apply S'.
    - apply in_map. apply (candidates_any_order I I'). exact P.
    - destruct p, p'. exact N. }
  assert (B : key_compare (item_key (f p')) (item_key (f p)) = Lt).
  { apply S.
    - apply in_map. apply (candidates_any_order I' I). exact P'.
    - destruct p, p'. intros E. apply N. symmetry. exact E. }
  unfold key_compare in A, B.
  rewrite lex_compare_antisym, A in B. discriminate.
Qed.

Lemma assign_best_remaining_agree (I I' : PySet.impl) (h : store)
    (fp r r' : t) :
  assign_best_remaining I h fp = Ok r ->
  assign_best_remaining I' h fp = Ok r' -> r = r'.
Proof.
  unfold assign_best_remaining. intros H H'.
  destruct (best_remaining I h fp) as [m |] eqn:B; [| discriminate].
  destruct (best_remaining I' h fp) as [m' |] eqn:B'; [| discriminate].
  rewrite (best_remaining_agree I I' h fp m m' B B') in H.
  cbn [bind] in H, H'. destruct m' as [[k u] t].
  congruence.
Qed.

(** Phase 3 as a whole: where it returns under two set orders it returns
    the same state. *)
Lemma assign_while_potentials_agree (I I' : PySet.impl) (h : store) :
  forall n fp r r',
    assign_while_potentials I h n fp = Ok r ->
    assign_while_potentials I' h n fp = Ok r' -> r = r'.
Proof.
  induction n as [| k IH]; intros fp r r' H H'; simpl in H, H'.
  - destruct (_potentials fp); congruence.
  - destruct (_potentials fp); [congruence |].
    destruct (assign_best_remaining I h fp) as [f |] eqn:A;
      [| discriminate].
    destruct (assign_best_remaining I' h fp) as [f' |] eqn:A';
      [| discriminate].
    cbn [bind] in H, H'.
    rewrite <- (assign_best_remaining_agree I I' h fp f f' A A') in H'.
    exact (IH f r r' H H').
Qed.

(** What [match_into_pairs] returns, read against the assignment map:
    the pair lists hold every assignment, a one-sided one as it is and a
    mutual one in one of its two orientations. *)
Section Pairs.
Variable fp r : t.
Hypothesis assignments_kept : _assignments r = _assignments fp.
Hypothesis every_attacker :
  Permutation (attackers r) (dict_keys (_assignments fp)).
Hypothesis two_way_mutual :
  forall a b, In (a, b) (two_way_pairs r) -> mutual fp a b.
Hypothesis one_way_one_sided :
  forall a b, In (a, b) (one_way_pairs r) -> one_sided fp a b.

Lemma attacker_cases (a : ref) :
  In a (dict_keys (_assignments fp)) ->
  (exists b, In (a, b) (one_way_pairs r))
  \/ (exists b, In (a, b) (two_way_pairs r))
  \/ (exists b, In (b, a) (two_way_pairs r)).
Proof.
  intros K.
  apply (Permutation_in _ (Permutation_sym every_attacker)) in K.
  unfold attackers in K. rewrite !in_app_iff, !in_map_iff in K.
  destruct K as [([x y] & <- & P) | [([x y] & <- & P) | ([x y] & <- & P)]];
    cbn [fst snd]; eauto.
Qed.

Lemma one_sided_listed (a b : ref) :
  one_sided fp a b -> In (a, b) (one_way_pairs r).
Proof.
  intros [A B].
  assert (K : In a (dict_keys (_assignments fp))).
  { apply (dict_get_In Nat.eqb Nat.eqb_eq) in A.
    apply (in_map fst) in A. exact A. }
  destruct (attacker_cases a K) as [(c & P) | [(c & P) | (c & P)]].
  - destruct (one_way_one_sided a c P) as [A' _].
    assert (c = b) by congruence. subst c. exact P.
  - destruct (two_way_mutual a c P) as [A' B'].
    assert (c = b) by congruence. subst c. contradiction.
  - destruct (two_way_mutual c a P) as [A' B'].
    assert (c = b) by congruence. subst c. contradiction.
Qed.

Lemma mutual_listed (a b : ref) :
  mutual fp a b ->
  In (a, b) (two_way_pairs r) \/ In (b, a) (two_way_pairs r).
Proof.
  intros [A B].
  assert (K : In a (dict_keys (_assignments fp))).
  { apply (dict_get_In Nat.eqb Nat.eqb_eq) in A.
    apply (in_map fst) in A. exact A. }
  destruct (attacker_cases a K) as [(c & P) | [(c & P) | (c & P)]].
  - destruct (one_way_one_sided a c P) as [A' B'].
    assert (c = b) by congruence. subst c. contradiction.
  - destruct (two_way_mutual a c P) as [A' _].
    assert (c = b) by congruence. subst c. left. exact P.
  - destruct (two_way_mutual c a P) as [_ A'].
    assert (c = b) by congruence. subst c. right. exact P.
Qed.
End Pairs.

Lemma NoDup_app_left {X} (l1 l2 : list X) : NoDup (l1 ++ l2) -> NoDup l1.
Proof.
  induction l1 as [| x l IH]; simpl; intros N; [constructor |].
  inversion N as [| ? ? A B]; subst. constructor.
  - intros H. apply A. apply in_or_app. left. exact H.
  - apply IH, B.
Qed.

Lemma NoDup_of_map {X Y} (f : X -> Y) (l : list X) :
  NoDup (map f l) -> NoDup l.
Proof.
  induction l as [| x l IH]; simpl; intros N; [constructor |].
  inversion N as [| ? ? A B]; subst. constructor.
  - intros H. apply A. apply in_map. exact H.
  - apply IH, B.
Qed.

(** The state that [assign_all] returns, read against the assignment
    map with which [match_into_pairs] starts. *)
Lemma assign_all_stages (I : PySet.impl) (h : store) (a1 a2 : Army.t)
    (fp r : t) :
  assign_all I h a1 a2 fp = Ok r ->
  exists fp1,
    assign_while_potentials I h
      (List.length
         (_potentials
            (assign_if_unique_target
               (add_all_potentials h a1 a2 (reset fp)))))
      (assign_if_unique_target (add_all_potentials h a1 a2 (reset fp)))
    = Ok fp1
    /\ _assignments r = _assignments fp1
    /\ Permutation (attackers r) (dict_keys (_assignments fp1))
    /\ NoDup (attackers r)
    /\ (forall a b, In (a, b) (two_way_pairs r) -> mutual fp1 a b)
    /\ (forall a b, In (a, b) (one_way_pairs r) -> one_sided fp1 a b)
    /\ (forall u, In u (all_engaged r) <-> In u (occurrences r)).
Proof.
  unfold assign_all.
  set (fp0 := assign_if_unique_target
                (add_all_potentials h a1 a2 (reset fp))).
  assert (R0 : ready fp0).
  { apply PairingFacts.assign_if_unique_target_ready,
      PairingFacts.add_all_potentials_ready.
    repeat split; constructor. }
  assert (U0 : unpaired fp0).
  { apply EngagedFacts.assign_if_unique_target_unpaired.
    apply EngagedFacts.add_all_potentials_unpaired.
    repeat split. }
  destruct (assign_while_potentials I h (List.length (_potentials fp0)) fp0)
    as [fp1 | e] eqn:W; [| discriminate].
  cbn [bind]. intros H. exists fp1. split; [reflexivity |].
  pose proof (PairingFacts.assign_while_potentials_ready I h _ _ _ W R0)
    as (N & T & O).
  pose proof (EngagedFacts.assign_while_potentials_unpaired I h _ _ _ W U0)
    as (E1 & E2 & E3).
  unfold match_into_pairs in H.
  pose proof H as G.
  apply PairingFacts.match_loop_spec in H; [| apply Nat.le_refl].
  destruct H as (HA & _ & HQ & H2 & H1).
  assert (P : Permutation (attackers r) (dict_keys (_assignments fp1))).
  { rewrite HQ. unfold attackers. rewrite T, O. simpl.
    rewrite app_nil_r. reflexivity. }
  split; [exact HA |]. split; [exact P |]. split; [| split; [| split]].
  - eapply Permutation_NoDup; [symmetry; exact P | exact N].
  - intros a b X. apply H2 in X. rewrite T in X.
    destruct X as [[] | X]. exact X.
  - intros a b X. apply H1 in X. rewrite O in X.
    destruct X as [[] | X]. exact X.
  - apply EngagedFacts.match_loop_engaged in G.
    + apply G.
    + rewrite E1. constructor.
    + intros u. rewrite E1. unfold occurrences. rewrite E2, E3.
      simpl. tauto.
Qed.

(** C7, as amended: the result of [assign_all] is no function of the
    armies and units alone.  With one hash order of the sets a run
    returns the same state whatever an earlier run left in the instance.
    Two runs on the same armies and units whose sets iterate and pop in
    different orders, and which both return, agree on the assignment of
    every unit, on the one-way pairs up to the order of the list, on the
    two-way pairs up to that order and to the member listed first, and on
    the members of the engaged set. *)
Theorem assign_all_up_to_set_order (I I' : PySet.impl) (h : store)
    (a1 a2 : Army.t) (fp fp' r r' : t) :
  assign_all I h a1 a2 fp = Ok r ->
  assign_all I' h a1 a2 fp' = Ok r' ->
  _assignments r = _assignments r'
  /\ Permutation (one_way_pairs r) (one_way_pairs r')
  /\ (forall a b, In (a, b) (two_way_pairs r) ->
                  In (a, b) (two_way_pairs r')
                  \/ In (b, a) (two_way_pairs r'))
  /\ List.length (two_way_pairs r) = List.length (two_way_pairs r')
  /\ (forall u, In u (all_engaged r) <-> In u (all_engaged r'))
  /\ (I = I' -> r = r').
Proof.
  intros H H'.
  assert (Same : I = I' -> r = r').
  { intros <-.
    assert (E : assign_all I h a1 a2 fp = assign_all I h a1 a2 fp')
      by reflexivity.
    congruence. }
  apply assign_all_stages in H. apply assign_all_stages in H'.
  destruct H as (fp1 & W & A & P & N & T & O & G).
  destruct H' as (fp1' & W' & A' & P' & N' & T' & O' & G').
  assert (F : fp1 = fp1').
  { exact (assign_while_potentials_agree I I' h _ _ _ _ W W'). }
  subst fp1'.
  assert (One : forall a b, In (a, b) (one_way_pairs r)
                            <-> In (a, b) (one_way_pairs r')).
  { intros a b. split; intros X.
    - apply (one_sided_listed fp1 r' P' T' O'). apply O, X.
    - apply (one_sided_listed fp1 r P T O). apply O', X. }
  assert (Two : forall a b, In (a, b) (two_way_pairs r) ->
                            In (a, b) (two_way_pairs r')
                            \/ In (b, a) (two_way_pairs r')).
  { intros a b X. apply (mutual_listed fp1 r' P' T' O'). apply T, X. }
  assert (Two' : forall a b, In (a, b) (two_way_pairs r') ->
                             In (a, b) (two_way_pairs r)
                             \/ In (b, a) (two_way_pairs r)).
  { intros a b X. apply (mutual_listed fp1 r P T O). apply T', X. }
  assert (PO : Permutation (one_way_pairs r) (one_way_pairs r')).
  { apply NoDup_Permutation.
    - apply (NoDup_of_map fst). apply (NoDup_app_left _ _ N).
    - apply (NoDup_of_map fst). apply (NoDup_app_left _ _ N').
    - intros [a b]. apply One. }
  split; [congruence |]. split; [exact PO |]. split; [exact Two |].
  split; [| split; [| exact Same]].
  - pose proof (Permutation_length P) as L.
    pose proof (Permutation_length P') as L'.
    pose proof (Permutation_length PO) as LO.
    unfold attackers in L, L'.
    rewrite !length_app, !length_map in L, L'. lia.
  - intros u. rewrite G, G', !EngagedFacts.occurrences_In.
    split; intros ([a b] & X & Y); cbn [fst snd] in Y.
    + destruct X as [X | X].
      * destruct (Two a b X) as [Z | Z].
        -- exists (a, b). split; [left; exact Z | exact Y].
        -- exists (b, a). split; [left; exact Z |]. cbn [fst snd]. tauto.
      * exists (a, b). split; [right; apply One, X | exact Y].
    + destruct X as [X | X].
      * destruct (Two' a b X) as [Z | Z].
        -- exists (a, b). split; [left; exact Z | exact Y].
        -- exists (b, a). split; [left; exact Z |]. cbn [fst snd]. tauto.
      * exists (a, b). split; [right; apply One, X | exact Y].
Qed.

Lemma assign_all_up_to_set_order_witness :
  exists r r',
    assign_all Sample.insertion_order Sample.flank_store
      Sample.flank_army_1 Sample.flank_army_2 new = Ok r
    /\ assign_all Sample.newest_first Sample.flank_store
         Sample.flank_army_1 Sample.flank_army_2 new = Ok r'
    /\ Permutation (one_way_pairs r) (one_way_pairs r').
Proof.
  eexists. eexists.
  split; [vm_compute; reflexivity |].
  split; [vm_compute; reflexivity |].
  destruct (assign_all_up_to_set_order Sample.insertion_order
              Sample.newest_first Sample.flank_store
              Sample.flank_army_1 Sample.flank_army_2 new new _ _
              eq_refl eq_refl) as (_ & P & _).
  exact P.
Defined.

(** C7 as stated fails across set orders: on the same armies and units a
    run whose sets pop the oldest member first and a run whose sets pop
    the newest first both return, with the one-way pairs in another
    order in the first example and with the two-way pair the other way
    round in the second. *)
Lemma pair_lists_follow_set_order :
  exists r r' t t',
    assign_all Sample.insertion_order Sample.flank_store
      Sample.flank_army_1 Sample.flank_army_2 new = Ok r
    /\ assign_all Sample.newest_first Sample.flank_store
         Sample.flank_army_1 Sample.flank_army_2 new = Ok r'
    /\ one_way_pairs r <> one_way_pairs r'
    /\ assign_all Sample.insertion_order Sample.shared_target_store
         Sample.shared_target_army_1 Sample.shared_target_army_2 new = Ok t
    /\ assign_all Sample.newest_first Sample.shared_target_store
         Sample.shared_target_army_1 Sample.shared_target_army_2 new = Ok t'
    /\ two_way_pairs t = [(0%nat, 2%nat)]
    /\ two_way_pairs t' = [(2%nat, 0%nat)].
Proof.
  do 4 eexists.
  split; [vm_compute; reflexivity |].
  split; [vm_compute; reflexivity |].
  split; [intros E; vm_compute in E; discriminate E |].
  split; [vm_compute; reflexivity |].
  split; [vm_compute; reflexivity |].
  split; reflexivity.
Qed.
End SetOrderFacts.
